(** * ZPIC (OmpSs-2 / OpenACC): field solver, particle pusher and sorter

    A shallow embedding of the per-step kernels of the em2d particle-in-cell
    code: the Yee field solver and its guard cells ([emf.c], the OpenACC
    kernels), the particle advance with current deposition, the boundary pass
    and the tile sorter ([kernel_particles.c]).

    Conventions of the embedding.
    - A C [int] is a [Z].  The sums of the prefix sum, which can leave
      the range of [int], wrap around as 32-bit two's complement sums do
      ([int_add]); the counters and indices of the other kernels stay
      within the number of particles or of cells, which is an [int], and
      are not wrapped.  Integer division [/] of C truncates: [Z.quot].
    - A C array reached through a pointer is a total map [Z -> A] from the
      index relative to the pointer to the cell; an in-place store is [upd].
      A pointer into a buffer ([emf->E = emf->E_buf + offset]) is a view of
      the buffer map shifted by the offset.
    - [float] values are kept abstract: the kernels are written over a type
      [F] with the operations of the C code ([Scalar]).  Statements about
      data movement hold for every [Scalar]; statements that need the laws
      of arithmetic are proved over the real numbers ([R_scalar]).  The one
      [float] that decides a loop bound, the block count of the prefix sum,
      is computed with the rounding of binary32 ([binary32]).
    - [#pragma acc] loops are read sequentially, in the order of the loop
      nest; an [atomic capture] is a read followed by the increment. *)

From Stdlib Require Import ZArith List Lia Bool String.
From Stdlib Require Import Reals Lra Psatz.
From Stdlib Require Import FunctionalExtensionality.
Import ListNotations.
Local Open Scope Z_scope.

(* ================================================================== *)
(** * Arrays and loops *)
(* ================================================================== *)

(** [a[i] = v] on an array seen as a map. *)
Definition upd {A : Type} (a : Z -> A) (i : Z) (v : A) : Z -> A :=
  fun k => if k =? i then v else a k.

(** [for (i = i0; ...; i++)] run [n] times. *)
Fixpoint for_n {St : Type} (n : nat) (i : Z) (body : Z -> St -> St) (s : St) : St :=
  match n with
  | O => s
  | S n' => for_n n' (i + 1) body (body i s)
  end.

(** [for (i = lo; i < hi; i++) body]. *)
Definition for_range {St : Type} (lo hi : Z) (body : Z -> St -> St) (s : St) : St :=
  for_n (Z.to_nat (hi - lo)) lo body s.

(** [for (i = lo; i < hi; i += step) body], with fuel for the recursion. *)
Fixpoint for_step_n {St : Type} (fuel : nat) (i hi step : Z)
  (body : Z -> St -> St) (s : St) : St :=
  match fuel with
  | O => s
  | S f => if i <? hi then for_step_n f (i + step) hi step body (body i s) else s
  end.

(** With [step >= 1] the loop runs at most [hi - lo] times. *)
Definition for_step {St : Type} (lo hi step : Z) (body : Z -> St -> St) (s : St) : St :=
  for_step_n (Z.to_nat (hi - lo)) lo hi step body s.

(** A call that may end the process: [exit(code)] after a message on
    stderr (the message without its newline). *)
Inductive outcome (A : Type) : Type :=
| Returns (a : A)
| Exits (msg : string) (code : Z).
Arguments Returns {A} a.
Arguments Exits {A} msg%_string code%_Z.

(* ================================================================== *)
(** * Scalars: the [float] operations of the kernels *)
(* ================================================================== *)

Class Scalar (F : Type) : Type := {
  f0 : F;                       (* 0.0f *)
  f1 : F;                       (* 1.0f *)
  f2 : F;                       (* 2.0f *)
  fhalf : F;                    (* 0.5f *)
  fpi_2 : F;                    (* M_PI_2 *)
  fadd : F -> F -> F;
  fsub : F -> F -> F;
  fmul : F -> F -> F;
  fdiv : F -> F -> F;
  fneg : F -> F;
  fsqrt : F -> F;
  fsin : F -> F;
  fcos : F -> F;
  fexp : F -> F;
  fatan2 : F -> F -> F;
  of_int : Z -> F;               (* the conversion (float) n *)
  fltb : F -> F -> bool;         (* a < b *)
  fleb : F -> F -> bool;         (* a <= b *)
  feqb : F -> F -> bool          (* a == b *)
}.

Declare Scope fl_scope.
Delimit Scope fl_scope with fl.
Infix "+!" := fadd (at level 50, left associativity) : fl_scope.
Infix "-!" := fsub (at level 50, left associativity) : fl_scope.
Infix "*!" := fmul (at level 40, left associativity) : fl_scope.
Infix "/!" := fdiv (at level 40, left associativity) : fl_scope.
Infix "<!?" := fltb (at level 70, no associativity) : fl_scope.
Infix "<=!?" := fleb (at level 70, no associativity) : fl_scope.
Local Open Scope fl_scope.

(** The real numbers as scalars: [float] idealised. *)
Definition Rltb (a b : R) : bool := if Rlt_dec a b then true else false.
Definition Rleb (a b : R) : bool := if Rle_dec a b then true else false.
Definition Reqb (a b : R) : bool := if Req_dec_T a b then true else false.

(** [atan2(y, x)] of the C library. *)
Definition Ratan2 (y x : R) : R :=
  if Rlt_dec 0 x then atan (y / x)
  else if Rlt_dec x 0 then
         (if Rle_dec 0 y then atan (y / x) + PI else atan (y / x) - PI)%R
  else if Rlt_dec 0 y then (PI / 2)%R
  else if Rlt_dec y 0 then (- (PI / 2))%R
  else 0%R.

#[export] Instance R_scalar : Scalar R := {|
  f0 := 0%R; f1 := 1%R; f2 := 2%R; fhalf := (1 / 2)%R; fpi_2 := (PI / 2)%R;
  fadd := Rplus; fsub := Rminus; fmul := Rmult; fdiv := Rdiv; fneg := Ropp;
  fsqrt := sqrt; fsin := sin; fcos := cos; fexp := exp; fatan2 := Ratan2;
  of_int := IZR;
  fltb := Rltb; fleb := Rleb; feqb := Reqb
|}.

(** The integers as scalars (division truncates): a scalar type on which
    everything computes, for running the data-movement kernels. *)
#[export] Instance Z_scalar : Scalar Z := {|
  f0 := 0; f1 := 1; f2 := 2; fhalf := 0; fpi_2 := 1;
  fadd := Z.add; fsub := Z.sub; fmul := Z.mul; fdiv := Z.quot; fneg := Z.opp;
  fsqrt := Z.sqrt; fsin := fun _ => 0; fcos := fun _ => 1; fexp := fun _ => 1;
  fatan2 := fun _ _ => 0;
  of_int := fun n => n;
  fltb := Z.ltb; fleb := Z.leb; feqb := Z.eqb
|}.

(* ================================================================== *)
(** * Field data ([zpic.h], [emf.h], [current.h]) *)
(* ================================================================== *)

Section Fields.
Context {F : Type} {SF : Scalar F}.

(** [t_vfld]: one vector value per cell. *)
Record t_vfld : Type := mk_vfld { vx : F; vy : F; vz : F }.

Definition zero_fld : t_vfld := mk_vfld f0 f0 f0.

(** [t_emf].  [E_buf] and [B_buf] are indexed from the start of the
    allocation; [emf->E] and [emf->B] point to cell (0,0). *)
Record t_emf : Type := mk_emf {
  E_buf : Z -> t_vfld;
  B_buf : Z -> t_vfld;
  nx0 : Z; nx1 : Z;
  nrow : Z;
  gc00 : Z; gc01 : Z; gc10 : Z; gc11 : Z;
  box0 : F; box1 : F;
  dx0 : F; dx1 : F;
  emf_dt : F;
  emf_iter : Z;
  moving_window : bool;
  n_move : Z
}.

(** Offset of cell (0,0) in the buffers: [gc[0][0] + gc[1][0] * nrow]. *)
Definition emf_off (emf : t_emf) : Z := gc00 emf + gc10 emf * nrow emf.

(** A pointer [buf + off] seen as an array, and the buffer seen again once
    the kernel has written through that pointer. *)
Definition view (off : Z) (buf : Z -> t_vfld) : Z -> t_vfld := fun k => buf (k + off).
Definition unview (off : Z) (a : Z -> t_vfld) : Z -> t_vfld := fun b => a (b - off).

Definition emf_E (emf : t_emf) : Z -> t_vfld := view (emf_off emf) (E_buf emf).
Definition emf_B (emf : t_emf) : Z -> t_vfld := view (emf_off emf) (B_buf emf).

Definition set_E (emf : t_emf) (E : Z -> t_vfld) : t_emf :=
  mk_emf (unview (emf_off emf) E) (B_buf emf) (nx0 emf) (nx1 emf) (nrow emf)
    (gc00 emf) (gc01 emf) (gc10 emf) (gc11 emf) (box0 emf) (box1 emf)
    (dx0 emf) (dx1 emf) (emf_dt emf) (emf_iter emf) (moving_window emf) (n_move emf).

Definition set_B (emf : t_emf) (B : Z -> t_vfld) : t_emf :=
  mk_emf (E_buf emf) (unview (emf_off emf) B) (nx0 emf) (nx1 emf) (nrow emf)
    (gc00 emf) (gc01 emf) (gc10 emf) (gc11 emf) (box0 emf) (box1 emf)
    (dx0 emf) (dx1 emf) (emf_dt emf) (emf_iter emf) (moving_window emf) (n_move emf).

Definition set_bufs (emf : t_emf) (E B : Z -> t_vfld) : t_emf :=
  mk_emf E B (nx0 emf) (nx1 emf) (nrow emf)
    (gc00 emf) (gc01 emf) (gc10 emf) (gc11 emf) (box0 emf) (box1 emf)
    (dx0 emf) (dx1 emf) (emf_dt emf) (emf_iter emf) (moving_window emf) (n_move emf).

Definition set_iter (emf : t_emf) (it : Z) : t_emf :=
  mk_emf (E_buf emf) (B_buf emf) (nx0 emf) (nx1 emf) (nrow emf)
    (gc00 emf) (gc01 emf) (gc10 emf) (gc11 emf) (box0 emf) (box1 emf)
    (dx0 emf) (dx1 emf) (emf_dt emf) it (moving_window emf) (n_move emf).

Definition set_n_move (emf : t_emf) (n : Z) : t_emf :=
  mk_emf (E_buf emf) (B_buf emf) (nx0 emf) (nx1 emf) (nrow emf)
    (gc00 emf) (gc01 emf) (gc10 emf) (gc11 emf) (box0 emf) (box1 emf)
    (dx0 emf) (dx1 emf) (emf_dt emf) (emf_iter emf) (moving_window emf) n.

(** [emf_new]: guard cells {1,2} on both axes, zeroed fields. *)
Definition emf_new (nx_0 nx_1 : Z) (box_0 box_1 : F) (dt : F) : t_emf :=
  mk_emf (fun _ => zero_fld) (fun _ => zero_fld) nx_0 nx_1 (1 + nx_0 + 2)
    1 2 1 2 box_0 box_1 (box_0 /! of_int nx_0) (box_1 /! of_int nx_1)
    dt 0 false 0.

(** The geometry [emf_new] sets up and no kernel changes. *)
Definition emf_geometry (emf : t_emf) : Prop :=
  gc00 emf = 1 /\ gc01 emf = 2 /\ gc10 emf = 1 /\ gc11 emf = 2 /\
  nrow emf = gc00 emf + nx0 emf + gc01 emf /\ 0 <= nx0 emf /\ 0 <= nx1 emf.

(** [t_current]: [J] points to cell (0,0) of the current grid; the buffer
    itself is declared in current.h, which is not part of these sources. *)
Record t_current : Type := mk_current {
  J : Z -> t_vfld;
  cur_nrow : Z
}.

(* ------------------------------------------------------------------ *)
(** ** Field solver, emf.c *)

(** One cell of [yee_b_openacc]. *)
Definition yee_b_cell (B E : Z -> t_vfld) (dt_dx dt_dy : F) (nrow : Z) (i j : Z) : t_vfld :=
  let b := B (i + j * nrow) in
  mk_vfld
    (vx b +! (fneg dt_dy *! (vz (E (i + (j + 1) * nrow)) -! vz (E (i + j * nrow)))))
    (vy b +! (dt_dx *! (vz (E ((i + 1) + j * nrow)) -! vz (E (i + j * nrow)))))
    (vz b +! (fneg dt_dx *! (vy (E ((i + 1) + j * nrow)) -! vy (E (i + j * nrow)))
              +! dt_dy *! (vx (E (i + (j + 1) * nrow)) -! vx (E (i + j * nrow))))).

Definition yee_b_openacc (B E : Z -> t_vfld) (dt_dx dt_dy : F) (nrow : Z)
  (nx_0 nx_1 : Z) : Z -> t_vfld :=
  for_range (-1) (nx_1 + 1) (fun j B =>
    for_range (-1) (nx_0 + 1) (fun i B =>
      upd B (i + j * nrow) (yee_b_cell B E dt_dx dt_dy nrow i j)) B) B.

(** One cell of [yee_e_openacc]: the three [+=] of the loop body. *)
Definition yee_e_cell (B E J : Z -> t_vfld) (dt_dx dt_dy dt : F) (nrow_e nrow_j : Z)
  (i j : Z) : t_vfld :=
  let e := E (i + j * nrow_e) in
  mk_vfld
    (vx e +! (dt_dy *! (vz (B (i + j * nrow_e)) -! vz (B (i + (j - 1) * nrow_e)))
              -! dt *! vx (J (i + j * nrow_j))))
    (vy e +! (fneg dt_dx *! (vz (B (i + j * nrow_e)) -! vz (B ((i - 1) + j * nrow_e)))
              -! dt *! vy (J (i + j * nrow_j))))
    (vz e +! (dt_dx *! (vy (B (i + j * nrow_e)) -! vy (B ((i - 1) + j * nrow_e)))
              -! dt_dy *! (vx (B (i + j * nrow_e)) -! vx (B (i + (j - 1) * nrow_e)))
              -! dt *! vz (J (i + j * nrow_j)))).

(** [yee_e_openacc] of emf.c: [j] in [0 .. nx[1]+1], [i] in [0 .. nx[0]]. *)
Definition yee_e_openacc (B E J : Z -> t_vfld) (dt_dx dt_dy dt : F)
  (nrow_e nrow_j : Z) (nx_0 nx_1 : Z) : Z -> t_vfld :=
  for_range 0 (nx_1 + 1 + 1) (fun j E =>
    for_range 0 (nx_0 + 1) (fun i E =>
      upd E (i + j * nrow_e) (yee_e_cell B E J dt_dx dt_dy dt nrow_e nrow_j i j)) E) E.

(** [advance_E] of the specification: the call of [yee_e_openacc] made by
    [emf_advance_openacc], with the arguments it passes there, on the EMF
    state. *)
Definition advance_E (emf : t_emf) (current : t_current) : t_emf :=
  let dt := emf_dt emf in
  set_E emf (yee_e_openacc (emf_B emf) (emf_E emf) (J current)
               (dt /! dx0 emf) (dt /! dx1 emf) dt
               (nrow emf) (cur_nrow current) (nx0 emf) (nx1 emf)).

(** Stores to one component of a cell. *)
Definition upd_x (a : Z -> t_vfld) (k : Z) (v : F) : Z -> t_vfld :=
  upd a k (mk_vfld v (vy (a k)) (vz (a k))).
Definition upd_y (a : Z -> t_vfld) (k : Z) (v : F) : Z -> t_vfld :=
  upd a k (mk_vfld (vx (a k)) v (vz (a k))).
Definition upd_z (a : Z -> t_vfld) (k : Z) (v : F) : Z -> t_vfld :=
  upd a k (mk_vfld (vx (a k)) (vy (a k)) v).

(** [a[dst].x = a[src].x; a[dst].y = a[src].y; a[dst].z = a[src].z]. *)
Definition copy3 (a : Z -> t_vfld) (dst src : Z) : Z -> t_vfld :=
  let a := upd_x a dst (vx (a src)) in
  let a := upd_y a dst (vy (a src)) in
  upd_z a dst (vz (a src)).

(** The pair of grids the guard-cell kernels write. *)
Definition t_EB : Type := ((Z -> t_vfld) * (Z -> t_vfld))%type.

Definition copy3_EB (eb : t_EB) (dst src : Z) : t_EB :=
  (copy3 (fst eb) dst src, copy3 (snd eb) dst src).

(** [emf_update_gc_x] (CPU guard cells in x), on the arrays. *)
Definition gc_x_loops (eb : t_EB) (nrow nx_0 nx_1 g00 g01 g10 g11 : Z) : t_EB :=
  for_range (- g10) (nx_1 + g11) (fun j eb =>
    let eb := for_range (- g00) 0 (fun i eb =>
                copy3_EB eb (i + j * nrow) (nx_0 + i + j * nrow)) eb in
    for_range 0 g01 (fun i eb =>
      copy3_EB eb (nx_0 + i + j * nrow) (i + j * nrow)) eb) eb.

Definition emf_update_gc_x (emf : t_emf) : t_emf :=
  if negb (moving_window emf) then
    let eb := gc_x_loops (emf_E emf, emf_B emf) (nrow emf) (nx0 emf) (nx1 emf)
                (gc00 emf) (gc01 emf) (gc10 emf) (gc11 emf) in
    set_B (set_E emf (fst eb)) (snd eb)
  else emf.

(** [emf_update_gc_x_openacc]: one collapsed loop nest, the branch on the
    sign of [i] inside. *)
Definition emf_update_gc_x_openacc (eb : t_EB) (nrow nx_0 nx_1 g00 g01 g10 g11 : Z) : t_EB :=
  for_range (- g10) (nx_1 + g11) (fun j eb =>
    for_range (- g00) g01 (fun i eb =>
      if i <? 0 then copy3_EB eb (i + j * nrow) (nx_0 + i + j * nrow)
      else copy3_EB eb (nx_0 + i + j * nrow) (i + j * nrow)) eb) eb.

(** LOCAL_BUFFER_SIZE of utilities.h, which is not part of these sources. *)
Variable LOCAL_BUFFER_SIZE : Z.

(** State of one row of [emf_move_window_openacc]: the two buffers and the
    two scratch rings. *)
Record t_mw : Type := mk_mw {
  mw_E : Z -> t_vfld; mw_B : Z -> t_vfld;
  mw_E_temp : Z -> t_vfld; mw_B_temp : Z -> t_vfld
}.

Definition mw_load (nrow g00 nx_0 j begin_idx : Z) (s : t_mw) : t_mw :=
  for_range 0 LOCAL_BUFFER_SIZE (fun i s =>
    if begin_idx + i <? g00 + nx_0 - 1 then
      mk_mw (mw_E s) (mw_B s)
        (upd (mw_E_temp s) i (mw_E s (begin_idx + 1 + i + j * nrow)))
        (upd (mw_B_temp s) i (mw_B s (begin_idx + 1 + i + j * nrow)))
    else
      mk_mw (mw_E s) (mw_B s)
        (upd (mw_E_temp s) i zero_fld) (upd (mw_B_temp s) i zero_fld)) s.

Definition mw_store (nrow j begin_idx : Z) (s : t_mw) : t_mw :=
  for_range 0 LOCAL_BUFFER_SIZE (fun i s =>
    if begin_idx + i <? nrow then
      mk_mw (upd (mw_E s) (begin_idx + i + j * nrow) (mw_E_temp s i))
            (upd (mw_B s) (begin_idx + i + j * nrow) (mw_B_temp s i))
            (mw_E_temp s) (mw_B_temp s)
    else s) s.

(** [emf_move_window_openacc] of emf.c, on the two buffers. *)
Definition emf_move_window_openacc (E B : Z -> t_vfld) (nrow : Z)
  (g00 g10 g11 : Z) (nx_0 nx_1 : Z) : t_EB :=
  for_range 0 (g10 + nx_1 + g11) (fun j eb =>
    let s0 := mk_mw (fst eb) (snd eb) (fun _ => zero_fld) (fun _ => zero_fld) in
    let s := for_step 0 nrow LOCAL_BUFFER_SIZE (fun begin_idx s =>
               mw_store nrow j begin_idx (mw_load nrow g00 nx_0 j begin_idx s)) s0 in
    (mw_E s, mw_B s)) (E, B).

(** The three Yee calls of [emf_advance_openacc]. *)
Definition emf_yee (emf : t_emf) (current : t_current) : t_emf :=
  let dt := emf_dt emf in
  let dt_dx := dt /! dx0 emf in
  let dt_dy := dt /! dx1 emf in
  let emf := set_B emf (yee_b_openacc (emf_B emf) (emf_E emf) (dt_dx /! f2) (dt_dy /! f2)
                          (nrow emf) (nx0 emf) (nx1 emf)) in
  let emf := set_E emf (yee_e_openacc (emf_B emf) (emf_E emf) (J current) dt_dx dt_dy dt
                          (nrow emf) (cur_nrow current) (nx0 emf) (nx1 emf)) in
  set_B emf (yee_b_openacc (emf_B emf) (emf_E emf) (dt_dx /! f2) (dt_dy /! f2)
               (nrow emf) (nx0 emf) (nx1 emf)).

(** [(emf->iter * dt) > emf->dx[0] * (emf->n_move + 1)]. *)
Definition window_due (emf : t_emf) : bool :=
  (dx0 emf *! of_int (n_move emf + 1)) <!? (of_int (emf_iter emf) *! emf_dt emf).

(** [emf_advance_openacc] of emf.c. *)
Definition emf_advance_openacc (emf : t_emf) (current : t_current) : t_emf :=
  let emf := set_iter emf (emf_iter emf + 1) in
  let shift := window_due emf in
  let emf := emf_yee emf current in
  if moving_window emf then
    if shift then
      let emf := set_n_move emf (n_move emf + 1) in
      let eb := emf_move_window_openacc (E_buf emf) (B_buf emf) (nrow emf)
                  (gc00 emf) (gc10 emf) (gc11 emf) (nx0 emf) (nx1 emf) in
      set_bufs emf (fst eb) (snd eb)
    else emf
  else
    let eb := emf_update_gc_x_openacc (emf_E emf, emf_B emf) (nrow emf) (nx0 emf) (nx1 emf)
                (gc00 emf) (gc01 emf) (gc10 emf) (gc11 emf) in
    set_B (set_E emf (fst eb)) (snd eb).

(* ------------------------------------------------------------------ *)
(** ** Laser pulses, emf.c *)

Inductive emf_laser_type : Type := PLANE | GAUSSIAN.

Record t_emf_laser : Type := mk_laser {
  laser_type : emf_laser_type;
  laser_start : F;
  fwhm : F;
  rise : F; flat : F; fall : F;
  a0 : F;
  omega0 : F;
  polarization : F;
  W0 : F;
  focus : F;
  axis : F
}.

Definition set_rise_flat_fall (l : t_emf_laser) (r fl fa : F) : t_emf_laser :=
  mk_laser (laser_type l) (laser_start l) (fwhm l) r fl fa (a0 l) (omega0 l)
    (polarization l) (W0 l) (focus l) (axis l).

Definition gauss_phase (laser : t_emf_laser) (z r : F) : F :=
  let z0 := omega0 laser *! (W0 laser *! W0 laser) /! f2 in
  let rho2 := r *! r in
  let curv := rho2 *! z /! (z0 *! z0 +! z *! z) in
  let rWl2 := (z0 *! z0) /! (z0 *! z0 +! z *! z) in
  let gouy_shift := fatan2 z z0 in
  fsqrt (fsqrt rWl2) *! fexp (fneg rho2 *! rWl2 /! (W0 laser *! W0 laser))
    *! fcos (omega0 laser *! (z +! curv) -! gouy_shift).

Definition lon_env (laser : t_emf_laser) (z : F) : F :=
  if laser_start laser <!? z then f0
  else if (laser_start laser -! rise laser) <!? z then
    let csi := z -! laser_start laser in
    let e := fsin (fpi_2 *! csi /! rise laser) in
    e *! e
  else if (laser_start laser -! (rise laser +! flat laser)) <!? z then f1
  else if (laser_start laser -! (rise laser +! flat laser +! fall laser)) <!? z then
    let csi := z -! (laser_start laser -! rise laser -! flat laser -! fall laser) in
    let e := fsin (fpi_2 *! csi /! fall laser) in
    e *! e
  else f0.

(** [div_corr_x]: E.x and B.x are rebuilt row by row from the y
    components, from the last cell of the row down to the first; the loop
    [for (i = nx[0] - 1; i >= 0; i--)] is written with the count [m] of the
    cells done, [i = nx[0] - 1 - m].  The sums [ex], [bx] are [double] in C. *)
Definition div_corr_x (emf : t_emf) : t_emf :=
  let nrow := nrow emf in
  let dx_dy := dx0 emf /! dx1 emf in
  let eb :=
    for_range 0 (nx1 emf) (fun j (eb : t_EB) =>
      let '(_, _, E, B) :=
        for_range 0 (nx0 emf) (fun m '(ex, bx, E, B) =>
          let i := nx0 emf - 1 - m in
          let ex := ex +! dx_dy *! (vy (E (i + 1 + j * nrow)) -! vy (E (i + 1 + (j - 1) * nrow))) in
          let E := upd_x E (i + j * nrow) ex in
          let bx := bx +! dx_dy *! (vy (B (i + (j + 1) * nrow)) -! vy (B (i + j * nrow))) in
          let B := upd_x B (i + j * nrow) bx in
          (ex, bx, E, B)) (f0, f0, fst eb, snd eb) in
      (E, B)) (emf_E emf, emf_B emf) in
  set_B (set_E emf (fst eb)) (snd eb).

(** The four [+=] of the inner loop of the launch. *)
Definition laser_cell (eb : t_EB) (k : Z) (ey ez by_ bz : F) : t_EB :=
  let E := fst eb in
  let B := snd eb in
  let E := upd_y E k (vy (E k) +! ey) in
  let E := upd_z E k (vz (E k) +! ez) in
  let B := upd_y B k (vy (B k) +! by_) in
  let B := upd_z B k (vz (B k) +! bz) in
  (E, B).

Definition launch_laser (emf : t_emf) (laser : t_emf_laser) (offset_y : Z) : t_EB :=
  let nrow := nrow emf in
  let dx := dx0 emf in
  let dy := dx1 emf in
  let r_center := axis laser in
  let amp := omega0 laser *! a0 laser in
  let cos_pol := fcos (polarization laser) in
  let sin_pol := fsin (polarization laser) in
  match laser_type laser with
  | PLANE =>
      let k := omega0 laser in
      for_range 0 (nx0 emf) (fun i eb =>
        let z := of_int i *! dx in
        let z_2 := z +! dx /! f2 in
        let lenv := amp *! lon_env laser z in
        let lenv_2 := amp *! lon_env laser z_2 in
        for_range 0 (nx1 emf) (fun j eb =>
          laser_cell eb (i + j * nrow)
            (lenv *! fcos (k *! z) *! cos_pol)
            (lenv *! fcos (k *! z) *! sin_pol)
            (fneg lenv_2 *! fcos (k *! z_2) *! sin_pol)
            (lenv_2 *! fcos (k *! z_2) *! cos_pol)) eb) (emf_E emf, emf_B emf)
  | GAUSSIAN =>
      for_range 0 (nx0 emf) (fun i eb =>
        let z := of_int i *! dx in
        let z_2 := z +! dx /! f2 in
        let lenv := amp *! lon_env laser z in
        let lenv_2 := amp *! lon_env laser z_2 in
        for_range 0 (nx1 emf) (fun j eb =>
          let r := of_int (j + offset_y) *! dy -! r_center in
          let r_2 := r +! dy /! f2 in
          laser_cell eb (i + j * nrow)
            (lenv *! gauss_phase laser z r_2 *! cos_pol)
            (lenv *! gauss_phase laser z r *! sin_pol)
            (fneg lenv_2 *! gauss_phase laser z_2 r *! sin_pol)
            (lenv_2 *! gauss_phase laser z_2 r_2 *! cos_pol)) eb) (emf_E emf, emf_B emf)
  end.

(** The validation at the head of [emf_add_laser]: the laser as the
    function leaves it, or the exit. *)
Definition validate_laser (laser : t_emf_laser) : outcome t_emf_laser :=
  let check_rest (laser : t_emf_laser) : outcome t_emf_laser :=
    if rise laser <=!? f0 then Exits "Invalid laser RISE, must be > 0, aborting." (-1)
    else if flat laser <!? f0 then Exits "Invalid laser FLAT, must be >= 0, aborting." (-1)
    else if fall laser <=!? f0 then Exits "Invalid laser FALL, must be > 0, aborting." (-1)
    else Returns laser in
  if negb (feqb (fwhm laser) f0) then
    if fwhm laser <=!? f0 then Exits "Invalid laser FWHM, must be > 0, aborting." (-1)
    else check_rest (set_rise_flat_fall laser (fwhm laser) f0 (fwhm laser))
  else check_rest laser.

(** [emf_add_laser]: the EMF state and the laser after the call. *)
Definition emf_add_laser (emf : t_emf) (laser : t_emf_laser) (offset_y : Z)
  : outcome (t_emf * t_emf_laser) :=
  match validate_laser laser with
  | Exits msg code => Exits msg code
  | Returns laser =>
      let eb := launch_laser emf laser offset_y in
      Returns (set_B (set_E emf (fst eb)) (snd eb), laser)
  end.

End Fields.

Arguments t_vfld F : clear implicits.
Arguments t_emf F : clear implicits.
Arguments t_current F : clear implicits.
Arguments t_emf_laser F : clear implicits.
Arguments t_EB F : clear implicits.
Arguments t_mw F : clear implicits.

(* ------------------------------------------------------------------ *)
(** ** The EMF kernels that take the [t_emf] itself

    The second set of OpenACC kernels of the repository: the same solver,
    written against the structure ([yee_e_openacc(emf, current, dt)]), with
    periodic guard cells on both axes and a window shift through a copy of
    the buffers. *)

Module EmfKernel.
Section Kernel.
Context {F : Type} {SF : Scalar F}.

Definition yee_b_openacc (emf : t_emf F) (dt : F) : t_emf F :=
  let nrow := nrow emf in
  let dt_dx := dt /! dx0 emf in
  let dt_dy := dt /! dx1 emf in
  let E := emf_E emf in
  set_B emf
    (for_range (-1) (nx1 emf + 1) (fun j B =>
       for_range (-1) (nx0 emf + 1) (fun i B =>
         upd B (i + j * nrow) (yee_b_cell B E dt_dx dt_dy nrow i j)) B) (emf_B emf)).

(** [i] runs to [nx[0] + 1] here. *)
Definition yee_e_openacc (emf : t_emf F) (current : t_current F) (dt : F) : t_emf F :=
  let nrow_e := nrow emf in
  let nrow_j := cur_nrow current in
  let dt_dx := dt /! dx0 emf in
  let dt_dy := dt /! dx1 emf in
  let B := emf_B emf in
  let J := J current in
  set_E emf
    (for_range 0 (nx1 emf + 1 + 1) (fun j E =>
       for_range 0 (nx0 emf + 1 + 1) (fun i E =>
         upd E (i + j * nrow_e) (yee_e_cell B E J dt_dx dt_dy dt nrow_e nrow_j i j)) E)
       (emf_E emf)).

(** The x block of [emf_update_gc_openacc], skipped for a moving window. *)
Definition emf_update_gc_openacc_x (emf : t_emf F) : t_emf F :=
  if negb (moving_window emf) then
    let eb := emf_update_gc_x_openacc (emf_E emf, emf_B emf) (nrow emf) (nx0 emf) (nx1 emf)
                (gc00 emf) (gc01 emf) (gc10 emf) (gc11 emf) in
    set_B (set_E emf (fst eb)) (snd eb)
  else emf.

(** The y block of [emf_update_gc_openacc]: periodic in y. *)
Definition emf_update_gc_openacc_y (emf : t_emf F) : t_emf F :=
  let nrow := nrow emf in
  let eb :=
    for_range (- gc00 emf) (nx0 emf + gc01 emf) (fun i eb =>
      for_range (- gc10 emf) (gc11 emf) (fun j eb =>
        if j <? 0 then copy3_EB eb (i + j * nrow) (i + (nx1 emf + j) * nrow)
        else copy3_EB eb (i + (nx1 emf + j) * nrow) (i + j * nrow)) eb)
      (emf_E emf, emf_B emf) in
  set_B (set_E emf (fst eb)) (snd eb).

Definition emf_update_gc_openacc (emf : t_emf F) : t_emf F :=
  emf_update_gc_openacc_y (emf_update_gc_openacc_x emf).

(** The shift reads from copies [E], [B] of the two buffers. *)
Definition emf_move_window_openacc (emf : t_emf F) : t_emf F :=
  if window_due emf then
    let nrow := nrow emf in
    let E := E_buf emf in
    let B := B_buf emf in
    let eb :=
      for_range 0 (gc10 emf + nx1 emf + gc11 emf) (fun j eb =>
        for_range 0 nrow (fun i eb =>
          if i <? gc00 emf + nx0 emf - 1 then
            (upd (fst eb) (i + j * nrow) (E (i + j * nrow + 1)),
             upd (snd eb) (i + j * nrow) (B (i + j * nrow + 1)))
          else
            (upd (fst eb) (i + j * nrow) zero_fld,
             upd (snd eb) (i + j * nrow) zero_fld)) eb) (E_buf emf, B_buf emf) in
    set_n_move (set_bufs emf (fst eb) (snd eb)) (n_move emf + 1)
  else emf.

Definition emf_advance_openacc (emf : t_emf F) (current : t_current F) : t_emf F :=
  let dt := emf_dt emf in
  let emf := yee_b_openacc emf (dt /! f2) in
  let emf := yee_e_openacc emf current dt in
  let emf := yee_b_openacc emf (dt /! f2) in
  let emf := emf_update_gc_openacc emf in
  let emf := set_iter emf (emf_iter emf + 1) in
  if moving_window emf then emf_move_window_openacc emf else emf.

End Kernel.
End EmfKernel.

(* ================================================================== *)
(** * Exclusive prefix sum, kernel_particles.c *)
(* ================================================================== *)

(** [for (offset = lo; offset < hi; offset *= 2) body], with fuel. *)
Fixpoint for_double_n {St : Type} (fuel : nat) (offset hi : Z)
  (body : Z -> St -> St) (s : St) : St :=
  match fuel with
  | O => s
  | S f => if offset <? hi then for_double_n f (offset * 2) hi body (body offset s) else s
  end.

(** From [lo >= 1] the loop runs fewer than [hi] times. *)
Definition for_double {St : Type} (lo hi : Z) (body : Z -> St -> St) (s : St) : St :=
  for_double_n (Z.to_nat hi) lo hi body s.

(** [for (offset = hi; offset > 0; offset >>= 1) body], with fuel. *)
Fixpoint for_halve_n {St : Type} (fuel : nat) (offset : Z)
  (body : Z -> St -> St) (s : St) : St :=
  match fuel with
  | O => s
  | S f => if 0 <? offset then for_halve_n f (Z.shiftr offset 1) body (body offset s) else s
  end.

Definition for_halve {St : Type} (hi : Z) (body : Z -> St -> St) (s : St) : St :=
  for_halve_n (Z.to_nat hi) hi body s.

Definition MIN_WARP_SIZE : Z := 32.

(** The entries are C [int]s, 32 bits in two's complement: a sum that
    leaves the range wraps around. *)
Definition int_wrap (z : Z) : Z := (z + 2 ^ 31) mod 2 ^ 32 - 2 ^ 31.
Definition int_add (x y : Z) : Z := int_wrap (x + y).

(** The binary32 number nearest to the fraction p/q, [0 <= p], [0 < q]
    (ties go to the even significand), as a fraction whose denominator is a
    power of two.  With [e] the exponent that brings p/q between 2^23 and
    2^24, the significand is p/q scaled by 2^-e and rounded.  The range
    of the exponent is left out: the numbers here are quotients of [int]s,
    far from the smallest and the largest binary32 numbers. *)
Definition binary32_pos (p q : Z) : Z * Z :=
  if p =? 0 then (0, 1)
  else
    let e1 := Z.log2 p - Z.log2 q - 24 in
    let e := if 2 ^ 24 * (q * 2 ^ Z.max 0 e1) <=? p * 2 ^ Z.max 0 (- e1)
             then e1 + 1 else e1 in
    let n := p * 2 ^ Z.max 0 (- e) in
    let d := q * 2 ^ Z.max 0 e in
    let m := n / d in
    let r := n mod d in
    let m := if 2 * r <? d then m
             else if d <? 2 * r then m + 1
             else if Z.even m then m else m + 1 in
    (m * 2 ^ Z.max 0 e, 2 ^ Z.max 0 (- e)).

Definition binary32 (p q : Z) : Z * Z :=
  if p <? 0 then let '(a, b) := binary32_pos (- p) q in (- a, b)
  else binary32_pos p q.

(** [(float) n] of an [int] (positive for the divisor), the quotient of
    two [float]s, and [ceil] with its result converted to [int]. *)
Definition float_of_int (n : Z) : Z * Z := binary32 n 1.
Definition float_div (x y : Z * Z) : Z * Z := binary32 (fst x * snd y) (snd x * fst y).
Definition float_ceil (x : Z * Z) : Z := - ((- fst x) / snd x).

(** [ceil((float) size / W)]: the number of blocks of width [W]. *)
Definition num_blocks_of (size W : Z) : Z :=
  float_ceil (float_div (float_of_int size) (float_of_int W)).

Section PrefixSum.
(** LOCAL_BUFFER_SIZE of utilities.h, which is not part of these sources. *)
Variable LOCAL_BUFFER_SIZE : Z.

(** The up-sweep of one block of width [W]. *)
Definition up_sweep (W : Z) (local_buffer : Z -> Z) : Z -> Z :=
  for_double 1 W (fun offset lb =>
    for_step (offset - 1) W (2 * offset) (fun i lb =>
      upd lb (i + offset) (int_add (lb (i + offset)) (lb i))) lb) local_buffer.

(** The down-sweep of one block of width [W]. *)
Definition down_sweep (W : Z) (local_buffer : Z -> Z) : Z -> Z :=
  for_halve (Z.shiftr W 1) (fun offset lb =>
    for_step (offset - 1) W (2 * offset) (fun i lb =>
      let temp := lb i in
      let lb := upd lb i (lb (i + offset)) in
      upd lb (i + offset) (int_add (lb (i + offset)) temp)) lb) local_buffer.

(** One iteration of the loop over the blocks: the vector and the block
    sums after block [block_id]. *)
Definition scan_block (W size block_id : Z) (vb : (Z -> Z) * (Z -> Z))
  : (Z -> Z) * (Z -> Z) :=
  let vector := fst vb in
  let block_sum := snd vb in
  let begin_idx := block_id * W in
  let local_buffer :=
    for_range 0 W (fun i lb =>
      if i + begin_idx <? size then upd lb i (vector (i + begin_idx))
      else upd lb i 0) (fun _ => 0) in
  let local_buffer := up_sweep W local_buffer in
  let block_sum := upd block_sum block_id (local_buffer (W - 1)) in
  let local_buffer := upd local_buffer (W - 1) 0 in
  let local_buffer := down_sweep W local_buffer in
  let vector :=
    for_range 0 W (fun i vector =>
      if i + begin_idx <? size then upd vector (i + begin_idx) (local_buffer i)
      else vector) vector in
  (vector, block_sum).

(** The second pass: the scanned block sums added to the blocks 1, 2, ... *)
Definition add_block_sums (W size num_blocks : Z) (block_sum vector : Z -> Z) : Z -> Z :=
  for_range 1 num_blocks (fun block_id vector =>
    let begin_idx := block_id * W in
    for_range 0 W (fun i vector =>
      if i + begin_idx <? size
      then upd vector (i + begin_idx) (int_add (vector (i + begin_idx)) (block_sum block_id))
      else vector) vector) vector.

(** The body shared by [prefix_sum_openacc_min] (W = MIN_WARP_SIZE) and
    [prefix_sum_openacc_full] (W = LOCAL_BUFFER_SIZE); [rec] is the call of
    [prefix_sum_openacc] on the block sums, [None] when it does not
    return. *)
Definition prefix_sum_blocks (W : Z) (rec : (Z -> Z) -> Z -> option (Z -> Z))
  (vector : Z -> Z) (size : Z) : option (Z -> Z) :=
  let num_blocks := num_blocks_of size W in
  let vb := for_range 0 num_blocks (scan_block W size) (vector, fun _ => 0) in
  let vector := fst vb in
  let block_sum := snd vb in
  if 1 <? num_blocks then
    match rec block_sum num_blocks with
    | Some block_sum => Some (add_block_sums W size num_blocks block_sum vector)
    | None => None
    end
  else Some vector.

(** [prefix_sum_openacc]: the recursion through the block sums, with
    fuel. *)
Fixpoint prefix_sum_openacc (fuel : nat) (vector : Z -> Z) (size : Z) : option (Z -> Z) :=
  match fuel with
  | O => None
  | S f =>
      if size <? Z.quot LOCAL_BUFFER_SIZE 4
      then prefix_sum_blocks MIN_WARP_SIZE (prefix_sum_openacc f) vector size
      else prefix_sum_blocks LOCAL_BUFFER_SIZE (prefix_sum_openacc f) vector size
  end.

Definition prefix_sum_openacc_min (fuel : nat) (vector : Z -> Z) (size : Z)
  : option (Z -> Z) :=
  prefix_sum_blocks MIN_WARP_SIZE (prefix_sum_openacc fuel) vector size.

Definition prefix_sum_openacc_full (fuel : nat) (vector : Z -> Z) (size : Z)
  : option (Z -> Z) :=
  prefix_sum_blocks LOCAL_BUFFER_SIZE (prefix_sum_openacc fuel) vector size.

End PrefixSum.

(** An array given by a list, zero elsewhere, and the first [n] cells of
    an array. *)
Definition of_list (l : list Z) : Z -> Z :=
  fun i => if i <? 0 then 0 else nth (Z.to_nat i) l 0.
Definition to_list (n : nat) (a : Z -> Z) : list Z :=
  map (fun i => a (Z.of_nat i)) (seq 0 n).


(* ================================================================== *)
(** * Particles, kernel_particles.c *)
(* ================================================================== *)

(** Sequencing of the statements of a block that keeps rewriting one
    array: [x <- e ;; k] is [k] with [x] bound to the value of [e]. *)
Definition seq {A B : Type} (e : A) (k : A -> B) : B := k e.

Notation "x <- e ;; k" := (seq e (fun x => k))
  (at level 61, e at next level, right associativity, only parsing).

Section Particles.
Context {F : Type} {SF : Scalar F}.

(** Modelled from the spec: the macro [LTRIM], of a header that is not
    among the sources; -1 if v < 0, +1 if v >= 1, else 0. *)
Definition LTRIM (v : F) : Z :=
  if v <!? f0 then -1 else if f1 <=!? v then 1 else 0.

(** [t_vp]: a virtual particle, one straight piece of a trajectory. *)
Record t_vp : Type := mk_vp {
  vp_x0 : F; vp_x1 : F; vp_y0 : F; vp_y1 : F;
  vp_dx : F; vp_dy : F; vp_qvz : F;
  vp_ix : Z; vp_iy : Z
}.

(** Stores to one field of [vp[k]]. *)
Definition set_x0 (vp : Z -> t_vp) (k : Z) (v : F) : Z -> t_vp :=
  let s := vp k in
  upd vp k (mk_vp v (vp_x1 s) (vp_y0 s) (vp_y1 s) (vp_dx s) (vp_dy s) (vp_qvz s) (vp_ix s) (vp_iy s)).
Definition set_x1 (vp : Z -> t_vp) (k : Z) (v : F) : Z -> t_vp :=
  let s := vp k in
  upd vp k (mk_vp (vp_x0 s) v (vp_y0 s) (vp_y1 s) (vp_dx s) (vp_dy s) (vp_qvz s) (vp_ix s) (vp_iy s)).
Definition set_y0 (vp : Z -> t_vp) (k : Z) (v : F) : Z -> t_vp :=
  let s := vp k in
  upd vp k (mk_vp (vp_x0 s) (vp_x1 s) v (vp_y1 s) (vp_dx s) (vp_dy s) (vp_qvz s) (vp_ix s) (vp_iy s)).
Definition set_y1 (vp : Z -> t_vp) (k : Z) (v : F) : Z -> t_vp :=
  let s := vp k in
  upd vp k (mk_vp (vp_x0 s) (vp_x1 s) (vp_y0 s) v (vp_dx s) (vp_dy s) (vp_qvz s) (vp_ix s) (vp_iy s)).
Definition set_dx (vp : Z -> t_vp) (k : Z) (v : F) : Z -> t_vp :=
  let s := vp k in
  upd vp k (mk_vp (vp_x0 s) (vp_x1 s) (vp_y0 s) (vp_y1 s) v (vp_dy s) (vp_qvz s) (vp_ix s) (vp_iy s)).
Definition set_dy (vp : Z -> t_vp) (k : Z) (v : F) : Z -> t_vp :=
  let s := vp k in
  upd vp k (mk_vp (vp_x0 s) (vp_x1 s) (vp_y0 s) (vp_y1 s) (vp_dx s) v (vp_qvz s) (vp_ix s) (vp_iy s)).
Definition set_qvz (vp : Z -> t_vp) (k : Z) (v : F) : Z -> t_vp :=
  let s := vp k in
  upd vp k (mk_vp (vp_x0 s) (vp_x1 s) (vp_y0 s) (vp_y1 s) (vp_dx s) (vp_dy s) v (vp_ix s) (vp_iy s)).
Definition set_ix (vp : Z -> t_vp) (k : Z) (v : Z) : Z -> t_vp :=
  let s := vp k in
  upd vp k (mk_vp (vp_x0 s) (vp_x1 s) (vp_y0 s) (vp_y1 s) (vp_dx s) (vp_dy s) (vp_qvz s) v (vp_iy s)).
Definition set_iy (vp : Z -> t_vp) (k : Z) (v : Z) : Z -> t_vp :=
  let s := vp k in
  upd vp k (mk_vp (vp_x0 s) (vp_x1 s) (vp_y0 s) (vp_y1 s) (vp_dx s) (vp_dy s) (vp_qvz s) (vp_ix s) v).

(** [interpolate_fld_openacc]: the fields at the particle, from the four
    cells around it on the staggered grid; returns [(Ep, Bp)]. *)
Definition interpolate_fld_openacc (E B : Z -> t_vfld F) (nrow ix iy : Z) (x y : F)
  : t_vfld F * t_vfld F :=
  let ih := ix + (if x <!? fhalf then -1 else 0) in
  let jh := iy + (if y <!? fhalf then -1 else 0) in
  let w1h := x +! (if x <!? fhalf then fhalf else fneg fhalf) in
  let w2h := y +! (if y <!? fhalf then fhalf else fneg fhalf) in
  let Epx := (vx (E (ih + iy * nrow)) *! (f1 -! w1h) +! vx (E (ih + 1 + iy * nrow)) *! w1h)
               *! (f1 -! y)
             +! (vx (E (ih + (iy + 1) * nrow)) *! (f1 -! w1h)
                 +! vx (E (ih + 1 + (iy + 1) * nrow)) *! w1h) *! y in
  let Epy := (vy (E (ix + jh * nrow)) *! (f1 -! x) +! vy (E (ix + 1 + jh * nrow)) *! x)
               *! (f1 -! w2h)
             +! (vy (E (ix + (jh + 1) * nrow)) *! (f1 -! x)
                 +! vy (E (ix + 1 + (jh + 1) * nrow)) *! x) *! w2h in
  let Epz := (vz (E (ix + iy * nrow)) *! (f1 -! x) +! vz (E (ix + 1 + iy * nrow)) *! x)
               *! (f1 -! y)
             +! (vz (E (ix + (iy + 1) * nrow)) *! (f1 -! x)
                 +! vz (E (ix + 1 + (iy + 1) * nrow)) *! x) *! y in
  let Bpx := (vx (B (ix + jh * nrow)) *! (f1 -! x) +! vx (B (ix + 1 + jh * nrow)) *! x)
               *! (f1 -! w2h)
             +! (vx (B (ix + (jh + 1) * nrow)) *! (f1 -! x)
                 +! vx (B (ix + 1 + (jh + 1) * nrow)) *! x) *! w2h in
  let Bpy := (vy (B (ih + iy * nrow)) *! (f1 -! w1h) +! vy (B (ih + 1 + iy * nrow)) *! w1h)
               *! (f1 -! y)
             +! (vy (B (ih + (iy + 1) * nrow)) *! (f1 -! w1h)
                 +! vy (B (ih + 1 + (iy + 1) * nrow)) *! w1h) *! y in
  let Bpz := (vz (B (ih + jh * nrow)) *! (f1 -! w1h) +! vz (B (ih + 1 + jh * nrow)) *! w1h)
               *! (f1 -! w2h)
             +! (vz (B (ih + (jh + 1) * nrow)) *! (f1 -! w1h)
                 +! vz (B (ih + 1 + (jh + 1) * nrow)) *! w1h) *! w2h in
  (mk_vfld Epx Epy Epz, mk_vfld Bpx Bpy Bpz).

(** [dep_current_openacc] begins by splitting the trajectory at the cell
    edges it crosses into [vnp] virtual particles, written to
    [vp[begin .. begin + vnp - 1]], [begin = 3 * thread_id]; every store to a
    field of [vp] is one [set_].  First the whole trajectory, as
    [vp[begin]]. *)
Definition split_init (ix iy : Z) (x0 y0 dx dy qvz : F) (vp : Z -> t_vp) (begin : Z)
  : Z -> t_vp :=
  vp <- set_x0 vp begin x0 ;;
  vp <- set_y0 vp begin y0 ;;
  vp <- set_dx vp begin dx ;;
  vp <- set_dy vp begin dy ;;
  vp <- set_x1 vp begin (x0 +! dx) ;;
  vp <- set_y1 vp begin (y0 +! dy) ;;
  vp <- set_qvz vp begin (qvz /! f2) ;;
  vp <- set_ix vp begin ix ;;
  set_iy vp begin iy.

(** The block [if (di != 0)]: the x split. *)
Definition split_x (ix iy di : Z) (x0 y0 dx dy : F) (vp : Z -> t_vp) (begin vnp : Z)
  : (Z -> t_vp) * Z :=
  if negb (di =? 0) then
    ib <- (if di =? 1 then 1 else 0) ;;
    delta <- (x0 +! dx -! of_int ib) /! dx ;;
    (* add new particle *)
    vp <- set_x0 vp (begin + 1) (of_int (1 - ib)) ;;
    vp <- set_x1 vp (begin + 1) ((x0 +! dx) -! of_int di) ;;
    vp <- set_dx vp (begin + 1) (dx *! delta) ;;
    vp <- set_ix vp (begin + 1) (ix + di) ;;
    ycross <- y0 +! dy *! (f1 -! delta) ;;
    vp <- set_y0 vp (begin + 1) ycross ;;
    vp <- set_y1 vp (begin + 1) (vp_y1 (vp begin)) ;;
    vp <- set_dy vp (begin + 1) (dy *! delta) ;;
    vp <- set_iy vp (begin + 1) iy ;;
    vp <- set_qvz vp (begin + 1) (vp_qvz (vp begin) *! delta) ;;
    (* correct previous particle *)
    vp <- set_x1 vp begin (of_int ib) ;;
    vp <- set_dx vp begin (vp_dx (vp begin) *! (f1 -! delta)) ;;
    vp <- set_dy vp begin (vp_dy (vp begin) *! (f1 -! delta)) ;;
    vp <- set_y1 vp begin ycross ;;
    vp <- set_qvz vp begin (vp_qvz (vp begin) *! (f1 -! delta)) ;;
    (vp, vnp + 1)
  else (vp, vnp).

(** The block [if (dj != 0)]: the y split, of the virtual particle [isy]
    that crosses the edge. *)
Definition split_y (dj : Z) (vp : Z -> t_vp) (begin vnp : Z) : (Z -> t_vp) * Z :=
  if negb (dj =? 0) then
    isy <- 1 - (if (vp_y1 (vp begin) <!? f0) || (f1 <=!? vp_y1 (vp begin)) then 1 else 0) ;;
    jb <- (if dj =? 1 then 1 else 0) ;;
    delta <- (vp_y1 (vp (begin + isy)) -! of_int jb) /! vp_dy (vp (begin + isy)) ;;
    (* add new particle *)
    vp <- set_y0 vp (begin + vnp) (of_int (1 - jb)) ;;
    vp <- set_y1 vp (begin + vnp) (vp_y1 (vp (begin + isy)) -! of_int dj) ;;
    vp <- set_dy vp (begin + vnp) (vp_dy (vp (begin + isy)) *! delta) ;;
    vp <- set_iy vp (begin + vnp) (vp_iy (vp (begin + isy)) + dj) ;;
    xcross <- vp_x0 (vp (begin + isy)) +! vp_dx (vp (begin + isy)) *! (f1 -! delta) ;;
    vp <- set_x0 vp (begin + vnp) xcross ;;
    vp <- set_x1 vp (begin + vnp) (vp_x1 (vp (begin + isy))) ;;
    vp <- set_dx vp (begin + vnp) (vp_dx (vp (begin + isy)) *! delta) ;;
    vp <- set_ix vp (begin + vnp) (vp_ix (vp (begin + isy))) ;;
    vp <- set_qvz vp (begin + vnp) (vp_qvz (vp (begin + isy)) *! delta) ;;
    (* correct previous particle *)
    vp <- set_y1 vp (begin + isy) (of_int jb) ;;
    vp <- set_dy vp (begin + isy) (vp_dy (vp (begin + isy)) *! (f1 -! delta)) ;;
    vp <- set_dx vp (begin + isy) (vp_dx (vp (begin + isy)) *! (f1 -! delta)) ;;
    vp <- set_x1 vp (begin + isy) xcross ;;
    vp <- set_qvz vp (begin + isy) (vp_qvz (vp (begin + isy)) *! (f1 -! delta)) ;;
    (* correct extra vp if needed *)
    vp <- (if isy <? vnp - 1 then
             vp <- set_y0 vp (begin + 1) (vp_y0 (vp (begin + 1)) -! of_int dj) ;;
             vp <- set_y1 vp (begin + 1) (vp_y1 (vp (begin + 1)) -! of_int dj) ;;
             set_iy vp (begin + 1) (vp_iy (vp (begin + 1)) + dj)
           else vp) ;;
    (vp, vnp + 1)
  else (vp, vnp).

(** The split of [dep_current_openacc], up to the deposit loop; returns
    [(vp, vnp)]. *)
Definition dep_current_split (ix iy di dj : Z) (x0 y0 dx dy qvz : F)
  (vp : Z -> t_vp) (thread_id : Z) : (Z -> t_vp) * Z :=
  let begin := thread_id * 3 in
  let vnp := 1 in
  let vp := split_init ix iy x0 y0 dx dy qvz vp begin in
  let '(vp, vnp) := split_x ix iy di x0 y0 dx dy vp begin vnp in
  split_y dj vp begin vnp.

(** [J[k].c += v], the atomic updates of the deposit. *)
Definition add_x (J : Z -> t_vfld F) (k : Z) (v : F) : Z -> t_vfld F := upd_x J k (vx (J k) +! v).
Definition add_y (J : Z -> t_vfld F) (k : Z) (v : F) : Z -> t_vfld F := upd_y J k (vy (J k) +! v).
Definition add_z (J : Z -> t_vfld F) (k : Z) (v : F) : Z -> t_vfld F := upd_z J k (vz (J k) +! v).

(** The body of the deposit loop of [dep_current_openacc]: the current of
    the virtual particle [s = vp[k]]. *)
Definition dep_current_vp (qnx qny : F) (nrow : Z) (s : t_vp) (J : Z -> t_vfld F)
  : Z -> t_vfld F :=
  let S0x0 := f1 -! vp_x0 s in
  let S0x1 := vp_x0 s in
  let S1x0 := f1 -! vp_x1 s in
  let S1x1 := vp_x1 s in
  let S0y0 := f1 -! vp_y0 s in
  let S0y1 := vp_y0 s in
  let S1y0 := f1 -! vp_y1 s in
  let S1y1 := vp_y1 s in
  let wl1 := qnx *! vp_dx s in
  let wl2 := qny *! vp_dy s in
  let wp1_0 := fhalf *! (S0y0 +! S1y0) in
  let wp1_1 := fhalf *! (S0y1 +! S1y1) in
  let wp2_0 := fhalf *! (S0x0 +! S1x0) in
  let wp2_1 := fhalf *! (S0x1 +! S1x1) in
  let ix := vp_ix s in
  let iy := vp_iy s in
  J <- add_x J (ix + nrow * iy) (wl1 *! wp1_0) ;;
  J <- add_x J (ix + nrow * (iy + 1)) (wl1 *! wp1_1) ;;
  J <- add_y J (ix + nrow * iy) (wl2 *! wp2_0) ;;
  J <- add_y J (ix + 1 + nrow * iy) (wl2 *! wp2_1) ;;
  J <- add_z J (ix + nrow * iy)
         (vp_qvz s *! (S0x0 *! S0y0 +! S1x0 *! S1y0
                       +! (S0x0 *! S1y0 -! S1x0 *! S0y0) /! f2)) ;;
  J <- add_z J (ix + 1 + nrow * iy)
         (vp_qvz s *! (S0x1 *! S0y0 +! S1x1 *! S1y0
                       +! (S0x1 *! S1y0 -! S1x1 *! S0y0) /! f2)) ;;
  J <- add_z J (ix + nrow * (iy + 1))
         (vp_qvz s *! (S0x0 *! S0y1 +! S1x0 *! S1y1
                       +! (S0x0 *! S1y1 -! S1x0 *! S0y1) /! f2)) ;;
  add_z J (ix + 1 + nrow * (iy + 1))
    (vp_qvz s *! (S0x1 *! S0y1 +! S1x1 *! S1y1
                  +! (S0x1 *! S1y1 -! S1x1 *! S0y1) /! f2)).

(** [dep_current_openacc]: split, then deposit the [vnp] virtual
    particles; returns the current grid and the scratch array. *)
Definition dep_current_openacc (ix iy di dj : Z) (x0 y0 dx dy qnx qny qvz : F)
  (J : Z -> t_vfld F) (nrow : Z) (vp : Z -> t_vp) (thread_id : Z)
  : (Z -> t_vfld F) * (Z -> t_vp) :=
  let begin := thread_id * 3 in
  let '(vp, vnp) := dep_current_split ix iy di dj x0 y0 dx dy qvz vp thread_id in
  (for_range begin (begin + vnp) (fun k J => dep_current_vp qnx qny nrow (vp k) J) J, vp).

(** [t_float3]: the momentum of a particle. *)
Record t_float3 : Type := mk_float3 { u_x : F; u_y : F; u_z : F }.

(** [advance_part_velocity]: the Boris rotation. *)
Definition advance_part_velocity (part_velocity : t_float3) (Ep Bp : t_vfld F) (tem : F)
  : t_float3 :=
  let Epx := vx Ep *! tem in
  let Epy := vy Ep *! tem in
  let Epz := vz Ep *! tem in
  let utx := u_x part_velocity +! Epx in
  let uty := u_y part_velocity +! Epy in
  let utz := u_z part_velocity +! Epz in
  (* first half of the rotation *)
  let ustq := utx *! utx +! uty *! uty +! utz *! utz in
  let gtem := tem /! fsqrt (f1 +! ustq) in
  let Bpx := vx Bp *! gtem in
  let Bpy := vy Bp *! gtem in
  let Bpz := vz Bp *! gtem in
  let pvx := utx +! uty *! Bpz -! utz *! Bpy in
  let pvy := uty +! utz *! Bpx -! utx *! Bpz in
  let pvz := utz +! utx *! Bpy -! uty *! Bpx in
  (* second half of the rotation *)
  let Bp_mag := Bpx *! Bpx +! Bpy *! Bpy +! Bpz *! Bpz in
  let otsq := f2 /! (f1 +! Bp_mag) in
  let Bpx := Bpx *! otsq in
  let Bpy := Bpy *! otsq in
  let Bpz := Bpz *! otsq in
  let utx := utx +! (pvy *! Bpz -! pvz *! Bpy) in
  let uty := uty +! (pvz *! Bpx -! pvx *! Bpz) in
  let utz := utz +! (pvx *! Bpy -! pvy *! Bpx) in
  (* second half of the electric field acceleration *)
  mk_float3 (utx +! Epx) (uty +! Epy) (utz +! Epz).

(* ------------------------------------------------------------------ *)
(** ** Species and the particle advance *)

(** [t_particle_vector] of the OpenACC build: one array per field of the
    particles, as the kernels index them ([ix[k]], [invalid[k]], ...). *)
Record t_particle_vector : Type := mk_part_vector {
  pv_ix : Z -> Z; pv_iy : Z -> Z;
  pv_x : Z -> F; pv_y : Z -> F;
  pv_ux : Z -> F; pv_uy : Z -> F; pv_uz : Z -> F;
  pv_invalid : Z -> bool;
  pv_size : Z; pv_size_max : Z;
  pv_enable_vector : bool
}.

Definition with_ix (v : t_particle_vector) (a : Z -> Z) : t_particle_vector :=
  mk_part_vector a (pv_iy v) (pv_x v) (pv_y v) (pv_ux v) (pv_uy v) (pv_uz v)
    (pv_invalid v) (pv_size v) (pv_size_max v) (pv_enable_vector v).
Definition with_iy (v : t_particle_vector) (a : Z -> Z) : t_particle_vector :=
  mk_part_vector (pv_ix v) a (pv_x v) (pv_y v) (pv_ux v) (pv_uy v) (pv_uz v)
    (pv_invalid v) (pv_size v) (pv_size_max v) (pv_enable_vector v).
Definition with_x (v : t_particle_vector) (a : Z -> F) : t_particle_vector :=
  mk_part_vector (pv_ix v) (pv_iy v) a (pv_y v) (pv_ux v) (pv_uy v) (pv_uz v)
    (pv_invalid v) (pv_size v) (pv_size_max v) (pv_enable_vector v).
Definition with_y (v : t_particle_vector) (a : Z -> F) : t_particle_vector :=
  mk_part_vector (pv_ix v) (pv_iy v) (pv_x v) a (pv_ux v) (pv_uy v) (pv_uz v)
    (pv_invalid v) (pv_size v) (pv_size_max v) (pv_enable_vector v).
Definition with_ux (v : t_particle_vector) (a : Z -> F) : t_particle_vector :=
  mk_part_vector (pv_ix v) (pv_iy v) (pv_x v) (pv_y v) a (pv_uy v) (pv_uz v)
    (pv_invalid v) (pv_size v) (pv_size_max v) (pv_enable_vector v).
Definition with_uy (v : t_particle_vector) (a : Z -> F) : t_particle_vector :=
  mk_part_vector (pv_ix v) (pv_iy v) (pv_x v) (pv_y v) (pv_ux v) a (pv_uz v)
    (pv_invalid v) (pv_size v) (pv_size_max v) (pv_enable_vector v).
Definition with_uz (v : t_particle_vector) (a : Z -> F) : t_particle_vector :=
  mk_part_vector (pv_ix v) (pv_iy v) (pv_x v) (pv_y v) (pv_ux v) (pv_uy v) a
    (pv_invalid v) (pv_size v) (pv_size_max v) (pv_enable_vector v).
Definition with_invalid (v : t_particle_vector) (a : Z -> bool) : t_particle_vector :=
  mk_part_vector (pv_ix v) (pv_iy v) (pv_x v) (pv_y v) (pv_ux v) (pv_uy v) (pv_uz v)
    a (pv_size v) (pv_size_max v) (pv_enable_vector v).
Definition with_size (v : t_particle_vector) (n : Z) : t_particle_vector :=
  mk_part_vector (pv_ix v) (pv_iy v) (pv_x v) (pv_y v) (pv_ux v) (pv_uy v) (pv_uz v)
    (pv_invalid v) n (pv_size_max v) (pv_enable_vector v).

(** [t_species], the fields the kernels use.  [outgoing_part0] and
    [outgoing_part1] are the vectors that [outgoing_part[0]] (the region
    below) and [outgoing_part[1]] (the region above) point to. *)
Record t_species : Type := mk_species {
  main_vector : t_particle_vector;
  incoming_part : Z -> t_particle_vector;
  outgoing_part0 : t_particle_vector;
  outgoing_part1 : t_particle_vector;
  sp_m_q : F; sp_q : F;
  sp_nx0 : Z; sp_nx1 : Z;
  sp_dx0 : F; sp_dx1 : F;
  sp_dt : F;
  sp_iter : Z;
  sp_moving_window : bool;
  sp_n_move : Z;
  n_tiles_x : Z; n_tiles_y : Z;
  tile_offset : Z -> Z;
  mv_part_offset : Z -> Z
}.

Definition set_main_vector (spec : t_species) (v : t_particle_vector) : t_species :=
  mk_species v (incoming_part spec) (outgoing_part0 spec) (outgoing_part1 spec)
    (sp_m_q spec) (sp_q spec) (sp_nx0 spec) (sp_nx1 spec) (sp_dx0 spec) (sp_dx1 spec)
    (sp_dt spec) (sp_iter spec) (sp_moving_window spec) (sp_n_move spec)
    (n_tiles_x spec) (n_tiles_y spec) (tile_offset spec) (mv_part_offset spec).
Definition set_outgoing (spec : t_species) (o0 o1 : t_particle_vector) : t_species :=
  mk_species (main_vector spec) (incoming_part spec) o0 o1
    (sp_m_q spec) (sp_q spec) (sp_nx0 spec) (sp_nx1 spec) (sp_dx0 spec) (sp_dx1 spec)
    (sp_dt spec) (sp_iter spec) (sp_moving_window spec) (sp_n_move spec)
    (n_tiles_x spec) (n_tiles_y spec) (tile_offset spec) (mv_part_offset spec).
Definition set_spec_iter (spec : t_species) (it : Z) : t_species :=
  mk_species (main_vector spec) (incoming_part spec) (outgoing_part0 spec) (outgoing_part1 spec)
    (sp_m_q spec) (sp_q spec) (sp_nx0 spec) (sp_nx1 spec) (sp_dx0 spec) (sp_dx1 spec)
    (sp_dt spec) it (sp_moving_window spec) (sp_n_move spec)
    (n_tiles_x spec) (n_tiles_y spec) (tile_offset spec) (mv_part_offset spec).

(** What the particle loops carry: the particles, the current grid they
    deposit into and the scratch array of virtual particles. *)
Definition t_push : Type := (t_particle_vector * (Z -> t_vfld F) * (Z -> t_vp))%type.

(** The body of the particle loop, for particle [k]; the two kernels have
    the same text but for the grids they read ([E], [B], rows of [nrow]
    cells), the cell index relative to these grids
    ([part_idx = (ix[k] - off_x, iy[k] - off_y)]), the current grid they
    write (rows of [nrow_j] cells) and the slot of [vp]. *)
Definition push_particle (spec : t_species) (E B : Z -> t_vfld F) (nrow : Z)
  (off_x off_y : Z) (nrow_j : Z) (thread_id : Z) (k : Z) (st : t_push) : t_push :=
  let '(pv, J, vp) := st in
  let tem := fhalf *! sp_dt spec /! sp_m_q spec in
  let dt_dx := sp_dt spec /! sp_dx0 spec in
  let dt_dy := sp_dt spec /! sp_dx1 spec in
  let qnx := sp_q spec *! sp_dx0 spec /! sp_dt spec in
  let qny := sp_q spec *! sp_dx1 spec /! sp_dt spec in
  let is_invalid := pv_invalid pv k in
  if negb is_invalid then
    let part_velocity := mk_float3 (pv_ux pv k) (pv_uy pv k) (pv_uz pv k) in
    let part_pos_x := pv_x pv k in
    let part_pos_y := pv_y pv k in
    let part_idx_x := pv_ix pv k - off_x in
    let part_idx_y := pv_iy pv k - off_y in
    (* interpolate fields *)
    let '(Ep, Bp) := interpolate_fld_openacc E B nrow part_idx_x part_idx_y
                       part_pos_x part_pos_y in
    (* advance the particle momenta *)
    let part_velocity := advance_part_velocity part_velocity Ep Bp tem in
    (* push particle *)
    let usq := u_x part_velocity *! u_x part_velocity
               +! u_y part_velocity *! u_y part_velocity
               +! u_z part_velocity *! u_z part_velocity in
    let rg := f1 /! fsqrt (f1 +! usq) in
    let dx := dt_dx *! rg *! u_x part_velocity in
    let dy := dt_dy *! rg *! u_y part_velocity in
    let x1 := part_pos_x +! dx in
    let y1 := part_pos_y +! dy in
    let di := LTRIM x1 in
    let dj := LTRIM y1 in
    let qvz := sp_q spec *! u_z part_velocity *! rg in
    let '(J, vp) := dep_current_openacc part_idx_x part_idx_y di dj part_pos_x part_pos_y
                      dx dy qnx qny qvz J nrow_j vp thread_id in
    (* store results *)
    let pv := with_x pv (upd (pv_x pv) k (x1 -! of_int di)) in
    let pv := with_y pv (upd (pv_y pv) k (y1 -! of_int dj)) in
    let pv := with_ix pv (upd (pv_ix pv) k (pv_ix pv k + di)) in
    let pv := with_iy pv (upd (pv_iy pv) k (pv_iy pv k + dj)) in
    let pv := with_ux pv (upd (pv_ux pv) k (u_x part_velocity)) in
    let pv := with_uy pv (upd (pv_uy pv) k (u_y part_velocity)) in
    let pv := with_uz pv (upd (pv_uz pv) k (u_z part_velocity)) in
    (pv, J, vp)
  else st.

(** [spec_advance_openacc_default]; [limits_y0] is [limits_y[0]] and [vp]
    the contents, indeterminate in C, of the local array [t_vp vp[3]]. *)
Definition spec_advance_openacc_default (spec : t_species) (emf : t_emf F)
  (current : t_current F) (limits_y0 : Z) (vp : Z -> t_vp)
  : t_species * t_current F :=
  let E := emf_E emf in
  let B := emf_B emf in
  let J := J current in
  let nrow := nrow emf in
  let region_offset := limits_y0 in
  let '(pv, J, _) :=
    for_range 0 (pv_size (main_vector spec))
      (fun k st => push_particle spec E B nrow 0 region_offset nrow 0 k st)
      (main_vector spec, J, vp) in
  (set_spec_iter (set_main_vector spec pv) (sp_iter spec + 1),
   mk_current J (cur_nrow current)).

Variable TILE_SIZE : Z.
Variable THREAD_BLOCK : Z.

(** The arrays a gang of [spec_advance_openacc] declares: the cached
    fields, the local current and the virtual particles; their contents
    are indeterminate in C until the kernel writes them. *)
Record t_tile_cache : Type := mk_tile_cache {
  tc_E : Z -> t_vfld F;
  tc_B : Z -> t_vfld F;
  tc_J : Z -> t_vfld F;
  tc_vp : Z -> t_vp
}.

(** The work of one tile in [spec_advance_openacc]. *)
Definition advance_tile (spec : t_species) (emf : t_emf F) (region_offset : Z)
  (cache : t_tile_cache) (tile_x tile_y : Z)
  (st : t_particle_vector * (Z -> t_vfld F)) : t_particle_vector * (Z -> t_vfld F) :=
  let '(pv, cJ) := st in
  let nrow := nrow emf in
  let tile_idx := tile_x + tile_y * n_tiles_x spec in
  let begin := tile_offset spec tile_idx in
  let end_ := tile_offset spec (tile_idx + 1) in
  (* load the EMF into the shared memory *)
  let '(E, B) :=
    for_range 0 (TILE_SIZE + 2) (fun j =>
      for_range 0 (TILE_SIZE + 2) (fun i '(E, B) =>
        let idx_x := tile_x * TILE_SIZE + i - 1 in
        let idx_y := tile_y * TILE_SIZE + j - 1 in
        (upd E (i + j * (TILE_SIZE + 2)) (emf_E emf (idx_x + idx_y * nrow)),
         upd B (i + j * (TILE_SIZE + 2)) (emf_B emf (idx_x + idx_y * nrow)))))
      (tc_E cache, tc_B cache) in
  (* reset the local current to 0 *)
  let J :=
    for_range 0 ((TILE_SIZE + 3) * (TILE_SIZE + 3)) (fun i J =>
      let J := upd_x J i f0 in
      let J := upd_y J i f0 in
      upd_z J i f0) (tc_J cache) in
  let '(pv, J, _) :=
    for_range begin end_
      (fun k st => push_particle spec E B (TILE_SIZE + 2)
                     (tile_x * TILE_SIZE - 1) (tile_y * TILE_SIZE - 1 + region_offset)
                     (TILE_SIZE + 3) (Z.rem k THREAD_BLOCK) k st)
      (pv, J, tc_vp cache) in
  (* add the local values to the global current *)
  let cJ :=
    for_range 0 (TILE_SIZE + 3) (fun j =>
      for_range 0 (TILE_SIZE + 3) (fun i cJ =>
        let idx_x := tile_x * TILE_SIZE + i - 1 in
        let idx_y := tile_y * TILE_SIZE + j - 1 in
        let cJ := add_x cJ (idx_x + idx_y * nrow) (vx (J (i + j * (TILE_SIZE + 3)))) in
        let cJ := add_y cJ (idx_x + idx_y * nrow) (vy (J (i + j * (TILE_SIZE + 3)))) in
        add_z cJ (idx_x + idx_y * nrow) (vz (J (i + j * (TILE_SIZE + 3)))))) cJ in
  (pv, cJ).

(** [spec_advance_openacc]: the tiles in the order of the loop nest. *)
Definition spec_advance_openacc (spec : t_species) (emf : t_emf F)
  (current : t_current F) (limits_y0 : Z) (cache : t_tile_cache)
  : t_species * t_current F :=
  let region_offset := limits_y0 in
  let '(pv, cJ) :=
    for_range 0 (n_tiles_y spec) (fun tile_y =>
      for_range 0 (n_tiles_x spec) (fun tile_x st =>
        advance_tile spec emf region_offset cache tile_x tile_y st))
      (main_vector spec, J current) in
  (set_spec_iter (set_main_vector spec pv) (sp_iter spec + 1),
   mk_current cJ (cur_nrow current)).

(* ------------------------------------------------------------------ *)
(** ** The boundary pass *)

(** The transfer of particle [i] of [pv], with the cell row [iy], to the
    end of [out]: [idx = out->size++] (atomic capture), then the stores to
    [out->ix[idx]], ..., [out->invalid[idx]]. *)
Definition transfer_particle (pv : t_particle_vector) (i iy : Z) (out : t_particle_vector)
  : t_particle_vector :=
  let idx := pv_size out in
  let out := with_size out (pv_size out + 1) in
  let out := with_ix out (upd (pv_ix out) idx (pv_ix pv i)) in
  let out := with_iy out (upd (pv_iy out) idx iy) in
  let out := with_x out (upd (pv_x out) idx (pv_x pv i)) in
  let out := with_y out (upd (pv_y out) idx (pv_y pv i)) in
  let out := with_ux out (upd (pv_ux out) idx (pv_ux pv i)) in
  let out := with_uy out (upd (pv_uy out) idx (pv_uy pv i)) in
  let out := with_uz out (upd (pv_uz out) idx (pv_uz pv i)) in
  with_invalid out (upd (pv_invalid out) idx false).

(** First loop nest of [spec_check_boundaries_openacc]: the left boundary. *)
Definition check_left (spec : t_species) (pv : t_particle_vector) : t_particle_vector :=
  let nx0 := sp_nx0 spec in
  for_range 0 (n_tiles_y spec) (fun tile_y pv =>
    let tile_idx := tile_y * n_tiles_x spec in
    let begin := tile_offset spec tile_idx in
    let end_ := tile_offset spec (tile_idx + 1) in
    if sp_moving_window spec then
      for_range begin end_ (fun i pv =>
        if pv_ix pv i <? 0 then with_invalid pv (upd (pv_invalid pv) i true) else pv) pv
    else
      for_range begin end_ (fun i pv =>
        if pv_ix pv i <? 0 then with_ix pv (upd (pv_ix pv) i (pv_ix pv i + nx0)) else pv) pv)
    pv.

(** Second loop nest: the right boundary. *)
Definition check_right (spec : t_species) (pv : t_particle_vector) : t_particle_vector :=
  let nx0 := sp_nx0 spec in
  for_range 0 (n_tiles_y spec) (fun tile_y pv =>
    let tile_idx := (tile_y + 1) * n_tiles_x spec - 1 in
    let begin := tile_offset spec tile_idx in
    let end_ := tile_offset spec (tile_idx + 1) in
    if sp_moving_window spec then
      for_range begin end_ (fun i pv =>
        if nx0 <=? pv_ix pv i then with_invalid pv (upd (pv_invalid pv) i true) else pv) pv
    else
      for_range begin end_ (fun i pv =>
        if nx0 <=? pv_ix pv i then with_ix pv (upd (pv_ix pv) i (pv_ix pv i - nx0)) else pv) pv)
    pv.

(** Third loop nest: the particles leaving through the lower boundary of
    the region go to [outgoing_part[0]]; the state is the main vector and
    that vector. *)
Definition check_lower (spec : t_species) (limits_y0 : Z)
  (st : t_particle_vector * t_particle_vector) : t_particle_vector * t_particle_vector :=
  let nx1 := sp_nx1 spec in
  for_range 0 (n_tiles_x spec) (fun tile_x st =>
    let begin := tile_offset spec tile_x in
    let end_ := tile_offset spec (tile_x + 1) in
    for_range begin end_ (fun i '(pv, out) =>
      let is_invalid := pv_invalid pv i in
      if negb is_invalid then
        let iy := pv_iy pv i in
        if iy <? limits_y0 then
          let iy := if iy <? 0 then iy + nx1 else iy in
          let out := transfer_particle pv i iy out in
          (with_invalid pv (upd (pv_invalid pv) i true), out)
        else (pv, out)
      else (pv, out)) st)
    st.

(** Fourth loop nest: the upper boundary, to [outgoing_part[1]]. *)
Definition check_upper (spec : t_species) (limits_y1 : Z)
  (st : t_particle_vector * t_particle_vector) : t_particle_vector * t_particle_vector :=
  let nx1 := sp_nx1 spec in
  for_range 0 (n_tiles_x spec) (fun tile_x st =>
    let tile_idx := tile_x + (n_tiles_y spec - 1) * n_tiles_x spec in
    let begin := tile_offset spec tile_idx in
    let end_ := tile_offset spec (tile_idx + 1) in
    for_range begin end_ (fun i '(pv, out) =>
      if negb (pv_invalid pv i) then
        let iy := pv_iy pv i in
        if limits_y1 <=? iy then
          let iy := if nx1 <=? iy then iy - nx1 else iy in
          let out := transfer_particle pv i iy out in
          (with_invalid pv (upd (pv_invalid pv) i true), out)
        else (pv, out)
      else (pv, out)) st)
    st.

(** [spec_check_boundaries_openacc]. *)
Definition spec_check_boundaries_openacc (spec : t_species) (limits_y0 limits_y1 : Z)
  : t_species :=
  let pv := check_left spec (main_vector spec) in
  let pv := check_right spec pv in
  let '(pv, out0) := check_lower spec limits_y0 (pv, outgoing_part0 spec) in
  let '(pv, out1) := check_upper spec limits_y1 (pv, outgoing_part1 spec) in
  set_outgoing (set_main_vector spec pv) out0 out1.

(* ------------------------------------------------------------------ *)
(** ** Moving particles to their sorted place *)

(** [spec_move_vector_int] and [spec_move_vector_float], the same text on
    [int] and on [float]: a [NULL] [source_idx] is [None]; [temp] is the
    scratch buffer the function allocates, its contents indeterminate. *)
Definition spec_move_vector {A : Type} (vector : Z -> A) (source_idx : option (Z -> Z))
  (target_idx : Z -> Z) (move_size : Z) (temp : Z -> A) : Z -> A :=
  match source_idx with
  | Some source_idx =>
      let temp :=
        for_range 0 move_size (fun i temp =>
          if 0 <=? source_idx i then upd temp i (vector (source_idx i)) else temp) temp in
      for_range 0 move_size (fun i vector =>
        if 0 <=? source_idx i then upd vector (target_idx i) (temp i) else vector) vector
  | None =>
      let temp := for_range 0 move_size (fun i temp => upd temp i (vector i)) temp in
      for_range 0 move_size (fun i vector =>
        if 0 <=? target_idx i then upd vector (target_idx i) (temp i) else vector) vector
  end.

Definition spec_move_vector_int := @spec_move_vector Z.
Definition spec_move_vector_float := @spec_move_vector F.

(** The seven calls that move the fields of the particles. *)
Definition move_particles (pv : t_particle_vector) (source_idx : option (Z -> Z))
  (target_idx : Z -> Z) (move_size : Z) (temp_i : Z -> Z) (temp_f : Z -> F)
  : t_particle_vector :=
  let pv := with_ix pv (spec_move_vector_int (pv_ix pv) source_idx target_idx move_size temp_i) in
  let pv := with_iy pv (spec_move_vector_int (pv_iy pv) source_idx target_idx move_size temp_i) in
  let pv := with_x pv (spec_move_vector_float (pv_x pv) source_idx target_idx move_size temp_f) in
  let pv := with_y pv (spec_move_vector_float (pv_y pv) source_idx target_idx move_size temp_f) in
  let pv := with_ux pv (spec_move_vector_float (pv_ux pv) source_idx target_idx move_size temp_f) in
  let pv := with_uy pv (spec_move_vector_float (pv_uy pv) source_idx target_idx move_size temp_f) in
  with_uz pv (spec_move_vector_float (pv_uz pv) source_idx target_idx move_size temp_f).

Definition set_tile_offset (spec : t_species) (off : Z -> Z) : t_species :=
  mk_species (main_vector spec) (incoming_part spec) (outgoing_part0 spec) (outgoing_part1 spec)
    (sp_m_q spec) (sp_q spec) (sp_nx0 spec) (sp_nx1 spec) (sp_dx0 spec) (sp_dx1 spec)
    (sp_dt spec) (sp_iter spec) (sp_moving_window spec) (sp_n_move spec)
    (n_tiles_x spec) (n_tiles_y spec) off (mv_part_offset spec).
Definition set_mv_part_offset (spec : t_species) (off : Z -> Z) : t_species :=
  mk_species (main_vector spec) (incoming_part spec) (outgoing_part0 spec) (outgoing_part1 spec)
    (sp_m_q spec) (sp_q spec) (sp_nx0 spec) (sp_nx1 spec) (sp_dx0 spec) (sp_dx1 spec)
    (sp_dt spec) (sp_iter spec) (sp_moving_window spec) (sp_n_move spec)
    (n_tiles_x spec) (n_tiles_y spec) (tile_offset spec) off.

Variable LOCAL_BUFFER_SIZE : Z.

(** The tile of a particle: [ix / TILE_SIZE + (iy - limits_y[0]) / TILE_SIZE * n_tiles_x]. *)
Definition target_tile (pv : t_particle_vector) (n_tiles_x limits_y0 : Z) (i : Z) : Z :=
  let ix := Z.quot (pv_ix pv i) TILE_SIZE in
  let iy := Z.quot (pv_iy pv i - limits_y0) TILE_SIZE in
  ix + iy * n_tiles_x.

(** [spec_organize_in_tiles]: the bucket sort that builds the tiles at
    initialisation.  [fuel] bounds the recursion of the prefix sum; [pos],
    [temp_i] and [temp_f] are the contents of the buffers it allocates. *)
Definition spec_organize_in_tiles (fuel : nat) (spec : t_species) (limits_y0 : Z)
  (pos : Z -> Z) (temp_i : Z -> Z) (temp_f : Z -> F) : option t_species :=
  let size := pv_size (main_vector spec) in
  let n_tiles_x := n_tiles_x spec in
  let n_tiles_y := n_tiles_y spec in
  let pv := main_vector spec in
  (* calloc *)
  let mv_part_offset := fun _ : Z => 0 in
  let tile_offset := fun _ : Z => 0 in
  (* the histogram (number of particles per tile) *)
  let '(pos, tile_offset) :=
    for_range 0 size (fun i '(pos, tile_offset) =>
      let t := target_tile pv n_tiles_x limits_y0 i in
      (upd pos i (tile_offset t), upd tile_offset t (tile_offset t + 1)))
      (pos, tile_offset) in
  (* prefix sum: the first slot of each tile *)
  match prefix_sum_openacc LOCAL_BUFFER_SIZE fuel tile_offset (n_tiles_x * n_tiles_y + 1) with
  | None => None
  | Some tile_offset =>
      (* the target position of each particle *)
      let pos :=
        for_range 0 size (fun i pos =>
          let t := target_tile pv n_tiles_x limits_y0 i in
          upd pos i (pos i + tile_offset t)) pos in
      let final_size := tile_offset (n_tiles_x * n_tiles_y) in
      let pv := with_size pv final_size in
      let pv := move_particles pv None pos size temp_i temp_f in
      (* validate all the particles *)
      let pv :=
        for_range 0 final_size (fun k pv =>
          with_invalid pv (upd (pv_invalid pv) k false)) pv in
      Some (set_main_vector (set_tile_offset (set_mv_part_offset spec mv_part_offset) tile_offset) pv)
  end.

(** [spec_full_sort_openacc]: the bucket sort that also drops the particles
    marked invalid.  [tile_offset] is the array of the species (allocated
    when it is [NULL]), its entries [0 .. n_tiles] are set to 0 first;
    [fuel] bounds the recursion of the prefix sum; [pos], [temp_i] and
    [temp_f] are the contents of the buffers the function allocates. *)
Definition spec_full_sort_openacc (fuel : nat) (spec : t_species) (limits_y0 : Z)
  (pos : Z -> Z) (temp_i : Z -> Z) (temp_f : Z -> F) : option t_species :=
  let size := pv_size (main_vector spec) in
  let n_tiles_x := n_tiles_x spec in
  let n_tiles_y := n_tiles_y spec in
  let pv := main_vector spec in
  let tile_offset :=
    for_range 0 (n_tiles_x * n_tiles_y + 1) (fun i tile_offset => upd tile_offset i 0)
      (tile_offset spec) in
  (* the histogram (number of particles per tile) *)
  let '(pos, tile_offset) :=
    for_range 0 size (fun i '(pos, tile_offset) =>
      if negb (pv_invalid pv i) then
        let t := target_tile pv n_tiles_x limits_y0 i in
        (upd pos i (tile_offset t), upd tile_offset t (tile_offset t + 1))
      else (upd pos i (-1), tile_offset))
      (pos, tile_offset) in
  (* prefix sum: the first slot of each tile *)
  match prefix_sum_openacc LOCAL_BUFFER_SIZE fuel tile_offset (n_tiles_x * n_tiles_y + 1) with
  | None => None
  | Some tile_offset =>
      (* the target position of each particle *)
      let pos :=
        for_range 0 size (fun i pos =>
          if 0 <=? pos i then
            let t := target_tile pv n_tiles_x limits_y0 i in
            upd pos i (pos i + tile_offset t)
          else pos) pos in
      let final_size := tile_offset (n_tiles_x * n_tiles_y) in
      let pv := with_size pv final_size in
      let pv := move_particles pv None pos size temp_i temp_f in
      (* validate all the particles *)
      let pv :=
        for_range 0 final_size (fun k pv =>
          with_invalid pv (upd (pv_invalid pv) k false)) pv in
      Some (set_main_vector (set_tile_offset spec tile_offset) pv)
  end.


(* ------------------------------------------------------------------ *)
(** ** The sort of every step *)

(** [histogram_np_per_tile]: the number of particles each tile is to hold,
    written to [tile_offset].  [np_per_tile] is the array the function
    allocates and [np] the local array of a gang, their contents
    indeterminate until the loops reset them. *)
Definition histogram_np_per_tile (part_vector : t_particle_vector) (tile_offset : Z -> Z)
  (incoming_part : Z -> t_particle_vector) (n_tiles_y n_tiles_x offset_region : Z)
  (np_per_tile np : Z -> Z) : Z -> Z :=
  let n_tiles := n_tiles_x * n_tiles_y in
  (* reset the number of particles per tile *)
  let np_per_tile := for_range 0 n_tiles (fun i np_per_tile => upd np_per_tile i 0) np_per_tile in
  (* histogram for the main vector *)
  let np_per_tile :=
    for_range 0 n_tiles_y (fun tile_y =>
      for_range 0 n_tiles_x (fun tile_x np_per_tile =>
        let tile_idx := tile_x + tile_y * n_tiles_x in
        let begin := tile_offset tile_idx in
        let end_ := tile_offset (tile_idx + 1) in
        let np := for_range 0 9 (fun i np => upd np i 0) np in
        let np :=
          for_range begin end_ (fun k np =>
            let ix := Z.quot (pv_ix part_vector k) TILE_SIZE in
            let iy := Z.quot (pv_iy part_vector k - offset_region) TILE_SIZE in
            let is_invalid := pv_invalid part_vector k in
            let local_iy := iy - tile_y + 1 in
            let local_ix :=
              if (tile_x =? n_tiles_x - 1) && (ix =? 0) then 2
              else if (tile_x =? 0) && (ix =? n_tiles_x - 1) then 0
              else ix - tile_x + 1 in
            if negb is_invalid
            then upd np (local_ix + local_iy * 3) (np (local_ix + local_iy * 3) + 1)
            else np) np in
        (* add the local values to the global histogram *)
        for_range 0 3 (fun j =>
          for_range 0 3 (fun i np_per_tile =>
            let global_ix := tile_x + i - 1 in
            let global_iy := tile_y + j - 1 in
            let global_ix :=
              if global_ix <? 0 then global_ix + n_tiles_x
              else if n_tiles_x <=? global_ix then global_ix - n_tiles_x
              else global_ix in
            if 0 <? np (i + j * 3)
            then upd np_per_tile (global_ix + global_iy * n_tiles_x)
                   (np_per_tile (global_ix + global_iy * n_tiles_x) + np (i + j * 3))
            else np_per_tile)) np_per_tile)) np_per_tile in
  (* add the incoming particles to the histogram *)
  let np_per_tile :=
    for_range 0 3 (fun n np_per_tile =>
      if pv_enable_vector (incoming_part n) then
        let size_temp := pv_size (incoming_part n) in
        for_range 0 size_temp (fun k np_per_tile =>
          let ix := Z.quot (pv_ix (incoming_part n) k) TILE_SIZE in
          let iy := Z.quot (pv_iy (incoming_part n) k - offset_region) TILE_SIZE in
          let target_tile := ix + iy * n_tiles_x in
          upd np_per_tile target_tile (np_per_tile target_tile + 1)) np_per_tile
      else np_per_tile) np_per_tile in
  (* copy the histogram to calculate the new tile offset *)
  let tile_offset := for_range 0 n_tiles (fun i tile_offset =>
                       upd tile_offset i (np_per_tile i)) tile_offset in
  upd tile_offset n_tiles 0.

(** [histogram_moving_particles]: for every tile, the number of slots of its
    range that hold no particle of the tile; the slots from [old_size] on are
    marked invalid on the way. *)
Definition histogram_moving_particles (part_vector : t_particle_vector)
  (tile_offset np_leaving : Z -> Z) (n_tiles n_tiles_x offset_region old_size : Z)
  : t_particle_vector * (Z -> Z) :=
  for_range 0 n_tiles (fun tile_idx '(part_vector, np_leaving) =>
    let begin := tile_offset tile_idx in
    let end_ := tile_offset (tile_idx + 1) in
    let leaving_count := 0 in
    let '(part_vector, leaving_count) :=
      for_range begin end_ (fun k '(part_vector, leaving_count) =>
        let part_vector :=
          if old_size <=? k
          then with_invalid part_vector (upd (pv_invalid part_vector) k true)
          else part_vector in
        let ix := Z.quot (pv_ix part_vector k) TILE_SIZE in
        let iy := Z.quot (pv_iy part_vector k - offset_region) TILE_SIZE in
        let is_invalid := pv_invalid part_vector k in
        let target_tile := ix + iy * n_tiles_x in
        (part_vector,
         if is_invalid || negb (target_tile =? tile_idx)
         then leaving_count + 1 else leaving_count))
        (part_vector, leaving_count) in
    (part_vector, upd np_leaving tile_idx leaving_count)) (part_vector, np_leaving).

(** [spec_histogram]: the new offsets of the tiles and the offsets of the
    particles that move between tiles.  [fuel] bounds the recursion of the
    prefix sums; the result is the vector, [tile_offset] and
    [mv_part_offset]. *)
Definition spec_histogram (fuel : nat) (part_vector : t_particle_vector)
  (incoming_part : Z -> t_particle_vector) (tile_offset mv_part_offset : Z -> Z)
  (n_tiles_x n_tiles_y offset_region old_size : Z) (np_per_tile np : Z -> Z)
  : option (t_particle_vector * (Z -> Z) * (Z -> Z)) :=
  let n_tiles := n_tiles_x * n_tiles_y in
  let tile_offset := histogram_np_per_tile part_vector tile_offset incoming_part
                       n_tiles_y n_tiles_x offset_region np_per_tile np in
  match prefix_sum_openacc LOCAL_BUFFER_SIZE fuel tile_offset (n_tiles + 1) with
  | None => None
  | Some tile_offset =>
      let '(part_vector, mv_part_offset) :=
        histogram_moving_particles part_vector tile_offset mv_part_offset n_tiles n_tiles_x
          offset_region old_size in
      let mv_part_offset := upd mv_part_offset n_tiles 0 in
      match prefix_sum_openacc LOCAL_BUFFER_SIZE fuel mv_part_offset (n_tiles + 1) with
      | None => None
      | Some mv_part_offset => Some (part_vector, tile_offset, mv_part_offset)
      end
  end.

(** [calculate_sorted_idx]: the slots to fill ([target_idx]) and the
    particles to move there ([source_idx], -1 where a slot waits for an
    incoming particle); returns [source_idx], [target_idx] and
    [source_counter]. *)
Definition calculate_sorted_idx (part_vector : t_particle_vector) (tile_offset : Z -> Z)
  (source_idx target_idx source_counter mv_part_offset : Z -> Z)
  (n_tiles_y n_tiles_x old_size offset_region sorting_size : Z)
  : (Z -> Z) * (Z -> Z) * (Z -> Z) :=
  let n_tiles := n_tiles_x * n_tiles_y in
  let size := pv_size part_vector in
  let source_idx := for_range 0 sorting_size (fun i source_idx => upd source_idx i (-1))
                      source_idx in
  let source_counter := for_range 0 n_tiles (fun i source_counter =>
                          upd source_counter i (mv_part_offset i)) source_counter in
  (* determine which particles are in the wrong tile *)
  let '(target_idx, source_counter) :=
    for_range 0 n_tiles_y (fun tile_y =>
      for_range 0 n_tiles_x (fun tile_x '(target_idx, source_counter) =>
        let tile_idx := tile_x + tile_y * n_tiles_x in
        let begin := tile_offset tile_idx in
        let end_ := tile_offset (tile_idx + 1) in
        let offset := mv_part_offset tile_idx in
        let right_counter := 0 in
        let '(target_idx, offset, right_counter) :=
          for_range begin end_ (fun k '(target_idx, offset, right_counter) =>
            let ix := Z.quot (pv_ix part_vector k) TILE_SIZE in
            let iy := Z.quot (pv_iy part_vector k - offset_region) TILE_SIZE in
            let is_invalid := pv_invalid part_vector k in
            let target_tile := ix + iy * n_tiles_x in
            let '(target_idx, offset) :=
              if is_invalid || negb (target_tile =? tile_idx)
              then (upd target_idx offset k, offset + 1)
              else (target_idx, offset) in
            (target_idx, offset,
             if negb is_invalid && (target_tile =? tile_idx + 1)
             then right_counter + 1 else right_counter))
            (target_idx, offset, right_counter) in
        (target_idx,
         if tile_x <? n_tiles_x - 1
         then upd source_counter (tile_idx + 1) (source_counter (tile_idx + 1) + right_counter)
         else source_counter))) (target_idx, source_counter) in
  (* generate a sorted list for the particles in the wrong tile *)
  let '(source_idx, source_counter) :=
    for_range 0 n_tiles_y (fun tile_y =>
      for_range 0 n_tiles_x (fun tile_x '(source_idx, source_counter) =>
        let tile_idx := tile_x + tile_y * n_tiles_x in
        let begin := mv_part_offset tile_idx in
        let end_ := mv_part_offset (tile_idx + 1) in
        let left_counter := begin - 1 in
        let right_counter := end_ in
        let '(source_idx, source_counter, _, _) :=
          for_range begin end_
            (fun k '(source_idx, source_counter, left_counter, right_counter) =>
              let source := target_idx k in
              let ix := Z.quot (pv_ix part_vector source) TILE_SIZE in
              let iy := Z.quot (pv_iy part_vector source - offset_region) TILE_SIZE in
              let is_invalid := pv_invalid part_vector source in
              let target_tile := ix + iy * n_tiles_x in
              if negb is_invalid then
                if (0 <? tile_x) && (target_tile =? tile_idx - 1) then
                  (upd source_idx left_counter source, source_counter,
                   left_counter - 1, right_counter)
                else if (tile_x <? n_tiles_x - 1) && (target_tile =? tile_idx + 1) then
                  (upd source_idx right_counter source, source_counter,
                   left_counter, right_counter + 1)
                else
                  (upd source_idx (source_counter target_tile) source,
                   upd source_counter target_tile (source_counter target_tile + 1),
                   left_counter, right_counter)
              else (source_idx, source_counter, left_counter, right_counter))
            (source_idx, source_counter, left_counter, right_counter) in
        (source_idx, source_counter))) (source_idx, source_counter) in
  (* if the vector has shrunk, add the valid particles outside the new size *)
  let '(source_idx, source_counter) :=
    if size <? old_size then
      for_range size old_size (fun k '(source_idx, source_counter) =>
        let ix := Z.quot (pv_ix part_vector k) TILE_SIZE in
        let iy := Z.quot (pv_iy part_vector k - offset_region) TILE_SIZE in
        let is_invalid := pv_invalid part_vector k in
        let target_tile := ix + iy * n_tiles_x in
        if negb is_invalid then
          (upd source_idx (source_counter target_tile) k,
           upd source_counter target_tile (source_counter target_tile + 1))
        else (source_idx, source_counter)) (source_idx, source_counter)
    else (source_idx, source_counter) in
  (source_idx, target_idx, source_counter).

(** [merge_particles_buffers]: the incoming particles take the slots that
    are left; returns the vector, the incoming buffers and [counter]. *)
Definition merge_particles_buffers (part_vector : t_particle_vector)
  (incoming_part : Z -> t_particle_vector) (counter target_idx : Z -> Z)
  (n_tiles_x offset_region : Z)
  : t_particle_vector * (Z -> t_particle_vector) * (Z -> Z) :=
  for_range 0 3 (fun n '(part_vector, incoming_part, counter) =>
    if pv_enable_vector (incoming_part n) then
      let size_temp := pv_size (incoming_part n) in
      let '(part_vector, counter) :=
        for_range 0 size_temp (fun k '(part_vector, counter) =>
          let ix := Z.quot (pv_ix (incoming_part n) k) TILE_SIZE in
          let iy := Z.quot (pv_iy (incoming_part n) k - offset_region) TILE_SIZE in
          let target_tile := ix + iy * n_tiles_x in
          let idx := counter target_tile in
          let counter := upd counter target_tile (counter target_tile + 1) in
          let target := target_idx idx in
          let pv := part_vector in
          let pv := with_ix pv (upd (pv_ix pv) target (pv_ix (incoming_part n) k)) in
          let pv := with_iy pv (upd (pv_iy pv) target (pv_iy (incoming_part n) k)) in
          let pv := with_x pv (upd (pv_x pv) target (pv_x (incoming_part n) k)) in
          let pv := with_y pv (upd (pv_y pv) target (pv_y (incoming_part n) k)) in
          let pv := with_ux pv (upd (pv_ux pv) target (pv_ux (incoming_part n) k)) in
          let pv := with_uy pv (upd (pv_uy pv) target (pv_uy (incoming_part n) k)) in
          let pv := with_uz pv (upd (pv_uz pv) target (pv_uz (incoming_part n) k)) in
          let pv := with_invalid pv (upd (pv_invalid pv) target false) in
          (pv, counter)) (part_vector, counter) in
      (part_vector, upd incoming_part n (with_size (incoming_part n) 0), counter)
    else (part_vector, incoming_part, counter)) (part_vector, incoming_part, counter).

(** [spec_sort_particles]: the sort itself, once the offsets are known.
    [source_idx], [target_idx] and [source_counter] are the arrays the
    function allocates, [temp_i] and [temp_f] the scratch buffers of the
    moves. *)
Definition spec_sort_particles (part_vector : t_particle_vector)
  (incoming_part : Z -> t_particle_vector) (tile_offset mv_part_offset : Z -> Z)
  (n_tiles_x n_tiles_y offset_region old_size : Z)
  (source_idx target_idx source_counter temp_i : Z -> Z) (temp_f : Z -> F)
  : t_particle_vector * (Z -> t_particle_vector) :=
  let n_tiles := n_tiles_x * n_tiles_y in
  let sorting_size := mv_part_offset n_tiles in
  let part_vector := with_size part_vector (tile_offset n_tiles) in
  (* generate a sorted list *)
  let '(source_idx, target_idx, source_counter) :=
    calculate_sorted_idx part_vector tile_offset source_idx target_idx source_counter
      mv_part_offset n_tiles_y n_tiles_x old_size offset_region sorting_size in
  (* apply the sorting in the main vector *)
  let part_vector := move_particles part_vector (Some source_idx) target_idx sorting_size
                       temp_i temp_f in
  let part_vector :=
    for_range 0 sorting_size (fun i part_vector =>
      if 0 <=? source_idx i
      then with_invalid part_vector (upd (pv_invalid part_vector) (target_idx i) false)
      else part_vector) part_vector in
  (* merge all the temporary vectors into the main vector *)
  let '(part_vector, incoming_part, _) :=
    merge_particles_buffers part_vector incoming_part source_counter target_idx
      n_tiles_x offset_region in
  (part_vector, incoming_part).

End Particles.

Arguments t_vp F : clear implicits.
Arguments t_float3 F : clear implicits.
Arguments t_particle_vector F : clear implicits.
Arguments t_species F : clear implicits.
Arguments t_push F : clear implicits.
Arguments t_tile_cache F : clear implicits.

(* ================================================================== *)
(** * Reasoning on arrays and loops *)
(* ================================================================== *)

Lemma upd_same {A : Type} (a : Z -> A) (i : Z) (v : A) : upd a i v i = v.
Proof. unfold upd. now rewrite Z.eqb_refl. Qed.

Lemma upd_other {A : Type} (a : Z -> A) (i k : Z) (v : A) : k <> i -> upd a i v k = a k.
Proof. intros H. unfold upd. destruct (Z.eqb_spec k i); [contradiction | reflexivity]. Qed.

Section LoopLemmas.
Context {St : Type}.
Implicit Types (body : Z -> St -> St) (s : St).

Lemma for_n_app n m i body s :
  for_n (n + m) i body s = for_n m (i + Z.of_nat n) body (for_n n i body s).
Proof.
  revert i s. induction n as [|n IH]; intros i s; simpl.
  - now rewrite Z.add_0_r.
  - rewrite IH. f_equal. lia.
Qed.

Lemma for_range_empty lo hi body s : hi <= lo -> for_range lo hi body s = s.
Proof.
  intros H. unfold for_range. replace (Z.to_nat (hi - lo)) with O by lia. reflexivity.
Qed.

Lemma for_range_split lo mid hi body s :
  lo <= mid <= hi ->
  for_range lo hi body s = for_range mid hi body (for_range lo mid body s).
Proof.
  intros H. unfold for_range.
  replace (Z.to_nat (hi - lo)) with (Z.to_nat (mid - lo) + Z.to_nat (hi - mid))%nat by lia.
  rewrite for_n_app. f_equal. lia.
Qed.

Lemma for_range_one lo hi body s : hi = lo + 1 -> for_range lo hi body s = body lo s.
Proof.
  intros ->. unfold for_range. replace (Z.to_nat (lo + 1 - lo)) with 1%nat by lia. reflexivity.
Qed.

Lemma for_range_first lo hi body s :
  lo < hi -> for_range lo hi body s = for_range (lo + 1) hi body (body lo s).
Proof.
  intros H. rewrite (for_range_split lo (lo + 1) hi) by lia.
  now rewrite (for_range_one lo (lo + 1)).
Qed.

Lemma for_range_last lo hi body s :
  lo < hi -> for_range lo hi body s = body (hi - 1) (for_range lo (hi - 1) body s).
Proof.
  intros H. rewrite (for_range_split lo (hi - 1) hi) by lia.
  now rewrite (for_range_one (hi - 1) hi) by lia.
Qed.

(** Loop invariant indexed by the loop variable. *)
Lemma for_range_ind (P : Z -> St -> Prop) lo hi body s :
  lo <= hi ->
  P lo s ->
  (forall i s, lo <= i < hi -> P i s -> P (i + 1) (body i s)) ->
  P hi (for_range lo hi body s).
Proof.
  intros Hle H0 Hstep.
  assert (G : forall n i s, lo <= i -> i + Z.of_nat n <= hi -> P i s ->
                            P (i + Z.of_nat n) (for_n n i body s)).
  { induction n as [|n IH]; intros i s' Hi Hn Hp; simpl.
    - now rewrite Z.add_0_r.
    - replace (i + Z.pos (Pos.of_succ_nat n)) with ((i + 1) + Z.of_nat n) by lia.
      apply IH; try lia. apply Hstep; [lia | assumption]. }
  unfold for_range.
  replace hi with (lo + Z.of_nat (Z.to_nat (hi - lo))) at 1 by lia.
  apply G; [lia | lia | assumption].
Qed.

(** Invariant that does not mention the loop variable; no bound needed. *)
Lemma for_range_inv (Q : St -> Prop) lo hi body s :
  Q s ->
  (forall i s, lo <= i < hi -> Q s -> Q (body i s)) ->
  Q (for_range lo hi body s).
Proof.
  intros H0 Hstep. destruct (Z_le_gt_dec lo hi) as [Hle|Hgt].
  - apply (for_range_ind (fun _ => Q)); auto.
  - now rewrite for_range_empty by lia.
Qed.

Lemma for_range_ext lo hi body body' s :
  (forall i s, lo <= i < hi -> body i s = body' i s) ->
  for_range lo hi body s = for_range lo hi body' s.
Proof.
  intros H. destruct (Z_le_gt_dec lo hi) as [Hle|Hgt].
  - apply (for_range_ind (fun i r => r = for_range lo i body' s)); auto.
    + now rewrite for_range_empty by lia.
    + intros i r Hi ->. rewrite (for_range_last lo (i + 1)) by lia.
      replace (i + 1 - 1) with i by lia. now apply H.
  - now rewrite !for_range_empty by lia.
Qed.

(** What a loop leaves of an observation [f] that only iteration [i0]
    changes, and changes as a function of the observation alone. *)
Lemma for_range_hit {A : Type} (f : St -> A) lo hi i0 body s :
  lo <= i0 < hi ->
  (forall i s, lo <= i < hi -> i <> i0 -> f (body i s) = f s) ->
  (forall s s', f s = f s' -> f (body i0 s) = f (body i0 s')) ->
  f (for_range lo hi body s) = f (body i0 s).
Proof.
  intros Hi Hframe Hcong.
  rewrite (for_range_split lo (i0 + 1) hi) by lia.
  rewrite (for_range_last lo (i0 + 1)) by lia.
  replace (i0 + 1 - 1) with i0 by lia.
  transitivity (f (body i0 (for_range lo i0 body s))).
  - apply (for_range_inv (fun r => f r = f (body i0 (for_range lo i0 body s)))).
    + reflexivity.
    + intros i r Hr Hq. rewrite Hframe; [assumption | lia | lia].
  - apply Hcong.
    apply (for_range_inv (fun r => f r = f s)).
    + reflexivity.
    + intros i r Hr Hq. rewrite Hframe; [assumption | lia | lia].
Qed.

(** An observation no iteration changes. *)
Lemma for_range_frame {A : Type} (f : St -> A) lo hi body s :
  (forall i s, lo <= i < hi -> f (body i s) = f s) ->
  f (for_range lo hi body s) = f s.
Proof.
  intros H. apply (for_range_inv (fun r => f r = f s)); [reflexivity|].
  intros i r Hi Hq. now rewrite H.
Qed.

End LoopLemmas.

(** Two cells of one grid row have different flat indices unless they are
    the same cell. *)
Lemma cell_index_inj (nrow lo i j i' j' : Z) :
  lo <= i < lo + nrow -> lo <= i' < lo + nrow ->
  i + j * nrow = i' + j' * nrow -> i = i' /\ j = j'.
Proof.
  intros Hi Hi' H.
  assert (j = j') by nia.
  subst j'. split; [lia | reflexivity].
Qed.

(** A loop seen through a map [h] of its state. *)
Lemma for_range_map {St St' : Type} (h : St -> St') lo hi
  (body : Z -> St -> St) (body' : Z -> St' -> St') (s : St) :
  (forall i s, lo <= i < hi -> h (body i s) = body' i (h s)) ->
  h (for_range lo hi body s) = for_range lo hi body' (h s).
Proof.
  intros H. destruct (Z_le_gt_dec lo hi) as [Hle|Hgt].
  - apply (for_range_ind (fun i r => h r = for_range lo i body' (h s))); auto.
    + now rewrite for_range_empty by lia.
    + intros i r Hi E. rewrite (for_range_last lo (i + 1)) by lia.
      replace (i + 1 - 1) with i by lia. rewrite H by lia. now rewrite E.
  - now rewrite !for_range_empty by lia.
Qed.

Lemma for_n_shift {St : Type} n i d (body : Z -> St -> St) s :
  for_n n (i + d) body s = for_n n i (fun k => body (k + d)) s.
Proof.
  revert i s. induction n as [|n IH]; intros i s; simpl; [reflexivity|].
  replace (i + d + 1) with (i + 1 + d) by lia. apply IH.
Qed.

(** A loop with a stride, block by block. *)
Lemma for_step_n_blocks {St : Type} (hi step : Z) (body : Z -> St -> St) :
  0 < step ->
  forall n fuel i s,
    (n <= fuel)%nat -> hi <= i + Z.of_nat n * step ->
    (n <> O -> i + (Z.of_nat n - 1) * step < hi) ->
    for_step_n fuel i hi step body s = for_n n 0 (fun b => body (i + b * step)) s.
Proof.
  intros Hstep. induction n as [|n IH]; intros fuel i s Hf Hhi Hlast.
  - destruct fuel; simpl; [reflexivity|].
    destruct (Z.ltb_spec i hi); [lia | reflexivity].
  - destruct fuel as [|f]; [lia|]. simpl.
    assert (i < hi) by (specialize (Hlast ltac:(discriminate)); nia).
    destruct (Z.ltb_spec i hi); [|lia].
    rewrite (IH f (i + step)); try lia.
    rewrite (for_n_shift n 0 1).
    f_equal; [|f_equal; lia].
    extensionality b. extensionality s'. f_equal. lia.
Qed.

Lemma for_step_blocks {St : Type} (hi step : Z) (body : Z -> St -> St) s :
  0 < step -> 0 <= hi ->
  for_step 0 hi step body s
  = for_range 0 ((hi + step - 1) / step) (fun b => body (b * step)) s.
Proof.
  intros Hstep Hhi. unfold for_step, for_range.
  set (nb := (hi + step - 1) / step).
  assert (Hnb : 0 <= nb) by (apply Z.div_pos; lia).
  assert (Hlo : nb * step <= hi + step - 1).
  { unfold nb. rewrite Z.mul_comm. apply Z.mul_div_le. lia. }
  assert (Hup : hi + step - 1 < (nb + 1) * step).
  { unfold nb. pose proof (Z.mul_succ_div_gt (hi + step - 1) step Hstep). lia. }
  rewrite (for_step_n_blocks hi step body Hstep (Z.to_nat (nb - 0))); try nia.
  reflexivity.
Qed.

(** [for_range_hit] when iteration [i0] reads more than it writes: [g] is
    what it reads, and the earlier iterations leave [g] alone. *)
Lemma for_range_hit2 {St A B : Type} (f : St -> A) (g : St -> B) lo hi i0
  (body : Z -> St -> St) s :
  lo <= i0 < hi ->
  (forall i s, lo <= i < hi -> i <> i0 -> f (body i s) = f s) ->
  (forall i s, lo <= i < i0 -> g (body i s) = g s) ->
  (forall s s', g s = g s' -> f (body i0 s) = f (body i0 s')) ->
  f (for_range lo hi body s) = f (body i0 s).
Proof.
  intros Hi Hframe Hread Hcong.
  rewrite (for_range_split lo (i0 + 1) hi) by lia.
  rewrite (for_range_last lo (i0 + 1)) by lia.
  replace (i0 + 1 - 1) with i0 by lia.
  transitivity (f (body i0 (for_range lo i0 body s))).
  - apply (for_range_inv (fun r => f r = f (body i0 (for_range lo i0 body s)))).
    + reflexivity.
    + intros i r Hr Hq. rewrite Hframe; [assumption | lia | lia].
  - apply Hcong.
    apply (for_range_inv (fun r => g r = g s)).
    + reflexivity.
    + intros i r Hr Hq. rewrite Hread; [assumption | lia].
Qed.

Lemma for_step_n_map {St St' : Type} (h : St -> St') fuel i hi step
  (body : Z -> St -> St) (body' : Z -> St' -> St') (s : St) :
  (forall i s, h (body i s) = body' i (h s)) ->
  h (for_step_n fuel i hi step body s) = for_step_n fuel i hi step body' (h s).
Proof.
  intros H. revert i s. induction fuel as [|f IH]; intros i s; simpl; [reflexivity|].
  destruct (i <? hi); [|reflexivity]. now rewrite IH, H.
Qed.

(** Two loops of the same length, step by step. *)
Lemma for_range_pair {A B : Type} (P : Z -> A -> B -> Prop) (f : Z -> A -> A)
  (g : Z -> B -> B) (b b' n : Z) (s : A) (s' : B) :
  0 <= n -> P 0 s s' ->
  (forall k a c, 0 <= k < n -> P k a c -> P (k + 1) (f (b + k) a) (g (b' + k) c)) ->
  P n (for_range b (b + n) f s) (for_range b' (b' + n) g s').
Proof.
  intros Hn H0. revert n Hn.
  apply (natlike_ind (fun n => (forall k a c, 0 <= k < n -> _) -> _)).
  - intros _. now rewrite !for_range_empty by lia.
  - intros n Hn IH Hstep. replace (Z.succ n) with (n + 1) in * by lia.
    rewrite (for_range_last b (b + (n + 1))), (for_range_last b' (b' + (n + 1))) by lia.
    replace (b + (n + 1) - 1) with (b + n) by lia.
    replace (b' + (n + 1) - 1) with (b' + n) by lia.
    apply Hstep; [lia|]. apply IH. intros k a c Hk. apply Hstep. lia.
Qed.


(* ================================================================== *)
(** * The Yee update of E *)
(* ================================================================== *)

Section GridLoops.
Context {A : Type}.
Implicit Types (g : (Z -> A) -> Z -> Z -> A) (a : Z -> A).

(** The shape of the solver's loop nests: every cell of a rectangle is
    rewritten from its own old value. *)
Definition grid_loop (g : (Z -> A) -> Z -> Z -> A) (nrow ilo ihi jlo jhi : Z)
  (a : Z -> A) : Z -> A :=
  for_range jlo jhi (fun j a =>
    for_range ilo ihi (fun i a => upd a (i + j * nrow) (g a i j)) a) a.

Lemma grid_row_frame g nrow ilo ihi j a k :
  (forall i, ilo <= i < ihi -> k <> i + j * nrow) ->
  for_range ilo ihi (fun i a => upd a (i + j * nrow) (g a i j)) a k = a k.
Proof.
  intros H. apply (for_range_frame (fun a => a k)).
  intros i s Hi. apply upd_other. now apply H.
Qed.

Lemma grid_row_cell g nrow ilo ihi j a i0 :
  ilo <= i0 < ihi ->
  (forall a a' i j, a (i + j * nrow) = a' (i + j * nrow) -> g a i j = g a' i j) ->
  for_range ilo ihi (fun i a => upd a (i + j * nrow) (g a i j)) a (i0 + j * nrow) = g a i0 j.
Proof.
  intros Hi Hg.
  rewrite (for_range_hit (fun a => a (i0 + j * nrow)) ilo ihi i0); try assumption.
  - apply upd_same.
  - intros i s Hr Hne. apply upd_other. lia.
  - intros s s' E. rewrite !upd_same. now apply Hg.
Qed.

Lemma grid_loop_frame g nrow ilo ihi jlo jhi a k :
  (forall i j, ilo <= i < ihi -> jlo <= j < jhi -> k <> i + j * nrow) ->
  grid_loop g nrow ilo ihi jlo jhi a k = a k.
Proof.
  intros H. unfold grid_loop. apply (for_range_frame (fun a => a k)).
  intros j s Hj. apply grid_row_frame. intros i Hi. now apply H.
Qed.

Lemma grid_loop_cell g nrow ilo ihi jlo jhi a i0 j0 :
  ilo <= i0 < ihi -> jlo <= j0 < jhi -> ihi - ilo <= nrow ->
  (forall a a' i j, a (i + j * nrow) = a' (i + j * nrow) -> g a i j = g a' i j) ->
  grid_loop g nrow ilo ihi jlo jhi a (i0 + j0 * nrow) = g a i0 j0.
Proof.
  intros Hi Hj Hrow Hg. unfold grid_loop.
  rewrite (for_range_hit (fun a => a (i0 + j0 * nrow)) jlo jhi j0); try assumption.
  - now apply grid_row_cell.
  - intros j s Hr Hne. apply grid_row_frame. intros i Hir E.
    apply (cell_index_inj nrow ilo) in E; lia.
  - intros s s' E. rewrite !grid_row_cell by assumption. now apply Hg.
Qed.

End GridLoops.

Section YeeE.
Context {F : Type} {SF : Scalar F}.
Implicit Types (emf : t_emf F) (cur : t_current F).

Lemma view_unview off (a : Z -> t_vfld F) k : view off (unview off a) k = a k.
Proof. unfold view, unview. f_equal. lia. Qed.

Lemma unview_view off (a : Z -> t_vfld F) k : unview off (view off a) k = a k.
Proof. unfold view, unview. f_equal. lia. Qed.

Lemma emf_E_set_E emf E k : emf_E (set_E emf E) k = E k.
Proof. unfold emf_E, set_E, emf_off; simpl. apply view_unview. Qed.

Lemma emf_B_set_B emf B k : emf_B (set_B emf B) k = B k.
Proof. unfold emf_B, set_B, emf_off; simpl. apply view_unview. Qed.

Lemma emf_E_set_B emf B : emf_E (set_B emf B) = emf_E emf.
Proof. reflexivity. Qed.

Lemma emf_B_set_E emf E : emf_B (set_E emf E) = emf_B emf.
Proof. reflexivity. Qed.

(** The increments of one cell, as the specification writes them. *)
Definition E_incremented (B E Jc : Z -> t_vfld F) (dtx dty dt : F) (nrow_e nrow_j i j : Z)
  : t_vfld F :=
  mk_vfld
    (vx (E (i + j * nrow_e))
     +! (dty *! (vz (B (i + j * nrow_e)) -! vz (B (i + (j - 1) * nrow_e)))
         -! dt *! vx (Jc (i + j * nrow_j))))
    (vy (E (i + j * nrow_e))
     +! (fneg dtx *! (vz (B (i + j * nrow_e)) -! vz (B ((i - 1) + j * nrow_e)))
         -! dt *! vy (Jc (i + j * nrow_j))))
    (vz (E (i + j * nrow_e))
     +! (dtx *! (vy (B (i + j * nrow_e)) -! vy (B ((i - 1) + j * nrow_e)))
         -! dty *! (vx (B (i + j * nrow_e)) -! vx (B (i + (j - 1) * nrow_e)))
         -! dt *! vz (Jc (i + j * nrow_j)))).

Lemma yee_e_cell_local B (E E' : Z -> t_vfld F) Jc dtx dty dt nrow_e nrow_j i j :
  E (i + j * nrow_e) = E' (i + j * nrow_e) ->
  yee_e_cell B E Jc dtx dty dt nrow_e nrow_j i j
  = yee_e_cell B E' Jc dtx dty dt nrow_e nrow_j i j.
Proof. intros H. unfold yee_e_cell. now rewrite H. Qed.

(** [yee_e_openacc] of emf.c, cell by cell. *)
Lemma yee_e_openacc_cell B E Jc dtx dty dt nrow_e nrow_j nx_0 nx_1 i j :
  nx_0 < nrow_e -> 0 <= i <= nx_0 -> 0 <= j <= nx_1 + 1 ->
  yee_e_openacc B E Jc dtx dty dt nrow_e nrow_j nx_0 nx_1 (i + j * nrow_e)
  = E_incremented B E Jc dtx dty dt nrow_e nrow_j i j.
Proof.
  intros Hrow Hi Hj.
  change (yee_e_openacc B E Jc dtx dty dt nrow_e nrow_j nx_0 nx_1)
    with (grid_loop (fun a i j => yee_e_cell B a Jc dtx dty dt nrow_e nrow_j i j)
            nrow_e 0 (nx_0 + 1) 0 (nx_1 + 1 + 1) E).
  rewrite grid_loop_cell; try lia.
  - reflexivity.
  - intros a a' i' j' H. now apply yee_e_cell_local.
Qed.

Lemma yee_e_openacc_frame B E Jc dtx dty dt nrow_e nrow_j nx_0 nx_1 k :
  (forall i j, 0 <= i <= nx_0 -> 0 <= j <= nx_1 + 1 -> k <> i + j * nrow_e) ->
  yee_e_openacc B E Jc dtx dty dt nrow_e nrow_j nx_0 nx_1 k = E k.
Proof.
  intros H.
  change (yee_e_openacc B E Jc dtx dty dt nrow_e nrow_j nx_0 nx_1)
    with (grid_loop (fun a i j => yee_e_cell B a Jc dtx dty dt nrow_e nrow_j i j)
            nrow_e 0 (nx_0 + 1) 0 (nx_1 + 1 + 1) E).
  apply grid_loop_frame. intros i j Hi Hj. apply H; lia.
Qed.

(** The kernel that takes the structure, cell by cell: one more column. *)
Lemma kernel_yee_e_cell emf cur dt i j :
  nx0 emf + 1 < nrow emf -> 0 <= i <= nx0 emf + 1 -> 0 <= j <= nx1 emf + 1 ->
  emf_E (EmfKernel.yee_e_openacc emf cur dt) (i + j * nrow emf)
  = E_incremented (emf_B emf) (emf_E emf) (J cur) (dt /! dx0 emf) (dt /! dx1 emf) dt
      (nrow emf) (cur_nrow cur) i j.
Proof.
  intros Hrow Hi Hj. unfold EmfKernel.yee_e_openacc. rewrite emf_E_set_E.
  match goal with
  | |- for_range _ _ _ ?E0 _ = _ =>
      change (for_range 0 (nx1 emf + 1 + 1) _ E0)
        with (grid_loop (fun a i j => yee_e_cell (emf_B emf) a (J cur) (dt /! dx0 emf)
                                        (dt /! dx1 emf) dt (nrow emf) (cur_nrow cur) i j)
                (nrow emf) 0 (nx0 emf + 1 + 1) 0 (nx1 emf + 1 + 1) E0)
  end.
  rewrite grid_loop_cell; try lia.
  - reflexivity.
  - intros a a' i' j' H. now apply yee_e_cell_local.
Qed.

Lemma kernel_yee_e_frame emf cur dt k :
  (forall i j, 0 <= i <= nx0 emf + 1 -> 0 <= j <= nx1 emf + 1 -> k <> i + j * nrow emf) ->
  emf_E (EmfKernel.yee_e_openacc emf cur dt) k = emf_E emf k.
Proof.
  intros H. unfold EmfKernel.yee_e_openacc. rewrite emf_E_set_E.
  match goal with
  | |- for_range _ _ _ ?E0 _ = _ =>
      change (for_range 0 (nx1 emf + 1 + 1) _ E0)
        with (grid_loop (fun a i j => yee_e_cell (emf_B emf) a (J cur) (dt /! dx0 emf)
                                        (dt /! dx1 emf) dt (nrow emf) (cur_nrow cur) i j)
                (nrow emf) 0 (nx0 emf + 1 + 1) 0 (nx1 emf + 1 + 1) E0)
  end.
  apply grid_loop_frame. intros i j Hi Hj. apply H; lia.
Qed.

(** C1 (as amended).  On every EMF state with the geometry of [emf_new],
    the E update called by [emf_advance_openacc] ([yee_e_openacc] of emf.c)
    adds to each cell (i,j) with 0 <= i <= nx[0] and 0 <= j <= nx[1]+1 the
    increments
      E.x += dty (B.z[i,j] - B.z[i,j-1]) - dt J.x,
      E.y += -dtx (B.z[i,j] - B.z[i-1,j]) - dt J.y,
      E.z += dtx (B.y[i,j] - B.y[i-1,j]) - dty (B.x[i,j] - B.x[i,j-1]) - dt J.z
    with dtx = dt/dx[0], dty = dt/dx[1], leaves every other cell of E as it
    was and does not write B (J is passed read-only).  The kernel that takes
    the structure applies the same increments on 0 <= i <= nx[0]+1, one
    column further, and to no cell outside that range. *)
Theorem advance_E_cells emf cur :
  emf_geometry emf ->
  let dt := emf_dt emf in
  let dtx := dt /! dx0 emf in
  let dty := dt /! dx1 emf in
  let inc := E_incremented (emf_B emf) (emf_E emf) (J cur) dtx dty dt
               (nrow emf) (cur_nrow cur) in
  (forall i j, 0 <= i <= nx0 emf -> 0 <= j <= nx1 emf + 1 ->
     emf_E (advance_E emf cur) (i + j * nrow emf) = inc i j) /\
  (forall k, (forall i j, 0 <= i <= nx0 emf -> 0 <= j <= nx1 emf + 1 ->
                k <> i + j * nrow emf) ->
     emf_E (advance_E emf cur) k = emf_E emf k) /\
  B_buf (advance_E emf cur) = B_buf emf /\
  (forall i j, 0 <= i <= nx0 emf + 1 -> 0 <= j <= nx1 emf + 1 ->
     emf_E (EmfKernel.yee_e_openacc emf cur dt) (i + j * nrow emf) = inc i j) /\
  (forall k, (forall i j, 0 <= i <= nx0 emf + 1 -> 0 <= j <= nx1 emf + 1 ->
                k <> i + j * nrow emf) ->
     emf_E (EmfKernel.yee_e_openacc emf cur dt) k = emf_E emf k) /\
  B_buf (EmfKernel.yee_e_openacc emf cur dt) = B_buf emf.
Proof.
  intros (G00 & G01 & G10 & G11 & Hrow & Hx & Hy). cbv zeta.
  repeat split.
  - intros i j Hi Hj. unfold advance_E. rewrite emf_E_set_E.
    apply yee_e_openacc_cell; lia.
  - intros k Hk. unfold advance_E. rewrite emf_E_set_E.
    now apply yee_e_openacc_frame.
  - intros i j Hi Hj. apply kernel_yee_e_cell; lia.
  - intros k Hk. now apply kernel_yee_e_frame.
Qed.

End YeeE.

(** A 2 x 2 grid over the reals with unit cells, unit time step, fields at
    rest and a unit current [J.x] in the guard cell (3, 0). *)
Definition emf_2x2 : t_emf R := emf_new 2 2 2%R 2%R 1%R.

Definition current_guard : t_current R :=
  mk_current (fun k => if k =? 3 then mk_vfld 1%R 0%R 0%R else zero_fld) 5.

Lemma advance_E_cells_witness :
  emf_geometry emf_2x2 /\
  emf_E (advance_E emf_2x2 current_guard) (1 + 1 * nrow emf_2x2)
  = E_incremented (emf_B emf_2x2) (emf_E emf_2x2) (J current_guard)
      (emf_dt emf_2x2 /! dx0 emf_2x2) (emf_dt emf_2x2 /! dx1 emf_2x2) (emf_dt emf_2x2)
      (nrow emf_2x2) (cur_nrow current_guard) 1 1.
Proof.
  assert (G : emf_geometry emf_2x2) by (unfold emf_geometry; simpl; lia).
  split; [exact G|].
  apply (proj1 (advance_E_cells emf_2x2 current_guard G)); simpl; lia.
Defined.

(** C1 as stated fails on the kernel that takes the structure: the cell
    (nx[0]+1, 0) lies outside 0 <= i <= nx[0] and its E.x changes. *)
Lemma yee_e_writes_column_nx0_plus_1 :
  let E' := emf_E (EmfKernel.yee_e_openacc emf_2x2 current_guard (emf_dt emf_2x2)) in
  ~ (forall i j, ~ (0 <= i <= nx0 emf_2x2 /\ 0 <= j <= nx1 emf_2x2 + 1) ->
       E' (i + j * nrow emf_2x2) = emf_E emf_2x2 (i + j * nrow emf_2x2)).
Proof.
  cbv zeta. intros H.
  assert (Hout : ~ (0 <= 3 <= nx0 emf_2x2 /\ 0 <= 0 <= nx1 emf_2x2 + 1)) by (simpl; lia).
  specialize (H 3 0 Hout).
  rewrite kernel_yee_e_cell in H by (simpl; lia).
  unfold E_incremented in H. simpl in H.
  apply (f_equal vx) in H. simpl in H. lra.
Qed.

(* ================================================================== *)
(** * Periodic guard cells *)
(* ================================================================== *)

Section Wrap.
Context {A : Type}.
Implicit Types (a line : Z -> A).

(** The three copies that close one grid line of [n] cells with one guard
    cell below and two above: cell -1 from cell n-1, cell n from cell 0,
    cell n+1 from cell 1, in that order.  [idx] places the line in the
    array. *)
Definition wrap3_at (idx : Z -> Z) (n : Z) (a : Z -> A) : Z -> A :=
  let a := upd a (idx (-1)) (a (idx (n - 1))) in
  let a := upd a (idx n) (a (idx 0)) in
  upd a (idx (n + 1)) (a (idx 1)).

Definition wrap3 (n : Z) (line : Z -> A) : Z -> A := wrap3_at (fun p => p) n line.

Definition wrap_lines (idx : Z -> Z -> Z) (n llo lhi : Z) (a : Z -> A) : Z -> A :=
  for_range llo lhi (fun l a => wrap3_at (idx l) n a) a.

Ltac upd_cases :=
  unfold wrap3, wrap3_at, upd;
  repeat match goal with
         | |- context [Z.eqb ?x ?y] => destruct (Z.eqb_spec x y)
         end;
  try reflexivity; try lia.

Lemma wrap3_periodic n line :
  0 <= n ->
  wrap3 n line (-1) = wrap3 n line (n - 1) /\
  wrap3 n line n = wrap3 n line 0 /\
  wrap3 n line (n + 1) = wrap3 n line 1.
Proof.
  intros Hn. repeat split; upd_cases;
    repeat match goal with H : _ = _ |- _ => first [rewrite H | rewrite <- H]; clear H end;
    try reflexivity; try (f_equal; lia).
Qed.

Lemma wrap3_interior n line p :
  p <> -1 -> p <> n -> p <> n + 1 -> wrap3 n line p = line p.
Proof. intros. upd_cases. Qed.

Lemma wrap3_ext n line line' p :
  0 <= n -> -1 <= p < n + 2 ->
  (forall q, -1 <= q < n + 2 -> line q = line' q) ->
  wrap3 n line p = wrap3 n line' p.
Proof.
  intros Hn Hp H. unfold wrap3, wrap3_at, upd.
  repeat match goal with
         | |- context [Z.eqb ?x ?y] => destruct (Z.eqb_spec x y)
         end; apply H; lia.
Qed.

Lemma wrap3_at_other idx n a k :
  k <> idx (-1) -> k <> idx n -> k <> idx (n + 1) -> wrap3_at idx n a k = a k.
Proof. intros. unfold wrap3_at. now rewrite !upd_other. Qed.

Lemma wrap3_at_line idx n a p :
  0 <= n -> -1 <= p < n + 2 ->
  (forall q q', -1 <= q < n + 2 -> -1 <= q' < n + 2 -> idx q = idx q' -> q = q') ->
  wrap3_at idx n a (idx p) = wrap3 n (fun q => a (idx q)) p.
Proof.
  intros Hn Hp Hinj.
  assert (D : forall q q', -1 <= q < n + 2 -> -1 <= q' < n + 2 ->
                           (idx q =? idx q') = (q =? q')).
  { intros q q' Hq Hq'. destruct (Z.eqb_spec q q') as [->|Hne].
    - apply Z.eqb_refl.
    - destruct (Z.eqb_spec (idx q) (idx q')) as [E|]; [|reflexivity].
      apply Hinj in E; [contradiction | lia | lia]. }
  unfold wrap3, wrap3_at, upd.
  rewrite !D by lia. reflexivity.
Qed.

Lemma wrap_lines_cell idx n llo lhi a l p :
  0 <= n -> llo <= l < lhi -> -1 <= p < n + 2 ->
  (forall l l' q q', llo <= l < lhi -> llo <= l' < lhi ->
                     -1 <= q < n + 2 -> -1 <= q' < n + 2 ->
                     idx l q = idx l' q' -> l = l' /\ q = q') ->
  wrap_lines idx n llo lhi a (idx l p) = wrap3 n (fun q => a (idx l q)) p.
Proof.
  intros Hn Hl Hp Hinj. unfold wrap_lines.
  assert (G : forall l p, llo <= l < lhi -> -1 <= p < n + 2 ->
            for_range llo lhi (fun l a => wrap3_at (idx l) n a) a (idx l p)
            = if l <? lhi then wrap3 n (fun q => a (idx l q)) p else a (idx l p)).
  { apply (for_range_ind (fun i r => forall l p, llo <= l < lhi -> -1 <= p < n + 2 ->
             r (idx l p) = if l <? i then wrap3 n (fun q => a (idx l q)) p else a (idx l p))).
    - lia.
    - intros l0 p0 Hl0 Hp0. destruct (Z.ltb_spec l0 llo); [lia | reflexivity].
    - intros i r Hi IH l0 p0 Hl0 Hp0.
      destruct (Z.eq_dec l0 i) as [->|Hne].
      + rewrite wrap3_at_line; try assumption.
        * destruct (Z.ltb_spec i (i + 1)); [|lia].
          apply wrap3_ext; try assumption.
          intros q Hq. rewrite IH by assumption.
          destruct (Z.ltb_spec i i); [lia | reflexivity].
        * intros q q' Hq Hq' E. apply (Hinj i i q q') in E; tauto.
      + rewrite wrap3_at_other.
        * rewrite IH by assumption.
          destruct (Z.ltb_spec l0 i), (Z.ltb_spec l0 (i + 1)); try lia; reflexivity.
        * intros E. apply Hinj in E; try lia.
        * intros E. apply Hinj in E; try lia.
        * intros E. apply Hinj in E; try lia. }
  rewrite G by assumption. destruct (Z.ltb_spec l lhi); [reflexivity | lia].
Qed.

Lemma wrap_lines_frame idx n llo lhi a k :
  (forall l, llo <= l < lhi -> k <> idx l (-1) /\ k <> idx l n /\ k <> idx l (n + 1)) ->
  wrap_lines idx n llo lhi a k = a k.
Proof.
  intros H. unfold wrap_lines. apply (for_range_frame (fun a => a k)).
  intros l s Hl. destruct (H l Hl) as (H1 & H2 & H3). now apply wrap3_at_other.
Qed.

End Wrap.

Section GuardCells.
Context {F : Type} {SF : Scalar F}.
Implicit Types (emf : t_emf F) (a : Z -> t_vfld F) (eb : t_EB F).

(** The three component stores are the copy of the cell. *)
Lemma copy3_upd : @copy3 F = fun a dst src => upd a dst (a src).
Proof.
  extensionality a. extensionality dst. extensionality src. extensionality k.
  unfold copy3, upd_x, upd_y, upd_z, upd.
  destruct (Z.eqb_spec k dst) as [->|Hk]; [|reflexivity].
  rewrite !Z.eqb_refl.
  destruct (Z.eqb_spec src dst) as [E|E]; simpl.
  - rewrite E. destruct (a dst); reflexivity.
  - destruct (a src); reflexivity.
Qed.

Definition row_idx (nrow : Z) (j c : Z) : Z := c + j * nrow.
Definition col_idx (nrow : Z) (i r : Z) : Z := i + r * nrow.

Lemma row_idx_inj nrow n0 jlo jhi :
  nrow = 1 + n0 + 2 ->
  forall l l' q q', jlo <= l < jhi -> jlo <= l' < jhi ->
    -1 <= q < n0 + 2 -> -1 <= q' < n0 + 2 ->
    row_idx nrow l q = row_idx nrow l' q' -> l = l' /\ q = q'.
Proof.
  intros Hrow l l' q q' _ _ Hq Hq' E. unfold row_idx in E.
  apply (cell_index_inj nrow (-1)) in E; [tauto | lia | lia].
Qed.

Lemma col_idx_inj nrow n0 n1 :
  nrow = 1 + n0 + 2 ->
  forall l l' q q', -1 <= l < n0 + 2 -> -1 <= l' < n0 + 2 ->
    -1 <= q < n1 + 2 -> -1 <= q' < n1 + 2 ->
    col_idx nrow l q = col_idx nrow l' q' -> l = l' /\ q = q'.
Proof.
  intros Hrow l l' q q' Hl Hl' _ _ E. unfold col_idx in E.
  apply (cell_index_inj nrow (-1)) in E; [tauto | lia | lia].
Qed.

(** The row body of the CPU kernel and of the OpenACC kernel: the same
    three copies. *)
Lemma gc_x_row_cpu eb nrow n0 j :
  for_range 0 2 (fun i eb => copy3_EB eb (n0 + i + j * nrow) (i + j * nrow))
    (for_range (- (1)) 0 (fun i eb => copy3_EB eb (i + j * nrow) (n0 + i + j * nrow)) eb)
  = (wrap3_at (row_idx nrow j) n0 (fst eb), wrap3_at (row_idx nrow j) n0 (snd eb)).
Proof.
  unfold for_range, copy3_EB, wrap3_at, row_idx. simpl. rewrite copy3_upd.
  replace (n0 + -1 + j * nrow) with (n0 - 1 + j * nrow) by lia.
  replace (n0 + 0 + j * nrow) with (n0 + j * nrow) by lia.
  reflexivity.
Qed.

Lemma gc_x_row_acc eb nrow n0 j :
  for_range (- (1)) 2 (fun i eb =>
      if i <? 0 then copy3_EB eb (i + j * nrow) (n0 + i + j * nrow)
      else copy3_EB eb (n0 + i + j * nrow) (i + j * nrow)) eb
  = (wrap3_at (row_idx nrow j) n0 (fst eb), wrap3_at (row_idx nrow j) n0 (snd eb)).
Proof.
  unfold for_range, copy3_EB, wrap3_at, row_idx. simpl. rewrite copy3_upd.
  replace (n0 + -1 + j * nrow) with (n0 - 1 + j * nrow) by lia.
  replace (n0 + 0 + j * nrow) with (n0 + j * nrow) by lia.
  reflexivity.
Qed.

Lemma wrap_lines_pair (idx : Z -> Z -> Z) n llo lhi eb
  (body : Z -> t_EB F -> t_EB F) :
  (forall l eb, body l eb = (wrap3_at (idx l) n (fst eb), wrap3_at (idx l) n (snd eb))) ->
  for_range llo lhi body eb
  = (wrap_lines idx n llo lhi (fst eb), wrap_lines idx n llo lhi (snd eb)).
Proof.
  intros H. unfold wrap_lines.
  rewrite (surjective_pairing (for_range llo lhi body eb)). f_equal.
  - apply (for_range_map fst). intros i s _. now rewrite H.
  - apply (for_range_map snd). intros i s _. now rewrite H.
Qed.

Lemma gc_x_loops_wrap eb nrow n0 n1 :
  gc_x_loops eb nrow n0 n1 1 2 1 2
  = (wrap_lines (row_idx nrow) n0 (-1) (n1 + 2) (fst eb),
     wrap_lines (row_idx nrow) n0 (-1) (n1 + 2) (snd eb)).
Proof.
  unfold gc_x_loops. apply wrap_lines_pair. intros j s. apply gc_x_row_cpu.
Qed.

Lemma gc_x_openacc_wrap eb nrow n0 n1 :
  emf_update_gc_x_openacc eb nrow n0 n1 1 2 1 2
  = (wrap_lines (row_idx nrow) n0 (-1) (n1 + 2) (fst eb),
     wrap_lines (row_idx nrow) n0 (-1) (n1 + 2) (snd eb)).
Proof.
  unfold emf_update_gc_x_openacc. apply wrap_lines_pair. intros j s. apply gc_x_row_acc.
Qed.

(** A grid is periodic in x on its rows -1 .. n1+1. *)
Definition periodic_x (a : Z -> t_vfld F) (nrow n0 n1 : Z) : Prop :=
  forall j, -1 <= j < n1 + 2 ->
    a (-1 + j * nrow) = a (n0 - 1 + j * nrow) /\
    a (n0 + j * nrow) = a (0 + j * nrow) /\
    a (n0 + 1 + j * nrow) = a (1 + j * nrow).

Lemma wrap_rows_periodic a nrow n0 n1 :
  nrow = 1 + n0 + 2 -> 0 <= n0 ->
  periodic_x (wrap_lines (row_idx nrow) n0 (-1) (n1 + 2) a) nrow n0 n1.
Proof.
  intros Hrow Hn j Hj.
  pose proof (row_idx_inj nrow n0 (-1) (n1 + 2) Hrow) as Hinj.
  change (-1 + j * nrow) with (row_idx nrow j (-1)).
  change (n0 - 1 + j * nrow) with (row_idx nrow j (n0 - 1)).
  change (n0 + j * nrow) with (row_idx nrow j n0).
  change (0 + j * nrow) with (row_idx nrow j 0).
  change (n0 + 1 + j * nrow) with (row_idx nrow j (n0 + 1)).
  change (1 + j * nrow) with (row_idx nrow j 1).
  rewrite !wrap_lines_cell by (assumption || lia).
  apply wrap3_periodic. assumption.
Qed.

(** Copying whole rows of a grid that is periodic in x keeps it so. *)
Lemma wrap_cols_periodic a nrow n0 n1 :
  nrow = 1 + n0 + 2 -> 0 <= n0 -> 0 <= n1 ->
  periodic_x a nrow n0 n1 ->
  periodic_x (wrap_lines (col_idx nrow) n1 (-1) (n0 + 2) a) nrow n0 n1.
Proof.
  intros Hrow Hn0 Hn1 Hp j Hj.
  pose proof (col_idx_inj nrow n0 n1 Hrow) as Hinj.
  change (-1 + j * nrow) with (col_idx nrow (-1) j).
  change (n0 - 1 + j * nrow) with (col_idx nrow (n0 - 1) j).
  change (n0 + j * nrow) with (col_idx nrow n0 j).
  change (0 + j * nrow) with (col_idx nrow 0 j).
  change (n0 + 1 + j * nrow) with (col_idx nrow (n0 + 1) j).
  change (1 + j * nrow) with (col_idx nrow 1 j).
  rewrite !wrap_lines_cell by (assumption || lia).
  repeat split; apply wrap3_ext; try assumption; intros q Hq; unfold col_idx;
    destruct (Hp q Hq) as (H1 & H2 & H3); assumption.
Qed.

(** The column body of the periodic y wrap of the second kernel set. *)
Lemma gc_y_col eb nrow n1 i :
  for_range (- (1)) 2 (fun j eb =>
      if j <? 0 then copy3_EB eb (i + j * nrow) (i + (n1 + j) * nrow)
      else copy3_EB eb (i + (n1 + j) * nrow) (i + j * nrow)) eb
  = (wrap3_at (col_idx nrow i) n1 (fst eb), wrap3_at (col_idx nrow i) n1 (snd eb)).
Proof.
  unfold for_range. change (Z.to_nat (2 - - (1))) with 3%nat. cbn [for_n].
  change (- (1) + 1) with 0. change (0 + 1) with 1.
  change (- (1) <? 0) with true. change (0 <? 0) with false. change (1 <? 0) with false.
  cbv iota. unfold copy3_EB, wrap3_at, col_idx. cbn [fst snd]. rewrite copy3_upd.
  replace (n1 + - (1)) with (n1 - 1) by lia.
  replace (n1 + 0) with n1 by lia.
  reflexivity.
Qed.

Lemma setters_geometry emf E B it n :
  (emf_geometry (set_E emf E) <-> emf_geometry emf) /\
  (emf_geometry (set_B emf B) <-> emf_geometry emf) /\
  (emf_geometry (set_bufs emf E B) <-> emf_geometry emf) /\
  (emf_geometry (set_iter emf it) <-> emf_geometry emf) /\
  (emf_geometry (set_n_move emf n) <-> emf_geometry emf).
Proof. unfold emf_geometry; simpl; tauto. Qed.

Lemma emf_update_gc_x_fields emf :
  emf_geometry emf -> moving_window emf = false ->
  (forall k, emf_E (emf_update_gc_x emf) k
             = wrap_lines (row_idx (nrow emf)) (nx0 emf) (-1) (nx1 emf + 2) (emf_E emf) k) /\
  (forall k, emf_B (emf_update_gc_x emf) k
             = wrap_lines (row_idx (nrow emf)) (nx0 emf) (-1) (nx1 emf + 2) (emf_B emf) k).
Proof.
  intros (G00 & G01 & G10 & G11 & Hrow & Hx & Hy) Hmw.
  unfold emf_update_gc_x. rewrite Hmw. cbn [negb].
  rewrite G00, G01, G10, G11, gc_x_loops_wrap. cbn [fst snd].
  split; intros k.
  - rewrite emf_E_set_B. apply emf_E_set_E.
  - apply emf_B_set_B.
Qed.

Lemma kernel_gc_x_fields emf :
  emf_geometry emf -> moving_window emf = false ->
  (forall k, emf_E (EmfKernel.emf_update_gc_openacc_x emf) k
             = wrap_lines (row_idx (nrow emf)) (nx0 emf) (-1) (nx1 emf + 2) (emf_E emf) k) /\
  (forall k, emf_B (EmfKernel.emf_update_gc_openacc_x emf) k
             = wrap_lines (row_idx (nrow emf)) (nx0 emf) (-1) (nx1 emf + 2) (emf_B emf) k).
Proof.
  intros (G00 & G01 & G10 & G11 & Hrow & Hx & Hy) Hmw.
  unfold EmfKernel.emf_update_gc_openacc_x. rewrite Hmw. cbn [negb].
  rewrite G00, G01, G10, G11, gc_x_openacc_wrap. cbn [fst snd].
  split; intros k.
  - rewrite emf_E_set_B. apply emf_E_set_E.
  - apply emf_B_set_B.
Qed.

Lemma kernel_gc_y_fields emf :
  emf_geometry emf ->
  (forall k, emf_E (EmfKernel.emf_update_gc_openacc_y emf) k
             = wrap_lines (col_idx (nrow emf)) (nx1 emf) (-1) (nx0 emf + 2) (emf_E emf) k) /\
  (forall k, emf_B (EmfKernel.emf_update_gc_openacc_y emf) k
             = wrap_lines (col_idx (nrow emf)) (nx1 emf) (-1) (nx0 emf + 2) (emf_B emf) k).
Proof.
  intros (G00 & G01 & G10 & G11 & Hrow & Hx & Hy).
  unfold EmfKernel.emf_update_gc_openacc_y. rewrite G00, G01, G10, G11.
  rewrite (wrap_lines_pair (col_idx (nrow emf)) (nx1 emf)).
  - cbn [fst snd]. split; intros k.
    + rewrite emf_E_set_B. apply emf_E_set_E.
    + apply emf_B_set_B.
  - intros i s. apply gc_y_col.
Qed.

Lemma periodic_x_ext a a' nrow n0 n1 :
  (forall k, a k = a' k) -> periodic_x a' nrow n0 n1 -> periodic_x a nrow n0 n1.
Proof. intros E H j Hj. rewrite !E. now apply H. Qed.

End GuardCells.

Section GuardCellsX.
Context {F : Type} {SF : Scalar F}.
Implicit Types (emf : t_emf F).

Lemma kernel_gc_x_shape emf :
  nrow (EmfKernel.emf_update_gc_openacc_x emf) = nrow emf /\
  nx0 (EmfKernel.emf_update_gc_openacc_x emf) = nx0 emf /\
  nx1 (EmfKernel.emf_update_gc_openacc_x emf) = nx1 emf /\
  (emf_geometry (EmfKernel.emf_update_gc_openacc_x emf) <-> emf_geometry emf).
Proof.
  unfold EmfKernel.emf_update_gc_openacc_x, emf_geometry.
  destruct (negb (moving_window emf)); simpl; tauto.
Qed.

Lemma kernel_gc_x_moving emf :
  moving_window emf = true -> EmfKernel.emf_update_gc_openacc_x emf = emf.
Proof. intros H. unfold EmfKernel.emf_update_gc_openacc_x. now rewrite H. Qed.

(** C6.  Without a moving window, after the x guard-cell update every row
    j of the grid (guard rows included) has, in every component of E and
    of B, F[-1,j] = F[nx0-1,j], F[nx0,j] = F[0,j] and F[nx0+1,j] = F[1,j]:
    after [emf_update_gc_x], and after the whole of [emf_update_gc_openacc]
    (its periodic y wrap copies whole rows and keeps the rows periodic).
    With a moving window the x guard-cell update leaves the x guard cells
    as they are: [emf_update_gc_x] changes nothing, the x loop of
    [emf_update_gc_openacc] is skipped, and the y wrap that
    [emf_update_gc_openacc] still does leaves every cell of the rows
    0 .. nx1-1 untouched, x guard cells included.  The loops of
    [emf_update_gc_openacc] are taken in the order in which they are
    written; from nx0 >= 2 and nx1 >= 2 on, no iteration reads a cell that
    another one writes, and the order does not matter. *)
Theorem guard_cells_x_periodic emf :
  emf_geometry emf ->
  (moving_window emf = false ->
     periodic_x (emf_E (emf_update_gc_x emf)) (nrow emf) (nx0 emf) (nx1 emf) /\
     periodic_x (emf_B (emf_update_gc_x emf)) (nrow emf) (nx0 emf) (nx1 emf) /\
     periodic_x (emf_E (EmfKernel.emf_update_gc_openacc emf)) (nrow emf) (nx0 emf) (nx1 emf) /\
     periodic_x (emf_B (EmfKernel.emf_update_gc_openacc emf)) (nrow emf) (nx0 emf) (nx1 emf)) /\
  (moving_window emf = true ->
     emf_update_gc_x emf = emf /\
     EmfKernel.emf_update_gc_openacc_x emf = emf /\
     forall i j, -1 <= i < nx0 emf + 2 -> 0 <= j < nx1 emf ->
       emf_E (EmfKernel.emf_update_gc_openacc emf) (i + j * nrow emf)
       = emf_E emf (i + j * nrow emf) /\
       emf_B (EmfKernel.emf_update_gc_openacc emf) (i + j * nrow emf)
       = emf_B emf (i + j * nrow emf)).
Proof.
  intros G. pose proof G as (G00 & G01 & G10 & G11 & Hrow & Hx & Hy).
  assert (Hrow' : nrow emf = 1 + nx0 emf + 2) by lia.
  split; intros Hmw.
  - destruct (emf_update_gc_x_fields emf G Hmw) as [HE HB].
    destruct (kernel_gc_x_fields emf G Hmw) as [KE KB].
    destruct (kernel_gc_x_shape emf) as (Sr & S0 & S1 & SG).
    destruct (kernel_gc_y_fields (EmfKernel.emf_update_gc_openacc_x emf)) as [YE YB].
    { now apply SG. }
    rewrite Sr, S0, S1 in YE, YB.
    split; [|split; [|split]].
    + refine (periodic_x_ext _ _ _ _ _ HE _). now apply wrap_rows_periodic.
    + refine (periodic_x_ext _ _ _ _ _ HB _). now apply wrap_rows_periodic.
    + unfold EmfKernel.emf_update_gc_openacc.
      refine (periodic_x_ext _ _ _ _ _ YE _). apply wrap_cols_periodic; try assumption.
      refine (periodic_x_ext _ _ _ _ _ KE _). now apply wrap_rows_periodic.
    + unfold EmfKernel.emf_update_gc_openacc.
      refine (periodic_x_ext _ _ _ _ _ YB _). apply wrap_cols_periodic; try assumption.
      refine (periodic_x_ext _ _ _ _ _ KB _). now apply wrap_rows_periodic.
  - split; [|split].
    + unfold emf_update_gc_x. now rewrite Hmw.
    + now apply kernel_gc_x_moving.
    + intros i j Hi Hj. unfold EmfKernel.emf_update_gc_openacc.
      rewrite kernel_gc_x_moving by assumption.
      destruct (kernel_gc_y_fields emf G) as [YE YB]. rewrite YE, YB.
      pose proof (col_idx_inj (nrow emf) (nx0 emf) (nx1 emf) Hrow') as Hinj.
      change (i + j * nrow emf) with (col_idx (nrow emf) i j).
      rewrite !wrap_lines_cell by (assumption || lia).
      rewrite !wrap3_interior by lia. split; reflexivity.
Qed.

End GuardCellsX.

(** A 2 x 2 grid without a moving window where every cell of the buffers
    holds another value: cell (0,0) is at index 6 of the buffers, so that
    [E.x] is 5, 6, 7, 8, 9 along the row 0 before the update and 7, 6, 7, 6, 7
    after it. *)
Definition emf_2x2_ramp : t_emf R :=
  mk_emf (fun b => mk_vfld (IZR b) 1%R 0%R) (fun b => mk_vfld 0%R (IZR b) 2%R)
    2 2 5 1 2 1 2 2%R 2%R 1%R 1%R 1%R 0 false 0.

(** A 2 x 2 grid with a moving window, at rest but for [E.x = 1] in the
    guard cell (-1, 1): buffer index 10, since cell (0,0) is at 6. *)
Definition emf_2x2_window : t_emf R :=
  mk_emf (fun b => if b =? 10 then mk_vfld 1%R 0%R 0%R else zero_fld) (fun _ => zero_fld)
    2 2 5 1 2 1 2 2%R 2%R 1%R 1%R 1%R 0 true 0.

Lemma guard_cells_x_periodic_witness :
  (emf_geometry emf_2x2_ramp /\
   periodic_x (emf_E (emf_update_gc_x emf_2x2_ramp)) (nrow emf_2x2_ramp) (nx0 emf_2x2_ramp)
     (nx1 emf_2x2_ramp) /\
   periodic_x (emf_B (EmfKernel.emf_update_gc_openacc emf_2x2_ramp)) (nrow emf_2x2_ramp)
     (nx0 emf_2x2_ramp) (nx1 emf_2x2_ramp)) /\
  (emf_geometry emf_2x2_window /\
   emf_update_gc_x emf_2x2_window = emf_2x2_window /\
   EmfKernel.emf_update_gc_openacc_x emf_2x2_window = emf_2x2_window).
Proof.
  assert (G : emf_geometry emf_2x2_ramp) by (unfold emf_geometry; simpl; lia).
  assert (G' : emf_geometry emf_2x2_window) by (unfold emf_geometry; simpl; lia).
  split.
  - split; [exact G|].
    destruct (proj1 (guard_cells_x_periodic emf_2x2_ramp G) eq_refl) as (H1 & _ & _ & H4).
    split; [exact H1 | exact H4].
  - split; [exact G'|].
    destruct (proj2 (guard_cells_x_periodic emf_2x2_window G') eq_refl) as (H1 & H2 & _).
    split; [exact H1 | exact H2].
Defined.

(** The y wrap of [emf_update_gc_openacc] is periodic with and without a
    moving window, and runs over the guard columns too: with a moving
    window it still rewrites the corner guard cell (-1, -1), from the cell
    (-1, nx1-1). *)
Lemma gc_y_wrap_rewrites_corner :
  moving_window emf_2x2_window = true /\
  ~ (forall j, -1 <= j < nx1 emf_2x2_window + 2 ->
       emf_E (EmfKernel.emf_update_gc_openacc emf_2x2_window) (-1 + j * nrow emf_2x2_window)
       = emf_E emf_2x2_window (-1 + j * nrow emf_2x2_window)).
Proof.
  split; [reflexivity|]. intros H.
  assert (Hr : -1 <= -1 < nx1 emf_2x2_window + 2) by (simpl; lia).
  specialize (H (-1) Hr).
  assert (G : emf_geometry emf_2x2_window) by (unfold emf_geometry; simpl; lia).
  unfold EmfKernel.emf_update_gc_openacc in H.
  rewrite kernel_gc_x_moving in H by reflexivity.
  destruct (kernel_gc_y_fields emf_2x2_window G) as [YE _]. rewrite YE in H.
  change (-1 + -1 * nrow emf_2x2_window) with (col_idx (nrow emf_2x2_window) (-1) (-1)) in H.
  rewrite wrap_lines_cell in H; try (simpl; lia).
  - unfold wrap3, wrap3_at, upd, col_idx, emf_E, view, emf_off in H. simpl in H.
    apply (f_equal vx) in H. simpl in H. lra.
  - apply (col_idx_inj _ 2 2). reflexivity.
Qed.

(* ================================================================== *)
(** * The moving window *)
(* ================================================================== *)

Ltac zbool :=
  repeat match goal with
         | |- context [Z.ltb ?a ?b] => destruct (Z.ltb_spec a b)
         | |- context [Z.leb ?a ?b] => destruct (Z.leb_spec a b)
         | |- context [Z.eqb ?a ?b] => destruct (Z.eqb_spec a b)
         end;
  cbn [andb orb negb]; try reflexivity; try lia.

Section ShiftRow.
Context {A : Type} (z : A) (L : Z).
Implicit Types (a t : Z -> A) (ar : (Z -> A) * (Z -> A)).

(** The two inner loops of the window shift on one array and its scratch
    ring. *)
Definition blk_load (lim nrow j begin : Z) ar : (Z -> A) * (Z -> A) :=
  for_range 0 L (fun i ar =>
    (fst ar, upd (snd ar) i
                (if begin + i <? lim then fst ar (begin + 1 + i + j * nrow) else z))) ar.

Definition blk_store (nrow j begin : Z) ar : (Z -> A) * (Z -> A) :=
  for_range 0 L (fun i ar =>
    if begin + i <? nrow
    then (upd (fst ar) (begin + i + j * nrow) (snd ar i), snd ar)
    else ar) ar.

Definition blk_row (lim nrow j : Z) ar : (Z -> A) * (Z -> A) :=
  for_step 0 nrow L (fun begin ar =>
    blk_store nrow j begin (blk_load lim nrow j begin ar)) ar.

Lemma blk_load_fst lim nrow j begin ar :
  fst (blk_load lim nrow j begin ar) = fst ar.
Proof. unfold blk_load. apply (for_range_frame fst). reflexivity. Qed.

Lemma blk_load_snd lim nrow j begin ar i :
  0 <= i < L ->
  snd (blk_load lim nrow j begin ar) i
  = if begin + i <? lim then fst ar (begin + 1 + i + j * nrow) else z.
Proof.
  intros Hi. unfold blk_load.
  set (f := fun s : (Z -> A) * (Z -> A) => (fst s, snd s i)).
  match goal with
  | |- snd ?r i = ?v => change (snd (f r) = v)
  end.
  rewrite (for_range_hit f 0 L i); try assumption.
  - unfold f. cbn [fst snd]. now rewrite upd_same.
  - intros i' s Hr Hne. unfold f. cbn [fst snd]. rewrite upd_other by lia. reflexivity.
  - intros s s' E. unfold f in *. cbn [fst snd] in *. rewrite !upd_same.
    injection E as E1 E2. now rewrite E1.
Qed.

Lemma blk_store_snd nrow j begin ar :
  snd (blk_store nrow j begin ar) = snd ar.
Proof.
  unfold blk_store. apply (for_range_frame snd).
  intros i s _. destruct (begin + i <? nrow); reflexivity.
Qed.

Lemma blk_store_fst nrow j begin ar k :
  fst (blk_store nrow j begin ar) k
  = if (0 <=? k - begin - j * nrow) && (k - begin - j * nrow <? L)
       && (k - j * nrow <? nrow)
    then snd ar (k - begin - j * nrow) else fst ar k.
Proof.
  unfold blk_store.
  destruct ((0 <=? k - begin - j * nrow) && (k - begin - j * nrow <? L)
            && (k - j * nrow <? nrow)) eqn:C.
  - apply andb_prop in C as [C C3]. apply andb_prop in C as [C1 C2].
    apply Z.leb_le in C1. apply Z.ltb_lt in C2, C3.
    remember (k - begin - j * nrow) as i0 eqn:Hi0.
    set (f := fun s : (Z -> A) * (Z -> A) => (fst s k, snd s)).
    match goal with
    | |- fst ?r k = ?v => change (fst (f r) = v)
    end.
    rewrite (for_range_hit f 0 L i0); try lia.
    + unfold f. destruct (Z.ltb_spec (begin + i0) nrow); [|lia].
      cbn [fst snd]. replace (begin + i0 + j * nrow) with k by lia. apply upd_same.
    + intros i s Hr Hne. unfold f.
      destruct (begin + i <? nrow); [|reflexivity].
      cbn [fst snd]. rewrite upd_other by lia. reflexivity.
    + intros s s' E. unfold f in *.
      destruct (Z.ltb_spec (begin + i0) nrow); [|lia].
      cbn [fst snd] in *. injection E as E1 E2.
      replace (begin + i0 + j * nrow) with k by lia.
      rewrite !upd_same. now rewrite E2.
  - apply (for_range_frame (fun s => fst s k)).
    intros i s Hi. destruct (Z.ltb_spec (begin + i) nrow); [|reflexivity].
    cbn [fst]. apply upd_other. intros ->.
    replace (begin + i + j * nrow - begin - j * nrow) with i in C by lia.
    replace (begin + i + j * nrow - j * nrow) with (begin + i) in C by lia.
    destruct (Z.leb_spec 0 i), (Z.ltb_spec i L), (Z.ltb_spec (begin + i) nrow);
      try lia; discriminate.
Qed.

(** One row after its blocks: shifted left by one up to [lim], the value
    [z] from there on. *)
Lemma blk_row_spec lim nrow j ar k :
  0 < L -> 0 <= nrow ->
  fst (blk_row lim nrow j ar) k
  = if (j * nrow <=? k) && (k <? j * nrow + nrow)
    then (if k - j * nrow <? lim then fst ar (k + 1) else z)
    else fst ar k.
Proof.
  intros HL Hn. unfold blk_row. rewrite for_step_blocks by assumption.
  set (nb := (nrow + L - 1) / L).
  assert (Hnb : 0 <= nb) by (apply Z.div_pos; lia).
  assert (Hup : nrow + L - 1 < (nb + 1) * L).
  { unfold nb. pose proof (Z.mul_succ_div_gt (nrow + L - 1) L HL). lia. }
  assert (G : forall k,
    fst (for_range 0 nb (fun b ar =>
           blk_store nrow j (b * L) (blk_load lim nrow j (b * L) ar)) ar) k
    = if (j * nrow <=? k) && (k <? j * nrow + Z.min (nb * L) nrow)
      then (if k - j * nrow <? lim then fst ar (k + 1) else z)
      else fst ar k).
  { apply (for_range_ind (fun b r => forall k,
      fst r k = if (j * nrow <=? k) && (k <? j * nrow + Z.min (b * L) nrow)
                then (if k - j * nrow <? lim then fst ar (k + 1) else z)
                else fst ar k)).
    - assumption.
    - intros k0. zbool.
    - intros b r Hb IH k0. rewrite blk_store_fst, blk_load_fst.
      destruct ((0 <=? k0 - b * L - j * nrow) && (k0 - b * L - j * nrow <? L)
                && (k0 - j * nrow <? nrow)) eqn:C.
      + apply andb_prop in C as [C C3]. apply andb_prop in C as [C1 C2].
        apply Z.leb_le in C1. apply Z.ltb_lt in C2, C3.
        rewrite blk_load_snd by lia. rewrite IH.
        replace (b * L + (k0 - b * L - j * nrow)) with (k0 - j * nrow) by lia.
        replace (b * L + 1 + (k0 - b * L - j * nrow) + j * nrow) with (k0 + 1) by lia.
        destruct (Z.leb_spec (j * nrow) k0); [|lia].
        destruct (Z.ltb_spec k0 (j * nrow + Z.min ((b + 1) * L) nrow)); [|nia].
        cbn [andb].
        destruct (Z.leb_spec (j * nrow) (k0 + 1)); [|lia].
        destruct (Z.ltb_spec (k0 + 1) (j * nrow + Z.min (b * L) nrow)); [nia|].
        reflexivity.
      + rewrite IH.
        assert (D : (j * nrow <=? k0) && (k0 <? j * nrow + Z.min ((b + 1) * L) nrow)
                    = (j * nrow <=? k0) && (k0 <? j * nrow + Z.min (b * L) nrow)).
        { destruct (Z.leb_spec 0 (k0 - b * L - j * nrow)),
                   (Z.ltb_spec (k0 - b * L - j * nrow) L),
                   (Z.ltb_spec (k0 - j * nrow) nrow); cbn [andb] in C; try discriminate;
            zbool; exfalso; nia. }
        now rewrite D. }
  rewrite G. replace (Z.min (nb * L) nrow) with nrow by nia. reflexivity.
Qed.

(** All the rows of a buffer after the shift. *)
Lemma blk_rows_spec lim nrow nr a t c j :
  0 < L -> 0 < nrow -> 0 <= c < nrow -> 0 <= j < nr ->
  for_range 0 nr (fun j a => fst (blk_row lim nrow j (a, t))) a (c + j * nrow)
  = if c <? lim then a (c + j * nrow + 1) else z.
Proof.
  intros HL Hn Hc Hj.
  rewrite (for_range_hit2 (fun a => a (c + j * nrow)) (fun a => a (c + j * nrow + 1))
             0 nr j); try assumption.
  - rewrite blk_row_spec by lia. cbn [fst].
    replace (c + j * nrow - j * nrow) with c by lia. zbool.
  - intros j' s Hr Hne. rewrite blk_row_spec by lia. cbn [fst]. zbool; exfalso; nia.
  - intros j' s Hr. rewrite blk_row_spec by lia. cbn [fst]. zbool; exfalso; nia.
  - intros s s' E. rewrite !blk_row_spec by lia. cbn [fst].
    replace (c + j * nrow - j * nrow) with c by lia. zbool. assumption.
Qed.

End ShiftRow.

Section MovingWindow.
Context {F : Type} {SF : Scalar F}.
Variable LOCAL_BUFFER_SIZE : Z.
Implicit Types (emf : t_emf F) (cur : t_current F) (s : t_mw F).

Local Abbreviation L := LOCAL_BUFFER_SIZE.

Definition mw_pair_E s : (Z -> t_vfld F) * (Z -> t_vfld F) := (mw_E s, mw_E_temp s).
Definition mw_pair_B s : (Z -> t_vfld F) * (Z -> t_vfld F) := (mw_B s, mw_B_temp s).

Lemma mw_block_E nrow g00 n0 j begin s :
  mw_pair_E (mw_store L nrow j begin (mw_load L nrow g00 n0 j begin s))
  = blk_store L nrow j begin (blk_load zero_fld L (g00 + n0 - 1) nrow j begin (mw_pair_E s)).
Proof.
  unfold mw_store, mw_load, blk_store, blk_load.
  rewrite (for_range_map mw_pair_E 0 L _
             (fun i ar => if begin + i <? nrow
                          then (upd (fst ar) (begin + i + j * nrow) (snd ar i), snd ar)
                          else ar)).
  - f_equal. apply (for_range_map mw_pair_E). intros i s' _.
    destruct (begin + i <? g00 + n0 - 1); reflexivity.
  - intros i s' _. destruct (begin + i <? nrow); reflexivity.
Qed.

Lemma mw_block_B nrow g00 n0 j begin s :
  mw_pair_B (mw_store L nrow j begin (mw_load L nrow g00 n0 j begin s))
  = blk_store L nrow j begin (blk_load zero_fld L (g00 + n0 - 1) nrow j begin (mw_pair_B s)).
Proof.
  unfold mw_store, mw_load, blk_store, blk_load.
  rewrite (for_range_map mw_pair_B 0 L _
             (fun i ar => if begin + i <? nrow
                          then (upd (fst ar) (begin + i + j * nrow) (snd ar i), snd ar)
                          else ar)).
  - f_equal. apply (for_range_map mw_pair_B). intros i s' _.
    destruct (begin + i <? g00 + n0 - 1); reflexivity.
  - intros i s' _. destruct (begin + i <? nrow); reflexivity.
Qed.

Lemma move_window_fst E B nrow g00 g10 g11 n0 n1 :
  fst (emf_move_window_openacc L E B nrow g00 g10 g11 n0 n1)
  = for_range 0 (g10 + n1 + g11) (fun j a =>
      fst (blk_row zero_fld L (g00 + n0 - 1) nrow j (a, fun _ => zero_fld))) E.
Proof.
  unfold emf_move_window_openacc. apply (for_range_map fst).
  intros j eb _. cbn [fst]. unfold blk_row, for_step.
  match goal with
  | |- mw_E ?r = _ => change (mw_E r) with (fst (mw_pair_E r))
  end.
  f_equal. apply (for_step_n_map mw_pair_E). intros i s. apply mw_block_E.
Qed.

Lemma move_window_snd E B nrow g00 g10 g11 n0 n1 :
  snd (emf_move_window_openacc L E B nrow g00 g10 g11 n0 n1)
  = for_range 0 (g10 + n1 + g11) (fun j a =>
      fst (blk_row zero_fld L (g00 + n0 - 1) nrow j (a, fun _ => zero_fld))) B.
Proof.
  unfold emf_move_window_openacc. apply (for_range_map snd).
  intros j eb _. cbn [snd]. unfold blk_row, for_step.
  match goal with
  | |- mw_B ?r = _ => change (mw_B r) with (fst (mw_pair_B r))
  end.
  f_equal. apply (for_step_n_map mw_pair_B). intros i s. apply mw_block_B.
Qed.

(** The shift of the window on a grid: every cell of a row takes the value
    of its right neighbour, up to the last interior cell, which is zeroed
    together with the two guard cells to its right. *)
Definition shifted_left (nrow n0 n1 : Z) (old new : Z -> t_vfld F) : Prop :=
  forall i j, -1 <= i < n0 + 2 -> -1 <= j < n1 + 2 ->
    new (i + j * nrow) = if i <? n0 - 1 then old (i + 1 + j * nrow) else zero_fld.

(** Parameters of the state that no kernel writes. *)
Definition same_params emf emf' : Prop :=
  nx0 emf' = nx0 emf /\ nx1 emf' = nx1 emf /\ nrow emf' = nrow emf /\
  gc00 emf' = gc00 emf /\ gc01 emf' = gc01 emf /\
  gc10 emf' = gc10 emf /\ gc11 emf' = gc11 emf /\
  dx0 emf' = dx0 emf /\ dx1 emf' = dx1 emf /\ emf_dt emf' = emf_dt emf /\
  moving_window emf' = moving_window emf.

Lemma same_params_refl emf : same_params emf emf.
Proof. unfold same_params; tauto. Qed.

Lemma same_params_trans emf1 emf2 emf3 :
  same_params emf1 emf2 -> same_params emf2 emf3 -> same_params emf1 emf3.
Proof. unfold same_params. intuition congruence. Qed.

Lemma emf_yee_params emf cur :
  same_params emf (emf_yee emf cur) /\
  emf_iter (emf_yee emf cur) = emf_iter emf /\ n_move (emf_yee emf cur) = n_move emf.
Proof. unfold same_params, emf_yee. simpl. tauto. Qed.

Lemma move_window_cells E B nrow n0 n1 c j :
  0 < L -> 0 < nrow -> 0 <= c < nrow -> 0 <= j < 1 + n1 + 2 ->
  fst (emf_move_window_openacc L E B nrow 1 1 2 n0 n1) (c + j * nrow)
  = (if c <? n0 then E (c + j * nrow + 1) else zero_fld) /\
  snd (emf_move_window_openacc L E B nrow 1 1 2 n0 n1) (c + j * nrow)
  = (if c <? n0 then B (c + j * nrow + 1) else zero_fld).
Proof.
  intros HL Hn Hc Hj. rewrite move_window_fst, move_window_snd.
  rewrite !blk_rows_spec by assumption.
  replace (1 + n0 - 1) with n0 by lia. split; reflexivity.
Qed.

(** The window shift of the second kernel set, on a copy of the buffers. *)
Lemma kernel_move_window_cells emf c j :
  0 < nrow emf -> 0 <= c < nrow emf -> 0 <= j < gc10 emf + nx1 emf + gc11 emf ->
  window_due emf = true ->
  E_buf (EmfKernel.emf_move_window_openacc emf) (c + j * nrow emf)
  = (if c <? gc00 emf + nx0 emf - 1 then E_buf emf (c + j * nrow emf + 1) else zero_fld) /\
  B_buf (EmfKernel.emf_move_window_openacc emf) (c + j * nrow emf)
  = (if c <? gc00 emf + nx0 emf - 1 then B_buf emf (c + j * nrow emf + 1) else zero_fld) /\
  n_move (EmfKernel.emf_move_window_openacc emf) = n_move emf + 1 /\
  same_params emf (EmfKernel.emf_move_window_openacc emf).
Proof.
  intros Hn Hc Hj Hdue. unfold EmfKernel.emf_move_window_openacc. rewrite Hdue.
  cbn [E_buf B_buf n_move set_n_move set_bufs].
  split; [|split; [|split; [reflexivity | unfold same_params; simpl; tauto]]].
  - match goal with
    | |- fst (for_range 0 ?nr ?body ?s0) _ = _ =>
        rewrite (for_range_map fst 0 nr body
                   (fun j a => for_range 0 (nrow emf) (fun i a =>
                      upd a (i + j * nrow emf)
                        (if i <? gc00 emf + nx0 emf - 1
                         then E_buf emf (i + j * nrow emf + 1) else zero_fld)) a))
    end.
    + cbn [fst].
      change (for_range 0 (gc10 emf + nx1 emf + gc11 emf) _ (E_buf emf))
        with (grid_loop (fun (_ : Z -> t_vfld F) i j =>
                if i <? gc00 emf + nx0 emf - 1
                then E_buf emf (i + j * nrow emf + 1) else zero_fld)
                (nrow emf) 0 (nrow emf) 0 (gc10 emf + nx1 emf + gc11 emf) (E_buf emf)).
      rewrite grid_loop_cell; try lia; reflexivity.
    + intros j' s _. apply (for_range_map fst). intros i s' _.
      destruct (i <? gc00 emf + nx0 emf - 1); reflexivity.
  - match goal with
    | |- snd (for_range 0 ?nr ?body ?s0) _ = _ =>
        rewrite (for_range_map snd 0 nr body
                   (fun j a => for_range 0 (nrow emf) (fun i a =>
                      upd a (i + j * nrow emf)
                        (if i <? gc00 emf + nx0 emf - 1
                         then B_buf emf (i + j * nrow emf + 1) else zero_fld)) a))
    end.
    + cbn [snd].
      change (for_range 0 (gc10 emf + nx1 emf + gc11 emf) _ (B_buf emf))
        with (grid_loop (fun (_ : Z -> t_vfld F) i j =>
                if i <? gc00 emf + nx0 emf - 1
                then B_buf emf (i + j * nrow emf + 1) else zero_fld)
                (nrow emf) 0 (nrow emf) 0 (gc10 emf + nx1 emf + gc11 emf) (B_buf emf)).
      rewrite grid_loop_cell; try lia; reflexivity.
    + intros j' s _. apply (for_range_map snd). intros i s' _.
      destruct (i <? gc00 emf + nx0 emf - 1); reflexivity.
Qed.

Lemma same_params_geometry emf emf' :
  same_params emf emf' -> emf_geometry emf -> emf_geometry emf'.
Proof. unfold same_params, emf_geometry. intuition congruence. Qed.

Lemma kernel_solve_params emf cur :
  let dt := emf_dt emf in
  let e := EmfKernel.emf_update_gc_openacc
             (EmfKernel.yee_b_openacc
                (EmfKernel.yee_e_openacc (EmfKernel.yee_b_openacc emf (dt /! f2)) cur dt)
                (dt /! f2)) in
  same_params emf e /\ emf_iter e = emf_iter emf /\ n_move e = n_move emf.
Proof.
  cbv zeta.
  unfold EmfKernel.emf_update_gc_openacc, EmfKernel.emf_update_gc_openacc_y,
    EmfKernel.emf_update_gc_openacc_x, same_params.
  match goal with
  | |- context [negb (moving_window ?e)] => destruct (negb (moving_window e))
  end; simpl; tauto.
Qed.

(** The shift of emf.c on a state, in grid coordinates. *)
Lemma move_window_shifted emf n nr n0 n1 :
  nrow emf = nr -> nx0 emf = n0 -> nx1 emf = n1 ->
  0 < L -> emf_geometry emf ->
  let eb := emf_move_window_openacc L (E_buf emf) (B_buf emf) (nrow emf)
              (gc00 emf) (gc10 emf) (gc11 emf) (nx0 emf) (nx1 emf) in
  let emf' := set_bufs (set_n_move emf n) (fst eb) (snd eb) in
  shifted_left nr n0 n1 (emf_E emf) (emf_E emf') /\
  shifted_left nr n0 n1 (emf_B emf) (emf_B emf').
Proof.
  intros <- <- <- HL (G00 & G01 & G10 & G11 & Hrow & Hx & Hy). cbv zeta.
  rewrite G00, G10, G11.
  split; intros i j Hi Hj; unfold emf_E, emf_B, view, emf_off;
    cbn [E_buf B_buf gc00 gc10 nrow set_bufs set_n_move]; rewrite G00, G10;
    replace (i + j * nrow emf + (1 + 1 * nrow emf)) with ((i + 1) + (j + 1) * nrow emf) by lia;
    destruct (move_window_cells (E_buf emf) (B_buf emf) (nrow emf) (nx0 emf) (nx1 emf)
                (i + 1) (j + 1)) as [HE HB]; try lia;
    rewrite ?HE, ?HB;
    destruct (Z.ltb_spec (i + 1) (nx0 emf)), (Z.ltb_spec i (nx0 emf - 1)); try lia;
    try reflexivity; f_equal; lia.
Qed.

(** The shift of the second kernel set on a state, in grid coordinates. *)
Lemma kernel_move_window_shifted emf nr n0 n1 :
  nrow emf = nr -> nx0 emf = n0 -> nx1 emf = n1 ->
  emf_geometry emf -> window_due emf = true ->
  let emf' := EmfKernel.emf_move_window_openacc emf in
  shifted_left nr n0 n1 (emf_E emf) (emf_E emf') /\
  shifted_left nr n0 n1 (emf_B emf) (emf_B emf') /\
  n_move emf' = n_move emf + 1.
Proof.
  intros <- <- <- (G00 & G01 & G10 & G11 & Hrow & Hx & Hy) Hdue. cbv zeta.
  assert (C : forall i j, -1 <= i < nx0 emf + 2 -> -1 <= j < nx1 emf + 2 ->
    emf_E (EmfKernel.emf_move_window_openacc emf) (i + j * nrow emf)
    = (if i <? nx0 emf - 1 then emf_E emf (i + 1 + j * nrow emf) else zero_fld) /\
    emf_B (EmfKernel.emf_move_window_openacc emf) (i + j * nrow emf)
    = (if i <? nx0 emf - 1 then emf_B emf (i + 1 + j * nrow emf) else zero_fld)).
  { intros i j Hi Hj.
    destruct (kernel_move_window_cells emf (i + 1) (j + 1)) as (HE & HB & _ & KP);
      try lia; try assumption.
    destruct KP as (Q0 & Q1 & Qr & Q00 & Q01 & Q10 & Q11 & _).
    unfold emf_E, emf_B, view, emf_off. rewrite Q00, Q10, Qr, G00, G10.
    replace (i + j * nrow emf + (1 + 1 * nrow emf)) with ((i + 1) + (j + 1) * nrow emf) by lia.
    rewrite HE, HB, G00.
    destruct (Z.ltb_spec (i + 1) (1 + nx0 emf - 1)), (Z.ltb_spec i (nx0 emf - 1)); try lia;
      split; try reflexivity; f_equal; lia. }
  split; [|split].
  - intros i j Hi Hj. now apply C.
  - intros i j Hi Hj. now apply C.
  - unfold EmfKernel.emf_move_window_openacc. rewrite Hdue. reflexivity.
Qed.

Lemma set_iter_params emf emf' n :
  same_params (set_iter emf n) emf' -> same_params emf emf'.
Proof. unfold same_params. simpl. tauto. Qed.

Lemma set_iter_fields emf n :
  same_params emf (set_iter emf n) /\ emf_iter (set_iter emf n) = n /\
  n_move (set_iter emf n) = n_move emf.
Proof. unfold same_params. simpl. tauto. Qed.

Lemma advance_mw_unfold emf cur :
  moving_window emf = true ->
  emf_advance_openacc L emf cur
  = let y := emf_yee (set_iter emf (emf_iter emf + 1)) cur in
    if (dx0 emf *! of_int (n_move emf + 1)) <!? (of_int (emf_iter emf + 1) *! emf_dt emf)
    then
      set_bufs (set_n_move y (n_move y + 1))
        (fst (emf_move_window_openacc L (E_buf y) (B_buf y) (nrow y)
                (gc00 y) (gc10 y) (gc11 y) (nx0 y) (nx1 y)))
        (snd (emf_move_window_openacc L (E_buf y) (B_buf y) (nrow y)
                (gc00 y) (gc10 y) (gc11 y) (nx0 y) (nx1 y)))
    else y.
Proof.
  intros Hmw. unfold emf_advance_openacc. cbv zeta.
  change (moving_window (emf_yee (set_iter emf (emf_iter emf + 1)) cur))
    with (moving_window emf).
  rewrite Hmw. reflexivity.
Qed.

Lemma kernel_advance_unfold emf cur :
  EmfKernel.emf_advance_openacc emf cur
  = let ks := EmfKernel.emf_update_gc_openacc
                (EmfKernel.yee_b_openacc
                   (EmfKernel.yee_e_openacc
                      (EmfKernel.yee_b_openacc emf (emf_dt emf /! f2)) cur (emf_dt emf))
                   (emf_dt emf /! f2)) in
    let ky := set_iter ks (emf_iter ks + 1) in
    if moving_window ky then EmfKernel.emf_move_window_openacc ky else ky.
Proof. reflexivity. Qed.

(** C5.  With the moving window enabled, [emf_advance_openacc] shifts the
    fields exactly when the simulation time, (iter+1) dt with the iteration
    count it has just incremented, exceeds dx[0] (n_move + 1).  Then every
    row of E and of B, as the Yee update left them, is shifted left by one
    cell (each cell from -1 to nx0-2 takes its right neighbour), the
    rightmost interior cell nx0-1 is zeroed, as are the two guard cells to
    its right, and n_move grows by one.  Otherwise the result is the state
    the field update left: no cell is shifted and n_move is unchanged.  The
    same holds of the second kernel set, where the window test follows the
    guard-cell update. *)
Theorem emf_advance_window emf cur :
  0 < L -> emf_geometry emf -> moving_window emf = true ->
  let dt := emf_dt emf in
  let due := (dx0 emf *! of_int (n_move emf + 1)) <!? (of_int (emf_iter emf + 1) *! dt) in
  let yee := emf_yee (set_iter emf (emf_iter emf + 1)) cur in
  let emf' := emf_advance_openacc L emf cur in
  let kyee :=
    set_iter (EmfKernel.emf_update_gc_openacc
                (EmfKernel.yee_b_openacc
                   (EmfKernel.yee_e_openacc (EmfKernel.yee_b_openacc emf (dt /! f2)) cur dt)
                   (dt /! f2))) (emf_iter emf + 1) in
  let kemf' := EmfKernel.emf_advance_openacc emf cur in
  (due = true ->
     n_move emf' = n_move emf + 1 /\
     shifted_left (nrow emf) (nx0 emf) (nx1 emf) (emf_E yee) (emf_E emf') /\
     shifted_left (nrow emf) (nx0 emf) (nx1 emf) (emf_B yee) (emf_B emf') /\
     n_move kemf' = n_move emf + 1 /\
     shifted_left (nrow emf) (nx0 emf) (nx1 emf) (emf_E kyee) (emf_E kemf') /\
     shifted_left (nrow emf) (nx0 emf) (nx1 emf) (emf_B kyee) (emf_B kemf')) /\
  (due = false ->
     emf' = yee /\ n_move emf' = n_move emf /\
     kemf' = kyee /\ n_move kemf' = n_move emf).
Proof.
  intros HL G Hmw. cbv zeta.
  rewrite (advance_mw_unfold emf cur Hmw), (kernel_advance_unfold emf cur). cbv zeta.
  (* emf.c *)
  destruct (emf_yee_params (set_iter emf (emf_iter emf + 1)) cur) as (YP & _ & Ynm).
  apply set_iter_params in YP. cbn [n_move set_iter] in Ynm.
  remember (emf_yee (set_iter emf (emf_iter emf + 1)) cur) as y eqn:Ey. clear Ey.
  pose proof (same_params_geometry _ _ YP G) as Gy.
  pose proof YP as (Y0 & Y1 & Yr & _).
  pose proof (move_window_shifted y (n_move y + 1) _ _ _ Yr Y0 Y1 HL Gy) as Sy.
  cbv zeta in Sy.
  (* the second kernel set *)
  destruct (kernel_solve_params emf cur) as (KP & Kit & Knm). cbv zeta in KP, Kit, Knm.
  remember (EmfKernel.emf_update_gc_openacc
              (EmfKernel.yee_b_openacc
                 (EmfKernel.yee_e_openacc
                    (EmfKernel.yee_b_openacc emf (emf_dt emf /! f2)) cur (emf_dt emf))
                 (emf_dt emf /! f2))) as ks eqn:Ek. clear Ek.
  rewrite Kit.
  destruct (set_iter_fields ks (emf_iter emf + 1)) as (KP2 & Kit2 & Knm2).
  pose proof (same_params_trans _ _ _ KP KP2) as KP'.
  remember (set_iter ks (emf_iter emf + 1)) as ky eqn:Ek. clear Ek KP2.
  pose proof (same_params_geometry _ _ KP' G) as Gk.
  assert (Hdue : window_due ky
                 = ((dx0 emf *! of_int (n_move emf + 1))
                    <!? (of_int (emf_iter emf + 1) *! emf_dt emf))).
  { unfold window_due. rewrite Knm2, Knm, Kit2.
    destruct KP' as (_ & _ & _ & _ & _ & _ & _ & -> & _ & -> & _). reflexivity. }
  assert (Hkm : moving_window ky = true).
  { destruct KP' as (_ & _ & _ & _ & _ & _ & _ & _ & _ & _ & ->). exact Hmw. }
  rewrite Hkm.
  split; intros Hd; rewrite Hd; rewrite Hd in Hdue; cbv iota.
  - destruct KP' as (K0 & K1 & Kr & _).
    destruct (kernel_move_window_shifted ky _ _ _ Kr K0 K1 Gk Hdue) as (KE & KB & Kn).
    destruct Sy as [SE SB].
    split; [cbn [n_move set_bufs set_n_move]; lia|].
    split; [exact SE|]. split; [exact SB|].
    split; [lia|]. split; [exact KE | exact KB].
  - split; [reflexivity|]. split; [exact Ynm|].
    unfold EmfKernel.emf_move_window_openacc. rewrite Hdue.
    split; [reflexivity | lia].
Qed.

End MovingWindow.

Lemma emf_advance_window_witness :
  0 < 4 /\ emf_geometry emf_2x2_window /\ moving_window emf_2x2_window = true /\
  (((dx0 emf_2x2_window *! of_int (n_move emf_2x2_window + 1))
    <!? (of_int (emf_iter emf_2x2_window + 1) *! emf_dt emf_2x2_window)) = false ->
   emf_advance_openacc 4 emf_2x2_window current_guard
   = emf_yee (set_iter emf_2x2_window (emf_iter emf_2x2_window + 1)) current_guard).
Proof.
  assert (G : emf_geometry emf_2x2_window) by (unfold emf_geometry; simpl; lia).
  split; [lia|]. split; [exact G|]. split; [reflexivity|].
  intros H.
  exact (proj1 (proj2 (emf_advance_window 4 emf_2x2_window current_guard
                         ltac:(lia) G eq_refl) H)).
Defined.

(* ================================================================== *)
(** * Laser parameters *)
(* ================================================================== *)

Lemma Rltb_true a b : (a < b)%R -> Rltb a b = true.
Proof. intros H. unfold Rltb. destruct (Rlt_dec a b); [reflexivity | contradiction]. Qed.

Lemma Rltb_false a b : (b <= a)%R -> Rltb a b = false.
Proof. intros H. unfold Rltb. destruct (Rlt_dec a b); [lra | reflexivity]. Qed.

Lemma Rleb_true a b : (a <= b)%R -> Rleb a b = true.
Proof. intros H. unfold Rleb. destruct (Rle_dec a b); [reflexivity | contradiction]. Qed.

Lemma Rleb_false a b : (b < a)%R -> Rleb a b = false.
Proof. intros H. unfold Rleb. destruct (Rle_dec a b); [lra | reflexivity]. Qed.

Lemma Reqb_true a b : a = b -> Reqb a b = true.
Proof. intros H. unfold Reqb. destruct (Req_dec_T a b); [reflexivity | contradiction]. Qed.

Lemma Reqb_false a b : a <> b -> Reqb a b = false.
Proof. intros H. unfold Reqb. destruct (Req_dec_T a b); [contradiction | reflexivity]. Qed.

Ltac rbool :=
  repeat (first [ rewrite Reqb_true by lra | rewrite Reqb_false by lra
                | rewrite Rleb_true by lra | rewrite Rleb_false by lra
                | rewrite Rltb_true by lra | rewrite Rltb_false by lra ]).

Section Laser.
Implicit Types (emf : t_emf R) (laser : t_emf_laser R).

(** The parameters [emf_add_laser] accepts. *)
Definition laser_accepted laser : Prop :=
  (0 < fwhm laser)%R \/
  (fwhm laser = 0%R /\ (0 < rise laser)%R /\ (0 <= flat laser)%R /\ (0 < fall laser)%R).

(** The laser as the validation leaves it: a positive FWHM overrides the
    rise, flat and fall times. *)
Definition laser_normalised laser : t_emf_laser R :=
  if Rltb 0 (fwhm laser) then set_rise_flat_fall laser (fwhm laser) 0%R (fwhm laser)
  else laser.

Lemma validate_laser_cases laser :
  ((fwhm laser < 0)%R ->
     validate_laser laser = Exits "Invalid laser FWHM, must be > 0, aborting." (-1)) /\
  ((0 < fwhm laser)%R ->
     validate_laser laser
     = Returns (set_rise_flat_fall laser (fwhm laser) 0%R (fwhm laser))) /\
  (fwhm laser = 0%R -> (rise laser <= 0)%R ->
     validate_laser laser = Exits "Invalid laser RISE, must be > 0, aborting." (-1)) /\
  (fwhm laser = 0%R -> (0 < rise laser)%R -> (flat laser < 0)%R ->
     validate_laser laser = Exits "Invalid laser FLAT, must be >= 0, aborting." (-1)) /\
  (fwhm laser = 0%R -> (0 < rise laser)%R -> (0 <= flat laser)%R -> (fall laser <= 0)%R ->
     validate_laser laser = Exits "Invalid laser FALL, must be > 0, aborting." (-1)) /\
  (fwhm laser = 0%R -> (0 < rise laser)%R -> (0 <= flat laser)%R -> (0 < fall laser)%R ->
     validate_laser laser = Returns laser).
Proof.
  unfold validate_laser. cbn [feqb fleb fltb f0 R_scalar].
  repeat split; intros; rbool; cbn [negb rise flat fall set_rise_flat_fall];
    rbool; reflexivity.
Qed.

Lemma validate_laser_accepted laser :
  laser_accepted laser -> validate_laser laser = Returns (laser_normalised laser).
Proof.
  destruct (validate_laser_cases laser) as (_ & Hpos & _ & _ & _ & Hzero).
  unfold laser_normalised. intros [H | (H0 & H1 & H2 & H3)].
  - rewrite Rltb_true by assumption. now apply Hpos.
  - rewrite Rltb_false by lra. now apply Hzero.
Qed.

Lemma validate_laser_rejected laser :
  ~ laser_accepted laser -> exists msg, validate_laser laser = Exits msg (-1).
Proof.
  destruct (validate_laser_cases laser) as (Hneg & _ & Hr & Hfl & Hfa & _).
  unfold laser_accepted. intros H.
  destruct (Rtotal_order (fwhm laser) 0) as [Hlt | [Heq | Hgt]].
  - eexists. now apply Hneg.
  - destruct (Rle_lt_dec (rise laser) 0) as [R1 | R1]; [eexists; now apply Hr|].
    destruct (Rlt_le_dec (flat laser) 0) as [R2 | R2]; [eexists; now apply Hfl|].
    destruct (Rle_lt_dec (fall laser) 0) as [R3 | R3]; [eexists; now apply Hfa|].
    exfalso. apply H. right. tauto.
  - exfalso. apply H. now left.
Qed.

End Laser.

Section LaserLaunch.
Context {F : Type} {SF : Scalar F}.
Implicit Types (emf : t_emf F) (laser : t_emf_laser F) (eb : t_EB F).

(** The launch touches the y and z components of the interior cells
    only. *)
Definition laser_frame (nrow n0 n1 : Z) (old new : Z -> t_vfld F) : Prop :=
  (forall k, vx (new k) = vx (old k)) /\
  (forall k, (forall i j, 0 <= i < n0 -> 0 <= j < n1 -> k <> i + j * nrow) ->
             new k = old k).

Lemma laser_frame_refl nrow n0 n1 a : laser_frame nrow n0 n1 a a.
Proof. split; reflexivity. Qed.

Lemma laser_cell_frame nrow n0 n1 eb0 eb i j ey ez by_ bz :
  0 <= i < n0 -> 0 <= j < n1 ->
  laser_frame nrow n0 n1 (fst eb0) (fst eb) /\ laser_frame nrow n0 n1 (snd eb0) (snd eb) ->
  laser_frame nrow n0 n1 (fst eb0) (fst (laser_cell eb (i + j * nrow) ey ez by_ bz)) /\
  laser_frame nrow n0 n1 (snd eb0) (snd (laser_cell eb (i + j * nrow) ey ez by_ bz)).
Proof.
  intros Hi Hj [[E1 E2] [B1 B2]]. unfold laser_cell, upd_y, upd_z. cbn [fst snd].
  split; split; intros k; try intros Hk; unfold upd;
    destruct (Z.eqb_spec k (i + j * nrow)) as [->|Hne]; cbn [vx vy vz];
    rewrite ?Z.eqb_refl; cbn [vx vy vz]; auto;
    exfalso; apply (Hk i j); auto.
Qed.

Lemma launch_laser_frame emf laser offset_y :
  let eb := launch_laser emf laser offset_y in
  laser_frame (nrow emf) (nx0 emf) (nx1 emf) (emf_E emf) (fst eb) /\
  laser_frame (nrow emf) (nx0 emf) (nx1 emf) (emf_B emf) (snd eb).
Proof.
  cbv zeta. unfold launch_laser.
  destruct (laser_type laser).
  - apply (for_range_inv (fun eb =>
      laser_frame (nrow emf) (nx0 emf) (nx1 emf) (emf_E emf) (fst eb) /\
      laser_frame (nrow emf) (nx0 emf) (nx1 emf) (emf_B emf) (snd eb))).
    + split; apply laser_frame_refl.
    + intros i eb Hi IH. cbv zeta.
      apply (for_range_inv (fun eb =>
        laser_frame (nrow emf) (nx0 emf) (nx1 emf) (emf_E emf) (fst eb) /\
        laser_frame (nrow emf) (nx0 emf) (nx1 emf) (emf_B emf) (snd eb))); [assumption|].
      intros j eb' Hj IH'. now apply (laser_cell_frame _ _ _ (emf_E emf, emf_B emf)).
  - apply (for_range_inv (fun eb =>
      laser_frame (nrow emf) (nx0 emf) (nx1 emf) (emf_E emf) (fst eb) /\
      laser_frame (nrow emf) (nx0 emf) (nx1 emf) (emf_B emf) (snd eb))).
    + split; apply laser_frame_refl.
    + intros i eb Hi IH. cbv zeta.
      apply (for_range_inv (fun eb =>
        laser_frame (nrow emf) (nx0 emf) (nx1 emf) (emf_E emf) (fst eb) /\
        laser_frame (nrow emf) (nx0 emf) (nx1 emf) (emf_B emf) (snd eb))); [assumption|].
      intros j eb' Hj IH'. now apply (laser_cell_frame _ _ _ (emf_E emf, emf_B emf)).
Qed.

(** The laser source of cell (i, j): what the launch adds to E and to B
    there, component by component. *)
Definition laser_source emf laser (offset_y i j : Z) : t_vfld F * t_vfld F :=
  let dx := dx0 emf in
  let dy := dx1 emf in
  let r_center := axis laser in
  let amp := omega0 laser *! a0 laser in
  let cos_pol := fcos (polarization laser) in
  let sin_pol := fsin (polarization laser) in
  let z := of_int i *! dx in
  let z_2 := z +! dx /! f2 in
  let lenv := amp *! lon_env laser z in
  let lenv_2 := amp *! lon_env laser z_2 in
  match laser_type laser with
  | PLANE =>
      let k := omega0 laser in
      (mk_vfld f0 (lenv *! fcos (k *! z) *! cos_pol) (lenv *! fcos (k *! z) *! sin_pol),
       mk_vfld f0 (fneg lenv_2 *! fcos (k *! z_2) *! sin_pol)
         (lenv_2 *! fcos (k *! z_2) *! cos_pol))
  | GAUSSIAN =>
      let r := of_int (j + offset_y) *! dy -! r_center in
      let r_2 := r +! dy /! f2 in
      (mk_vfld f0 (lenv *! gauss_phase laser z r_2 *! cos_pol)
         (lenv *! gauss_phase laser z r *! sin_pol),
       mk_vfld f0 (fneg lenv_2 *! gauss_phase laser z_2 r *! sin_pol)
         (lenv_2 *! gauss_phase laser z_2 r_2 *! cos_pol))
  end.

(** A cell with the source added to its y and z components. *)
Definition with_source (v src : t_vfld F) : t_vfld F :=
  mk_vfld (vx v) (vy v +! vy src) (vz v +! vz src).

Lemma laser_cell_at eb k ey ez by_ bz :
  fst (laser_cell eb k ey ez by_ bz) k = mk_vfld (vx (fst eb k)) (vy (fst eb k) +! ey)
                                           (vz (fst eb k) +! ez) /\
  snd (laser_cell eb k ey ez by_ bz) k = mk_vfld (vx (snd eb k)) (vy (snd eb k) +! by_)
                                           (vz (snd eb k) +! bz).
Proof.
  unfold laser_cell, upd_y, upd_z. cbn [fst snd]. now rewrite !upd_same.
Qed.

Lemma laser_cell_other eb k k' ey ez by_ bz :
  k' <> k ->
  fst (laser_cell eb k ey ez by_ bz) k' = fst eb k' /\
  snd (laser_cell eb k ey ez by_ bz) k' = snd eb k'.
Proof.
  intros H. unfold laser_cell, upd_y, upd_z. cbn [fst snd]. now rewrite !upd_other by assumption.
Qed.

(** The two loops of the launch, seen from one interior cell. *)
Lemma laser_loops_cell (nrow n0 n1 : Z) (ey ez by_ bz : Z -> Z -> F) eb0 i j :
  0 <= i < n0 -> 0 <= j < n1 -> n0 <= nrow ->
  let eb := for_range 0 n0 (fun i eb =>
              for_range 0 n1 (fun j eb =>
                laser_cell eb (i + j * nrow) (ey i j) (ez i j) (by_ i j) (bz i j)) eb) eb0 in
  fst eb (i + j * nrow)
  = mk_vfld (vx (fst eb0 (i + j * nrow))) (vy (fst eb0 (i + j * nrow)) +! ey i j)
      (vz (fst eb0 (i + j * nrow)) +! ez i j) /\
  snd eb (i + j * nrow)
  = mk_vfld (vx (snd eb0 (i + j * nrow))) (vy (snd eb0 (i + j * nrow)) +! by_ i j)
      (vz (snd eb0 (i + j * nrow)) +! bz i j).
Proof.
  intros Hi Hj Hrow eb.
  set (k := i + j * nrow).
  set (obs := fun eb : t_EB F => (fst eb k, snd eb k)).
  assert (Hne : forall i' j', 0 <= i' < n0 -> (i', j') <> (i, j) -> i' + j' * nrow <> k).
  { intros i' j' Hi' Hd E. apply Hd. unfold k in E.
    destruct (cell_index_inj nrow 0 i' j' i j ltac:(lia) ltac:(lia) E) as [-> ->].
    reflexivity. }
  assert (G : obs eb
              = obs (laser_cell eb0 k (ey i j) (ez i j) (by_ i j) (bz i j))).
  { unfold eb. rewrite (for_range_hit obs 0 n0 i); try assumption.
    - rewrite (for_range_hit obs 0 n1 j); try assumption.
      + reflexivity.
      + intros j' s Hj' Hd. unfold obs.
        destruct (laser_cell_other s (i + j' * nrow) k (ey i j') (ez i j') (by_ i j') (bz i j'))
          as [-> ->]; [|reflexivity].
        intros E. symmetry in E. revert E. apply Hne; [assumption|]. congruence.
      + intros s s' E. unfold obs in *. fold k.
        destruct (laser_cell_at s k (ey i j) (ez i j) (by_ i j) (bz i j)) as [-> ->].
        destruct (laser_cell_at s' k (ey i j) (ez i j) (by_ i j) (bz i j)) as [-> ->].
        injection E as -> ->. reflexivity.
    - intros i' s Hi' Hd. apply (for_range_frame obs).
      intros j' s' Hj'. unfold obs.
      destruct (laser_cell_other s' (i' + j' * nrow) k (ey i' j') (ez i' j') (by_ i' j')
                  (bz i' j')) as [-> ->]; [|reflexivity].
      intros E. symmetry in E. revert E. apply Hne; [assumption|]. congruence.
    - intros s s' E.
      rewrite !(for_range_hit obs 0 n1 j); try assumption.
      + unfold obs in *. fold k.
        destruct (laser_cell_at s k (ey i j) (ez i j) (by_ i j) (bz i j)) as [-> ->].
        destruct (laser_cell_at s' k (ey i j) (ez i j) (by_ i j) (bz i j)) as [-> ->].
        injection E as -> ->. reflexivity.
      + intros j' s0 Hj' Hd. unfold obs.
        destruct (laser_cell_other s0 (i + j' * nrow) k (ey i j') (ez i j') (by_ i j')
                    (bz i j')) as [-> ->]; [|reflexivity].
        intros E'. symmetry in E'. revert E'. apply Hne; [assumption|]. congruence.
      + intros s0 s0' E'. unfold obs in *. fold k.
        destruct (laser_cell_at s0 k (ey i j) (ez i j) (by_ i j) (bz i j)) as [-> ->].
        destruct (laser_cell_at s0' k (ey i j) (ez i j) (by_ i j) (bz i j)) as [-> ->].
        injection E' as -> ->. reflexivity.
      + intros j' s0 Hj' Hd. unfold obs.
        destruct (laser_cell_other s0 (i + j' * nrow) k (ey i j') (ez i j') (by_ i j')
                    (bz i j')) as [-> ->]; [|reflexivity].
        intros E'. symmetry in E'. revert E'. apply Hne; [assumption|]. congruence.
      + intros s0 s0' E'. unfold obs in *. fold k.
        destruct (laser_cell_at s0 k (ey i j) (ez i j) (by_ i j) (bz i j)) as [-> ->].
        destruct (laser_cell_at s0' k (ey i j) (ez i j) (by_ i j) (bz i j)) as [-> ->].
        injection E' as -> ->. reflexivity. }
  unfold obs in G.
  destruct (laser_cell_at eb0 k (ey i j) (ez i j) (by_ i j) (bz i j)) as [E1 E2].
  rewrite E1, E2 in G. injection G as -> ->. split; reflexivity.
Qed.

(** The launch adds the source to every interior cell, once. *)
Lemma launch_laser_cell emf laser offset_y i j :
  0 <= i < nx0 emf -> 0 <= j < nx1 emf -> nx0 emf <= nrow emf ->
  let eb := launch_laser emf laser offset_y in
  let src := laser_source emf laser offset_y i j in
  fst eb (i + j * nrow emf) = with_source (emf_E emf (i + j * nrow emf)) (fst src) /\
  snd eb (i + j * nrow emf) = with_source (emf_B emf (i + j * nrow emf)) (snd src).
Proof.
  intros Hi Hj Hrow. cbv zeta. unfold launch_laser, laser_source, with_source.
  destruct (laser_type laser); cbv zeta; cbn [fst snd vx vy vz].
  - exact (laser_loops_cell (nrow emf) (nx0 emf) (nx1 emf)
             (fun i j => omega0 laser *! a0 laser *! lon_env laser (of_int i *! dx0 emf)
                         *! fcos (omega0 laser *! (of_int i *! dx0 emf))
                         *! fcos (polarization laser))
             (fun i j => omega0 laser *! a0 laser *! lon_env laser (of_int i *! dx0 emf)
                         *! fcos (omega0 laser *! (of_int i *! dx0 emf))
                         *! fsin (polarization laser))
             (fun i j => fneg (omega0 laser *! a0 laser
                               *! lon_env laser (of_int i *! dx0 emf +! dx0 emf /! f2))
                         *! fcos (omega0 laser *! (of_int i *! dx0 emf +! dx0 emf /! f2))
                         *! fsin (polarization laser))
             (fun i j => omega0 laser *! a0 laser
                         *! lon_env laser (of_int i *! dx0 emf +! dx0 emf /! f2)
                         *! fcos (omega0 laser *! (of_int i *! dx0 emf +! dx0 emf /! f2))
                         *! fcos (polarization laser))
             (emf_E emf, emf_B emf) i j Hi Hj Hrow).
  - exact (laser_loops_cell (nrow emf) (nx0 emf) (nx1 emf)
             (fun i j => omega0 laser *! a0 laser *! lon_env laser (of_int i *! dx0 emf)
                         *! gauss_phase laser (of_int i *! dx0 emf)
                              (of_int (j + offset_y) *! dx1 emf -! axis laser
                               +! dx1 emf /! f2)
                         *! fcos (polarization laser))
             (fun i j => omega0 laser *! a0 laser *! lon_env laser (of_int i *! dx0 emf)
                         *! gauss_phase laser (of_int i *! dx0 emf)
                              (of_int (j + offset_y) *! dx1 emf -! axis laser)
                         *! fsin (polarization laser))
             (fun i j => fneg (omega0 laser *! a0 laser
                               *! lon_env laser (of_int i *! dx0 emf +! dx0 emf /! f2))
                         *! gauss_phase laser (of_int i *! dx0 emf +! dx0 emf /! f2)
                              (of_int (j + offset_y) *! dx1 emf -! axis laser)
                         *! fsin (polarization laser))
             (fun i j => omega0 laser *! a0 laser
                         *! lon_env laser (of_int i *! dx0 emf +! dx0 emf /! f2)
                         *! gauss_phase laser (of_int i *! dx0 emf +! dx0 emf /! f2)
                              (of_int (j + offset_y) *! dx1 emf -! axis laser
                               +! dx1 emf /! f2)
                         *! fcos (polarization laser))
             (emf_E emf, emf_B emf) i j Hi Hj Hrow).
Qed.

End LaserLaunch.

(** C9 (as amended).  [emf_add_laser] exits, with a message that names the
    offending parameter and before it has touched the fields, exactly on the
    parameter sets it does not accept: a negative FWHM, or a zero FWHM
    (meaning: not given) together with a non-positive rise, a negative flat or
    a non-positive fall.  A positive FWHM overrides rise, flat and fall, so no
    value of these makes the call exit then.  On every accepted set the call
    returns; it leaves the laser with rise = fall = FWHM and flat = 0 when the
    FWHM is positive, keeps every parameter of the EMF state, and changes the
    fields only by adding the laser source: every interior cell (i, j) has
    the source of the cell added to the y and z components of E and of B,
    once, and nothing else changes. *)
Theorem emf_add_laser_validation (emf : t_emf R) (laser : t_emf_laser R) (offset_y : Z) :
  ((fwhm laser < 0)%R ->
     emf_add_laser emf laser offset_y
     = Exits "Invalid laser FWHM, must be > 0, aborting." (-1)) /\
  (fwhm laser = 0%R -> (rise laser <= 0)%R ->
     emf_add_laser emf laser offset_y
     = Exits "Invalid laser RISE, must be > 0, aborting." (-1)) /\
  (fwhm laser = 0%R -> (0 < rise laser)%R -> (flat laser < 0)%R ->
     emf_add_laser emf laser offset_y
     = Exits "Invalid laser FLAT, must be >= 0, aborting." (-1)) /\
  (fwhm laser = 0%R -> (0 < rise laser)%R -> (0 <= flat laser)%R -> (fall laser <= 0)%R ->
     emf_add_laser emf laser offset_y
     = Exits "Invalid laser FALL, must be > 0, aborting." (-1)) /\
  (~ laser_accepted laser ->
     exists msg, emf_add_laser emf laser offset_y = Exits msg (-1)) /\
  (laser_accepted laser ->
     exists emf',
       emf_add_laser emf laser offset_y = Returns (emf', laser_normalised laser) /\
       same_params emf emf' /\ emf_iter emf' = emf_iter emf /\ n_move emf' = n_move emf /\
       laser_frame (nrow emf) (nx0 emf) (nx1 emf) (emf_E emf) (emf_E emf') /\
       laser_frame (nrow emf) (nx0 emf) (nx1 emf) (emf_B emf) (emf_B emf') /\
       (nx0 emf <= nrow emf -> forall i j, 0 <= i < nx0 emf -> 0 <= j < nx1 emf ->
          let src := laser_source emf (laser_normalised laser) offset_y i j in
          emf_E emf' (i + j * nrow emf)
          = with_source (emf_E emf (i + j * nrow emf)) (fst src) /\
          emf_B emf' (i + j * nrow emf)
          = with_source (emf_B emf (i + j * nrow emf)) (snd src))).
Proof.
  destruct (validate_laser_cases laser) as (Hneg & _ & Hr & Hfl & Hfa & _).
  unfold emf_add_laser.
  split; [intros H; now rewrite Hneg|].
  split; [intros H0 H; now rewrite Hr|].
  split; [intros H0 H1 H2; now rewrite Hfl|].
  split; [intros H0 H1 H2 H3; now rewrite Hfa|].
  split.
  - intros H. destruct (validate_laser_rejected laser H) as [msg ->]. now exists msg.
  - intros H. rewrite (validate_laser_accepted laser H).
    eexists. split; [reflexivity|].
    split; [unfold same_params; simpl; tauto|].
    split; [reflexivity|]. split; [reflexivity|].
    destruct (launch_laser_frame emf (laser_normalised laser) offset_y) as [[E1 E2] [B1 B2]].
    split; [|split].
    + split; intros k; try intros Hk; rewrite emf_E_set_B, emf_E_set_E;
        [apply E1 | now apply E2].
    + split; intros k; try intros Hk; rewrite emf_B_set_B; [apply B1 | now apply B2].
    + intros Hrow i j Hi Hj.
      destruct (launch_laser_cell emf (laser_normalised laser) offset_y i j Hi Hj Hrow)
        as [C1 C2].
      rewrite emf_E_set_B, emf_E_set_E, emf_B_set_B. split; assumption.
Qed.

(** Two lasers [emf_add_laser] accepts: no FWHM given and rise = fall = 1,
    flat = 0; and FWHM = 2 given with a rise of -1. *)
Definition laser_no_fwhm : t_emf_laser R :=
  mk_laser PLANE 1%R 0%R 1%R 0%R 1%R 1%R 1%R 0%R 1%R 0%R 0%R.
Definition laser_fwhm_over_rise : t_emf_laser R :=
  mk_laser PLANE 1%R 2%R (-1)%R 0%R 1%R 1%R 1%R 0%R 1%R 0%R 0%R.

(** The first of them on the 2 x 2 grid at rest: the cell (0, 0) is on
    the fall of the pulse at its top, and the launch adds 1 to [E.y]
    there. *)
Lemma emf_add_laser_validation_witness :
  laser_accepted laser_no_fwhm /\
  exists emf',
    emf_add_laser emf_2x2 laser_no_fwhm 0 = Returns (emf', laser_normalised laser_no_fwhm) /\
    vy (emf_E emf' 0) = 1%R.
Proof.
  assert (Ha : laser_accepted laser_no_fwhm) by (right; simpl; repeat split; lra).
  split; [exact Ha|].
  destruct (proj2 (proj2 (proj2 (proj2 (proj2
              (emf_add_laser_validation emf_2x2 laser_no_fwhm 0))))) Ha)
    as (emf' & E & _ & _ & _ & _ & _ & Hcell).
  exists emf'. split; [exact E|].
  destruct (Hcell ltac:(simpl; lia) 0 0 ltac:(simpl; lia) ltac:(simpl; lia)) as [C _].
  change (0 + 0 * nrow emf_2x2) with 0 in C. rewrite C.
  assert (En : laser_normalised laser_no_fwhm = laser_no_fwhm).
  { unfold laser_normalised. change (fwhm laser_no_fwhm) with 0%R.
    now rewrite (Rltb_false 0 0) by lra. }
  rewrite En. unfold with_source, laser_source, lon_env, laser_no_fwhm.
  cbn [fst snd vx vy vz laser_type fwhm rise flat fall a0 omega0 polarization
       laser_start axis W0
       fadd fsub fmul fdiv fneg fsin fcos fltb f0 f1 f2 fpi_2 of_int R_scalar].
  change (dx0 emf_2x2) with (2 / IZR 2)%R.
  replace (IZR 0 * (2 / IZR 2))%R with 0%R by (simpl; lra).
  rbool.
  replace (PI / 2 * (0 - (1 - 1 - 0 - 1)) / 1)%R with (PI / 2)%R by lra.
  replace (1 * 0)%R with 0%R by lra.
  rewrite sin_PI2, cos_0.
  change (vy (emf_E emf_2x2 0)) with 0%R. lra.
Defined.

(** C9 as stated fails: a FWHM of 0 is not positive and a rise of -1 is
    not positive, and neither call exits. *)
Lemma emf_add_laser_accepts_nonpositive :
  ((fwhm laser_no_fwhm <= 0)%R /\
   exists r, emf_add_laser emf_2x2 laser_no_fwhm 0 = Returns r) /\
  ((rise laser_fwhm_over_rise <= 0)%R /\
   exists r, emf_add_laser emf_2x2 laser_fwhm_over_rise 0 = Returns r).
Proof.
  split; (split; [simpl; lra|]); unfold emf_add_laser.
  - rewrite validate_laser_accepted; [eexists; reflexivity|].
    right. simpl. repeat split; lra.
  - rewrite validate_laser_accepted; [eexists; reflexivity|].
    left. simpl. lra.
Qed.

(* ================================================================== *)
(** * The prefix sum on unbounded integers *)
(* ================================================================== *)

(** The proofs go through the same scan with sums that do not wrap and
    with the exact number of blocks, [size / W] rounded up; the scan of the
    code is compared with it afterwards. *)
Definition exact_num_blocks (size W : Z) : Z := (size + W - 1) / W.

Definition exact_up_sweep (W : Z) (local_buffer : Z -> Z) : Z -> Z :=
  for_double 1 W (fun offset lb =>
    for_step (offset - 1) W (2 * offset) (fun i lb =>
      upd lb (i + offset) (lb (i + offset) + lb i)) lb) local_buffer.

Definition exact_down_sweep (W : Z) (local_buffer : Z -> Z) : Z -> Z :=
  for_halve (Z.shiftr W 1) (fun offset lb =>
    for_step (offset - 1) W (2 * offset) (fun i lb =>
      let temp := lb i in
      let lb := upd lb i (lb (i + offset)) in
      upd lb (i + offset) (lb (i + offset) + temp)) lb) local_buffer.

Definition exact_scan_block (W size block_id : Z) (vb : (Z -> Z) * (Z -> Z))
  : (Z -> Z) * (Z -> Z) :=
  let vector := fst vb in
  let block_sum := snd vb in
  let begin_idx := block_id * W in
  let local_buffer :=
    for_range 0 W (fun i lb =>
      if i + begin_idx <? size then upd lb i (vector (i + begin_idx))
      else upd lb i 0) (fun _ => 0) in
  let local_buffer := exact_up_sweep W local_buffer in
  let block_sum := upd block_sum block_id (local_buffer (W - 1)) in
  let local_buffer := upd local_buffer (W - 1) 0 in
  let local_buffer := exact_down_sweep W local_buffer in
  let vector :=
    for_range 0 W (fun i vector =>
      if i + begin_idx <? size then upd vector (i + begin_idx) (local_buffer i)
      else vector) vector in
  (vector, block_sum).

Definition exact_add_block_sums (W size num_blocks : Z) (block_sum vector : Z -> Z)
  : Z -> Z :=
  for_range 1 num_blocks (fun block_id vector =>
    let begin_idx := block_id * W in
    for_range 0 W (fun i vector =>
      if i + begin_idx <? size
      then upd vector (i + begin_idx) (vector (i + begin_idx) + block_sum block_id)
      else vector) vector) vector.

Definition exact_prefix_sum_blocks (W : Z) (rec : (Z -> Z) -> Z -> option (Z -> Z))
  (vector : Z -> Z) (size : Z) : option (Z -> Z) :=
  let num_blocks := exact_num_blocks size W in
  let vb := for_range 0 num_blocks (exact_scan_block W size) (vector, fun _ => 0) in
  let vector := fst vb in
  let block_sum := snd vb in
  if 1 <? num_blocks then
    match rec block_sum num_blocks with
    | Some block_sum => Some (exact_add_block_sums W size num_blocks block_sum vector)
    | None => None
    end
  else Some vector.

Fixpoint exact_prefix_sum (LOCAL_BUFFER_SIZE : Z) (fuel : nat) (vector : Z -> Z) (size : Z)
  : option (Z -> Z) :=
  match fuel with
  | O => None
  | S f =>
      if size <? Z.quot LOCAL_BUFFER_SIZE 4
      then exact_prefix_sum_blocks MIN_WARP_SIZE (exact_prefix_sum LOCAL_BUFFER_SIZE f)
             vector size
      else exact_prefix_sum_blocks LOCAL_BUFFER_SIZE (exact_prefix_sum LOCAL_BUFFER_SIZE f)
             vector size
  end.


(* ================================================================== *)
(** * The exclusive prefix sum *)
(* ================================================================== *)

(** The sum of [a] over [lo, hi). *)
Definition zsum (a : Z -> Z) (lo hi : Z) : Z :=
  for_range lo hi (fun i acc => acc + a i) 0.

Lemma zsum_empty a lo hi : hi <= lo -> zsum a lo hi = 0.
Proof. intros H. unfold zsum. now rewrite for_range_empty. Qed.

Lemma zsum_last a lo hi : lo < hi -> zsum a lo hi = zsum a lo (hi - 1) + a (hi - 1).
Proof. intros H. unfold zsum. now rewrite for_range_last. Qed.

Lemma zsum_succ a lo hi : lo <= hi -> zsum a lo (hi + 1) = zsum a lo hi + a hi.
Proof.
  intros H. rewrite zsum_last by lia. replace (hi + 1 - 1) with hi by lia. reflexivity.
Qed.

Lemma zsum_split a lo mid hi :
  lo <= mid <= hi -> zsum a lo hi = zsum a lo mid + zsum a mid hi.
Proof.
  intros H. unfold zsum at 3.
  apply (for_range_ind (fun i acc => zsum a lo i = zsum a lo mid + acc)); try lia.
  intros i acc Hi IH. rewrite zsum_succ by lia. lia.
Qed.

Lemma zsum_ext a b lo hi :
  (forall i, lo <= i < hi -> a i = b i) -> zsum a lo hi = zsum b lo hi.
Proof.
  intros H. unfold zsum. apply for_range_ext. intros i acc Hi. now rewrite H.
Qed.

Lemma zsum_shift a d lo hi :
  zsum (fun i => a (i + d)) lo hi = zsum a (lo + d) (hi + d).
Proof.
  destruct (Z_le_gt_dec lo hi) as [Hle|Hgt].
  - unfold zsum at 1.
    apply (for_range_ind (fun i acc => acc = zsum a (lo + d) (i + d))); try lia.
    + now rewrite zsum_empty by lia.
    + intros i acc Hi ->. replace (i + 1 + d) with (i + d + 1) by lia.
      now rewrite zsum_succ by lia.
  - now rewrite !zsum_empty by lia.
Qed.

Lemma mod0_iff x y : 0 < y -> (x mod y = 0 <-> exists c, x = c * y).
Proof.
  intros Hy. rewrite Z.mod_divide by lia. unfold Z.divide. reflexivity.
Qed.

(** The strided inner loops of the sweeps run over the pairs (i, i+o) with
    i = o - 1 + 2 o m. *)
Lemma sweep_step_blocks {St : Type} (o n : Z) (body : Z -> St -> St) s :
  1 <= o -> 0 <= n ->
  for_step (o - 1) (2 * o * n) (2 * o) body s
  = for_range 0 n (fun m => body (o - 1 + m * (2 * o))) s.
Proof.
  intros Ho Hn. unfold for_step, for_range.
  rewrite (for_step_n_blocks (2 * o * n) (2 * o) body ltac:(lia) (Z.to_nat (n - 0)));
    try reflexivity; try nia.
Qed.

Section Levels.
Implicit Types (lb : Z -> Z).

Definition up_level (o n : Z) lb : Z -> Z :=
  for_range 0 n (fun m lb =>
    let i := o - 1 + m * (2 * o) in
    upd lb (i + o) (lb (i + o) + lb i)) lb.

Definition down_level (o n : Z) lb : Z -> Z :=
  for_range 0 n (fun m lb =>
    let i := o - 1 + m * (2 * o) in
    let temp := lb i in
    let lb := upd lb i (lb (i + o)) in
    upd lb (i + o) (lb (i + o) + temp)) lb.

Lemma up_level_pair o n lb m :
  1 <= o -> 0 <= m < n ->
  up_level o n lb (2 * o * (m + 1) - 1)
  = lb (2 * o * (m + 1) - 1) + lb (2 * o * (m + 1) - 1 - o).
Proof.
  intros Ho Hm. unfold up_level.
  rewrite (for_range_hit2 (fun lb => lb (2 * o * (m + 1) - 1))
             (fun lb => (lb (2 * o * (m + 1) - 1), lb (2 * o * (m + 1) - 1 - o)))
             0 n m); try assumption.
  - cbv zeta. replace (o - 1 + m * (2 * o) + o) with (2 * o * (m + 1) - 1) by lia.
    rewrite upd_same. f_equal. f_equal. lia.
  - intros m' s Hr Hne. cbv zeta. apply upd_other. nia.
  - intros m' s Hr. cbv zeta. rewrite !upd_other by nia. reflexivity.
  - intros s s' E. assert (E1 := f_equal fst E); assert (E2 := f_equal snd E); cbn [fst snd] in E1, E2. cbv zeta.
    replace (o - 1 + m * (2 * o) + o) with (2 * o * (m + 1) - 1) by lia.
    rewrite !upd_same.
    replace (o - 1 + m * (2 * o)) with (2 * o * (m + 1) - 1 - o) by lia. lia.
Qed.

Lemma up_level_other o n lb p :
  1 <= o -> (forall m, 0 <= m < n -> p <> 2 * o * (m + 1) - 1) ->
  up_level o n lb p = lb p.
Proof.
  intros Ho H. unfold up_level. apply (for_range_frame (fun lb => lb p)).
  intros m s Hm. cbv zeta. apply upd_other. specialize (H m Hm). lia.
Qed.

Lemma down_level_right o n lb m :
  1 <= o -> 0 <= m < n ->
  down_level o n lb (2 * o * (m + 1) - 1)
  = lb (2 * o * (m + 1) - 1) + lb (2 * o * (m + 1) - 1 - o).
Proof.
  intros Ho Hm. unfold down_level.
  rewrite (for_range_hit2 (fun lb => lb (2 * o * (m + 1) - 1))
             (fun lb => (lb (2 * o * (m + 1) - 1), lb (2 * o * (m + 1) - 1 - o)))
             0 n m); try assumption.
  - cbv zeta. replace (o - 1 + m * (2 * o) + o) with (2 * o * (m + 1) - 1) by lia.
    rewrite upd_same. rewrite upd_other by lia. f_equal. f_equal. lia.
  - intros m' s Hr Hne. cbv zeta. rewrite !upd_other by nia. reflexivity.
  - intros m' s Hr. cbv zeta. rewrite !(upd_other _ (o - 1 + m' * (2 * o) + o)) by nia.
    rewrite !(upd_other _ (o - 1 + m' * (2 * o))) by nia. reflexivity.
  - intros s s' E. assert (E1 := f_equal fst E); assert (E2 := f_equal snd E); cbn [fst snd] in E1, E2. cbv zeta.
    replace (o - 1 + m * (2 * o) + o) with (2 * o * (m + 1) - 1) by lia.
    rewrite !upd_same. rewrite !upd_other by lia.
    replace (o - 1 + m * (2 * o)) with (2 * o * (m + 1) - 1 - o) by lia. lia.
Qed.

Lemma down_level_left o n lb m :
  1 <= o -> 0 <= m < n ->
  down_level o n lb (2 * o * (m + 1) - 1 - o) = lb (2 * o * (m + 1) - 1).
Proof.
  intros Ho Hm. unfold down_level.
  rewrite (for_range_hit2 (fun lb => lb (2 * o * (m + 1) - 1 - o))
             (fun lb => lb (2 * o * (m + 1) - 1))
             0 n m); try assumption.
  - cbv zeta. rewrite upd_other by lia.
    replace (o - 1 + m * (2 * o)) with (2 * o * (m + 1) - 1 - o) by lia.
    rewrite upd_same. f_equal. lia.
  - intros m' s Hr Hne. cbv zeta. rewrite !upd_other by nia. reflexivity.
  - intros m' s Hr. cbv zeta. rewrite !upd_other by nia. reflexivity.
  - intros s s' E. cbv zeta. rewrite !(upd_other _ (o - 1 + m * (2 * o) + o)) by lia.
    replace (o - 1 + m * (2 * o)) with (2 * o * (m + 1) - 1 - o) by lia.
    rewrite !upd_same.
    replace (2 * o * (m + 1) - 1 - o + o) with (2 * o * (m + 1) - 1) by lia. assumption.
Qed.

Lemma down_level_other o n lb p :
  1 <= o ->
  (forall m, 0 <= m < n -> p <> 2 * o * (m + 1) - 1 /\ p <> 2 * o * (m + 1) - 1 - o) ->
  down_level o n lb p = lb p.
Proof.
  intros Ho H. unfold down_level. apply (for_range_frame (fun lb => lb p)).
  intros m s Hm. cbv zeta. specialize (H m Hm). rewrite !upd_other by lia. reflexivity.
Qed.

End Levels.

(** ** The sweeps, level by level *)

Lemma pow2_succ d : 0 <= d -> 2 ^ (d + 1) = 2 * 2 ^ d.
Proof. intros H. replace (d + 1) with (Z.succ d) by lia. now apply Z.pow_succ_r. Qed.

Lemma for_double_n_levels {St : Type} (k : Z) (body : Z -> St -> St) :
  forall n fuel d s,
    0 <= d -> d + Z.of_nat n = k -> (n <= fuel)%nat ->
    for_double_n fuel (2 ^ d) (2 ^ k) body s = for_n n d (fun e => body (2 ^ e)) s.
Proof.
  induction n as [|n IH]; intros fuel d s Hd Hk Hf.
  - replace d with k by lia. destruct fuel; simpl; [reflexivity|].
    now rewrite Z.ltb_irrefl.
  - destruct fuel as [|f]; [lia|]. simpl.
    assert (2 ^ d < 2 ^ k) by (apply Z.pow_lt_mono_r; lia).
    destruct (Z.ltb_spec (2 ^ d) (2 ^ k)); [|lia].
    replace (2 ^ d * 2) with (2 ^ (d + 1)) by (rewrite pow2_succ by lia; lia).
    apply IH; lia.
Qed.

Lemma for_double_levels {St : Type} (k : Z) (body : Z -> St -> St) s :
  0 <= k ->
  for_double 1 (2 ^ k) body s = for_range 0 k (fun e => body (2 ^ e)) s.
Proof.
  intros Hk. unfold for_double, for_range.
  change 1 with (2 ^ 0) at 1.
  apply for_double_n_levels; try lia.
  pose proof (Z.pow_gt_lin_r 2 k ltac:(lia) Hk). lia.
Qed.

Lemma shiftr_pow2 e : 0 <= e -> Z.shiftr (2 ^ (e + 1)) 1 = 2 ^ e.
Proof.
  intros He. rewrite Z.shiftr_div_pow2 by lia. rewrite pow2_succ by lia.
  change (2 ^ 1) with 2. rewrite Z.mul_comm. apply Z.div_mul. lia.
Qed.

Lemma for_halve_n_levels {St : Type} (body : Z -> St -> St) :
  forall (e : nat) fuel s,
    (e < fuel)%nat ->
    for_halve_n fuel (2 ^ Z.of_nat e) body s
    = for_range 0 (Z.of_nat e + 1) (fun t => body (2 ^ (Z.of_nat e - t))) s.
Proof.
  induction e as [|e IH]; intros fuel s Hf.
  - destruct fuel as [|f]; [lia|]. simpl.
    rewrite (for_range_one 0 1) by lia. destruct f; reflexivity.
  - destruct fuel as [|f]; [lia|]. cbn [for_halve_n].
    assert (0 < 2 ^ Z.of_nat (S e)) by (apply Z.pow_pos_nonneg; lia).
    destruct (Z.ltb_spec 0 (2 ^ Z.of_nat (S e))); [|lia].
    replace (Z.of_nat (S e)) with (Z.of_nat e + 1) by lia.
    rewrite shiftr_pow2 by lia. rewrite IH by lia.
    rewrite (for_range_first 0 (Z.of_nat e + 1 + 1)) by lia.
    replace (Z.of_nat e + 1 - 0) with (Z.of_nat e + 1) by lia.
    unfold for_range.
    replace (Z.to_nat (Z.of_nat e + 1 + 1 - (0 + 1))) with (Z.to_nat (Z.of_nat e + 1 - 0))
      by lia.
    rewrite (for_n_shift _ 0 1). f_equal.
    extensionality t. extensionality s'. f_equal. f_equal. lia.
Qed.

Lemma for_halve_levels {St : Type} (k : Z) (body : Z -> St -> St) s :
  0 <= k ->
  for_halve (Z.shiftr (2 ^ k) 1) body s
  = for_range 0 k (fun t => body (2 ^ (k - 1 - t))) s.
Proof.
  intros Hk. destruct (Z.eq_dec k 0) as [->|Hne].
  - reflexivity.
  - replace k with ((k - 1) + 1) at 1 by lia. rewrite shiftr_pow2 by lia.
    unfold for_halve.
    replace (k - 1) with (Z.of_nat (Z.to_nat (k - 1))) at 2 by lia.
    rewrite for_halve_n_levels.
    + replace (Z.of_nat (Z.to_nat (k - 1)) + 1) with k by lia.
      apply for_range_ext. intros t s' Ht. f_equal. f_equal. lia.
    + pose proof (Z.pow_gt_lin_r 2 (k - 1) ltac:(lia) ltac:(lia)). lia.
Qed.

Lemma pow2_split k e : 0 <= e < k -> 2 ^ k = 2 * 2 ^ e * 2 ^ (k - 1 - e).
Proof.
  intros H. replace k with ((e + 1) + (k - 1 - e)) at 1 by lia.
  rewrite Z.pow_add_r by lia. rewrite pow2_succ by lia. reflexivity.
Qed.

Lemma up_sweep_levels k lb :
  0 <= k ->
  exact_up_sweep (2 ^ k) lb = for_range 0 k (fun e => up_level (2 ^ e) (2 ^ (k - 1 - e))) lb.
Proof.
  intros Hk. unfold exact_up_sweep. rewrite for_double_levels by assumption.
  apply for_range_ext. intros e s He.
  rewrite (pow2_split k e He).
  assert (1 <= 2 ^ e) by (pose proof (Z.pow_pos_nonneg 2 e); lia).
  assert (0 <= 2 ^ (k - 1 - e)) by (apply Z.pow_nonneg; lia).
  now rewrite sweep_step_blocks.
Qed.

Lemma down_sweep_levels k lb :
  0 <= k ->
  exact_down_sweep (2 ^ k) lb
  = for_range 0 k (fun t => down_level (2 ^ (k - 1 - t)) (2 ^ t)) lb.
Proof.
  intros Hk. unfold exact_down_sweep. rewrite for_halve_levels by assumption.
  apply for_range_ext. intros t s Ht.
  rewrite (pow2_split k (k - 1 - t)) by lia.
  replace (k - 1 - (k - 1 - t)) with t by lia.
  assert (1 <= 2 ^ (k - 1 - t)) by (pose proof (Z.pow_pos_nonneg 2 (k - 1 - t)); lia).
  assert (0 <= 2 ^ t) by (apply Z.pow_nonneg; lia).
  now rewrite sweep_step_blocks.
Qed.

(** The width of the tree node that position [p] holds after [d] levels of
    the up-sweep: the largest 2^e, e <= d, that divides p + 1. *)
Fixpoint wd (d : nat) (p : Z) : Z :=
  match d with
  | O => 1
  | S d' => if (p + 1) mod 2 ^ Z.of_nat d =? 0 then 2 ^ Z.of_nat d else wd d' p
  end.

Definition wdz (e p : Z) : Z := wd (Z.to_nat e) p.

Lemma wdz_succ e p :
  0 <= e -> wdz (e + 1) p = if (p + 1) mod 2 ^ (e + 1) =? 0 then 2 ^ (e + 1) else wdz e p.
Proof.
  intros He. unfold wdz. replace (Z.to_nat (e + 1)) with (S (Z.to_nat e)) by lia.
  cbn [wd]. replace (Z.of_nat (S (Z.to_nat e))) with (e + 1) by lia. reflexivity.
Qed.

Lemma wdz_div e p : 0 <= e -> (p + 1) mod 2 ^ e = 0 -> wdz e p = 2 ^ e.
Proof.
  intros He H. destruct (Z.eq_dec e 0) as [->|Hne]; [reflexivity|].
  replace e with ((e - 1) + 1) in * by lia. rewrite wdz_succ by lia.
  now rewrite H.
Qed.

Section Blelloch.
Variable a : Z -> Z.
Variable k : Z.
Hypothesis Hk : 0 <= k.

Definition up_inv (e : Z) (lb : Z -> Z) : Prop :=
  forall p, 0 <= p < 2 ^ k -> lb p = zsum a (p + 1 - wdz e p) (p + 1).

Definition down_inv (n : Z) (lb : Z -> Z) : Prop :=
  forall p, 0 <= p < 2 ^ k ->
    lb p = if (p + 1) mod 2 ^ n =? 0 then zsum a 0 (p + 1 - 2 ^ n)
           else zsum a (p + 1 - wdz n p) (p + 1).

Lemma pow2_pos e : 0 <= e -> 1 <= 2 ^ e.
Proof. intros H. pose proof (Z.pow_pos_nonneg 2 e). lia. Qed.

(** A multiple of 2^(e+1) below 2^k, as a pair index of level [e]. *)
Lemma pair_index e p :
  0 <= e < k -> 0 <= p < 2 ^ k -> (p + 1) mod 2 ^ (e + 1) = 0 ->
  exists m, 0 <= m < 2 ^ (k - 1 - e) /\ p = 2 * 2 ^ e * (m + 1) - 1.
Proof.
  intros He Hp Hm. apply mod0_iff in Hm; [|apply Z.pow_pos_nonneg; lia].
  destruct Hm as [c Hc]. rewrite pow2_succ in Hc by lia.
  pose proof (pow2_pos e ltac:(lia)). pose proof (pow2_pos (k - 1 - e) ltac:(lia)).
  pose proof (pow2_split k e He) as Hs.
  exists (c - 1). split; nia.
Qed.

Lemma odd_multiple o x c : 1 <= o -> (2 * x - 1) * o = c * (2 * o) -> False.
Proof.
  intros Ho H. assert (H' : (2 * x - 1 - 2 * c) * o = 0) by lia.
  apply Z.mul_eq_0 in H'. lia.
Qed.

Lemma mult_mod0 e c x : 0 <= e -> x = c * 2 ^ e -> x mod 2 ^ e = 0.
Proof.
  intros He ->. apply Z.mod_mul. pose proof (pow2_pos e He). lia.
Qed.

Lemma up_step e lb :
  0 <= e < k -> up_inv e lb -> up_inv (e + 1) (up_level (2 ^ e) (2 ^ (k - 1 - e)) lb).
Proof.
  intros He IH p Hp.
  pose proof (pow2_pos e ltac:(lia)) as Ho.
  rewrite wdz_succ by lia.
  destruct (Z.eqb_spec ((p + 1) mod 2 ^ (e + 1)) 0) as [Hm|Hm].
  - destruct (pair_index e p He Hp Hm) as (m & Hmr & ->).
    rewrite up_level_pair by lia.
    rewrite (IH (2 * 2 ^ e * (m + 1) - 1)) by lia.
    rewrite (IH (2 * 2 ^ e * (m + 1) - 1 - 2 ^ e)) by nia.
    rewrite (wdz_div e (2 * 2 ^ e * (m + 1) - 1)); [|lia|].
    2:{ apply (mult_mod0 e (2 * (m + 1))); lia. }
    rewrite (wdz_div e (2 * 2 ^ e * (m + 1) - 1 - 2 ^ e)); [|lia|].
    2:{ apply (mult_mod0 e (2 * (m + 1) - 1)); lia. }
    rewrite pow2_succ by lia.
    rewrite (zsum_split a (2 * 2 ^ e * (m + 1) - 1 + 1 - 2 * 2 ^ e)
               (2 * 2 ^ e * (m + 1) - 1 + 1 - 2 ^ e) (2 * 2 ^ e * (m + 1) - 1 + 1)) by lia.
    replace (2 * 2 ^ e * (m + 1) - 1 - 2 ^ e + 1 - 2 ^ e)
      with (2 * 2 ^ e * (m + 1) - 1 + 1 - 2 * 2 ^ e) by lia.
    replace (2 * 2 ^ e * (m + 1) - 1 - 2 ^ e + 1)
      with (2 * 2 ^ e * (m + 1) - 1 + 1 - 2 ^ e) by lia.
    lia.
  - rewrite up_level_other; [now apply IH | lia |].
    intros m Hmr ->. apply Hm.
    apply (mult_mod0 (e + 1) (m + 1)); [lia|]. rewrite pow2_succ by lia. lia.
Qed.

Lemma up_sweep_inv lb :
  (forall p, 0 <= p < 2 ^ k -> lb p = a p) -> up_inv k (exact_up_sweep (2 ^ k) lb).
Proof.
  intros H0. rewrite up_sweep_levels by assumption.
  apply (for_range_ind (fun e lb => up_inv e lb)); try assumption.
  - intros p Hp. change (wdz 0 p) with 1. rewrite H0 by assumption.
    rewrite zsum_last by lia. rewrite zsum_empty by lia.
    replace (p + 1 - 1) with p by lia. lia.
  - intros e s He IH. now apply up_step.
Qed.

Lemma down_step e lb :
  0 <= e < k -> down_inv (e + 1) lb ->
  down_inv e (down_level (2 ^ e) (2 ^ (k - 1 - e)) lb).
Proof.
  intros He IH p Hp.
  pose proof (pow2_pos e ltac:(lia)) as Ho.
  pose proof (pow2_pos (k - 1 - e) ltac:(lia)) as Hn.
  pose proof (pow2_split k e He) as Hs.
  assert (H2 : 0 < 2 ^ (e + 1)) by (apply Z.pow_pos_nonneg; lia).
  destruct (Z.eqb_spec ((p + 1) mod 2 ^ e) 0) as [Hm|Hm].
  - apply mod0_iff in Hm; [|lia]. destruct Hm as [c Hc].
    assert (Hc0 : 1 <= c) by nia.
    destruct (Z.eq_dec (c mod 2) 0) as [Hev|Hodd].
    + (* right child of its pair *)
      pose proof (Z.div_mod c 2 ltac:(lia)) as Hd. rewrite Hev in Hd.
      set (m := c / 2 - 1).
      assert (Hp' : p = 2 * 2 ^ e * (m + 1) - 1) by (unfold m; nia).
      assert (Hmr : 0 <= m < 2 ^ (k - 1 - e)) by (unfold m; nia).
      rewrite Hp'. rewrite down_level_right by lia.
      rewrite (IH (2 * 2 ^ e * (m + 1) - 1)) by lia.
      rewrite (IH (2 * 2 ^ e * (m + 1) - 1 - 2 ^ e)) by nia.
      rewrite (mult_mod0 (e + 1) (m + 1)); [|lia | rewrite pow2_succ by lia; lia].
      cbn [Z.eqb].
      destruct (Z.eqb_spec ((2 * 2 ^ e * (m + 1) - 1 - 2 ^ e + 1) mod 2 ^ (e + 1)) 0)
        as [Hx|Hx].
      { exfalso. apply mod0_iff in Hx; [|lia]. destruct Hx as [c' Hc'].
        rewrite pow2_succ in Hc' by lia.
        apply (odd_multiple (2 ^ e) (m + 1) c'); lia. }
      rewrite wdz_succ by lia.
      destruct (Z.eqb_spec ((2 * 2 ^ e * (m + 1) - 1 - 2 ^ e + 1) mod 2 ^ (e + 1)) 0);
        [contradiction|].
      rewrite (wdz_div e (2 * 2 ^ e * (m + 1) - 1 - 2 ^ e)); [|lia|].
      2:{ apply (mult_mod0 e (2 * (m + 1) - 1)); lia. }
      rewrite pow2_succ by lia.
      rewrite (zsum_split a 0 (2 * 2 ^ e * (m + 1) - 1 + 1 - 2 * 2 ^ e)
                 (2 * 2 ^ e * (m + 1) - 1 + 1 - 2 ^ e)) by nia.
      replace (2 * 2 ^ e * (m + 1) - 1 - 2 ^ e + 1 - 2 ^ e)
        with (2 * 2 ^ e * (m + 1) - 1 + 1 - 2 * 2 ^ e) by lia.
      replace (2 * 2 ^ e * (m + 1) - 1 - 2 ^ e + 1)
        with (2 * 2 ^ e * (m + 1) - 1 + 1 - 2 ^ e) by lia.
      reflexivity.
    + (* left child of its pair *)
      pose proof (Z.div_mod c 2 ltac:(lia)) as Hd.
      pose proof (Z.mod_pos_bound c 2 ltac:(lia)) as Hb.
      set (m := c / 2).
      assert (Hp' : p = 2 * 2 ^ e * (m + 1) - 1 - 2 ^ e) by (unfold m; nia).
      assert (Hmr : 0 <= m < 2 ^ (k - 1 - e)) by (unfold m; nia).
      assert (Hq : 0 <= 2 * 2 ^ e * (m + 1) - 1 < 2 ^ k).
      { rewrite Hs. clearbody m. nia. }
      rewrite Hp'. rewrite down_level_left by lia.
      rewrite (IH (2 * 2 ^ e * (m + 1) - 1)) by lia.
      rewrite (mult_mod0 (e + 1) (m + 1)); [|lia | rewrite pow2_succ by lia; lia].
      cbn [Z.eqb]. rewrite pow2_succ by lia. f_equal. lia.
  - assert (Hm' : (p + 1) mod 2 ^ (e + 1) <> 0).
    { intros Hx. apply Hm. apply mod0_iff in Hx; [|lia]. destruct Hx as [c Hc].
      apply (mult_mod0 e (2 * c)); [lia|]. rewrite pow2_succ in Hc by lia. lia. }
    rewrite down_level_other; [| lia |].
    + rewrite (IH p Hp). rewrite wdz_succ by lia.
      destruct (Z.eqb_spec ((p + 1) mod 2 ^ (e + 1)) 0); [contradiction | reflexivity].
    + intros m Hmr. split; intros ->; apply Hm.
      * apply (mult_mod0 e (2 * (m + 1))); lia.
      * apply (mult_mod0 e (2 * (m + 1) - 1)); lia.
Qed.

(** The block after the two sweeps: the block total and the exclusive
    prefix sums. *)
Lemma blelloch_block lb :
  (forall p, 0 <= p < 2 ^ k -> lb p = a p) ->
  let u := exact_up_sweep (2 ^ k) lb in
  u (2 ^ k - 1) = zsum a 0 (2 ^ k) /\
  forall p, 0 <= p < 2 ^ k ->
    exact_down_sweep (2 ^ k) (upd u (2 ^ k - 1) 0) p = zsum a 0 p.
Proof.
  intros H0. cbv zeta. pose proof (up_sweep_inv lb H0) as U.
  pose proof (pow2_pos k Hk) as HW.
  split.
  - rewrite U by lia. rewrite wdz_div; [f_equal; lia | assumption |].
    replace (2 ^ k - 1 + 1) with (2 ^ k) by lia. apply Z.mod_same. lia.
  - assert (D : down_inv 0 (exact_down_sweep (2 ^ k) (upd (exact_up_sweep (2 ^ k) lb) (2 ^ k - 1) 0))).
    { rewrite down_sweep_levels by assumption.
      replace (down_inv 0) with (down_inv (k - k)) by (f_equal; lia).
      apply (for_range_ind (fun t lb => down_inv (k - t) lb)); try assumption.
      - replace (k - 0) with k by lia. intros p Hp.
        destruct (Z.eq_dec p (2 ^ k - 1)) as [->|Hne].
        + rewrite upd_same. replace (2 ^ k - 1 + 1) with (2 ^ k) by lia.
          rewrite Z.mod_same by lia. cbn [Z.eqb]. now rewrite zsum_empty by lia.
        + rewrite upd_other by assumption. rewrite Z.mod_small by lia.
          destruct (Z.eqb_spec (p + 1) 0); [lia|]. now apply U.
      - intros t s Ht IH. replace (k - (t + 1)) with (k - 1 - t) by lia.
        replace (2 ^ t) with (2 ^ (k - 1 - (k - 1 - t))) by (f_equal; lia).
        apply down_step; [lia|]. replace (k - 1 - t + 1) with (k - t) by lia. exact IH. }
    intros p Hp. rewrite (D p Hp). change (2 ^ 0) with 1.
    rewrite Z.mod_1_r. cbn [Z.eqb]. f_equal. lia.
Qed.

End Blelloch.

(** ** Blocks and the recursion through the block sums *)

Section Blocks.
Variable k : Z.
Hypothesis Hk : 0 <= k.
Variable size : Z.

Definition padded (v : Z -> Z) : Z -> Z := fun q => if q <? size then v q else 0.

Lemma block_load_spec v b i :
  0 <= i < 2 ^ k ->
  for_range 0 (2 ^ k) (fun i lb =>
    if i + b * 2 ^ k <? size then upd lb i (v (i + b * 2 ^ k)) else upd lb i 0)
    (fun _ => 0) i
  = padded v (i + b * 2 ^ k).
Proof.
  intros Hi.
  rewrite (for_range_hit (fun lb => lb i) 0 (2 ^ k) i); try assumption.
  - unfold padded. destruct (i + b * 2 ^ k <? size); apply upd_same.
  - intros i' s Hr Hne. destruct (i' + b * 2 ^ k <? size); apply upd_other; lia.
  - intros s s' _. destruct (i + b * 2 ^ k <? size); now rewrite !upd_same.
Qed.

Lemma block_store_spec (lb v : Z -> Z) b q :
  for_range 0 (2 ^ k) (fun i vector =>
    if i + b * 2 ^ k <? size then upd vector (i + b * 2 ^ k) (lb i) else vector) v q
  = if (b * 2 ^ k <=? q) && (q <? b * 2 ^ k + 2 ^ k) && (q <? size)
    then lb (q - b * 2 ^ k) else v q.
Proof.
  destruct ((b * 2 ^ k <=? q) && (q <? b * 2 ^ k + 2 ^ k) && (q <? size)) eqn:C.
  - apply andb_prop in C as [C C3]. apply andb_prop in C as [C1 C2].
    apply Z.leb_le in C1. apply Z.ltb_lt in C2, C3.
    rewrite (for_range_hit (fun vec => vec q) 0 (2 ^ k) (q - b * 2 ^ k)); try lia.
    + replace (q - b * 2 ^ k + b * 2 ^ k) with q by lia.
      destruct (Z.ltb_spec q size); [|lia]. apply upd_same.
    + intros i s Hr Hne. destruct (i + b * 2 ^ k <? size); [|reflexivity].
      apply upd_other. lia.
    + intros s s' _. replace (q - b * 2 ^ k + b * 2 ^ k) with q by lia.
      destruct (Z.ltb_spec q size); [|lia]. now rewrite !upd_same.
  - apply (for_range_frame (fun vec => vec q)). intros i s Hi.
    destruct (Z.ltb_spec (i + b * 2 ^ k) size); [|reflexivity].
    apply upd_other. intros ->.
    destruct (Z.leb_spec (b * 2 ^ k) (i + b * 2 ^ k)),
             (Z.ltb_spec (i + b * 2 ^ k) (b * 2 ^ k + 2 ^ k)),
             (Z.ltb_spec (i + b * 2 ^ k) size); cbn [andb] in C; try discriminate; lia.
Qed.

(** One block: its cells below [size] receive the sums from the start of
    the block, and the block sum its total. *)
Lemma scan_block_spec vb b :
  (forall q, fst (exact_scan_block (2 ^ k) size b vb) q
     = if (b * 2 ^ k <=? q) && (q <? b * 2 ^ k + 2 ^ k) && (q <? size)
       then zsum (padded (fst vb)) (b * 2 ^ k) q else fst vb q) /\
  (forall c, snd (exact_scan_block (2 ^ k) size b vb) c
     = if c =? b then zsum (padded (fst vb)) (b * 2 ^ k) (b * 2 ^ k + 2 ^ k)
       else snd vb c).
Proof.
  unfold exact_scan_block. cbv zeta. cbn [fst snd].
  set (lb0 := for_range 0 (2 ^ k) _ (fun _ => 0)).
  destruct (blelloch_block (fun i => padded (fst vb) (i + b * 2 ^ k)) k Hk lb0) as [Hsum Hscan].
  { intros p Hp. unfold lb0. now apply block_load_spec. }
  cbv zeta in Hscan. split.
  - intros q. rewrite block_store_spec.
    destruct ((b * 2 ^ k <=? q) && (q <? b * 2 ^ k + 2 ^ k) && (q <? size)) eqn:C;
      [|reflexivity].
    apply andb_prop in C as [C C3]. apply andb_prop in C as [C1 C2].
    apply Z.leb_le in C1. apply Z.ltb_lt in C2, C3.
    rewrite Hscan by lia. rewrite zsum_shift. f_equal; lia.
  - intros c. unfold upd. destruct (c =? b); [|reflexivity].
    rewrite Hsum. rewrite zsum_shift. f_equal; lia.
Qed.

Lemma zsum_padded v lo hi :
  hi <= size -> zsum (padded v) lo hi = zsum v lo hi.
Proof.
  intros H. apply zsum_ext. intros i Hi. unfold padded.
  destruct (Z.ltb_spec i size); [reflexivity | lia].
Qed.

(** The loop over the blocks. *)
Lemma scan_blocks_spec (a : Z -> Z) nb :
  0 <= nb ->
  let vb := for_range 0 nb (exact_scan_block (2 ^ k) size) (a, fun _ => 0) in
  (forall c i, 0 <= c -> 0 <= i < 2 ^ k ->
     fst vb (i + c * 2 ^ k)
     = if (c <? nb) && (i + c * 2 ^ k <? size)
       then zsum a (c * 2 ^ k) (i + c * 2 ^ k) else a (i + c * 2 ^ k)) /\
  (forall c, 0 <= c < nb ->
     snd vb c = zsum (padded a) (c * 2 ^ k) (c * 2 ^ k + 2 ^ k)).
Proof.
  intros Hnb. cbv zeta.
  pose proof (pow2_pos k Hk) as HW.
  apply (for_range_ind (fun b vb =>
    (forall c i, 0 <= c -> 0 <= i < 2 ^ k ->
       fst vb (i + c * 2 ^ k)
       = if (c <? b) && (i + c * 2 ^ k <? size)
         then zsum a (c * 2 ^ k) (i + c * 2 ^ k) else a (i + c * 2 ^ k)) /\
    (forall c, 0 <= c < b ->
       snd vb c = zsum (padded a) (c * 2 ^ k) (c * 2 ^ k + 2 ^ k)))); try assumption.
  - split; [|intros; lia]. intros c i Hc Hi. cbn [fst].
    destruct (Z.ltb_spec c 0); [lia | reflexivity].
  - intros b vb Hb [IHv IHs].
    destruct (scan_block_spec vb b) as [Sv Ss]. split.
    + intros c i Hc Hi. rewrite Sv.
      destruct (Z.eq_dec c b) as [->|Hne].
      * destruct (Z.leb_spec (b * 2 ^ k) (i + b * 2 ^ k)); [|lia].
        destruct (Z.ltb_spec (i + b * 2 ^ k) (b * 2 ^ k + 2 ^ k)); [|lia].
        destruct (Z.ltb_spec b (b + 1)); [|lia]. cbn [andb].
        destruct (Z.ltb_spec (i + b * 2 ^ k) size).
        -- rewrite zsum_padded by lia. apply zsum_ext. intros j Hj.
           replace j with ((j - b * 2 ^ k) + b * 2 ^ k) by lia.
           rewrite IHv by lia.
           destruct (Z.ltb_spec b b); [lia | reflexivity].
        -- rewrite IHv by lia.
           destruct (Z.ltb_spec b b); [lia | reflexivity].
      * assert (Hout : (b * 2 ^ k <=? i + c * 2 ^ k)
                       && (i + c * 2 ^ k <? b * 2 ^ k + 2 ^ k) = false).
        { destruct (Z.leb_spec (b * 2 ^ k) (i + c * 2 ^ k)),
                   (Z.ltb_spec (i + c * 2 ^ k) (b * 2 ^ k + 2 ^ k)); try reflexivity.
          exfalso. apply Hne. nia. }
        rewrite Hout. cbn [andb]. rewrite IHv by lia.
        destruct (Z.ltb_spec c b), (Z.ltb_spec c (b + 1)); try lia; reflexivity.
    + intros c Hc. rewrite Ss.
      destruct (Z.eqb_spec c b) as [->|Hne].
      * apply zsum_ext. intros j Hj. unfold padded.
        destruct (Z.ltb_spec j size); [|reflexivity].
        replace j with ((j - b * 2 ^ k) + b * 2 ^ k) by lia.
        rewrite IHv by lia.
        destruct (Z.ltb_spec b b); [lia | reflexivity].
      * apply IHs. lia.
Qed.

(** The scanned block sums are the sums up to the start of each block. *)
Lemma zsum_blocks (a bs : Z -> Z) nb c :
  (forall c, 0 <= c < nb -> bs c = zsum a (c * 2 ^ k) (c * 2 ^ k + 2 ^ k)) ->
  0 <= c <= nb -> zsum bs 0 c = zsum a 0 (c * 2 ^ k).
Proof.
  intros H Hc. pose proof (pow2_pos k Hk) as HW. unfold zsum at 1.
  apply (for_range_ind (fun c acc => acc = zsum a 0 (c * 2 ^ k))); try lia.
  - now rewrite zsum_empty by lia.
  - intros c' acc Hc' ->. rewrite H by lia.
    rewrite (zsum_split a 0 (c' * 2 ^ k) ((c' + 1) * 2 ^ k)) by nia.
    f_equal. f_equal. lia.
Qed.

Lemma add_block_sums_spec nb (bs v : Z -> Z) c i :
  0 <= i < 2 ^ k ->
  exact_add_block_sums (2 ^ k) size nb bs v (i + c * 2 ^ k)
  = if (1 <=? c) && (c <? nb) && (i + c * 2 ^ k <? size)
    then v (i + c * 2 ^ k) + bs c else v (i + c * 2 ^ k).
Proof.
  intros Hi. pose proof (pow2_pos k Hk) as HW. unfold exact_add_block_sums. cbv zeta.
  assert (E : (fun block_id vector =>
                 for_range 0 (2 ^ k) (fun i vector =>
                   if i + block_id * 2 ^ k <? size
                   then upd vector (i + block_id * 2 ^ k)
                          (vector (i + block_id * 2 ^ k) + bs block_id)
                   else vector) vector)
              = (fun j a => for_range 0 (2 ^ k) (fun i a =>
                   upd a (i + j * 2 ^ k)
                     (if i + j * 2 ^ k <? size then a (i + j * 2 ^ k) + bs j
                      else a (i + j * 2 ^ k))) a)).
  { extensionality j. extensionality a. apply for_range_ext. intros i' s _.
    destruct (i' + j * 2 ^ k <? size); [reflexivity|].
    extensionality q. unfold upd. destruct (Z.eqb_spec q (i' + j * 2 ^ k)); congruence. }
  rewrite E.
  change (for_range 1 nb _ v)
    with (grid_loop (fun a i j => if i + j * 2 ^ k <? size then a (i + j * 2 ^ k) + bs j
                                  else a (i + j * 2 ^ k)) (2 ^ k) 0 (2 ^ k) 1 nb v).
  destruct ((1 <=? c) && (c <? nb)) eqn:C.
  - apply andb_prop in C as [C1 C2]. apply Z.leb_le in C1. apply Z.ltb_lt in C2.
    rewrite grid_loop_cell; try lia.
    + cbn [andb]. reflexivity.
    + intros a a' i' j' H. now rewrite H.
  - cbn [andb]. apply grid_loop_frame. intros i' j' Hi' Hj' Heq.
    destruct (Z.leb_spec 1 c), (Z.ltb_spec c nb); cbn [andb] in C; try discriminate;
      apply (cell_index_inj (2 ^ k) 0) in Heq; lia.
Qed.

End Blocks.

(** [r] holds the exclusive prefix sums of the first [n] cells of [v]. *)
Definition scans (r v : Z -> Z) (n : Z) : Prop :=
  forall i, 0 <= i < n -> r i = zsum v 0 i.

Lemma exact_num_blocks_bounds size W :
  0 < W ->
  exact_num_blocks size W * W <= size + W - 1 < (exact_num_blocks size W + 1) * W.
Proof.
  intros HW. unfold exact_num_blocks.
  pose proof (Z.mul_div_le (size + W - 1) W HW).
  pose proof (Z.mul_succ_div_gt (size + W - 1) W HW). lia.
Qed.

Lemma exact_prefix_sum_blocks_ok k rec v size :
  1 <= k ->
  (forall bs n, 1 < n < size -> exists r, rec bs n = Some r /\ scans r bs n) ->
  exists r, exact_prefix_sum_blocks (2 ^ k) rec v size = Some r /\ scans r v size.
Proof.
  intros Hk Hrec.
  assert (HW : 2 <= 2 ^ k).
  { replace k with ((k - 1) + 1) by lia. rewrite pow2_succ by lia.
    pose proof (pow2_pos (k - 1) ltac:(lia)). lia. }
  pose proof (exact_num_blocks_bounds size (2 ^ k) ltac:(lia)) as [Hlo Hhi].
  unfold exact_prefix_sum_blocks. cbv zeta.
  set (nb := exact_num_blocks size (2 ^ k)) in *.
  destruct (Z_le_gt_dec size 0) as [Hs|Hs].
  - (* nothing to scan *)
    assert (nb <= 0) by nia.
    destruct (Z.ltb_spec 1 nb); [lia|].
    eexists. split; [reflexivity|]. intros i Hi. lia.
  - assert (Hnb : 1 <= nb) by nia.
    destruct (scan_blocks_spec k ltac:(lia) size v nb ltac:(lia)) as [Sv Ss].
    cbv zeta in Sv, Ss.
    set (vb := for_range 0 nb (exact_scan_block (2 ^ k) size) (v, fun _ => 0)) in *.
    assert (Hcell : forall q, 0 <= q < size ->
              exists c i, 0 <= c < nb /\ 0 <= i < 2 ^ k /\ q = i + c * 2 ^ k).
    { intros q Hq. exists (q / 2 ^ k), (q mod 2 ^ k).
      pose proof (Z.div_mod q (2 ^ k) ltac:(lia)).
      pose proof (Z.mod_pos_bound q (2 ^ k) ltac:(lia)).
      assert (0 <= q / 2 ^ k) by (apply Z.div_pos; lia).
      split; [|split]; nia. }
    destruct (Z.ltb_spec 1 nb) as [Hmany|Hone].
    + destruct (Hrec (snd vb) nb) as (bs & -> & Hbs); [nia|].
      eexists. split; [reflexivity|].
      intros q Hq. destruct (Hcell q Hq) as (c & i & Hc & Hi & ->).
      rewrite add_block_sums_spec by lia.
      rewrite Sv by lia.
      destruct (Z.ltb_spec c nb); [|lia].
      destruct (Z.ltb_spec (i + c * 2 ^ k) size); [|lia]. cbn [andb].
      destruct (Z.leb_spec 1 c); cbn [andb].
      * rewrite Hbs by lia.
        rewrite (zsum_blocks k ltac:(lia) (padded size v) (snd vb) nb c Ss) by lia.
        rewrite zsum_padded by nia.
        rewrite (zsum_split v 0 (c * 2 ^ k) (i + c * 2 ^ k)) by nia. lia.
      * replace c with 0 by lia. reflexivity.
    + eexists. split; [reflexivity|].
      intros q Hq. destruct (Hcell q Hq) as (c & i & Hc & Hi & ->).
      rewrite Sv by lia.
      destruct (Z.ltb_spec c nb); [|lia].
      destruct (Z.ltb_spec (i + c * 2 ^ k) size); [|lia]. cbn [andb].
      replace c with 0 by lia. reflexivity.
Qed.

Section ExactPrefixSum.
Variable LOCAL_BUFFER_SIZE : Z.
Variable kL : Z.
Hypothesis HL : LOCAL_BUFFER_SIZE = 2 ^ kL.
Hypothesis HkL : 1 <= kL.

Lemma exact_prefix_sum_full_ok rec v size :
  (forall bs n, 1 < n < size -> exists r, rec bs n = Some r /\ scans r bs n) ->
  exists r, exact_prefix_sum_blocks LOCAL_BUFFER_SIZE rec v size = Some r /\ scans r v size.
Proof. rewrite HL. now apply exact_prefix_sum_blocks_ok. Qed.

Lemma exact_prefix_sum_min_ok rec v size :
  (forall bs n, 1 < n < size -> exists r, rec bs n = Some r /\ scans r bs n) ->
  exists r, exact_prefix_sum_blocks MIN_WARP_SIZE rec v size = Some r /\ scans r v size.
Proof. change MIN_WARP_SIZE with (2 ^ 5). apply exact_prefix_sum_blocks_ok. lia. Qed.

Lemma exact_prefix_sum_S fuel v size :
  exact_prefix_sum LOCAL_BUFFER_SIZE (S fuel) v size =
  if size <? Z.quot LOCAL_BUFFER_SIZE 4
  then exact_prefix_sum_blocks MIN_WARP_SIZE (exact_prefix_sum LOCAL_BUFFER_SIZE fuel) v size
  else exact_prefix_sum_blocks LOCAL_BUFFER_SIZE (exact_prefix_sum LOCAL_BUFFER_SIZE fuel) v size.
Proof. reflexivity. Qed.

Lemma exact_prefix_sum_ok :
  forall fuel v size,
    size <= Z.of_nat fuel ->
    exists r, exact_prefix_sum LOCAL_BUFFER_SIZE (S fuel) v size = Some r /\ scans r v size.
Proof.
  induction fuel as [|fuel IH]; intros v size Hs; rewrite exact_prefix_sum_S;
    destruct (size <? Z.quot LOCAL_BUFFER_SIZE 4).
  - apply exact_prefix_sum_min_ok. intros; lia.
  - apply exact_prefix_sum_full_ok. intros; lia.
  - apply exact_prefix_sum_min_ok. intros bs n Hn. apply IH. lia.
  - apply exact_prefix_sum_full_ok. intros bs n Hn. apply IH. lia.
Qed.

End ExactPrefixSum.


(* ================================================================== *)
(** * The prefix sum of the code: [int] sums and the [float] block count *)
(* ================================================================== *)

(** ** The number of blocks *)

Lemma pow2_mul a b : 0 <= a -> 0 <= b -> 2 ^ a * 2 ^ b = 2 ^ (a + b).
Proof. intros Ha Hb. now rewrite Z.pow_add_r. Qed.

Lemma pow2_gt0 a : 0 <= a -> 0 < 2 ^ a.
Proof. intros Ha. apply Z.pow_pos_nonneg; lia. Qed.

(** A fraction c 2^j / 2^k with c below 2^24 is a binary32 number: the
    rounding leaves it as it is. *)
Lemma binary32_pos_exact c j k :
  0 < c < 2 ^ 24 -> 0 <= j -> 0 <= k ->
  exists t a, 0 <= t /\ binary32_pos (c * 2 ^ j) (2 ^ k) = (a, 2 ^ t) /\
              a * 2 ^ k = c * 2 ^ j * 2 ^ t.
Proof.
  intros Hc Hj Hk.
  pose proof (pow2_gt0 j Hj) as Pj. pose proof (pow2_gt0 k Hk) as Pk.
  unfold binary32_pos.
  destruct (Z.eqb_spec (c * 2 ^ j) 0) as [E0|_]; [nia|].
  rewrite Z.log2_mul_pow2 by lia. rewrite Z.log2_pow2 by lia.
  pose proof (Z.log2_nonneg c) as Hl0.
  assert (Hl1 : Z.log2 c < 24) by (apply Z.log2_lt_pow2; lia).
  pose proof (Z.log2_spec c ltac:(lia)) as [Hlo _].
  set (lc := Z.log2 c) in *. cbv zeta.
  set (e1 := j + lc - k - 24).
  assert (Htest : 2 ^ 24 * (2 ^ k * 2 ^ Z.max 0 e1) <= c * 2 ^ j * 2 ^ Z.max 0 (- e1)).
  { assert (E : 2 ^ 24 * (2 ^ k * 2 ^ Z.max 0 e1) = 2 ^ lc * (2 ^ j * 2 ^ Z.max 0 (- e1))).
    { rewrite !pow2_mul by lia. f_equal. lia. }
    rewrite E, <- Z.mul_assoc. apply Z.mul_le_mono_nonneg_r; [|assumption].
    rewrite pow2_mul by lia. pose proof (pow2_gt0 (j + Z.max 0 (- e1)) ltac:(lia)). lia. }
  destruct (Z.leb_spec (2 ^ 24 * (2 ^ k * 2 ^ Z.max 0 e1)) (c * 2 ^ j * 2 ^ Z.max 0 (- e1)));
    [|lia].
  set (e := e1 + 1).
  pose proof (pow2_gt0 (Z.max 0 e) ltac:(lia)) as Pe.
  pose proof (pow2_gt0 (Z.max 0 (- e)) ltac:(lia)) as Pn.
  assert (EN : c * 2 ^ j * 2 ^ Z.max 0 (- e)
               = c * 2 ^ (23 - lc) * (2 ^ k * 2 ^ Z.max 0 e)).
  { rewrite <- !Z.mul_assoc. f_equal. rewrite !pow2_mul by lia. f_equal. unfold e, e1. lia. }
  rewrite EN. rewrite Z.div_mul by lia. rewrite Z.mod_mul by lia.
  destruct (Z.ltb_spec (2 * 0) (2 ^ k * 2 ^ Z.max 0 e)); [|nia].
  exists (Z.max 0 (- e)), (c * 2 ^ (23 - lc) * 2 ^ Z.max 0 e).
  split; [lia|]. split; [reflexivity|]. rewrite EN. ring.
Qed.

Lemma binary32_exact c j k :
  0 < c < 2 ^ 24 -> 0 <= j -> 0 <= k ->
  exists t a, 0 <= t /\ binary32 (c * 2 ^ j) (2 ^ k) = (a, 2 ^ t) /\
              a * 2 ^ k = c * 2 ^ j * 2 ^ t.
Proof.
  intros Hc Hj Hk. unfold binary32.
  pose proof (pow2_gt0 j Hj).
  destruct (Z.ltb_spec (c * 2 ^ j) 0); [nia|]. now apply binary32_pos_exact.
Qed.

(** The quotient rounded up, from any fraction equal to it. *)
Lemma ceil_fraction a b s w :
  0 < b -> 0 < w -> a * w = s * b -> - ((- a) / b) = (s + w - 1) / w.
Proof.
  intros Hb Hw E.
  pose proof (Z.div_mod (- a) b ltac:(lia)) as D1.
  pose proof (Z.mod_pos_bound (- a) b Hb) as M1.
  pose proof (Z.div_mod (s + w - 1) w ltac:(lia)) as D2.
  pose proof (Z.mod_pos_bound (s + w - 1) w Hw) as M2.
  set (q1 := (- a) / b) in *. set (q2 := (s + w - 1) / w) in *.
  set (r1 := (- a) mod b) in *. set (r2 := (s + w - 1) mod w) in *.
  assert (H1 : (- q1 - 1) * w < s <= - q1 * w) by nia.
  assert (H2 : (q2 - 1) * w < s <= q2 * w) by nia.
  nia.
Qed.

(** Up to 2^24 entries the block count of the code is the exact one. *)
Lemma num_blocks_exact size k :
  0 <= size <= 2 ^ 24 -> 0 <= k ->
  num_blocks_of size (2 ^ k) = exact_num_blocks size (2 ^ k).
Proof.
  intros Hs Hk. pose proof (pow2_gt0 k Hk) as Pk.
  unfold num_blocks_of, exact_num_blocks, float_of_int.
  destruct (Z.eq_dec size 0) as [->|Hnz].
  - unfold float_div. change (binary32 0 1) with (0, 1). cbn [fst snd].
    rewrite Z.mul_0_l. change (binary32 0 (1 * fst (binary32 (2 ^ k) 1))) with (0, 1).
    unfold float_ceil. cbn [fst snd]. cbn [Z.opp]. rewrite Z.div_0_l by lia.
    rewrite Z.div_small by lia. reflexivity.
  - assert (Hform : exists c j, 0 < c < 2 ^ 24 /\ 0 <= j /\ size = c * 2 ^ j).
    { destruct (Z.eq_dec size (2 ^ 24)) as [->|Hne].
      - exists 1, 24. repeat split; lia.
      - exists size, 0. repeat split; try lia. }
    destruct Hform as (c & j & Hc & Hj & Es).
    destruct (binary32_exact c j 0 Hc Hj ltac:(lia)) as (t1 & a1 & Ht1 & E1 & V1).
    destruct (binary32_exact 1 k 0 ltac:(lia) Hk ltac:(lia)) as (t2 & a2 & Ht2 & E2 & V2).
    rewrite <- Es in E1, V1. change (2 ^ 0) with 1 in E1, V1, E2, V2.
    rewrite Z.mul_1_l in E2, V2. rewrite Z.mul_1_r in V1, V2.
    rewrite E1, E2. unfold float_div. cbn [fst snd]. subst a1 a2.
    pose proof (pow2_gt0 t1 Ht1) as P1. pose proof (pow2_gt0 t2 Ht2) as P2.
    replace (size * 2 ^ t1 * 2 ^ t2) with (c * 2 ^ (j + t1 + t2))
      by (rewrite Es, <- !Z.mul_assoc, !pow2_mul by lia; f_equal; f_equal; lia).
    replace (2 ^ t1 * (2 ^ k * 2 ^ t2)) with (2 ^ (t1 + k + t2))
      by (rewrite !pow2_mul by lia; f_equal; lia).
    destruct (binary32_exact c (j + t1 + t2) (t1 + k + t2) Hc ltac:(lia) ltac:(lia))
      as (t3 & a3 & Ht3 & E3 & V3).
    rewrite E3. unfold float_ceil. cbn [fst snd].
    pose proof (pow2_gt0 t3 Ht3) as P3.
    apply ceil_fraction; try lia.
    assert (Ea : 2 ^ (t1 + k + t2) = 2 ^ k * 2 ^ (t1 + t2))
      by (rewrite pow2_mul by lia; f_equal; lia).
    assert (Eb : c * 2 ^ (j + t1 + t2) = size * 2 ^ (t1 + t2)).
    { rewrite Es, <- Z.mul_assoc, pow2_mul by lia. f_equal. f_equal. lia. }
    rewrite Ea, Eb in V3.
    pose proof (pow2_gt0 (t1 + t2) ltac:(lia)) as P12.
    apply (Z.mul_reg_r _ _ (2 ^ (t1 + t2))); [lia|].
    replace (a3 * 2 ^ k * 2 ^ (t1 + t2)) with (a3 * (2 ^ k * 2 ^ (t1 + t2))) by ring.
    rewrite V3. ring.
Qed.

(** Above 2^24 entries the [float] holds the size no longer: one entry more
    and a block is missing. *)
Lemma num_blocks_of_rounded :
  num_blocks_of (2 ^ 24 + 1) 32 = 2 ^ 19 /\ exact_num_blocks (2 ^ 24 + 1) 32 = 2 ^ 19 + 1.
Proof. split; vm_compute; reflexivity. Qed.

(** ** The sums of [int]s *)

Lemma int_wrap_range z : - 2 ^ 31 <= int_wrap z < 2 ^ 31.
Proof.
  unfold int_wrap. pose proof (Z.mod_pos_bound (z + 2 ^ 31) (2 ^ 32) ltac:(lia)).
  change (2 ^ 32) with (2 * 2 ^ 31) in *. lia.
Qed.

Lemma int_wrap_small z : - 2 ^ 31 <= z < 2 ^ 31 -> int_wrap z = z.
Proof.
  intros H. unfold int_wrap. rewrite Z.mod_small; [lia|].
  change (2 ^ 32) with (2 * 2 ^ 31). lia.
Qed.

Lemma int_wrap_mod z : int_wrap z mod 2 ^ 32 = z mod 2 ^ 32.
Proof.
  unfold int_wrap. rewrite Zminus_mod_idemp_l. f_equal. lia.
Qed.

Lemma int_wrap_same z z' : z mod 2 ^ 32 = z' mod 2 ^ 32 -> int_wrap z = int_wrap z'.
Proof.
  intros E. unfold int_wrap. f_equal.
  rewrite <- (Zplus_mod_idemp_l z), <- (Zplus_mod_idemp_l z'). now rewrite E.
Qed.

Lemma int_add_wrap x y : int_add (int_wrap x) (int_wrap y) = int_wrap (x + y).
Proof.
  unfold int_add. apply int_wrap_same.
  rewrite Z.add_mod, !int_wrap_mod by lia. now rewrite <- Z.add_mod by lia.
Qed.

(** ** Two loops in step *)

Lemma for_step_n_rel {A B : Type} (R : A -> B -> Prop) fuel i hi step
  (f : Z -> A -> A) (g : Z -> B -> B) a b :
  (forall i a b, R a b -> R (f i a) (g i b)) -> R a b ->
  R (for_step_n fuel i hi step f a) (for_step_n fuel i hi step g b).
Proof.
  intros Hs. revert i a b. induction fuel as [|n IH]; intros i a b H; simpl; [exact H|].
  destruct (i <? hi); [|exact H]. apply IH. now apply Hs.
Qed.

Lemma for_double_n_rel {A B : Type} (R : A -> B -> Prop) fuel o hi
  (f : Z -> A -> A) (g : Z -> B -> B) a b :
  (forall i a b, R a b -> R (f i a) (g i b)) -> R a b ->
  R (for_double_n fuel o hi f a) (for_double_n fuel o hi g b).
Proof.
  intros Hs. revert o a b. induction fuel as [|n IH]; intros o a b H; simpl; [exact H|].
  destruct (o <? hi); [|exact H]. apply IH. now apply Hs.
Qed.

Lemma for_halve_n_rel {A B : Type} (R : A -> B -> Prop) fuel o
  (f : Z -> A -> A) (g : Z -> B -> B) a b :
  (forall i a b, R a b -> R (f i a) (g i b)) -> R a b ->
  R (for_halve_n fuel o f a) (for_halve_n fuel o g b).
Proof.
  intros Hs. revert o a b. induction fuel as [|n IH]; intros o a b H; simpl; [exact H|].
  destruct (0 <? o); [|exact H]. apply IH. now apply Hs.
Qed.

Lemma for_range_rel {A B : Type} (R : A -> B -> Prop) lo hi
  (f : Z -> A -> A) (g : Z -> B -> B) a b :
  (forall i a b, lo <= i < hi -> R a b -> R (f i a) (g i b)) -> R a b ->
  R (for_range lo hi f a) (for_range lo hi g b).
Proof.
  intros Hs H. destruct (Z_le_gt_dec lo hi) as [Hle|Hgt].
  - replace hi with (lo + (hi - lo)) by lia.
    apply (for_range_pair (fun _ => R)); [lia | exact H |].
    intros k x y Hk Hxy. apply Hs; [lia | exact Hxy].
  - now rewrite !for_range_empty by lia.
Qed.

(** ** The scan of the code and the scan on unbounded integers *)

(** [w] holds the entries of [z] brought into the range of [int]. *)
Definition wrapped (w z : Z -> Z) : Prop := forall i, w i = int_wrap (z i).
Definition wrapped_below (n : Z) (w z : Z -> Z) : Prop :=
  forall i, 0 <= i < n -> w i = int_wrap (z i).

Definition option_rel {A B : Type} (R : A -> B -> Prop) (x : option A) (y : option B)
  : Prop :=
  match x, y with
  | Some a, Some b => R a b
  | None, None => True
  | _, _ => False
  end.

Lemma wrapped_upd w z k x y : wrapped w z -> x = int_wrap y -> wrapped (upd w k x) (upd z k y).
Proof.
  intros H E i. unfold upd. destruct (i =? k); [exact E | apply H].
Qed.

Lemma wrapped_zero : wrapped (fun _ => 0) (fun _ => 0).
Proof. intros i. reflexivity. Qed.

Lemma sim_up_sweep W lw lz :
  wrapped lw lz -> wrapped (up_sweep W lw) (exact_up_sweep W lz).
Proof.
  intros H. unfold up_sweep, exact_up_sweep, for_double.
  apply (for_double_n_rel wrapped); [|exact H].
  intros o a b Hab. unfold for_step. apply (for_step_n_rel wrapped); [|exact Hab].
  intros i a' b' Hab'. apply wrapped_upd; [exact Hab'|].
  rewrite (Hab' (i + o)), (Hab' i). apply int_add_wrap.
Qed.

Lemma sim_down_sweep W lw lz :
  wrapped lw lz -> wrapped (down_sweep W lw) (exact_down_sweep W lz).
Proof.
  intros H. unfold down_sweep, exact_down_sweep, for_halve.
  apply (for_halve_n_rel wrapped); [|exact H].
  intros o a b Hab. unfold for_step. apply (for_step_n_rel wrapped); [|exact Hab].
  intros i a' b' Hab'. cbv zeta.
  assert (H1 : wrapped (upd a' i (a' (i + o))) (upd b' i (b' (i + o)))).
  { apply wrapped_upd; [exact Hab' | apply Hab']. }
  apply wrapped_upd; [exact H1|].
  rewrite (H1 (i + o)), (Hab' i). apply int_add_wrap.
Qed.

Section Simulation.
Variables (W size : Z).
Hypothesis HW : 0 <= W.

Definition scan_rel (vw vz : (Z -> Z) * (Z -> Z)) : Prop :=
  wrapped_below size (fst vw) (fst vz) /\ wrapped (snd vw) (snd vz).

Lemma sim_scan_block c vw vz :
  0 <= c -> scan_rel vw vz ->
  scan_rel (scan_block W size c vw) (exact_scan_block W size c vz).
Proof.
  intros Hc [Hv Hb]. unfold scan_block, exact_scan_block. cbv zeta.
  assert (Hload : wrapped
            (for_range 0 W (fun i lb =>
               if i + c * W <? size then upd lb i (fst vw (i + c * W)) else upd lb i 0)
               (fun _ => 0))
            (for_range 0 W (fun i lb =>
               if i + c * W <? size then upd lb i (fst vz (i + c * W)) else upd lb i 0)
               (fun _ => 0))).
  { apply (for_range_rel wrapped); [|exact wrapped_zero].
    intros i a b Hi Hab. destruct (Z.ltb_spec (i + c * W) size).
    - apply wrapped_upd; [exact Hab|]. apply Hv. nia.
    - apply wrapped_upd; [exact Hab | reflexivity]. }
  pose proof (sim_up_sweep W _ _ Hload) as Hup.
  set (uw := up_sweep W _) in *. set (uz := exact_up_sweep W _) in *.
  assert (Hroot : wrapped (upd uw (W - 1) 0) (upd uz (W - 1) 0)).
  { apply wrapped_upd; [exact Hup | reflexivity]. }
  pose proof (sim_down_sweep W _ _ Hroot) as Hdown.
  set (dw := down_sweep W _) in *. set (dz := exact_down_sweep W _) in *.
  split; cbn [fst snd].
  - apply (for_range_rel (wrapped_below size)); [|exact Hv].
    intros i a b Hi Hab. destruct (Z.ltb_spec (i + c * W) size); [|exact Hab].
    intros q Hq. unfold upd. destruct (q =? i + c * W); [apply Hdown | now apply Hab].
  - apply wrapped_upd; [exact Hb | apply Hup].
Qed.

Lemma sim_scan_blocks nb vw vz :
  scan_rel vw vz ->
  scan_rel (for_range 0 nb (scan_block W size) vw)
    (for_range 0 nb (exact_scan_block W size) vz).
Proof.
  intros H. apply (for_range_rel scan_rel); [|exact H].
  intros c a b Hc Hab. apply sim_scan_block; [lia | exact Hab].
Qed.

Lemma sim_add_block_sums nb bw bz vw vz :
  wrapped_below nb bw bz -> wrapped_below size vw vz ->
  wrapped_below size (add_block_sums W size nb bw vw)
    (exact_add_block_sums W size nb bz vz).
Proof.
  intros Hb Hv. unfold add_block_sums, exact_add_block_sums.
  apply (for_range_rel (wrapped_below size)); [|exact Hv].
  intros c a b Hc Hab. cbv zeta.
  apply (for_range_rel (wrapped_below size)); [|exact Hab].
  intros i a' b' Hi Hab'. destruct (Z.ltb_spec (i + c * W) size); [|exact Hab'].
  intros q Hq. unfold upd. destruct (q =? i + c * W); [|now apply Hab'].
  rewrite (Hab' (i + c * W)) by nia. rewrite (Hb c) by lia. apply int_add_wrap.
Qed.

Lemma sim_blocks (recw recz : (Z -> Z) -> Z -> option (Z -> Z)) vw vz :
  num_blocks_of size W = exact_num_blocks size W ->
  (forall bw bz, wrapped bw bz ->
     option_rel (wrapped_below (exact_num_blocks size W))
       (recw bw (exact_num_blocks size W)) (recz bz (exact_num_blocks size W))) ->
  wrapped_below size vw vz ->
  option_rel (wrapped_below size) (prefix_sum_blocks W recw vw size)
    (exact_prefix_sum_blocks W recz vz size).
Proof.
  intros Hnb Hrec Hv. unfold prefix_sum_blocks, exact_prefix_sum_blocks. cbv zeta.
  rewrite Hnb. set (nb := exact_num_blocks size W) in *.
  destruct (sim_scan_blocks nb (vw, fun _ => 0) (vz, fun _ => 0)) as [Sv Sb].
  { split; [exact Hv | exact wrapped_zero]. }
  set (rw := for_range 0 nb (scan_block W size) _) in *.
  set (rz := for_range 0 nb (exact_scan_block W size) _) in *.
  destruct (1 <? nb); [|exact Sv].
  specialize (Hrec (snd rw) (snd rz) Sb).
  destruct (recw (snd rw) nb) as [bw|], (recz (snd rz) nb) as [bz|]; cbn in Hrec |- *;
    try contradiction; try exact I.
  now apply sim_add_block_sums.
Qed.

End Simulation.

Section PrefixSumCorrect.
Variable LOCAL_BUFFER_SIZE : Z.
Variable kL : Z.
Hypothesis HL : LOCAL_BUFFER_SIZE = 2 ^ kL.
Hypothesis HkL : 1 <= kL.

Lemma exact_num_blocks_le size k :
  0 <= size -> 0 <= k -> 0 <= exact_num_blocks size (2 ^ k) <= size.
Proof.
  intros Hs Hk. pose proof (pow2_gt0 k Hk) as Pk.
  pose proof (exact_num_blocks_bounds size (2 ^ k) Pk). nia.
Qed.

Lemma sim_blocks_pow2 k (recw recz : (Z -> Z) -> Z -> option (Z -> Z)) vw vz size :
  0 <= k -> 0 <= size <= 2 ^ 24 ->
  (forall bw bz n, 0 <= n <= 2 ^ 24 -> wrapped_below n bw bz ->
     option_rel (wrapped_below n) (recw bw n) (recz bz n)) ->
  wrapped_below size vw vz ->
  option_rel (wrapped_below size) (prefix_sum_blocks (2 ^ k) recw vw size)
    (exact_prefix_sum_blocks (2 ^ k) recz vz size).
Proof.
  intros Hk Hs Hrec Hv. pose proof (pow2_gt0 k Hk).
  apply sim_blocks; try assumption; try lia.
  - now apply num_blocks_exact.
  - intros bw bz Hb. pose proof (exact_num_blocks_le size k ltac:(lia) Hk).
    apply Hrec; [lia|]. intros i _. apply Hb.
Qed.

Lemma sim_prefix_sum fuel :
  forall vw vz size, 0 <= size <= 2 ^ 24 -> wrapped_below size vw vz ->
    option_rel (wrapped_below size) (prefix_sum_openacc LOCAL_BUFFER_SIZE fuel vw size)
      (exact_prefix_sum LOCAL_BUFFER_SIZE fuel vz size).
Proof.
  induction fuel as [|fuel IH]; intros vw vz size Hs Hv; [exact I|].
  cbn [prefix_sum_openacc exact_prefix_sum].
  destruct (size <? Z.quot LOCAL_BUFFER_SIZE 4).
  - change MIN_WARP_SIZE with (2 ^ 5). apply sim_blocks_pow2; try assumption; try lia.
  - rewrite HL. apply sim_blocks_pow2; try assumption; try lia.
    rewrite <- HL. exact IH.
Qed.

(** [r] holds the exclusive prefix sums of the first [n] cells of [v], as
    [int]s. *)
Definition int_scans (r v : Z -> Z) (n : Z) : Prop :=
  forall i, 0 <= i < n -> r i = int_wrap (zsum v 0 i).

Lemma wrapped_below_refl v n :
  (forall i, 0 <= i < n -> - 2 ^ 31 <= v i < 2 ^ 31) -> wrapped_below n v v.
Proof. intros H i Hi. symmetry. apply int_wrap_small. now apply H. Qed.

Lemma int_scans_of r rz v n :
  wrapped_below n r rz -> scans rz v n -> int_scans r v n.
Proof. intros Hw Hs i Hi. rewrite (Hw i Hi). now rewrite (Hs i Hi). Qed.

Lemma prefix_sum_blocks_ok k (recw : (Z -> Z) -> Z -> option (Z -> Z)) v size :
  1 <= k -> 0 <= size <= 2 ^ 24 ->
  (forall i, 0 <= i < size -> - 2 ^ 31 <= v i < 2 ^ 31) ->
  (exists recz,
     (forall bw bz n, 0 <= n <= 2 ^ 24 -> wrapped_below n bw bz ->
        option_rel (wrapped_below n) (recw bw n) (recz bz n)) /\
     (forall bs n, 1 < n < size -> exists r, recz bs n = Some r /\ scans r bs n)) ->
  exists r, prefix_sum_blocks (2 ^ k) recw v size = Some r /\ int_scans r v size.
Proof.
  intros Hk Hs Hv (recz & Hsim & Hrec).
  destruct (exact_prefix_sum_blocks_ok k recz v size Hk Hrec) as (rz & Ez & Hsc).
  pose proof (sim_blocks_pow2 k recw recz v v size ltac:(lia) Hs Hsim
                (wrapped_below_refl v size Hv)) as Hrel.
  rewrite Ez in Hrel.
  destruct (prefix_sum_blocks (2 ^ k) recw v size) as [r|]; [|contradiction].
  exists r. split; [reflexivity|]. now apply (int_scans_of r rz).
Qed.

Lemma prefix_sum_rec_ok fuel :
  exists recz,
    (forall bw bz n, 0 <= n <= 2 ^ 24 -> wrapped_below n bw bz ->
       option_rel (wrapped_below n) (prefix_sum_openacc LOCAL_BUFFER_SIZE (S fuel) bw n)
         (recz bz n)) /\
    (forall bs n, n <= Z.of_nat fuel -> exists r, recz bs n = Some r /\ scans r bs n).
Proof.
  exists (exact_prefix_sum LOCAL_BUFFER_SIZE (S fuel)). split.
  - intros bw bz n Hn Hb. now apply sim_prefix_sum.
  - intros bs n Hn. now apply (exact_prefix_sum_ok LOCAL_BUFFER_SIZE kL HL HkL).
Qed.

Lemma prefix_sum_openacc_ok fuel v size :
  size <= Z.of_nat fuel -> 0 <= size <= 2 ^ 24 ->
  (forall i, 0 <= i < size -> - 2 ^ 31 <= v i < 2 ^ 31) ->
  exists r, prefix_sum_openacc LOCAL_BUFFER_SIZE (S fuel) v size = Some r /\
            int_scans r v size.
Proof.
  intros Hf Hs Hv.
  destruct (exact_prefix_sum_ok LOCAL_BUFFER_SIZE kL HL HkL fuel v size Hf) as (rz & Ez & Hsc).
  pose proof (sim_prefix_sum (S fuel) v v size Hs (wrapped_below_refl v size Hv)) as Hrel.
  rewrite Ez in Hrel.
  destruct (prefix_sum_openacc LOCAL_BUFFER_SIZE (S fuel) v size) as [r|]; [|contradiction].
  exists r. split; [reflexivity|]. now apply (int_scans_of r rz).
Qed.

(** When the entries and the sums of the entries before each entry are in
    the range of [int], the scan gives these sums. *)
Lemma prefix_sum_fits_ok fuel v size :
  size <= Z.of_nat fuel -> 0 <= size <= 2 ^ 24 ->
  (forall i, 0 <= i < size -> - 2 ^ 31 <= v i < 2 ^ 31) ->
  (forall i, 0 <= i < size -> - 2 ^ 31 <= zsum v 0 i < 2 ^ 31) ->
  exists r, prefix_sum_openacc LOCAL_BUFFER_SIZE (S fuel) v size = Some r /\ scans r v size.
Proof.
  intros Hf Hs Hv Hsum.
  destruct (prefix_sum_openacc_ok fuel v size Hf Hs Hv) as (r & Er & Hr).
  exists r. split; [exact Er|]. intros i Hi. rewrite (Hr i Hi).
  apply int_wrap_small. now apply Hsum.
Qed.

(** C7 (as amended).  With LOCAL_BUFFER_SIZE a power of two, at least 2,
    and for every array [a] of [int]s of a length [size] up to 2^24, the
    exclusive prefix sum returns (the recursion through the block sums
    ends within [size] calls) in the dispatcher [prefix_sum_openacc] and in
    both of its variants, and leaves in entry i, 0 <= i < size, the sum of
    the original entries a[j], j < i, as an [int]: the sum itself when it
    is in the range of [int], and the sum wrapped around otherwise.  The
    last entry is therefore the sum of all original entries but the last:
    it is the total exactly when the last original entry is 0, as it is for
    the tile offsets. *)
Theorem prefix_sum_exclusive (fuel : nat) (a : Z -> Z) (size : Z) :
  size <= Z.of_nat fuel -> 0 <= size <= 2 ^ 24 ->
  (forall i, 0 <= i < size -> - 2 ^ 31 <= a i < 2 ^ 31) ->
  let sums_before r :=
    (forall i, 0 <= i < size -> r i = int_wrap (zsum a 0 i)) /\
    (forall i, 0 <= i < size -> - 2 ^ 31 <= zsum a 0 i < 2 ^ 31 -> r i = zsum a 0 i) /\
    (0 < size -> int_add (r (size - 1)) (a (size - 1)) = int_wrap (zsum a 0 size)) in
  (exists r, prefix_sum_openacc LOCAL_BUFFER_SIZE (S fuel) a size = Some r /\ sums_before r) /\
  (exists r, prefix_sum_openacc_min LOCAL_BUFFER_SIZE (S fuel) a size = Some r
             /\ sums_before r) /\
  (exists r, prefix_sum_openacc_full LOCAL_BUFFER_SIZE (S fuel) a size = Some r
             /\ sums_before r).
Proof.
  intros Hf Hs Ha. cbv zeta.
  assert (Hlast : forall r, int_scans r a size ->
            (forall i, 0 <= i < size -> r i = int_wrap (zsum a 0 i)) /\
            (forall i, 0 <= i < size -> - 2 ^ 31 <= zsum a 0 i < 2 ^ 31 ->
               r i = zsum a 0 i) /\
            (0 < size -> int_add (r (size - 1)) (a (size - 1)) = int_wrap (zsum a 0 size))).
  { intros r Hr. split; [exact Hr|]. split.
    - intros i Hi Hin. rewrite (Hr i Hi). now apply int_wrap_small.
    - intros Hpos. rewrite (Hr (size - 1)) by lia.
      rewrite <- (int_wrap_small (a (size - 1))) at 1 by (apply Ha; lia).
      rewrite int_add_wrap. now rewrite (zsum_last a 0 size) by lia. }
  destruct (prefix_sum_rec_ok fuel) as (recz & Hsim & Hrec).
  split; [|split].
  - destruct (prefix_sum_openacc_ok fuel a size Hf Hs Ha) as (r & Hr & Hsc).
    exists r. split; [exact Hr | now apply Hlast].
  - unfold prefix_sum_openacc_min. change MIN_WARP_SIZE with (2 ^ 5).
    destruct (prefix_sum_blocks_ok 5 (prefix_sum_openacc LOCAL_BUFFER_SIZE (S fuel)) a size
                ltac:(lia) Hs Ha) as (r & Hr & Hsc).
    + exists recz. split; [exact Hsim|]. intros bs n Hn. apply Hrec. lia.
    + exists r. split; [exact Hr | now apply Hlast].
  - unfold prefix_sum_openacc_full. rewrite HL.
    destruct (prefix_sum_blocks_ok kL (prefix_sum_openacc (2 ^ kL) (S fuel)) a size
                HkL Hs Ha) as (r & Hr & Hsc).
    + exists recz. split; [|intros bs n Hn; apply Hrec; lia].
      rewrite <- HL. exact Hsim.
    + exists r. split; [exact Hr | now apply Hlast].
Qed.

End PrefixSumCorrect.

Lemma prefix_sum_exclusive_witness :
  1024 = 2 ^ 10 /\ 1 <= 10 /\ 3 <= Z.of_nat 3 /\
  exists r, prefix_sum_openacc 1024 4 (of_list [1; 2; 3]) 3 = Some r /\
            (forall i, 0 <= i < 3 -> r i = int_wrap (zsum (of_list [1; 2; 3]) 0 i)).
Proof.
  split; [reflexivity|]. split; [lia|]. split; [lia|].
  destruct (prefix_sum_exclusive 1024 10 eq_refl ltac:(lia) 3 (of_list [1; 2; 3]) 3
              ltac:(lia) ltac:(lia)) as ((r & Hr & Hsum & _) & _).
  - intros i Hi. assert (E : i = 0 \/ i = 1 \/ i = 2) by lia.
    destruct E as [-> | [-> | ->]]; vm_compute; (split; [discriminate | reflexivity]).
  - exists r. split; [exact Hr | exact Hsum].
Defined.

(** C7 as stated fails on its last clause: on the array 1, 2, 3 the last
    entry of the result is 3, the sum of the entries before it, and the sum
    of all entries is 6; so in the dispatcher (here the one-warp variant, 3
    being below LOCAL_BUFFER_SIZE/4), in the one-warp variant called
    directly and in the multi-warp variant (blocks of 4). *)
Lemma prefix_sum_last_entry_not_total :
  zsum (of_list [1; 2; 3]) 0 3 = 6 /\
  option_map (to_list 3) (prefix_sum_openacc 1024 4 (of_list [1; 2; 3]) 3)
  = Some [0; 1; 3] /\
  option_map (to_list 3) (prefix_sum_openacc_min 1024 4 (of_list [1; 2; 3]) 3)
  = Some [0; 1; 3] /\
  option_map (to_list 3) (prefix_sum_openacc_full 4 4 (of_list [1; 2; 3]) 3)
  = Some [0; 1; 3].
Proof. repeat split; vm_compute; reflexivity. Qed.

(** The sums are those of [int]s: after the largest [int], one more makes
    the smallest. *)
Lemma prefix_sum_wraps :
  option_map (to_list 4)
    (prefix_sum_openacc 1024 5 (of_list [2147483647; 1; 1; 0]) 4)
  = Some [0; 2147483647; -2147483648; -2147483647].
Proof. vm_compute. reflexivity. Qed.

(* ================================================================== *)
(** * The Yee update of B *)
(* ================================================================== *)

Section YeeB.
Context {F : Type} {SF : Scalar F}.

Lemma yee_b_cell_local (B B' : Z -> t_vfld F) E dtx dty nrow i j :
  B (i + j * nrow) = B' (i + j * nrow) ->
  yee_b_cell B E dtx dty nrow i j = yee_b_cell B' E dtx dty nrow i j.
Proof. intros H. unfold yee_b_cell. now rewrite H. Qed.

Lemma yee_b_openacc_grid B E dtx dty nrow nx_0 nx_1 :
  yee_b_openacc B E dtx dty nrow nx_0 nx_1
  = grid_loop (fun a i j => yee_b_cell a E dtx dty nrow i j)
      nrow (-1) (nx_0 + 1) (-1) (nx_1 + 1) B.
Proof. reflexivity. Qed.

Lemma yee_b_openacc_cell (B E : Z -> t_vfld F) dtx dty nrow nx_0 nx_1 i j :
  nx_0 + 2 <= nrow -> -1 <= i <= nx_0 -> -1 <= j <= nx_1 ->
  yee_b_openacc B E dtx dty nrow nx_0 nx_1 (i + j * nrow)
  = yee_b_cell B E dtx dty nrow i j.
Proof.
  intros Hrow Hi Hj. rewrite yee_b_openacc_grid.
  rewrite grid_loop_cell; try lia.
  - reflexivity.
  - intros a a' i' j' H. now apply yee_b_cell_local.
Qed.

Lemma yee_b_openacc_frame (B E : Z -> t_vfld F) dtx dty nrow nx_0 nx_1 k :
  (forall i j, -1 <= i <= nx_0 -> -1 <= j <= nx_1 -> k <> i + j * nrow) ->
  yee_b_openacc B E dtx dty nrow nx_0 nx_1 k = B k.
Proof.
  intros H. rewrite yee_b_openacc_grid.
  apply grid_loop_frame. intros i j Hi Hj. apply H; lia.
Qed.

(** [yee_b_openacc] of emf.c advances B in the cells (i,j) with
    -1 <= i <= nx[0] and -1 <= j <= nx[1], each one once and from the values
    the grids had before the call, by
    B.x += -dt_dy (E.z[i,j+1] - E.z[i,j]),
    B.y += dt_dx (E.z[i+1,j] - E.z[i,j]),
    B.z += -dt_dx (E.y[i+1,j] - E.y[i,j]) + dt_dy (E.x[i,j+1] - E.x[i,j]),
    and leaves every other cell of B as it was; a row of the grid has to
    hold the nx[0]+2 cells of the loop. *)
Theorem yee_b_openacc_cells (B E : Z -> t_vfld F) (dt_dx dt_dy : F) (nrow nx_0 nx_1 : Z) :
  nx_0 + 2 <= nrow ->
  let B' := yee_b_openacc B E dt_dx dt_dy nrow nx_0 nx_1 in
  (forall i j, -1 <= i <= nx_0 -> -1 <= j <= nx_1 ->
     let c := i + j * nrow in
     vx (B' c) = vx (B c) +! (fneg dt_dy *! (vz (E (i + (j + 1) * nrow)) -! vz (E c))) /\
     vy (B' c) = vy (B c) +! (dt_dx *! (vz (E ((i + 1) + j * nrow)) -! vz (E c))) /\
     vz (B' c) = vz (B c) +! (fneg dt_dx *! (vy (E ((i + 1) + j * nrow)) -! vy (E c))
                              +! dt_dy *! (vx (E (i + (j + 1) * nrow)) -! vx (E c)))) /\
  (forall k, (forall i j, -1 <= i <= nx_0 -> -1 <= j <= nx_1 -> k <> i + j * nrow) ->
     B' k = B k).
Proof.
  intros Hrow B'. split.
  - intros i j Hi Hj c. unfold B', c.
    rewrite yee_b_openacc_cell by assumption.
    unfold yee_b_cell. cbn [vx vy vz]. repeat split; reflexivity.
  - intros k Hk. now apply yee_b_openacc_frame.
Qed.

End YeeB.

Lemma yee_b_openacc_cells_witness :
  let E : Z -> t_vfld Z := fun k => mk_vfld 0 0 k in
  let B' := yee_b_openacc (fun _ => mk_vfld 0 0 0) E 1 1 4 2 2 in
  2 + 2 <= 4 /\ vx (B' (1 + 1 * 4)) = -4 /\ vy (B' (1 + 1 * 4)) = 1.
Proof.
  intros E B'. split; [lia|].
  destruct (yee_b_openacc_cells (fun _ => mk_vfld 0 0 0) E 1 1 4 2 2 ltac:(lia)) as [H _].
  destruct (H 1 1 ltac:(lia) ltac:(lia)) as (Hx & Hy & _).
  split; [exact Hx | exact Hy].
Defined.

(** The discrete divergence of B at the cell (i,j), times dt:
    dt_dx (B.x[i+1,j] - B.x[i,j]) + dt_dy (B.y[i,j+1] - B.y[i,j]). *)
Definition div_B (B : Z -> t_vfld R) (dt_dx dt_dy : R) (nrow i j : Z) : R :=
  (dt_dx * (vx (B ((i + 1) + j * nrow)%Z) - vx (B (i + j * nrow)%Z))
   + dt_dy * (vy (B (i + (j + 1) * nrow)%Z) - vy (B (i + j * nrow)%Z)))%R.

(** Over the real numbers [yee_b_openacc] keeps the discrete divergence of
    B: in every cell (i,j) with -1 <= i < nx[0] and -1 <= j < nx[1] (the cell
    and its right and upper neighbours are all advanced), whatever E is. *)
Theorem yee_b_keeps_div_B (B E : Z -> t_vfld R) (dt_dx dt_dy : R) (nrow nx_0 nx_1 i j : Z) :
  nx_0 + 2 <= nrow -> -1 <= i < nx_0 -> -1 <= j < nx_1 ->
  div_B (yee_b_openacc B E dt_dx dt_dy nrow nx_0 nx_1) dt_dx dt_dy nrow i j
  = div_B B dt_dx dt_dy nrow i j.
Proof.
  intros Hrow Hi Hj. unfold div_B.
  rewrite (yee_b_openacc_cell B E dt_dx dt_dy nrow nx_0 nx_1 i j) by lia.
  rewrite (yee_b_openacc_cell B E dt_dx dt_dy nrow nx_0 nx_1 (i + 1) j) by lia.
  rewrite (yee_b_openacc_cell B E dt_dx dt_dy nrow nx_0 nx_1 i (j + 1)) by lia.
  unfold yee_b_cell. cbn [vx vy vz fadd fsub fmul fneg R_scalar].
  replace (i + 1 + 1 + j * nrow) with (i + 2 + j * nrow) by lia.
  replace (i + (j + 1 + 1) * nrow) with (i + (j + 2) * nrow) by lia.
  replace (i + 1 + (j + 1) * nrow) with (i + 1 + j * nrow + nrow) by lia.
  replace (i + (j + 1) * nrow) with (i + j * nrow + nrow) by lia.
  replace (i + 1 + j * nrow + nrow) with (i + j * nrow + nrow + 1) by lia.
  replace (i + 1 + j * nrow) with (i + j * nrow + 1) by lia.
  ring.
Qed.

Lemma yee_b_keeps_div_B_witness :
  let E : Z -> t_vfld R := fun k => mk_vfld 0%R 0%R (IZR k) in
  let B : Z -> t_vfld R := fun _ => mk_vfld 0%R 0%R 0%R in
  div_B (yee_b_openacc B E 1%R 1%R 4 2 2) 1%R 1%R 4 0 0 = div_B B 1%R 1%R 4 0 0.
Proof.
  intros E B. apply (yee_b_keeps_div_B B E 1%R 1%R 4 2 2 0 0); lia.
Defined.

(* ================================================================== *)
(** * The trajectory split of the current deposit *)
(* ================================================================== *)

(** One statement of a block at a time: the rest of the block runs on a
    value of which only the equation is known. *)
Lemma seq_intro {A B : Type} (e : A) (k : A -> B) (Q : B -> Prop) :
  (forall x, x = e -> Q (k x)) -> Q (seq e k).
Proof. intros H. exact (H e eq_refl). Qed.

Ltac unfold_set H :=
  unfold set_x0, set_x1, set_y0, set_y1, set_dx, set_dy, set_qvz, set_ix, set_iy in H;
  cbv beta zeta in H.

Section SplitFrame.
Context {F : Type} {SF : Scalar F}.
Variables (vp0 : Z -> t_vp F) (b : Z).

(** [vp] differs from [vp0] in the window [vp[b .. b+2]] only. *)
Definition frame (vp : Z -> t_vp F) : Prop :=
  forall k, ~ (b <= k < b + 3) -> vp k = vp0 k.

Lemma frame_upd vp i w : frame vp -> b <= i < b + 3 -> frame (upd vp i w).
Proof.
  intros H Hi k Hk. rewrite upd_other by lia. now apply H.
Qed.

(** The next statement is a store in the window. *)
Ltac frame_store :=
  apply seq_intro;
  let x := fresh "vp" in
  let Hx := fresh "Hx" in
  intros x Hx; cbv beta; unfold_set Hx;
  lazymatch type of Hx with
  | x = upd ?v ?i ?w =>
      let W := fresh "W" in
      assert (W : frame x) by (rewrite Hx; apply frame_upd; [assumption | lia]);
      clear Hx
  end.

(** The next statement computes a scalar. *)
Ltac frame_value :=
  apply seq_intro; intros ? _; cbv beta.

Lemma split_init_frame ix iy x0 y0 dx dy qvz vp :
  frame vp -> frame (split_init ix iy x0 y0 dx dy qvz vp b).
Proof.
  intros W. unfold split_init.
  do 8 frame_store.
  unfold set_iy. apply frame_upd; [assumption | lia].
Qed.

Lemma split_x_frame ix iy di x0 y0 dx dy vp vnp :
  frame vp ->
  frame (fst (split_x ix iy di x0 y0 dx dy vp b vnp)) /\
  snd (split_x ix iy di x0 y0 dx dy vp b vnp) = vnp + (if di =? 0 then 0 else 1).
Proof.
  intros W.
  set (Q := fun r : (Z -> t_vp F) * Z =>
              frame (fst r) /\ snd r = vnp + (if di =? 0 then 0 else 1)).
  change (Q (split_x ix iy di x0 y0 dx dy vp b vnp)).
  unfold split_x. destruct (di =? 0); cbn [negb] in *.
  - split; [exact W | cbn [snd]; lia].
  - do 2 frame_value. do 4 frame_store. frame_value. do 10 frame_store.
    split; [assumption | reflexivity].
Qed.

Lemma split_y_frame dj vp vnp :
  1 <= vnp <= 2 -> frame vp ->
  frame (fst (split_y dj vp b vnp)) /\
  snd (split_y dj vp b vnp) = vnp + (if dj =? 0 then 0 else 1).
Proof.
  intros Hn W.
  set (Q := fun r : (Z -> t_vp F) * Z =>
              frame (fst r) /\ snd r = vnp + (if dj =? 0 then 0 else 1)).
  change (Q (split_y dj vp b vnp)).
  unfold split_y. destruct (dj =? 0); cbn [negb] in *.
  - split; [exact W | cbn [snd]; lia].
  - apply seq_intro. intros isy Hisy. cbv beta.
    assert (Hi : 0 <= isy <= 1) by (rewrite Hisy; destruct (_ || _); lia).
    clear Hisy.
    do 2 frame_value. do 4 frame_store. frame_value. do 10 frame_store.
    apply seq_intro. intros vp' Hvp'. cbv beta.
    assert (W' : frame vp').
    { rewrite Hvp'. destruct (isy <? vnp - 1); [|assumption].
      do 2 frame_store. unfold set_iy. apply frame_upd; [assumption | lia]. }
    split; [assumption | reflexivity].
Qed.

End SplitFrame.

(** The split of [dep_current_openacc] makes one virtual particle, one more
    when the particle changes cell in x ([di != 0]) and one more when it
    changes cell in y ([dj != 0]): between one and three.  Whatever the
    arguments and the contents of [vp], it writes no entry of [vp] outside
    the three of its thread, [vp[3 thread_id .. 3 thread_id + 2]]. *)
Theorem dep_current_split_window {F : Type} {SF : Scalar F}
  (ix iy di dj : Z) (x0 y0 dx dy qvz : F) (vp : Z -> t_vp F) (thread_id : Z) :
  let r := dep_current_split ix iy di dj x0 y0 dx dy qvz vp thread_id in
  snd r = 1 + (if di =? 0 then 0 else 1) + (if dj =? 0 then 0 else 1) /\
  1 <= snd r <= 3 /\
  (forall k, ~ (thread_id * 3 <= k < thread_id * 3 + 3) -> fst r k = vp k).
Proof.
  intros r. unfold dep_current_split in r.
  set (b := thread_id * 3) in *.
  assert (W0 : frame vp b vp) by (intros k _; reflexivity).
  pose proof (split_init_frame vp b ix iy x0 y0 dx dy qvz vp W0) as W1.
  destruct (split_x_frame vp b ix iy di x0 y0 dx dy _ 1 W1) as [W2 N2].
  destruct (split_x ix iy di x0 y0 dx dy (split_init ix iy x0 y0 dx dy qvz vp b) b 1)
    as [vp2 n2] eqn:E2.
  cbn [fst snd] in W2, N2.
  assert (Hn2 : 1 <= n2 <= 2) by (destruct (di =? 0); lia).
  destruct (split_y_frame vp b dj vp2 n2 Hn2 W2) as [W3 N3].
  subst r. split; [|split].
  - rewrite N3, N2. reflexivity.
  - rewrite N3. destruct (dj =? 0); lia.
  - exact W3.
Qed.

Section SplitSlots.
Context {F : Type} {SF : Scalar F}.
Variable b : Z.

(** The three entries of the window. *)
Definition holds (vp : Z -> t_vp F) (S0 S1 S2 : t_vp F) : Prop :=
  vp b = S0 /\ vp (b + 1) = S1 /\ vp (b + 2) = S2.

Lemma holds_0 vp S0 S1 S2 : holds vp S0 S1 S2 -> vp b = S0.
Proof. now intros (H & _ & _). Qed.
Lemma holds_1 vp S0 S1 S2 : holds vp S0 S1 S2 -> vp (b + 1) = S1.
Proof. now intros (_ & H & _). Qed.
Lemma holds_2 vp S0 S1 S2 : holds vp S0 S1 S2 -> vp (b + 2) = S2.
Proof. now intros (_ & _ & H). Qed.

Lemma holds_upd_0 vp S0 S1 S2 i w :
  holds vp S0 S1 S2 -> i = b -> holds (upd vp i w) w S1 S2.
Proof.
  intros (H0 & H1 & H2) ->. unfold holds.
  rewrite upd_same, !upd_other by lia. auto.
Qed.
Lemma holds_upd_1 vp S0 S1 S2 i w :
  holds vp S0 S1 S2 -> i = b + 1 -> holds (upd vp i w) S0 w S2.
Proof.
  intros (H0 & H1 & H2) ->. unfold holds.
  rewrite upd_same, !upd_other by lia. auto.
Qed.
Lemma holds_upd_2 vp S0 S1 S2 i w :
  holds vp S0 S1 S2 -> i = b + 2 -> holds (upd vp i w) S0 S1 w.
Proof.
  intros (H0 & H1 & H2) ->. unfold holds.
  rewrite upd_same, !upd_other by lia. auto.
Qed.

(** The virtual particles the blocks write, entry by entry. *)
Definition seg_init (ix iy : Z) (x0 y0 dx dy qvz : F) : t_vp F :=
  mk_vp x0 (x0 +! dx) y0 (y0 +! dy) dx dy (qvz /! f2) ix iy.

Definition x_delta (di : Z) (x0 dx : F) : F :=
  (x0 +! dx -! of_int (if di =? 1 then 1 else 0)) /! dx.

Definition x_new (S0 : t_vp F) (ix iy di : Z) (x0 y0 dx dy : F) : t_vp F :=
  let delta := x_delta di x0 dx in
  mk_vp (of_int (1 - (if di =? 1 then 1 else 0))) ((x0 +! dx) -! of_int di)
    (y0 +! dy *! (f1 -! delta)) (vp_y1 S0)
    (dx *! delta) (dy *! delta) (vp_qvz S0 *! delta) (ix + di) iy.

Definition x_old (S0 : t_vp F) (di : Z) (x0 y0 dx dy : F) : t_vp F :=
  let delta := x_delta di x0 dx in
  mk_vp (vp_x0 S0) (of_int (if di =? 1 then 1 else 0))
    (vp_y0 S0) (y0 +! dy *! (f1 -! delta))
    (vp_dx S0 *! (f1 -! delta)) (vp_dy S0 *! (f1 -! delta)) (vp_qvz S0 *! (f1 -! delta))
    (vp_ix S0) (vp_iy S0).

Definition y_delta (dj : Z) (Sy : t_vp F) : F :=
  (vp_y1 Sy -! of_int (if dj =? 1 then 1 else 0)) /! vp_dy Sy.

Definition y_new (dj : Z) (Sy : t_vp F) : t_vp F :=
  let delta := y_delta dj Sy in
  mk_vp (vp_x0 Sy +! vp_dx Sy *! (f1 -! delta)) (vp_x1 Sy)
    (of_int (1 - (if dj =? 1 then 1 else 0))) (vp_y1 Sy -! of_int dj)
    (vp_dx Sy *! delta) (vp_dy Sy *! delta) (vp_qvz Sy *! delta)
    (vp_ix Sy) (vp_iy Sy + dj).

Definition y_old (dj : Z) (Sy : t_vp F) : t_vp F :=
  let delta := y_delta dj Sy in
  mk_vp (vp_x0 Sy) (vp_x0 Sy +! vp_dx Sy *! (f1 -! delta))
    (vp_y0 Sy) (of_int (if dj =? 1 then 1 else 0))
    (vp_dx Sy *! (f1 -! delta)) (vp_dy Sy *! (f1 -! delta)) (vp_qvz Sy *! (f1 -! delta))
    (vp_ix Sy) (vp_iy Sy).

Definition y_shift (dj : Z) (S1 : t_vp F) : t_vp F :=
  mk_vp (vp_x0 S1) (vp_x1 S1) (vp_y0 S1 -! of_int dj) (vp_y1 S1 -! of_int dj)
    (vp_dx S1) (vp_dy S1) (vp_qvz S1) (vp_ix S1) (vp_iy S1 + dj).

(** The reads of the window in [H], from what [W] knows of it. *)
Ltac read_slots H W :=
  rewrite ?(holds_0 _ _ _ _ W), ?(holds_1 _ _ _ _ W), ?(holds_2 _ _ _ _ W) in H;
  cbn [vp_x0 vp_x1 vp_y0 vp_y1 vp_dx vp_dy vp_qvz vp_ix vp_iy] in H.

(** The next statement is a store to an entry of the window. *)
Ltac slot_store :=
  apply seq_intro;
  let x := fresh "vp" in
  let Hx := fresh "Hx" in
  intros x Hx; cbv beta; unfold_set Hx;
  lazymatch goal with
  | W : holds ?v _ _ _ |- _ =>
      read_slots Hx W;
      lazymatch type of Hx with
      | x = upd v ?i ?w =>
          let W' := fresh "W" in
          first [ pose proof (holds_upd_0 _ _ _ _ i w W ltac:(lia)) as W'
                | pose proof (holds_upd_1 _ _ _ _ i w W ltac:(lia)) as W'
                | pose proof (holds_upd_2 _ _ _ _ i w W ltac:(lia)) as W' ];
          rewrite <- Hx in W'; clear Hx W; try clear v
      end
  end.

(** The next statement computes a scalar from the window. *)
Ltac slot_value :=
  apply seq_intro;
  let x := fresh "v" in
  let Hx := fresh "Hx" in
  intros x Hx; cbv beta;
  lazymatch goal with
  | W : holds _ _ _ _ |- _ => read_slots Hx W; subst x
  end.

Ltac slot_done := lazymatch goal with W : holds _ _ _ _ |- _ => exact W end.

(** The last statement of a block, a store. *)
Ltac slot_tail :=
  lazymatch goal with
  | |- ?Q ?t => change (Q (seq t (fun x => x)))
  end; slot_store.

Lemma split_init_slots ix iy x0 y0 dx dy qvz vp :
  holds (split_init ix iy x0 y0 dx dy qvz vp b)
    (seg_init ix iy x0 y0 dx dy qvz) (vp (b + 1)) (vp (b + 2)).
Proof.
  assert (W : holds vp (vp b) (vp (b + 1)) (vp (b + 2))) by (repeat split).
  set (Q := fun v => holds v (seg_init ix iy x0 y0 dx dy qvz) (vp (b + 1)) (vp (b + 2))).
  change (Q (split_init ix iy x0 y0 dx dy qvz vp b)).
  unfold split_init.
  do 8 slot_store. slot_tail. slot_done.
Qed.

Lemma split_x_slots ix iy di x0 y0 dx dy vp vnp S0 S1 S2 :
  di <> 0 -> holds vp S0 S1 S2 ->
  exists vp',
    split_x ix iy di x0 y0 dx dy vp b vnp = (vp', vnp + 1) /\
    holds vp' (x_old S0 di x0 y0 dx dy) (x_new S0 ix iy di x0 y0 dx dy) S2.
Proof.
  intros Hdi W.
  set (Q := fun r : (Z -> t_vp F) * Z =>
              exists vp', r = (vp', vnp + 1) /\
                holds vp' (x_old S0 di x0 y0 dx dy) (x_new S0 ix iy di x0 y0 dx dy) S2).
  change (Q (split_x ix iy di x0 y0 dx dy vp b vnp)).
  unfold split_x. apply Z.eqb_neq in Hdi. rewrite Hdi. cbn [negb].
  do 2 slot_value. do 4 slot_store. slot_value. do 10 slot_store.
  eexists. split; [reflexivity | slot_done].
Qed.

(** The y split when the first virtual particle crosses the edge and
    there is no second one yet. *)
Lemma split_y_slots_first dj vp S0 S1 S2 :
  dj <> 0 -> holds vp S0 S1 S2 ->
  (vp_y1 S0 <!? f0) || (f1 <=!? vp_y1 S0) = true ->
  exists vp',
    split_y dj vp b 1 = (vp', 2) /\
    holds vp' (y_old dj S0) (y_new dj S0) S2.
Proof.
  intros Hdj W Hout.
  set (Q := fun r : (Z -> t_vp F) * Z =>
              exists vp', r = (vp', 2) /\ holds vp' (y_old dj S0) (y_new dj S0) S2).
  change (Q (split_y dj vp b 1)).
  unfold split_y. apply Z.eqb_neq in Hdj. rewrite Hdj. cbn [negb].
  rewrite (holds_0 _ _ _ _ W), Hout.
  change (1 - 1) with 0. change (1 - 1 <? 1 - 1) with false.
  slot_value. rewrite !Z.add_0_r.
  do 2 slot_value. do 4 slot_store. slot_value. do 10 slot_store.
  slot_value.
  eexists. split; [reflexivity | slot_done].
Qed.

(** The y split when the first of two virtual particles crosses the edge:
    the second one is moved to the next row of cells. *)
Lemma split_y_slots_both_first dj vp S0 S1 S2 :
  dj <> 0 -> holds vp S0 S1 S2 ->
  (vp_y1 S0 <!? f0) || (f1 <=!? vp_y1 S0) = true ->
  exists vp',
    split_y dj vp b 2 = (vp', 3) /\
    holds vp' (y_old dj S0) (y_shift dj S1) (y_new dj S0).
Proof.
  intros Hdj W Hout.
  set (Q := fun r : (Z -> t_vp F) * Z =>
              exists vp', r = (vp', 3) /\
                holds vp' (y_old dj S0) (y_shift dj S1) (y_new dj S0)).
  change (Q (split_y dj vp b 2)).
  unfold split_y. apply Z.eqb_neq in Hdj. rewrite Hdj. cbn [negb].
  rewrite (holds_0 _ _ _ _ W), Hout.
  change (1 - 1) with 0.
  slot_value. rewrite !Z.add_0_r. change (0 <? 2 - 1) with true. cbv iota.
  do 2 slot_value. do 4 slot_store. slot_value. do 10 slot_store.
  apply seq_intro. intros vpf Hf. cbv beta.
  assert (Wf : holds vpf (y_old dj S0) (y_shift dj S1) (y_new dj S0)).
  { rewrite Hf. clear Hf.
    set (Q2 := fun v => holds v (y_old dj S0) (y_shift dj S1) (y_new dj S0)).
    lazymatch goal with |- holds ?t _ _ _ => change (Q2 t) end.
    do 2 slot_store. slot_tail. slot_done. }
  eexists. split; [reflexivity | exact Wf].
Qed.

(** The y split when the second of two virtual particles crosses the
    edge. *)
Lemma split_y_slots_second dj vp S0 S1 S2 :
  dj <> 0 -> holds vp S0 S1 S2 ->
  (vp_y1 S0 <!? f0) || (f1 <=!? vp_y1 S0) = false ->
  exists vp',
    split_y dj vp b 2 = (vp', 3) /\
    holds vp' S0 (y_old dj S1) (y_new dj S1).
Proof.
  intros Hdj W Hin.
  set (Q := fun r : (Z -> t_vp F) * Z =>
              exists vp', r = (vp', 3) /\ holds vp' S0 (y_old dj S1) (y_new dj S1)).
  change (Q (split_y dj vp b 2)).
  unfold split_y. apply Z.eqb_neq in Hdj. rewrite Hdj. cbn [negb].
  rewrite (holds_0 _ _ _ _ W), Hin.
  change (1 - 0) with 1.
  slot_value. change (1 <? 2 - 1) with false. cbv iota.
  do 2 slot_value. do 4 slot_store. slot_value. do 10 slot_store.
  slot_value.
  eexists. split; [reflexivity | slot_done].
Qed.

End SplitSlots.

Lemma split_x_none {F : Type} {SF : Scalar F} ix iy (x0 y0 dx dy : F) vp b vnp :
  split_x ix iy 0 x0 y0 dx dy vp b vnp = (vp, vnp).
Proof. reflexivity. Qed.

Lemma split_y_none {F : Type} {SF : Scalar F} (vp : Z -> t_vp F) b vnp :
  split_y 0 vp b vnp = (vp, vnp).
Proof. reflexivity. Qed.

(** The sum of a field over the virtual particles [vp[begin .. begin+vnp-1]]. *)
Definition vp_total (f : t_vp R -> R) (vp : Z -> t_vp R) (begin vnp : Z) : R :=
  for_range begin (begin + vnp) (fun k acc => (acc + f (vp k))%R) 0%R.

Lemma vp_total_1 f vp b : vp_total f vp b 1 = (0 + f (vp b))%R.
Proof.
  unfold vp_total, for_range. replace (b + 1 - b) with 1 by lia. reflexivity.
Qed.

Lemma vp_total_2 f vp b : vp_total f vp b 2 = (0 + f (vp b) + f (vp (b + 1)%Z))%R.
Proof.
  unfold vp_total, for_range. replace (b + 2 - b) with 2 by lia. reflexivity.
Qed.

Lemma vp_total_3 f vp b :
  vp_total f vp b 3 = (0 + f (vp b) + f (vp (b + 1)%Z) + f (vp (b + 2)%Z))%R.
Proof.
  unfold vp_total, for_range. replace (b + 3 - b) with 3 by lia.
  change (Z.to_nat 3) with 3%nat. cbn [for_n].
  now replace (b + 1 + 1) with (b + 2) by lia.
Qed.

Ltac slots_in W :=
  rewrite ?(holds_0 _ _ _ _ _ W), ?(holds_1 _ _ _ _ _ W), ?(holds_2 _ _ _ _ _ W).

(** Over the real numbers the split conserves the totals: the x
    displacements of the virtual particles sum to [dx], their y displacements
    to [dy] and their weights to [qvz / 2].  When the particle changes cell in
    y only, its end point [y0 + dy] has to lie outside [0, 1), as it does for
    [dj = LTRIM(y0 + dy)]: the split then works on the first virtual particle
    and not on the entry after it, which nothing has written. *)
Theorem dep_current_split_conserves
  (ix iy di dj : Z) (x0 y0 dx dy qvz : R) (vp : Z -> t_vp R) (thread_id : Z) :
  (di = 0 -> dj <> 0 -> ~ (0 <= y0 + dy < 1)%R) ->
  let r := dep_current_split ix iy di dj x0 y0 dx dy qvz vp thread_id in
  vp_total vp_dx (fst r) (thread_id * 3) (snd r) = dx /\
  vp_total vp_dy (fst r) (thread_id * 3) (snd r) = dy /\
  vp_total vp_qvz (fst r) (thread_id * 3) (snd r) = (qvz / 2)%R.
Proof.
  intros Hy r. subst r. unfold dep_current_split. cbv zeta.
  set (b := thread_id * 3).
  pose proof (split_init_slots b ix iy x0 y0 dx dy qvz vp) as W1.
  set (vp1 := split_init ix iy x0 y0 dx dy qvz vp b) in *. clearbody vp1.
  destruct (Z.eq_dec di 0) as [Hdi|Hdi]; destruct (Z.eq_dec dj 0) as [Hdj|Hdj].
  - (* the particle stays in its cell *)
    subst di dj. rewrite split_x_none, split_y_none. cbn [fst snd].
    rewrite !vp_total_1. slots_in W1. cbn. repeat split; ring.
  - (* it crosses in y only *)
    subst di. rewrite split_x_none.
    destruct (split_y_slots_first b dj vp1 _ _ _ Hdj W1) as (vp' & -> & W').
    { cbn. specialize (Hy eq_refl Hdj).
      unfold Rltb, Rleb. destruct (Rlt_dec (y0 + dy) 0), (Rle_dec 1 (y0 + dy)); try reflexivity.
      exfalso. apply Hy. lra. }
    cbn [fst snd]. rewrite !vp_total_2. slots_in W'.
    cbn. repeat split; ring.
  - (* it crosses in x only *)
    subst dj.
    destruct (split_x_slots b ix iy di x0 y0 dx dy vp1 1 _ _ _ Hdi W1) as (vp' & -> & W').
    rewrite split_y_none. cbn [fst snd]. change (1 + 1) with 2.
    rewrite !vp_total_2. slots_in W'.
    cbn. repeat split; ring.
  - (* it crosses in both *)
    destruct (split_x_slots b ix iy di x0 y0 dx dy vp1 1 _ _ _ Hdi W1) as (vp2 & -> & W2).
    change (1 + 1) with 2.
    destruct ((vp_y1 (x_old (seg_init ix iy x0 y0 dx dy qvz) di x0 y0 dx dy) <!? f0)
              || (f1 <=!? vp_y1 (x_old (seg_init ix iy x0 y0 dx dy qvz) di x0 y0 dx dy)))
      eqn:Hout.
    + destruct (split_y_slots_both_first b dj vp2 _ _ _ Hdj W2 Hout) as (vp' & -> & W').
      cbn [fst snd]. rewrite !vp_total_3. slots_in W'.
      cbn. repeat split; ring.
    + destruct (split_y_slots_second b dj vp2 _ _ _ Hdj W2 Hout) as (vp' & -> & W').
      cbn [fst snd]. rewrite !vp_total_3. slots_in W'.
      cbn. repeat split; ring.
Qed.

Lemma dep_current_split_conserves_witness :
  let r := dep_current_split 0 0 0 1 (1 / 2)%R (1 / 2)%R (1 / 4)%R 1%R 2%R
             (fun _ => seg_init 0 0 0%R 0%R 0%R 0%R 0%R) 0 in
  vp_total vp_dx (fst r) (0 * 3) (snd r) = (1 / 4)%R /\
  vp_total vp_dy (fst r) (0 * 3) (snd r) = 1%R.
Proof.
  intros r.
  assert (H : 0 = 0 -> 1 <> 0 -> ~ (0 <= 1 / 2 + 1 < 1)%R) by (intros _ _ [_ H]; lra).
  destruct (dep_current_split_conserves 0 0 0 1 (1 / 2)%R (1 / 2)%R (1 / 4)%R 1%R 2%R
              (fun _ => seg_init 0 0 0%R 0%R 0%R 0%R 0%R) 0 H) as (Hx & Hy & _).
  split; [exact Hx | exact Hy].
Defined.

(* ================================================================== *)
(** * The particle pusher *)
(* ================================================================== *)

Section Pusher.
Local Open Scope R_scope.

Ltac r_ops := cbn [fadd fsub fmul fdiv fneg fsqrt f0 f1 f2 fhalf of_int R_scalar
                   vx vy vz u_x u_y u_z].

(** Over the real numbers [interpolate_fld_openacc] returns a uniform
    field as it is: the weights of the four cells sum to one, wherever the
    particle is in its cell. *)
Theorem interpolate_uniform (E B : Z -> t_vfld R) (e b : t_vfld R)
  (nrow ix iy : Z) (x y : R) :
  (forall k, E k = e) -> (forall k, B k = b) ->
  interpolate_fld_openacc E B nrow ix iy x y = (e, b).
Proof.
  intros HE HB. unfold interpolate_fld_openacc. cbv zeta.
  rewrite !HE, !HB. destruct e as [ex ey ez], b as [bx by_ bz]. r_ops.
  f_equal; f_equal; ring.
Qed.

Lemma interpolate_uniform_witness :
  interpolate_fld_openacc (fun _ => mk_vfld 1 2 3) (fun _ => mk_vfld 4 5 6) 5 1 1 (1 / 4) (3 / 4)
  = (mk_vfld 1 2 3, mk_vfld 4 5 6).
Proof.
  apply (interpolate_uniform (fun _ => mk_vfld 1 2 3) (fun _ => mk_vfld 4 5 6));
    intros k; reflexivity.
Defined.

(** Without fields the particle sees none. *)
Lemma interpolate_no_field (E B : Z -> t_vfld R) (nrow ix iy : Z) (x y : R) :
  (forall k, E k = mk_vfld 0 0 0) -> (forall k, B k = mk_vfld 0 0 0) ->
  interpolate_fld_openacc E B nrow ix iy x y = (mk_vfld 0 0 0, mk_vfld 0 0 0).
Proof.
  intros HE HB. unfold interpolate_fld_openacc. cbv zeta.
  rewrite !HE, !HB. r_ops. f_equal; f_equal; ring.
Qed.

(** |u|^2 of a momentum. *)
Definition u_sq (u : t_float3 R) : R := u_x u * u_x u + u_y u * u_y u + u_z u * u_z u.

(** Over the real numbers the Boris rotation of [advance_part_velocity]
    keeps the magnitude of the momentum when there is no electric field,
    whatever the magnetic field and the time step. *)
Theorem boris_rotation_keeps_magnitude (u : t_float3 R) (Ep Bp : t_vfld R) (tem : R) :
  vx Ep = 0 -> vy Ep = 0 -> vz Ep = 0 ->
  u_sq (advance_part_velocity u Ep Bp tem) = u_sq u.
Proof.
  intros Hx Hy Hz. unfold advance_part_velocity, u_sq. cbv zeta. r_ops.
  rewrite Hx, Hy, Hz.
  destruct u as [x y z]. r_ops.
  replace (x + 0 * tem) with x by ring.
  replace (y + 0 * tem) with y by ring.
  replace (z + 0 * tem) with z by ring.
  set (g := tem / sqrt (1 + (x * x + y * y + z * z))).
  generalize (vx Bp * g), (vy Bp * g), (vz Bp * g). intros a b c.
  assert (HD : 1 + (a * a + b * b + c * c) <> 0) by nra.
  field. exact HD.
Qed.

Lemma boris_rotation_keeps_magnitude_witness :
  u_sq (advance_part_velocity (mk_float3 1 2 3) (mk_vfld 0 0 0) (mk_vfld 1 0 2) (1 / 2))
  = u_sq (mk_float3 1 2 3).
Proof.
  apply boris_rotation_keeps_magnitude; reflexivity.
Defined.

(** Without fields the momentum is left as it is. *)
Lemma advance_part_velocity_free (u : t_float3 R) (tem : R) :
  advance_part_velocity u (mk_vfld 0 0 0) (mk_vfld 0 0 0) tem = u.
Proof.
  unfold advance_part_velocity. cbv zeta. r_ops. destruct u as [x y z]. r_ops.
  f_equal; ring.
Qed.

End Pusher.

Section PushLoop.
Context {F : Type} {SF : Scalar F}.

(** One particle of a vector: [t_part] of particles.h, with the flag of
    the OpenACC vectors. *)
Record t_part : Type := mk_part {
  p_ix : Z; p_iy : Z;
  p_x : F; p_y : F;
  p_ux : F; p_uy : F; p_uz : F;
  p_invalid : bool
}.

Definition particle (pv : t_particle_vector F) (k : Z) : t_part :=
  mk_part (pv_ix pv k) (pv_iy pv k) (pv_x pv k) (pv_y pv k)
    (pv_ux pv k) (pv_uy pv k) (pv_uz pv k) (pv_invalid pv k).

(** What the loop body does to the particle it works on. *)
Definition push_one (spec : t_species F) (E B : Z -> t_vfld F) (nrow off_x off_y : Z)
  (p : t_part) : t_part :=
  if negb (p_invalid p) then
    let tem := fhalf *! sp_dt spec /! sp_m_q spec in
    let dt_dx := sp_dt spec /! sp_dx0 spec in
    let dt_dy := sp_dt spec /! sp_dx1 spec in
    let EB := interpolate_fld_openacc E B nrow (p_ix p - off_x) (p_iy p - off_y)
                (p_x p) (p_y p) in
    let u := advance_part_velocity (mk_float3 (p_ux p) (p_uy p) (p_uz p))
               (fst EB) (snd EB) tem in
    let usq := u_x u *! u_x u +! u_y u *! u_y u +! u_z u *! u_z u in
    let rg := f1 /! fsqrt (f1 +! usq) in
    let x1 := p_x p +! dt_dx *! rg *! u_x u in
    let y1 := p_y p +! dt_dy *! rg *! u_y u in
    mk_part (p_ix p + LTRIM x1) (p_iy p + LTRIM y1)
      (x1 -! of_int (LTRIM x1)) (y1 -! of_int (LTRIM y1))
      (u_x u) (u_y u) (u_z u) false
  else p.

Definition push_pv (st : t_push F) : t_particle_vector F := fst (fst st).

Lemma push_particle_slot spec E B nrow off_x off_y nrow_j tid k st :
  particle (push_pv (push_particle spec E B nrow off_x off_y nrow_j tid k st)) k
  = push_one spec E B nrow off_x off_y (particle (push_pv st) k).
Proof.
  destruct st as [[pv Jc] vp]. unfold push_particle, push_one, push_pv.
  cbn [fst snd particle p_invalid p_ix p_iy p_x p_y p_ux p_uy p_uz].
  destruct (pv_invalid pv k) eqn:Hinv; cbn [negb].
  - reflexivity.
  - cbv zeta.
    destruct (interpolate_fld_openacc E B nrow (pv_ix pv k - off_x) (pv_iy pv k - off_y)
                (pv_x pv k) (pv_y pv k)) as [Ep Bp].
    cbn [fst snd].
    match goal with |- context [dep_current_openacc ?a ?b ?c ?d ?e ?f ?g ?h ?i ?j ?l ?m ?n ?o ?p] =>
      destruct (dep_current_openacc a b c d e f g h i j l m n o p) as [J' vp'] end.
    cbn [fst snd]. unfold particle.
    cbn [pv_ix pv_iy pv_x pv_y pv_ux pv_uy pv_uz pv_invalid
         with_ix with_iy with_x with_y with_ux with_uy with_uz].
    rewrite !upd_same, Hinv. reflexivity.
Qed.

Lemma push_particle_other spec E B nrow off_x off_y nrow_j tid k st k' :
  k' <> k ->
  particle (push_pv (push_particle spec E B nrow off_x off_y nrow_j tid k st)) k'
  = particle (push_pv st) k'.
Proof.
  intros Hne. destruct st as [[pv Jc] vp]. unfold push_particle, push_pv.
  cbn [fst snd]. destruct (pv_invalid pv k); cbn [negb]; [reflexivity|].
  cbv zeta.
  destruct (interpolate_fld_openacc E B nrow (pv_ix pv k - off_x) (pv_iy pv k - off_y)
              (pv_x pv k) (pv_y pv k)) as [Ep Bp].
  match goal with |- context [dep_current_openacc ?a ?b ?c ?d ?e ?f ?g ?h ?i ?j ?l ?m ?n ?o ?p] =>
    destruct (dep_current_openacc a b c d e f g h i j l m n o p) as [J' vp'] end.
  cbn [fst snd]. unfold particle.
  cbn [pv_ix pv_iy pv_x pv_y pv_ux pv_uy pv_uz pv_invalid
       with_ix with_iy with_x with_y with_ux with_uy with_uz].
  now rewrite !upd_other by assumption.
Qed.

Lemma push_particle_size spec E B nrow off_x off_y nrow_j tid k st :
  pv_size (push_pv (push_particle spec E B nrow off_x off_y nrow_j tid k st))
  = pv_size (push_pv st).
Proof.
  destruct st as [[pv Jc] vp]. unfold push_particle, push_pv.
  cbn [fst snd]. destruct (pv_invalid pv k); cbn [negb]; [reflexivity|].
  cbv zeta.
  destruct (interpolate_fld_openacc E B nrow (pv_ix pv k - off_x) (pv_iy pv k - off_y)
              (pv_x pv k) (pv_y pv k)) as [Ep Bp].
  match goal with |- context [dep_current_openacc ?a ?b ?c ?d ?e ?f ?g ?h ?i ?j ?l ?m ?n ?o ?p] =>
    destruct (dep_current_openacc a b c d e f g h i j l m n o p) as [J' vp'] end.
  reflexivity.
Qed.

(** A loop of [push_particle] over [lo .. hi - 1], particle by particle. *)
Lemma push_loop_slot spec E B nrow off_x off_y nrow_j (tid : Z -> Z) lo hi st k :
  lo <= k < hi ->
  particle (push_pv (for_range lo hi
     (fun i st => push_particle spec E B nrow off_x off_y nrow_j (tid i) i st) st)) k
  = push_one spec E B nrow off_x off_y (particle (push_pv st) k).
Proof.
  intros Hk.
  rewrite (for_range_hit (fun st => particle (push_pv st) k) lo hi k); try assumption.
  - apply push_particle_slot.
  - intros i s Hi Hne. now apply push_particle_other.
  - intros s s' Hs. rewrite !push_particle_slot. now rewrite Hs.
Qed.

Lemma push_loop_other spec E B nrow off_x off_y nrow_j (tid : Z -> Z) lo hi st k :
  ~ (lo <= k < hi) ->
  particle (push_pv (for_range lo hi
     (fun i st => push_particle spec E B nrow off_x off_y nrow_j (tid i) i st) st)) k
  = particle (push_pv st) k.
Proof.
  intros Hk. apply (for_range_frame (fun st => particle (push_pv st) k)).
  intros i s Hi. apply push_particle_other. lia.
Qed.

Lemma push_loop_size spec E B nrow off_x off_y nrow_j (tid : Z -> Z) lo hi st :
  pv_size (push_pv (for_range lo hi
     (fun i st => push_particle spec E B nrow off_x off_y nrow_j (tid i) i st) st))
  = pv_size (push_pv st).
Proof.
  apply (for_range_frame (fun st => pv_size (push_pv st))).
  intros i s Hi. apply push_particle_size.
Qed.

End PushLoop.

Arguments t_part F : clear implicits.

Section AdvanceDefault.
Context {F : Type} {SF : Scalar F}.

Lemma advance_default_vector (spec : t_species F) emf current limits_y0 vp :
  main_vector (fst (spec_advance_openacc_default spec emf current limits_y0 vp))
  = push_pv (for_range 0 (pv_size (main_vector spec))
       (fun k st => push_particle spec (emf_E emf) (emf_B emf) (nrow emf) 0 limits_y0
                      (nrow emf) 0 k st)
       (main_vector spec, J current, vp)).
Proof.
  unfold spec_advance_openacc_default. cbv zeta.
  destruct (for_range 0 (pv_size (main_vector spec)) _ _) as [[pv Jc] v]. reflexivity.
Qed.

(** [spec_advance_openacc_default] works on the particles
    [0 .. size - 1] that are not marked invalid and on nothing else of the
    species: the particles marked invalid and the entries from [size] on
    are left as they are, no particle is marked invalid or valid, and the
    size, the tiles and the buffers of the neighbours are unchanged; the
    iteration number goes up by one. *)
Theorem advance_default_frame (spec : t_species F) (emf : t_emf F) (current : t_current F)
  (limits_y0 : Z) (vp : Z -> t_vp F) :
  let spec' := fst (spec_advance_openacc_default spec emf current limits_y0 vp) in
  (forall k, ~ (0 <= k < pv_size (main_vector spec)) \/ pv_invalid (main_vector spec) k = true ->
     particle (main_vector spec') k = particle (main_vector spec) k) /\
  (forall k, pv_invalid (main_vector spec') k = pv_invalid (main_vector spec) k) /\
  pv_size (main_vector spec') = pv_size (main_vector spec) /\
  sp_iter spec' = sp_iter spec + 1 /\
  tile_offset spec' = tile_offset spec /\
  outgoing_part0 spec' = outgoing_part0 spec /\
  outgoing_part1 spec' = outgoing_part1 spec /\
  incoming_part spec' = incoming_part spec.
Proof.
  intros spec'.
  assert (Hslot : forall k,
            particle (main_vector spec') k
            = if (0 <=? k) && (k <? pv_size (main_vector spec))
              then push_one spec (emf_E emf) (emf_B emf) (nrow emf) 0 limits_y0
                     (particle (main_vector spec) k)
              else particle (main_vector spec) k).
  { intros k. unfold spec'. rewrite advance_default_vector.
    destruct (Z.leb_spec 0 k); destruct (Z.ltb_spec k (pv_size (main_vector spec)));
      cbn [andb].
    - now rewrite (push_loop_slot spec _ _ _ _ _ _ (fun _ => 0)) by lia.
    - now rewrite (push_loop_other spec _ _ _ _ _ _ (fun _ => 0)) by lia.
    - now rewrite (push_loop_other spec _ _ _ _ _ _ (fun _ => 0)) by lia.
    - now rewrite (push_loop_other spec _ _ _ _ _ _ (fun _ => 0)) by lia. }
  split; [|split; [|split]].
  - intros k Hk. rewrite Hslot.
    destruct ((0 <=? k) && (k <? pv_size (main_vector spec))) eqn:Hin; [|reflexivity].
    destruct Hk as [Hk|Hk]; [lia|].
    unfold push_one. cbn [particle p_invalid]. now rewrite Hk.
  - intros k. change (p_invalid (particle (main_vector spec') k)
                      = p_invalid (particle (main_vector spec) k)).
    rewrite Hslot.
    destruct ((0 <=? k) && (k <? pv_size (main_vector spec))); [|reflexivity].
    unfold push_one. destruct (p_invalid (particle (main_vector spec) k)) eqn:Hinv;
      cbn [negb]; [exact Hinv | reflexivity].
  - unfold spec'. rewrite advance_default_vector.
    apply (push_loop_size spec _ _ _ _ _ _ (fun _ => 0)).
  - unfold spec', spec_advance_openacc_default. cbv zeta.
    destruct (for_range 0 (pv_size (main_vector spec)) _ _) as [[pv Jc] v].
    cbn. repeat split; reflexivity.
Qed.

End AdvanceDefault.

Section FreePush.
Local Open Scope R_scope.

Lemma LTRIM_below (v : R) : v < 0 -> LTRIM v = (-1)%Z.
Proof. intros H. unfold LTRIM. cbn. now rewrite Rltb_true by lra. Qed.

Lemma LTRIM_inside (v : R) : 0 <= v < 1 -> LTRIM v = 0%Z.
Proof.
  intros H. unfold LTRIM. cbn. rewrite Rltb_false by lra. now rewrite Rleb_false by lra.
Qed.

Lemma LTRIM_above (v : R) : 1 <= v -> LTRIM v = 1%Z.
Proof.
  intros H. unfold LTRIM. cbn. rewrite Rltb_false by lra. now rewrite Rleb_true by lra.
Qed.

(** The position a free particle reaches in one step, in cells. *)
Definition drift (x u gamma dt dx : R) : R := x + dt * u / (gamma * dx).

(** Over the real numbers, with E = B = 0 everywhere,
    [spec_advance_openacc_default] leaves the momentum of every particle
    that is not marked invalid as it is and moves the particle along a
    straight line: with gamma = sqrt(1 + |u|^2) and
    x1 = x + dt ux / (gamma dx[0]), the cell index grows by di = LTRIM(x1)
    and the stored position is x1 - di, and so in y. *)
Theorem advance_default_free (spec : t_species R) (emf : t_emf R) (current : t_current R)
  (limits_y0 : Z) (vp : Z -> t_vp R) (k : Z) :
  (forall c, emf_E emf c = mk_vfld 0 0 0) ->
  (forall c, emf_B emf c = mk_vfld 0 0 0) ->
  (0 <= k < pv_size (main_vector spec))%Z ->
  pv_invalid (main_vector spec) k = false ->
  let pv := main_vector spec in
  let pv' := main_vector (fst (spec_advance_openacc_default spec emf current limits_y0 vp)) in
  let gamma := sqrt (1 + (pv_ux pv k * pv_ux pv k + pv_uy pv k * pv_uy pv k
                          + pv_uz pv k * pv_uz pv k)) in
  let x1 := drift (pv_x pv k) (pv_ux pv k) gamma (sp_dt spec) (sp_dx0 spec) in
  let y1 := drift (pv_y pv k) (pv_uy pv k) gamma (sp_dt spec) (sp_dx1 spec) in
  (pv_ux pv' k = pv_ux pv k /\ pv_uy pv' k = pv_uy pv k /\ pv_uz pv' k = pv_uz pv k) /\
  (pv_ix pv' k = (pv_ix pv k + LTRIM x1)%Z /\ pv_x pv' k = x1 - IZR (LTRIM x1)) /\
  (pv_iy pv' k = (pv_iy pv k + LTRIM y1)%Z /\ pv_y pv' k = y1 - IZR (LTRIM y1)).
Proof.
  intros HE HB Hk Hinv pv pv' gamma x1 y1.
  assert (Hp : particle pv' k
               = push_one spec (emf_E emf) (emf_B emf) (nrow emf) 0 limits_y0 (particle pv k)).
  { unfold pv'. rewrite advance_default_vector.
    now rewrite (push_loop_slot spec _ _ _ _ _ _ (fun _ => 0%Z)) by lia. }
  unfold push_one in Hp. cbn [particle p_invalid p_ix p_iy p_x p_y p_ux p_uy p_uz] in Hp.
  fold pv in Hinv. rewrite Hinv in Hp. cbn [negb] in Hp.
  rewrite interpolate_no_field in Hp by assumption.
  cbn [fst snd] in Hp. rewrite advance_part_velocity_free in Hp.
  cbv zeta in Hp. cbn [u_x u_y u_z fadd fsub fmul fdiv fsqrt f1 of_int R_scalar] in Hp.
  assert (Hx1 : pv_x pv k + sp_dt spec / sp_dx0 spec * (1 / gamma) * pv_ux pv k = x1).
  { unfold x1, drift. unfold Rdiv. rewrite Rinv_mult. ring. }
  assert (Hy1 : pv_y pv k + sp_dt spec / sp_dx1 spec * (1 / gamma) * pv_uy pv k = y1).
  { unfold y1, drift. unfold Rdiv. rewrite Rinv_mult. ring. }
  fold gamma in Hp. rewrite Hx1, Hy1 in Hp.
  unfold particle in Hp. injection Hp as Hix Hiy Hx Hy Hux Huy Huz _.
  rewrite Hix, Hiy, Hx, Hy, Hux, Huy, Huz.
  split; [repeat split; reflexivity|].
  split; [split; reflexivity|]. split; reflexivity.
Qed.

End FreePush.

(** A species of one particle, at the middle of cell (0,0), moving along x. *)
Definition one_particle : t_particle_vector R :=
  mk_part_vector (fun _ => 0) (fun _ => 0) (fun _ => (1 / 2)%R) (fun _ => (1 / 2)%R)
    (fun _ => (3 / 4)%R) (fun _ => 0%R) (fun _ => 0%R) (fun _ => false) 1 1 true.

Definition species_one : t_species R :=
  mk_species one_particle (fun _ => one_particle) one_particle one_particle
    1%R 1%R 2 2 1%R 1%R (1 / 2)%R 0 false 0 1 1 (fun t => if t <=? 0 then 0 else 1) (fun _ => 0).

Lemma advance_default_free_witness :
  let pv' := main_vector (fst (spec_advance_openacc_default species_one emf_2x2
                                 current_guard 0 (fun _ => seg_init 0 0 0%R 0%R 0%R 0%R 0%R))) in
  pv_ux pv' 0 = pv_ux (main_vector species_one) 0.
Proof.
  intros pv'.
  assert (HE : forall c, emf_E emf_2x2 c = mk_vfld 0%R 0%R 0%R) by (intros c; reflexivity).
  assert (HB : forall c, emf_B emf_2x2 c = mk_vfld 0%R 0%R 0%R) by (intros c; reflexivity).
  assert (Hk : 0 <= 0 < pv_size (main_vector species_one)) by (cbn; lia).
  exact (proj1 (proj1 (advance_default_free species_one emf_2x2 current_guard 0
                         (fun _ => seg_init 0 0 0%R 0%R 0%R 0%R 0%R) 0 HE HB Hk eq_refl))).
Defined.

(* ================================================================== *)
(** * Counting *)
(* ================================================================== *)

(** The number of [j] in [lo, hi) with [p j]. *)
Definition count (p : Z -> bool) (lo hi : Z) : Z :=
  zsum (fun j => if p j then 1 else 0) lo hi.

Lemma count_empty p lo hi : hi <= lo -> count p lo hi = 0.
Proof. apply zsum_empty. Qed.

Lemma count_succ p lo hi :
  lo <= hi -> count p lo (hi + 1) = count p lo hi + (if p hi then 1 else 0).
Proof. apply zsum_succ. Qed.

Lemma count_split p lo mid hi :
  lo <= mid <= hi -> count p lo hi = count p lo mid + count p mid hi.
Proof. apply zsum_split. Qed.

Lemma count_bounds p lo hi : lo <= hi -> 0 <= count p lo hi <= hi - lo.
Proof.
  intros H. unfold count, zsum.
  apply (for_range_ind (fun i acc => 0 <= acc <= i - lo)); try lia.
  intros i acc Hi IH. destruct (p i); lia.
Qed.

Lemma count_mono p lo k m : lo <= k <= m -> count p lo k <= count p lo m.
Proof.
  intros H. rewrite (count_split p lo k m) by lia.
  pose proof (count_bounds p k m ltac:(lia)). lia.
Qed.

Lemma count_hit p lo k m : lo <= k < m -> p k = true -> count p lo k < count p lo m.
Proof.
  intros H Hp. pose proof (count_mono p lo (k + 1) m ltac:(lia)).
  rewrite count_succ in * by lia. rewrite Hp in *. lia.
Qed.

Lemma count_ext p q lo hi :
  (forall j, lo <= j < hi -> p j = q j) -> count p lo hi = count q lo hi.
Proof.
  intros H. apply zsum_ext. intros j Hj. now rewrite H.
Qed.

(** Two counted indices with the same rank are the same index. *)
Lemma count_inj p lo k k' :
  lo <= k -> lo <= k' -> p k = true -> p k' = true ->
  count p lo k = count p lo k' -> k = k'.
Proof.
  intros Hk Hk' Hp Hp' E.
  destruct (Z.lt_trichotomy k k') as [Hlt|[Heq|Hgt]]; [|assumption|].
  - pose proof (count_hit p lo k k' ltac:(lia) Hp). lia.
  - pose proof (count_hit p lo k' k ltac:(lia) Hp'). lia.
Qed.

(** Every rank below the count is the rank of a counted index. *)
Lemma count_onto p lo hi r :
  lo <= hi -> 0 <= r < count p lo hi ->
  exists k, lo <= k < hi /\ p k = true /\ count p lo k = r.
Proof.
  intros Hle. revert r.
  apply (for_range_ind (St := unit)
           (fun i _ => forall r, 0 <= r < count p lo i ->
                        exists k, lo <= k < i /\ p k = true /\ count p lo k = r)
           lo hi (fun _ u => u) tt Hle).
  - intros r Hr. rewrite count_empty in Hr by lia. lia.
  - intros i _ Hi IH r Hr. rewrite count_succ in Hr by lia.
    destruct (Z_lt_ge_dec r (count p lo i)) as [Hlt|Hge].
    + destruct (IH r ltac:(lia)) as (k & Hk & Hp & Hc). exists k. repeat split; try lia; assumption.
    + destruct (p i) eqn:Hp; [|lia]. exists i. repeat split; try lia; assumption.
Qed.

(* ================================================================== *)
(** * Loops over the slots of tiles *)
(* ================================================================== *)

(** The first slots of the tiles [0 .. n] do not decrease. *)
Definition sorted_offsets (off : Z -> Z) (n : Z) : Prop :=
  forall t t', 0 <= t <= t' -> t' <= n -> off t <= off t'.

Section TileLoops.
Context {St : Type}.
Variable off : Z -> Z.

(** A loop over consecutive tiles is a loop over their slots. *)
Lemma ranges_concat lo hi (body : Z -> St -> St) s :
  lo <= hi -> (forall t, lo <= t < hi -> off t <= off (t + 1)) ->
  for_range lo hi (fun t s => for_range (off t) (off (t + 1)) body s) s
  = for_range (off lo) (off hi) body s /\ off lo <= off hi.
Proof.
  intros Hle Hoff.
  apply (for_range_ind (fun i si => si = for_range (off lo) (off i) body s /\ off lo <= off i));
    try assumption.
  - split; [now rewrite for_range_empty by lia | lia].
  - intros i si Hi [-> Hlo]. pose proof (Hoff i Hi). split; [|lia].
    now rewrite (for_range_split (off lo) (off i) (off (i + 1))) by lia.
Qed.

(** A loop over tiles [tile t], [t] in [0, n), whose slot ranges do not
    overlap, seen from one slot [k]: [f] reads what the state holds for
    [k], and the body of slot [i] changes that of slot [i] only. *)
Variable tile : Z -> Z.
Variable n : Z.
Variable body : Z -> St -> St.
Context {A : Type}.
Variable f : Z -> St -> A.
Variable g : A -> A.
Hypothesis body_other : forall i s k, k <> i -> f k (body i s) = f k s.
Hypothesis body_same : forall i s, f i (body i s) = g (f i s).

Definition tiles_loop (s : St) : St :=
  for_range 0 n (fun t s => for_range (off (tile t)) (off (tile t + 1)) body s) s.

Lemma slots_hit lo hi s k :
  lo <= k < hi -> f k (for_range lo hi body s) = g (f k s).
Proof.
  intros Hk. rewrite (for_range_hit (f k) lo hi k); try assumption.
  - apply body_same.
  - intros i s' Hi Hne. now apply body_other.
  - intros s1 s2 E. now rewrite !body_same, E.
Qed.

Lemma slots_miss lo hi s k :
  ~ (lo <= k < hi) -> f k (for_range lo hi body s) = f k s.
Proof.
  intros Hk. apply (for_range_frame (f k)).
  intros i s' Hi. apply body_other. lia.
Qed.

Lemma tiles_hit s k t0 :
  0 <= t0 < n -> off (tile t0) <= k < off (tile t0 + 1) ->
  (forall t, 0 <= t < n -> t <> t0 -> ~ (off (tile t) <= k < off (tile t + 1))) ->
  f k (tiles_loop s) = g (f k s).
Proof.
  intros Ht0 Hk Hothers. unfold tiles_loop.
  rewrite (for_range_hit (f k) 0 n t0); try assumption.
  - now apply slots_hit.
  - intros t s' Ht Hne. apply slots_miss. now apply Hothers.
  - intros s1 s2 E. rewrite !slots_hit by assumption. now rewrite E.
Qed.

Lemma tiles_miss s k :
  (forall t, 0 <= t < n -> ~ (off (tile t) <= k < off (tile t + 1))) ->
  f k (tiles_loop s) = f k s.
Proof.
  intros Hothers. unfold tiles_loop. apply (for_range_frame (f k)).
  intros t s' Ht. apply slots_miss. now apply Hothers.
Qed.

(** Whatever the tiles are, a slot on which [g] changes nothing is left
    as it is. *)
Lemma tiles_fix s k :
  g (f k s) = f k s -> f k (tiles_loop s) = f k s.
Proof.
  intros Hg. unfold tiles_loop.
  apply (for_range_inv (fun s' => f k s' = f k s)); [reflexivity|].
  intros t s1 Ht H1.
  apply (for_range_inv (fun s' => f k s' = f k s)); [assumption|].
  intros i s2 Hi H2. destruct (Z.eq_dec k i) as [->|Hne].
  - now rewrite body_same, H2.
  - now rewrite body_other.
Qed.

(** Whatever the tiles are, the loop leaves of slot [k] what every body
    leaves. *)
Lemma tiles_keep {B : Type} (h : St -> B) s :
  (forall i s, h (body i s) = h s) -> h (tiles_loop s) = h s.
Proof.
  intros Hh. unfold tiles_loop. apply (for_range_frame h).
  intros t s' Ht. apply (for_range_frame h). intros i s'' Hi. apply Hh.
Qed.

End TileLoops.

(** With sorted offsets the slot ranges of two different tiles do not
    overlap. *)
Lemma sorted_disjoint off n t t' k :
  sorted_offsets off n -> 0 <= t -> 0 <= t' -> t < n -> t' < n -> t <> t' ->
  off t <= k < off (t + 1) -> ~ (off t' <= k < off (t' + 1)).
Proof.
  intros Hs Ht Ht' Hn Hn' Hne Hk Hk'.
  destruct (Z_lt_ge_dec t t').
  - pose proof (Hs (t + 1) t' ltac:(lia) ltac:(lia)). lia.
  - pose proof (Hs (t' + 1) t ltac:(lia) ltac:(lia)). lia.
Qed.

(* ================================================================== *)
(** * The boundary pass *)
(* ================================================================== *)

Section Boundaries.
Context {F : Type} {SF : Scalar F}.
Implicit Types (spec : t_species F) (pv out : t_particle_vector F).

(** Slot [k] belongs to a tile of the column [c] of tiles, or of the row
    [r] of tiles. *)
Definition in_column spec (c k : Z) : Prop :=
  exists ty, 0 <= ty < n_tiles_y spec /\
    tile_offset spec (c + ty * n_tiles_x spec) <= k
    < tile_offset spec (c + ty * n_tiles_x spec + 1).

Definition in_row spec (r k : Z) : Prop :=
  exists tx, 0 <= tx < n_tiles_x spec /\
    tile_offset spec (tx + r * n_tiles_x spec) <= k
    < tile_offset spec (tx + r * n_tiles_x spec + 1).

(** The fields of a particle that the pass never writes in the main
    vector. *)
Definition kept pv : (Z -> Z) * (Z -> F) * (Z -> F) * (Z -> F) * (Z -> F) * (Z -> F) * Z * Z :=
  (pv_iy pv, pv_x pv, pv_y pv, pv_ux pv, pv_uy pv, pv_uz pv, pv_size pv, pv_size_max pv).

(** The bodies of the loops of the two x passes, with and without the
    moving window. *)
Definition left_body spec (i : Z) pv : t_particle_vector F :=
  if sp_moving_window spec then
    if pv_ix pv i <? 0 then with_invalid pv (upd (pv_invalid pv) i true) else pv
  else
    if pv_ix pv i <? 0 then with_ix pv (upd (pv_ix pv) i (pv_ix pv i + sp_nx0 spec)) else pv.

Definition right_body spec (i : Z) pv : t_particle_vector F :=
  if sp_moving_window spec then
    if sp_nx0 spec <=? pv_ix pv i then with_invalid pv (upd (pv_invalid pv) i true) else pv
  else
    if sp_nx0 spec <=? pv_ix pv i
    then with_ix pv (upd (pv_ix pv) i (pv_ix pv i - sp_nx0 spec)) else pv.

Lemma check_left_tiles spec pv :
  check_left spec pv
  = tiles_loop (tile_offset spec) (fun t => t * n_tiles_x spec) (n_tiles_y spec)
      (left_body spec) pv.
Proof.
  unfold check_left, tiles_loop, left_body. cbv zeta.
  apply for_range_ext. intros t s Ht. destruct (sp_moving_window spec); reflexivity.
Qed.

Lemma check_right_tiles spec pv :
  check_right spec pv
  = tiles_loop (tile_offset spec) (fun t => (t + 1) * n_tiles_x spec - 1) (n_tiles_y spec)
      (right_body spec) pv.
Proof.
  unfold check_right, tiles_loop, right_body. cbv zeta.
  apply for_range_ext. intros t s Ht. destruct (sp_moving_window spec); reflexivity.
Qed.

(** What the bodies do to the particle of their slot. *)
Definition left_part spec (p : t_part F) : t_part F :=
  if p_ix p <? 0 then
    if sp_moving_window spec
    then mk_part (p_ix p) (p_iy p) (p_x p) (p_y p) (p_ux p) (p_uy p) (p_uz p) true
    else mk_part (p_ix p + sp_nx0 spec) (p_iy p) (p_x p) (p_y p) (p_ux p) (p_uy p) (p_uz p)
           (p_invalid p)
  else p.

Definition right_part spec (p : t_part F) : t_part F :=
  if sp_nx0 spec <=? p_ix p then
    if sp_moving_window spec
    then mk_part (p_ix p) (p_iy p) (p_x p) (p_y p) (p_ux p) (p_uy p) (p_uz p) true
    else mk_part (p_ix p - sp_nx0 spec) (p_iy p) (p_x p) (p_y p) (p_ux p) (p_uy p) (p_uz p)
           (p_invalid p)
  else p.

Ltac pv_simpl :=
  cbn [particle pv_ix pv_iy pv_x pv_y pv_ux pv_uy pv_uz pv_invalid pv_size pv_size_max
       pv_enable_vector with_ix with_iy with_x with_y with_ux with_uy with_uz with_invalid
       with_size p_ix p_iy p_x p_y p_ux p_uy p_uz p_invalid kept fst snd].

Lemma left_body_other spec i pv k :
  k <> i -> particle (left_body spec i pv) k = particle pv k.
Proof.
  intros Hne. unfold left_body.
  destruct (sp_moving_window spec), (pv_ix pv i <? 0); try reflexivity;
    unfold particle; pv_simpl; now rewrite upd_other.
Qed.

Lemma left_body_same spec i pv :
  particle (left_body spec i pv) i = left_part spec (particle pv i).
Proof.
  unfold left_body, left_part. pv_simpl.
  destruct (sp_moving_window spec), (pv_ix pv i <? 0); try reflexivity;
    unfold particle; pv_simpl; now rewrite upd_same.
Qed.

Lemma right_body_other spec i pv k :
  k <> i -> particle (right_body spec i pv) k = particle pv k.
Proof.
  intros Hne. unfold right_body.
  destruct (sp_moving_window spec), (sp_nx0 spec <=? pv_ix pv i); try reflexivity;
    unfold particle; pv_simpl; now rewrite upd_other.
Qed.

Lemma right_body_same spec i pv :
  particle (right_body spec i pv) i = right_part spec (particle pv i).
Proof.
  unfold right_body, right_part. pv_simpl.
  destruct (sp_moving_window spec), (sp_nx0 spec <=? pv_ix pv i); try reflexivity;
    unfold particle; pv_simpl; now rewrite upd_same.
Qed.

Lemma left_body_kept spec i pv : kept (left_body spec i pv) = kept pv.
Proof.
  unfold left_body. destruct (sp_moving_window spec), (pv_ix pv i <? 0); reflexivity.
Qed.

Lemma right_body_kept spec i pv : kept (right_body spec i pv) = kept pv.
Proof.
  unfold right_body. destruct (sp_moving_window spec), (sp_nx0 spec <=? pv_ix pv i); reflexivity.
Qed.

End Boundaries.

Section Transfer.
Context {F : Type} {SF : Scalar F}.
Implicit Types (spec : t_species F) (pv out : t_particle_vector F).

Ltac pv_simpl :=
  cbn [particle pv_ix pv_iy pv_x pv_y pv_ux pv_uy pv_uz pv_invalid pv_size pv_size_max
       pv_enable_vector with_ix with_iy with_x with_y with_ux with_uy with_uz with_invalid
       with_size p_ix p_iy p_x p_y p_ux p_uy p_uz p_invalid kept fst snd].

(** The body shared by the two y passes: [test] tells from [iy] whether
    the particle leaves, [wrap] is the periodic wrap of its [iy]. *)
Definition xfer_body (test : Z -> bool) (wrap : Z -> Z) (i : Z)
  (st : t_particle_vector F * t_particle_vector F)
  : t_particle_vector F * t_particle_vector F :=
  if negb (pv_invalid (fst st) i) && test (pv_iy (fst st) i)
  then (with_invalid (fst st) (upd (pv_invalid (fst st)) i true),
        transfer_particle (fst st) i (wrap (pv_iy (fst st) i)) (snd st))
  else st.

Lemma check_lower_tiles spec y0 st :
  check_lower spec y0 st
  = tiles_loop (tile_offset spec) (fun t => t) (n_tiles_x spec)
      (xfer_body (fun iy => iy <? y0) (fun iy => if iy <? 0 then iy + sp_nx1 spec else iy)) st.
Proof.
  unfold check_lower, tiles_loop. cbv zeta.
  apply for_range_ext. intros t s Ht. apply for_range_ext. intros i [pv out] Hi.
  unfold xfer_body. cbn [fst snd].
  destruct (pv_invalid pv i); cbn [negb andb]; [reflexivity|].
  destruct (pv_iy pv i <? y0); reflexivity.
Qed.

Lemma check_upper_tiles spec y1 st :
  check_upper spec y1 st
  = tiles_loop (tile_offset spec) (fun t => t + (n_tiles_y spec - 1) * n_tiles_x spec)
      (n_tiles_x spec)
      (xfer_body (fun iy => y1 <=? iy) (fun iy => if sp_nx1 spec <=? iy then iy - sp_nx1 spec else iy))
      st.
Proof.
  unfold check_upper, tiles_loop. cbv zeta.
  apply for_range_ext. intros t s Ht. apply for_range_ext. intros i [pv out] Hi.
  unfold xfer_body. cbn [fst snd].
  destruct (pv_invalid pv i); cbn [negb andb]; [reflexivity|].
  destruct (y1 <=? pv_iy pv i); reflexivity.
Qed.

Lemma transfer_particle_size pv i iy out :
  pv_size (transfer_particle pv i iy out) = pv_size out + 1.
Proof. reflexivity. Qed.

Lemma transfer_particle_at pv i iy out idx :
  particle (transfer_particle pv i iy out) idx
  = if idx =? pv_size out
    then mk_part (pv_ix pv i) iy (pv_x pv i) (pv_y pv i) (pv_ux pv i) (pv_uy pv i) (pv_uz pv i) false
    else particle out idx.
Proof.
  unfold transfer_particle, particle. cbv zeta. pv_simpl. unfold upd.
  destruct (idx =? pv_size out); reflexivity.
Qed.

Section Loop.
Variables (test : Z -> bool) (wrap : Z -> Z).
Variables (pv out : t_particle_vector F) (a : Z).

(** The particles of [pv] that leave, and what is stored for them. *)
Definition leaving (j : Z) : bool := negb (pv_invalid pv j) && test (pv_iy pv j).

Definition sent (k : Z) : t_part F :=
  mk_part (pv_ix pv k) (wrap (pv_iy pv k)) (pv_x pv k) (pv_y pv k)
    (pv_ux pv k) (pv_uy pv k) (pv_uz pv k) false.

Definition marked (p : t_part F) : t_part F :=
  mk_part (p_ix p) (p_iy p) (p_x p) (p_y p) (p_ux p) (p_uy p) (p_uz p) true.

Definition xfer_inv (m : Z) (st : t_particle_vector F * t_particle_vector F) : Prop :=
  pv_size (snd st) = pv_size out + count leaving a m /\
  (forall k, a <= k < m -> leaving k = true ->
     particle (snd st) (pv_size out + count leaving a k) = sent k) /\
  (forall idx, ~ (pv_size out <= idx < pv_size out + count leaving a m) ->
     particle (snd st) idx = particle out idx) /\
  (forall k, particle (fst st) k
             = if (a <=? k) && (k <? m) && leaving k then marked (particle pv k)
               else particle pv k).

Lemma xfer_step m st :
  a <= m -> xfer_inv m st -> xfer_inv (m + 1) (xfer_body test wrap m st).
Proof.
  intros Hm (Hsize & Hsent & Hold & Hmain). destruct st as [pvm outm]. cbn [fst snd] in *.
  assert (Hm_same : particle pvm m = particle pv m).
  { rewrite Hmain. destruct (Z.ltb_spec m m); [lia|]. now rewrite andb_false_r. }
  assert (Hinv : pv_invalid pvm m = pv_invalid pv m) by exact (f_equal p_invalid Hm_same).
  assert (Hiy : pv_iy pvm m = pv_iy pv m) by exact (f_equal p_iy Hm_same).
  unfold xfer_body. cbn [fst snd]. rewrite Hinv, Hiy. fold (leaving m).
  pose proof (count_bounds leaving a m ltac:(lia)) as Hcnt.
  pose proof (count_succ leaving a m ltac:(lia)) as Hsucc.
  destruct (leaving m) eqn:Hlm; unfold xfer_inv; cbn [fst snd]; rewrite Hsucc.
  - split; [|split; [|split]].
    + rewrite transfer_particle_size. lia.
    + intros k Hk Hlk. rewrite transfer_particle_at.
      destruct (Z.eq_dec k m) as [->|Hne].
      * rewrite Hsize, Z.eqb_refl. unfold sent.
        pose proof Hm_same as Hf. unfold particle in Hf.
        injection Hf as E1 _ E3 E4 E5 E6 E7 _.
        now rewrite E1, E3, E4, E5, E6, E7.
      * pose proof (count_hit leaving a k m ltac:(lia) Hlk).
        destruct (Z.eqb_spec (pv_size out + count leaving a k) (pv_size outm)); [lia|].
        apply Hsent; [lia | assumption].
    + intros idx Hidx. rewrite transfer_particle_at.
      destruct (Z.eqb_spec idx (pv_size outm)); [lia|]. apply Hold. lia.
    + intros k. unfold particle at 1. pv_simpl.
      destruct (Z.eq_dec k m) as [->|Hne].
      * rewrite upd_same, Hlm.
        destruct (Z.leb_spec a m); [|lia]. destruct (Z.ltb_spec m (m + 1)); [|lia].
        cbn [andb]. rewrite <- Hm_same. reflexivity.
      * rewrite upd_other by assumption.
        change (particle pvm k = if (a <=? k) && (k <? m + 1) && leaving k
                                 then marked (particle pv k) else particle pv k).
        rewrite Hmain.
        destruct (Z.ltb_spec k m), (Z.ltb_spec k (m + 1)); try lia; reflexivity.
  - split; [|split; [|split]].
    + lia.
    + intros k Hk Hlk. destruct (Z.eq_dec k m) as [->|Hne]; [congruence|].
      apply Hsent; [lia | assumption].
    + intros idx Hidx. apply Hold. lia.
    + intros k. rewrite Hmain.
      destruct (Z.eq_dec k m) as [->|Hne].
      * rewrite Hlm, !andb_false_r. reflexivity.
      * destruct (Z.ltb_spec k m), (Z.ltb_spec k (m + 1)); try lia; reflexivity.
Qed.

Lemma xfer_loop e :
  a <= e -> xfer_inv e (for_range a e (xfer_body test wrap) (pv, out)).
Proof.
  intros He. apply (for_range_ind xfer_inv); try assumption.
  - unfold xfer_inv. cbn [fst snd]. rewrite count_empty by lia.
    split; [lia|]. split; [intros; lia|]. split; [reflexivity|].
    intros k. destruct (Z.ltb_spec k a), (Z.leb_spec a k); try lia; reflexivity.
  - intros i s Hi. apply xfer_step. lia.
Qed.

End Loop.

End Transfer.

Section BoundaryPass.
Context {F : Type} {SF : Scalar F}.
Implicit Types (spec : t_species F) (pv out : t_particle_vector F).

Ltac pv_simpl :=
  cbn [particle pv_ix pv_iy pv_x pv_y pv_ux pv_uy pv_uz pv_invalid pv_size pv_size_max
       pv_enable_vector with_ix with_iy with_x with_y with_ux with_uy with_uz with_invalid
       with_size p_ix p_iy p_x p_y p_ux p_uy p_uz p_invalid kept fst snd].

(** The main vector after the two x loops, and after the loop of the
    lower boundary. *)
Definition after_x spec : t_particle_vector F :=
  check_right spec (check_left spec (main_vector spec)).

Definition after_lower spec (limits_y0 : Z) : t_particle_vector F :=
  fst (check_lower spec limits_y0 (after_x spec, outgoing_part0 spec)).

Lemma check_boundaries_parts spec y0 y1 :
  let spec' := spec_check_boundaries_openacc spec y0 y1 in
  main_vector spec' = fst (check_upper spec y1 (after_lower spec y0, outgoing_part1 spec)) /\
  outgoing_part0 spec' = snd (check_lower spec y0 (after_x spec, outgoing_part0 spec)) /\
  outgoing_part1 spec' = snd (check_upper spec y1 (after_lower spec y0, outgoing_part1 spec)) /\
  tile_offset spec' = tile_offset spec /\ incoming_part spec' = incoming_part spec.
Proof.
  unfold spec_check_boundaries_openacc, after_lower, after_x. cbv zeta.
  destruct (check_lower spec y0 _) as [pv2 o0]. cbn [fst snd].
  destruct (check_upper spec y1 _) as [pv3 o1]. cbn [fst snd].
  repeat split; reflexivity.
Qed.

(** The y loops write the invalid flags of the main vector and nothing
    else of it. *)
Lemma xfer_body_main test wrap i (st : t_particle_vector F * t_particle_vector F) :
  pv_ix (fst (xfer_body test wrap i st)) = pv_ix (fst st) /\
  kept (fst (xfer_body test wrap i st)) = kept (fst st).
Proof.
  unfold xfer_body. destruct (negb _ && _); split; reflexivity.
Qed.

Lemma xfer_body_invalid test wrap i (st : t_particle_vector F * t_particle_vector F) k :
  pv_invalid (fst st) k = true -> pv_invalid (fst (xfer_body test wrap i st)) k = true.
Proof.
  intros H. unfold xfer_body. destruct (negb _ && _); [|assumption].
  pv_simpl. unfold upd. destruct (k =? i); [reflexivity | assumption].
Qed.

Lemma left_body_invalid spec i pv k :
  pv_invalid pv k = true -> pv_invalid (left_body spec i pv) k = true.
Proof.
  intros H. unfold left_body.
  destruct (sp_moving_window spec), (pv_ix pv i <? 0); try assumption.
  pv_simpl. unfold upd. destruct (k =? i); [reflexivity | assumption].
Qed.

Lemma right_body_invalid spec i pv k :
  pv_invalid pv k = true -> pv_invalid (right_body spec i pv) k = true.
Proof.
  intros H. unfold right_body.
  destruct (sp_moving_window spec), (sp_nx0 spec <=? pv_ix pv i); try assumption.
  pv_simpl. unfold upd. destruct (k =? i); [reflexivity | assumption].
Qed.

(** A loop over tiles keeps what every body keeps. *)
Lemma tiles_inv {St : Type} off tile n (body : Z -> St -> St) (Q : St -> Prop) s :
  Q s -> (forall i s, Q s -> Q (body i s)) -> Q (tiles_loop off tile n body s).
Proof.
  intros H0 Hb. unfold tiles_loop. apply for_range_inv; [assumption|].
  intros t s1 Ht H1. apply for_range_inv; [assumption|].
  intros i s2 Hi H2. now apply Hb.
Qed.

Lemma upper_keeps spec y1 st :
  pv_ix (fst (check_upper spec y1 st)) = pv_ix (fst st) /\
  kept (fst (check_upper spec y1 st)) = kept (fst st) /\
  (forall k, pv_invalid (fst st) k = true -> pv_invalid (fst (check_upper spec y1 st)) k = true).
Proof.
  rewrite check_upper_tiles.
  apply (tiles_inv _ _ _ _ (fun s => pv_ix (fst s) = pv_ix (fst st) /\
                                      kept (fst s) = kept (fst st) /\
                                      (forall k, pv_invalid (fst st) k = true ->
                                                 pv_invalid (fst s) k = true))).
  - repeat split; auto.
  - intros i s (H1 & H2 & H3).
    match goal with |- context [xfer_body ?t ?w i s] =>
      destruct (xfer_body_main t w i s) as [E1 E2] end.
    rewrite E1, E2. repeat split; try assumption.
    intros k Hk. apply xfer_body_invalid. now apply H3.
Qed.

Lemma lower_keeps spec y0 st :
  pv_ix (fst (check_lower spec y0 st)) = pv_ix (fst st) /\
  kept (fst (check_lower spec y0 st)) = kept (fst st) /\
  (forall k, pv_invalid (fst st) k = true -> pv_invalid (fst (check_lower spec y0 st)) k = true).
Proof.
  rewrite check_lower_tiles.
  apply (tiles_inv _ _ _ _ (fun s => pv_ix (fst s) = pv_ix (fst st) /\
                                      kept (fst s) = kept (fst st) /\
                                      (forall k, pv_invalid (fst st) k = true ->
                                                 pv_invalid (fst s) k = true))).
  - repeat split; auto.
  - intros i s (H1 & H2 & H3).
    match goal with |- context [xfer_body ?t ?w i s] =>
      destruct (xfer_body_main t w i s) as [E1 E2] end.
    rewrite E1, E2. repeat split; try assumption.
    intros k Hk. apply xfer_body_invalid. now apply H3.
Qed.

Lemma x_keeps spec :
  kept (after_x spec) = kept (main_vector spec) /\
  (forall k, pv_invalid (main_vector spec) k = true -> pv_invalid (after_x spec) k = true).
Proof.
  unfold after_x. rewrite check_right_tiles, check_left_tiles.
  apply (tiles_inv _ _ _ _ (fun s => kept s = kept (main_vector spec) /\
            (forall k, pv_invalid (main_vector spec) k = true -> pv_invalid s k = true))).
  - apply (tiles_inv _ _ _ _ (fun s => kept s = kept (main_vector spec) /\
            (forall k, pv_invalid (main_vector spec) k = true -> pv_invalid s k = true))).
    + split; auto.
    + intros i s [H1 H2]. rewrite left_body_kept. split; [assumption|].
      intros k Hk. apply left_body_invalid. now apply H2.
  - intros i s [H1 H2]. rewrite right_body_kept. split; [assumption|].
    intros k Hk. apply right_body_invalid. now apply H2.
Qed.

(** [spec_check_boundaries_openacc] writes, of the main vector, only [ix]
    and the invalid flags: [iy], the positions, the momenta and the size are
    left as they are, and no particle that was marked invalid becomes valid.
    The tiles and the incoming buffers are unchanged. *)
Theorem check_boundaries_keeps spec (limits_y0 limits_y1 : Z) :
  let pv := main_vector spec in
  let spec' := spec_check_boundaries_openacc spec limits_y0 limits_y1 in
  let pv' := main_vector spec' in
  pv_iy pv' = pv_iy pv /\ pv_x pv' = pv_x pv /\ pv_y pv' = pv_y pv /\
  pv_ux pv' = pv_ux pv /\ pv_uy pv' = pv_uy pv /\ pv_uz pv' = pv_uz pv /\
  pv_size pv' = pv_size pv /\
  (forall k, pv_invalid pv k = true -> pv_invalid pv' k = true) /\
  tile_offset spec' = tile_offset spec /\ incoming_part spec' = incoming_part spec.
Proof.
  intros pv spec' pv'.
  destruct (check_boundaries_parts spec limits_y0 limits_y1) as (Hm & _ & _ & Ht & Hi).
  fold spec' in Hm, Ht, Hi. fold pv' in Hm.
  destruct (upper_keeps spec limits_y1 (after_lower spec limits_y0, outgoing_part1 spec))
    as (_ & K3 & I3).
  destruct (lower_keeps spec limits_y0 (after_x spec, outgoing_part0 spec)) as (_ & K2 & I2).
  destruct (x_keeps spec) as [K1 I1].
  cbn [fst] in K3, I3, K2, I2. fold (after_lower spec limits_y0) in K2, I2.
  rewrite <- Hm in K3, I3.
  assert (K : kept pv' = kept pv) by (rewrite K3, K2, K1; reflexivity).
  unfold kept in K. injection K as E1 E2 E3 E4 E5 E6 E7 _.
  repeat split; try assumption.
  intros k Hk. apply I3, I2, I1, Hk.
Qed.

End BoundaryPass.

Section BoundaryX.
Context {F : Type} {SF : Scalar F}.
Implicit Types (spec : t_species F) (pv out : t_particle_vector F).

(** The layout of the tiles the pass relies on. *)
Definition tiles_ok spec : Prop :=
  1 <= n_tiles_x spec /\ 1 <= n_tiles_y spec /\
  sorted_offsets (tile_offset spec) (n_tiles_x spec * n_tiles_y spec).

Lemma left_slot spec pv i :
  tiles_ok spec -> in_column spec 0 i ->
  particle (check_left spec pv) i = left_part spec (particle pv i).
Proof.
  intros (Hx & Hy & Hs) (ty & Hty & Hin). cbn [Z.add] in Hin.
  rewrite check_left_tiles.
  apply (tiles_hit (tile_offset spec) (fun t => t * n_tiles_x spec) (n_tiles_y spec)
           (left_body spec) (fun k pv => particle pv k) (left_part spec)) with (t0 := ty);
    try assumption.
  - intros j s k Hne. now apply left_body_other.
  - intros j s. apply left_body_same.
  - intros t Ht Hne.
    apply (sorted_disjoint (tile_offset spec) (n_tiles_x spec * n_tiles_y spec)
             (ty * n_tiles_x spec) (t * n_tiles_x spec) i); try assumption; nia.
Qed.

Lemma left_fix spec pv i :
  left_part spec (particle pv i) = particle pv i ->
  particle (check_left spec pv) i = particle pv i.
Proof.
  intros Hfix. rewrite check_left_tiles.
  apply (tiles_fix (tile_offset spec) (fun t => t * n_tiles_x spec) (n_tiles_y spec)
           (left_body spec) (fun k pv => particle pv k) (left_part spec)); try assumption.
  - intros j s k Hne. now apply left_body_other.
  - intros j s. apply left_body_same.
Qed.

Lemma right_slot spec pv i :
  tiles_ok spec -> in_column spec (n_tiles_x spec - 1) i ->
  particle (check_right spec pv) i = right_part spec (particle pv i).
Proof.
  intros (Hx & Hy & Hs) (ty & Hty & Hin).
  replace (n_tiles_x spec - 1 + ty * n_tiles_x spec)
    with ((ty + 1) * n_tiles_x spec - 1) in Hin by ring.
  rewrite check_right_tiles.
  apply (tiles_hit (tile_offset spec) (fun t => (t + 1) * n_tiles_x spec - 1) (n_tiles_y spec)
           (right_body spec) (fun k pv => particle pv k) (right_part spec)) with (t0 := ty);
    try assumption.
  - intros j s k Hne. now apply right_body_other.
  - intros j s. apply right_body_same.
  - intros t Ht Hne.
    apply (sorted_disjoint (tile_offset spec) (n_tiles_x spec * n_tiles_y spec)
             ((ty + 1) * n_tiles_x spec - 1) ((t + 1) * n_tiles_x spec - 1) i);
      try assumption; nia.
Qed.

Lemma right_fix spec pv i :
  right_part spec (particle pv i) = particle pv i ->
  particle (check_right spec pv) i = particle pv i.
Proof.
  intros Hfix. rewrite check_right_tiles.
  apply (tiles_fix (tile_offset spec) (fun t => (t + 1) * n_tiles_x spec - 1) (n_tiles_y spec)
           (right_body spec) (fun k pv => particle pv k) (right_part spec)); try assumption.
  - intros j s k Hne. now apply right_body_other.
  - intros j s. apply right_body_same.
Qed.

Lemma check_boundaries_ix spec y0 y1 :
  pv_ix (main_vector (spec_check_boundaries_openacc spec y0 y1)) = pv_ix (after_x spec).
Proof.
  destruct (check_boundaries_parts spec y0 y1) as (Hm & _).
  rewrite Hm.
  destruct (upper_keeps spec y1 (after_lower spec y0, outgoing_part1 spec)) as (E3 & _).
  destruct (lower_keeps spec y0 (after_x spec, outgoing_part0 spec)) as (E2 & _).
  rewrite E3. cbn [fst]. unfold after_lower. now rewrite E2.
Qed.

(** Without a moving window, [spec_check_boundaries_openacc] wraps [ix]
    periodically: a particle with [ix < 0] gets [ix + nx[0]] and a particle
    with [ix >= nx[0]] gets [ix - nx[0]]; every other [ix] is unchanged.  The
    left loop visits the tiles of the first column only and the right loop
    those of the last column, so the particle has to sit in a slot of such a
    tile, as it does after an advance of at most one cell from sorted
    tiles. *)
Theorem check_boundaries_periodic_x spec (limits_y0 limits_y1 i : Z) :
  sp_moving_window spec = false -> tiles_ok spec ->
  let pv := main_vector spec in
  let pv' := main_vector (spec_check_boundaries_openacc spec limits_y0 limits_y1) in
  (pv_ix pv i < 0 -> in_column spec 0 i) ->
  (sp_nx0 spec <= pv_ix pv i -> in_column spec (n_tiles_x spec - 1) i) ->
  pv_ix pv' i = if pv_ix pv i <? 0 then pv_ix pv i + sp_nx0 spec
                else if sp_nx0 spec <=? pv_ix pv i then pv_ix pv i - sp_nx0 spec
                else pv_ix pv i.
Proof.
  intros Hmw Hok pv pv' Hleft Hright. unfold pv'.
  rewrite check_boundaries_ix. unfold after_x.
  change (p_ix (particle (check_right spec (check_left spec pv)) i)
          = if pv_ix pv i <? 0 then pv_ix pv i + sp_nx0 spec
            else if sp_nx0 spec <=? pv_ix pv i then pv_ix pv i - sp_nx0 spec
            else pv_ix pv i).
  destruct (Z.ltb_spec (pv_ix pv i) 0) as [Hneg|Hpos].
  - assert (H1 : particle (check_left spec pv) i = left_part spec (particle pv i))
      by (apply left_slot; auto).
    unfold left_part in H1. cbn [particle p_ix] in H1.
    destruct (Z.ltb_spec (pv_ix pv i) 0); [|lia]. rewrite Hmw in H1.
    rewrite right_fix; rewrite H1; [reflexivity|].
    unfold right_part. cbn [p_ix].
    destruct (Z.leb_spec (sp_nx0 spec) (pv_ix pv i + sp_nx0 spec)); [lia | reflexivity].
  - assert (H1 : particle (check_left spec pv) i = particle pv i).
    { apply left_fix. unfold left_part. cbn [particle p_ix].
      destruct (Z.ltb_spec (pv_ix pv i) 0); [lia | reflexivity]. }
    destruct (Z.leb_spec (sp_nx0 spec) (pv_ix pv i)) as [Hout|Hin].
    + rewrite right_slot by auto. rewrite H1. unfold right_part. cbn [particle p_ix].
      destruct (Z.leb_spec (sp_nx0 spec) (pv_ix pv i)); [|lia]. now rewrite Hmw.
    + rewrite right_fix; rewrite H1; [reflexivity|].
      unfold right_part. cbn [particle p_ix].
      destruct (Z.leb_spec (sp_nx0 spec) (pv_ix pv i)); [lia | reflexivity].
Qed.

(** With the moving window, [spec_check_boundaries_openacc] changes no
    [ix]; a particle of a tile of the first column with [ix < 0], or of a
    tile of the last column with [ix >= nx[0]], is marked invalid. *)
Theorem check_boundaries_window_x spec (limits_y0 limits_y1 : Z) :
  sp_moving_window spec = true ->
  let pv := main_vector spec in
  let pv' := main_vector (spec_check_boundaries_openacc spec limits_y0 limits_y1) in
  pv_ix pv' = pv_ix pv /\
  (tiles_ok spec ->
   forall i, (pv_ix pv i < 0 /\ in_column spec 0 i) \/
             (sp_nx0 spec <= pv_ix pv i /\ in_column spec (n_tiles_x spec - 1) i) ->
             pv_invalid pv' i = true).
Proof.
  intros Hmw pv pv'. split.
  - unfold pv'. rewrite check_boundaries_ix. unfold after_x.
    rewrite check_right_tiles, check_left_tiles.
    apply (tiles_inv _ _ _ _ (fun s => pv_ix s = pv_ix pv)).
    + apply (tiles_inv _ _ _ _ (fun s => pv_ix s = pv_ix pv)); [reflexivity|].
      intros j s Hs. unfold left_body. rewrite Hmw.
      destruct (pv_ix s j <? 0); assumption.
    + intros j s Hs. unfold right_body. rewrite Hmw.
      destruct (sp_nx0 spec <=? pv_ix s j); assumption.
  - intros Hok i Hi.
    destruct (check_boundaries_parts spec limits_y0 limits_y1) as (Hm & _).
    unfold pv'. rewrite Hm.
    destruct (upper_keeps spec limits_y1 (after_lower spec limits_y0, outgoing_part1 spec))
      as (_ & _ & I3).
    destruct (lower_keeps spec limits_y0 (after_x spec, outgoing_part0 spec)) as (_ & _ & I2).
    apply I3. cbn [fst]. apply I2. cbn [fst]. unfold after_x.
    destruct (Z.ltb_spec (pv_ix pv i) 0) as [Hneg|Hpos].
    + (* marked by the left loop, kept by the right one *)
      destruct Hi as [[_ Hcol]|[Hout Hcol]].
      * rewrite check_right_tiles. apply tiles_inv.
        -- change (p_invalid (particle (check_left spec pv) i) = true).
           rewrite left_slot by assumption. unfold left_part. cbn [particle p_ix].
           destruct (Z.ltb_spec (pv_ix pv i) 0); [|lia]. now rewrite Hmw.
        -- intros j s Hs. now apply right_body_invalid.
      * change (p_invalid (particle (check_right spec (check_left spec pv)) i) = true).
        rewrite right_slot by assumption. unfold right_part.
        assert (Hix : p_ix (particle (check_left spec pv) i) = pv_ix pv i).
        { rewrite check_left_tiles.
          apply (tiles_inv _ _ _ _ (fun s => p_ix (particle s i) = pv_ix pv i)); [reflexivity|].
          intros j s Hs. unfold left_body. rewrite Hmw.
          destruct (pv_ix s j <? 0); assumption. }
        rewrite Hix. destruct (Z.leb_spec (sp_nx0 spec) (pv_ix pv i)); [|lia]. now rewrite Hmw.
    + destruct Hi as [[Hneg _]|[Hout Hcol]]; [lia|].
      change (p_invalid (particle (check_right spec (check_left spec pv)) i) = true).
      rewrite right_slot by assumption.
      rewrite left_fix.
      * unfold right_part. cbn [particle p_ix].
        destruct (Z.leb_spec (sp_nx0 spec) (pv_ix pv i)); [|lia]. now rewrite Hmw.
      * unfold left_part. cbn [particle p_ix].
        destruct (Z.ltb_spec (pv_ix pv i) 0); [lia | reflexivity].
Qed.

End BoundaryX.

Section BoundaryY.
Context {F : Type} {SF : Scalar F}.
Implicit Types (spec : t_species F) (pv out : t_particle_vector F).

Lemma check_lower_slots spec y0 st :
  tiles_ok spec ->
  check_lower spec y0 st
  = for_range (tile_offset spec 0) (tile_offset spec (n_tiles_x spec))
      (xfer_body (fun iy => iy <? y0) (fun iy => if iy <? 0 then iy + sp_nx1 spec else iy)) st
  /\ tile_offset spec 0 <= tile_offset spec (n_tiles_x spec).
Proof.
  intros (Hx & Hy & Hs). rewrite check_lower_tiles. unfold tiles_loop.
  apply (ranges_concat (tile_offset spec) 0 (n_tiles_x spec)); [lia|].
  intros t Ht. apply Hs; nia.
Qed.

Lemma check_upper_slots spec y1 st :
  tiles_ok spec ->
  check_upper spec y1 st
  = for_range (tile_offset spec ((n_tiles_y spec - 1) * n_tiles_x spec))
      (tile_offset spec (n_tiles_y spec * n_tiles_x spec))
      (xfer_body (fun iy => y1 <=? iy)
         (fun iy => if sp_nx1 spec <=? iy then iy - sp_nx1 spec else iy)) st
  /\ tile_offset spec ((n_tiles_y spec - 1) * n_tiles_x spec)
     <= tile_offset spec (n_tiles_y spec * n_tiles_x spec).
Proof.
  intros (Hx & Hy & Hs). rewrite check_upper_tiles. unfold tiles_loop.
  set (c := (n_tiles_y spec - 1) * n_tiles_x spec).
  replace (n_tiles_y spec * n_tiles_x spec) with (n_tiles_x spec + c) by (unfold c; ring).
  change (tile_offset spec c) with ((fun t => tile_offset spec (t + c)) 0).
  change (tile_offset spec (n_tiles_x spec + c))
    with ((fun t => tile_offset spec (t + c)) (n_tiles_x spec)).
  rewrite <- (proj1 (ranges_concat (fun t => tile_offset spec (t + c)) 0 (n_tiles_x spec) _ st
                       ltac:(lia)
                       ltac:(intros t Ht; apply Hs; unfold c; nia))).
  split.
  - apply for_range_ext. intros t s Ht. cbv beta.
    now replace (t + 1 + c) with (t + c + 1) by lia.
  - cbv beta. apply Hs; unfold c; nia.
Qed.

(** The loop of the lower boundary in [spec_check_boundaries_openacc]
    runs over the slots of the first row of tiles, [tile_offset[0] ..
    tile_offset[n_tiles_x] - 1].  Every particle there that is valid after
    the x loops and has [iy < limits_y[0]] is copied to [outgoing_part[0]],
    to an entry of its own among those the buffer gains (from the size
    before the loop to the size after it), with [iy + nx[1]] for a negative
    [iy], as a valid particle, and is marked invalid in the main vector.
    The size of [outgoing_part[0]] grows by the number of these particles
    and its other entries are left as they were.  Which of the new entries
    a particle takes is left open: the atomic capture of the loop gives
    them out in the order the iterations reach it. *)
Theorem check_boundaries_lower spec (limits_y0 limits_y1 : Z) :
  tiles_ok spec ->
  let pv := after_x spec in
  let spec' := spec_check_boundaries_openacc spec limits_y0 limits_y1 in
  let out := outgoing_part0 spec in
  let out' := outgoing_part0 spec' in
  let a := tile_offset spec 0 in
  let e := tile_offset spec (n_tiles_x spec) in
  let leaves k := negb (pv_invalid pv k) && (pv_iy pv k <? limits_y0) in
  let wrap iy := if iy <? 0 then iy + sp_nx1 spec else iy in
  pv_size out' = pv_size out + count leaves a e /\
  (exists place : Z -> Z,
     (forall k, a <= k < e -> leaves k = true ->
        pv_size out <= place k < pv_size out' /\
        particle out' (place k)
        = mk_part (pv_ix pv k) (wrap (pv_iy pv k)) (pv_x pv k) (pv_y pv k)
            (pv_ux pv k) (pv_uy pv k) (pv_uz pv k) false /\
        pv_invalid (main_vector spec') k = true) /\
     (forall k k', a <= k < e -> a <= k' < e -> leaves k = true -> leaves k' = true ->
        place k = place k' -> k = k')) /\
  (forall idx, ~ (pv_size out <= idx < pv_size out') -> particle out' idx = particle out idx).
Proof.
  intros Hok pv spec' out out' a e leaves wrap.
  destruct (check_boundaries_parts spec limits_y0 limits_y1) as (Hm & H0 & _).
  fold spec' in Hm, H0. fold out' in H0.
  destruct (check_lower_slots spec limits_y0 (after_x spec, outgoing_part0 spec) Hok)
    as [Hloop Hae].
  fold pv out a e in Hloop, Hae.
  pose proof (xfer_loop (fun iy => iy <? limits_y0) wrap pv out a e Hae)
    as (Hsize & Hsent & Hold & Hmain).
  fold wrap in Hloop. rewrite <- Hloop in Hsize, Hsent, Hold, Hmain.
  fold pv out in H0. rewrite <- H0 in Hsize, Hsent, Hold.
  split; [exact Hsize|]. split.
  - exists (fun k => pv_size out + count leaves a k). split.
    2:{ intros k k' Hk Hk' Hl Hl' E.
        apply (count_inj leaves a); try lia; assumption. }
    intros k Hk Hl. split.
    { rewrite Hsize. pose proof (count_hit leaves a k e Hk Hl).
      pose proof (count_bounds leaves a k ltac:(lia)).
      change (leaving (fun iy => iy <? limits_y0) pv) with leaves. lia. }
    split; [now apply Hsent|].
    rewrite Hm.
    destruct (upper_keeps spec limits_y1 (after_lower spec limits_y0, outgoing_part1 spec))
      as (_ & _ & I3).
    apply I3. cbn [fst]. unfold after_lower. fold pv out.
    change (p_invalid (particle (fst (check_lower spec limits_y0 (pv, out))) k) = true).
    rewrite Hmain.
    destruct (Z.leb_spec a k); [|lia]. destruct (Z.ltb_spec k e); [|lia].
    cbn [andb]. change (leaving (fun iy => iy <? limits_y0) pv k) with (leaves k).
    now rewrite Hl.
  - intros idx Hidx. apply Hold. rewrite <- Hsize. exact Hidx.
Qed.

(** The loop of the upper boundary runs over the slots of the last row of
    tiles.  Every particle there that is still valid after the loop of the
    lower boundary and has [iy >= limits_y[1]] is copied to
    [outgoing_part[1]], to an entry of its own among those the buffer
    gains, with [iy - nx[1]] for [iy >= nx[1]], as a valid particle, and is
    marked invalid in the main vector; the size grows by the number of
    these particles and the other entries are left as they were.  Which of
    the new entries a particle takes is left open, as for the lower
    boundary. *)
Theorem check_boundaries_upper spec (limits_y0 limits_y1 : Z) :
  tiles_ok spec ->
  let pv := after_lower spec limits_y0 in
  let spec' := spec_check_boundaries_openacc spec limits_y0 limits_y1 in
  let out := outgoing_part1 spec in
  let out' := outgoing_part1 spec' in
  let a := tile_offset spec ((n_tiles_y spec - 1) * n_tiles_x spec) in
  let e := tile_offset spec (n_tiles_y spec * n_tiles_x spec) in
  let leaves k := negb (pv_invalid pv k) && (limits_y1 <=? pv_iy pv k) in
  let wrap iy := if sp_nx1 spec <=? iy then iy - sp_nx1 spec else iy in
  pv_size out' = pv_size out + count leaves a e /\
  (exists place : Z -> Z,
     (forall k, a <= k < e -> leaves k = true ->
        pv_size out <= place k < pv_size out' /\
        particle out' (place k)
        = mk_part (pv_ix pv k) (wrap (pv_iy pv k)) (pv_x pv k) (pv_y pv k)
            (pv_ux pv k) (pv_uy pv k) (pv_uz pv k) false /\
        pv_invalid (main_vector spec') k = true) /\
     (forall k k', a <= k < e -> a <= k' < e -> leaves k = true -> leaves k' = true ->
        place k = place k' -> k = k')) /\
  (forall idx, ~ (pv_size out <= idx < pv_size out') -> particle out' idx = particle out idx).
Proof.
  intros Hok pv spec' out out' a e leaves wrap.
  destruct (check_boundaries_parts spec limits_y0 limits_y1) as (Hm & _ & H1 & _).
  fold spec' in Hm, H1. fold out' in H1.
  destruct (check_upper_slots spec limits_y1 (after_lower spec limits_y0, outgoing_part1 spec) Hok)
    as [Hloop Hae].
  fold pv out a e in Hloop, Hae.
  pose proof (xfer_loop (fun iy => limits_y1 <=? iy) wrap pv out a e Hae)
    as (Hsize & Hsent & Hold & Hmain).
  fold wrap in Hloop. rewrite <- Hloop in Hsize, Hsent, Hold, Hmain.
  fold pv out in H1, Hm. rewrite <- H1 in Hsize, Hsent, Hold. rewrite <- Hm in Hmain.
  split; [exact Hsize|]. split.
  - exists (fun k => pv_size out + count leaves a k). split.
    2:{ intros k k' Hk Hk' Hl Hl' E.
        apply (count_inj leaves a); try lia; assumption. }
    intros k Hk Hl. split.
    { rewrite Hsize. pose proof (count_hit leaves a k e Hk Hl).
      pose proof (count_bounds leaves a k ltac:(lia)).
      change (leaving (fun iy => limits_y1 <=? iy) pv) with leaves. lia. }
    split; [now apply Hsent|].
    change (p_invalid (particle (main_vector spec') k) = true).
    rewrite Hmain.
    destruct (Z.leb_spec a k); [|lia]. destruct (Z.ltb_spec k e); [|lia].
    cbn [andb]. change (leaving (fun iy => limits_y1 <=? iy) pv k) with (leaves k).
    now rewrite Hl.
  - intros idx Hidx. apply Hold. rewrite <- Hsize. exact Hidx.
Qed.

End BoundaryY.

(** Two particles in a row of two tiles of one slot each, on a grid of
    4 x 2 cells: the first has left the grid on the left and below, the
    second on the right and above. *)
Definition pv_leaving : t_particle_vector Z :=
  mk_part_vector (of_list [-1; 4]) (of_list [-1; 2]) (fun _ => 0) (fun _ => 0)
    (fun _ => 0) (fun _ => 0) (fun _ => 0) (fun _ => false) 2 2 true.

Definition pv_empty : t_particle_vector Z :=
  mk_part_vector (fun _ => 0) (fun _ => 0) (fun _ => 0) (fun _ => 0)
    (fun _ => 0) (fun _ => 0) (fun _ => 0) (fun _ => true) 0 2 true.

Definition species_leaving (window : bool) : t_species Z :=
  mk_species pv_leaving (fun _ => pv_empty) pv_empty pv_empty 1 1 4 2 1 1 1 0 window 0 2 1
    (fun t => if t <=? 0 then 0 else if t <=? 1 then 1 else 2) (fun _ => 0).

Lemma species_leaving_tiles window : tiles_ok (species_leaving window).
Proof.
  unfold tiles_ok. cbn. split; [lia|]. split; [lia|].
  intros t t' Ht Ht'.
  destruct (Z.leb_spec t 0), (Z.leb_spec t 1), (Z.leb_spec t' 0), (Z.leb_spec t' 1); lia.
Qed.

Lemma check_boundaries_periodic_x_witness :
  pv_ix (main_vector (spec_check_boundaries_openacc (species_leaving false) 0 2)) 0 = 3 /\
  pv_ix (main_vector (spec_check_boundaries_openacc (species_leaving false) 0 2)) 1 = 0.
Proof.
  split.
  - apply (check_boundaries_periodic_x (species_leaving false) 0 2 0 eq_refl
             (species_leaving_tiles false)).
    + intros _. exists 0. cbn. lia.
    + intros H. exfalso. vm_compute in H. now apply H.
  - apply (check_boundaries_periodic_x (species_leaving false) 0 2 1 eq_refl
             (species_leaving_tiles false)).
    + intros H. exfalso. vm_compute in H. discriminate H.
    + intros _. exists 0. cbn. lia.
Defined.

Lemma check_boundaries_window_x_witness :
  pv_ix (main_vector (spec_check_boundaries_openacc (species_leaving true) 0 2))
  = pv_ix (main_vector (species_leaving true)).
Proof.
  exact (proj1 (check_boundaries_window_x (species_leaving true) 0 2 eq_refl)).
Defined.

Lemma check_boundaries_lower_witness :
  let spec := species_leaving false in
  let pv := after_x spec in
  let leaves k := negb (pv_invalid pv k) && (pv_iy pv k <? 0) in
  pv_size (outgoing_part0 (spec_check_boundaries_openacc spec 0 2))
  = pv_size (outgoing_part0 spec)
    + count leaves (tile_offset spec 0) (tile_offset spec (n_tiles_x spec)).
Proof.
  exact (proj1 (check_boundaries_lower (species_leaving false) 0 2 (species_leaving_tiles false))).
Defined.

Lemma check_boundaries_upper_witness :
  let spec := species_leaving false in
  let pv := after_lower spec 0 in
  let leaves k := negb (pv_invalid pv k) && (2 <=? pv_iy pv k) in
  pv_size (outgoing_part1 (spec_check_boundaries_openacc spec 0 2))
  = pv_size (outgoing_part1 spec)
    + count leaves (tile_offset spec ((n_tiles_y spec - 1) * n_tiles_x spec))
        (tile_offset spec (n_tiles_y spec * n_tiles_x spec)).
Proof.
  exact (proj1 (check_boundaries_upper (species_leaving false) 0 2 (species_leaving_tiles false))).
Defined.

(* ================================================================== *)
(** * The sorter *)
(* ================================================================== *)

Section MoveVector.
Context {A : Type}.
Implicit Types (vector temp : Z -> A) (target_idx : Z -> Z).

(** The entries [spec_move_vector] moves, and where each comes from. *)
Definition moved (source_idx : option (Z -> Z)) target_idx (i : Z) : bool :=
  match source_idx with
  | Some source_idx => 0 <=? source_idx i
  | None => 0 <=? target_idx i
  end.

Definition origin (source_idx : option (Z -> Z)) (i : Z) : Z :=
  match source_idx with
  | Some source_idx => source_idx i
  | None => i
  end.

Lemma copy_loop (sel : Z -> bool) (from : Z -> Z) vector temp n i :
  0 <= i < n -> sel i = true ->
  for_range 0 n (fun i temp => if sel i then upd temp i (vector (from i)) else temp) temp i
  = vector (from i).
Proof.
  intros Hi Hs.
  rewrite (for_range_hit (fun t => t i) 0 n i); try assumption.
  - rewrite Hs. apply upd_same.
  - intros j t Hj Hne. destruct (sel j); [now apply upd_other | reflexivity].
  - intros t t' _. rewrite Hs. now rewrite !upd_same.
Qed.

Lemma place_loop (sel : Z -> bool) target_idx vector temp n :
  (forall i j, 0 <= i < n -> 0 <= j < n -> sel i = true -> sel j = true ->
               target_idx i = target_idx j -> i = j) ->
  let v' := for_range 0 n (fun i vector =>
              if sel i then upd vector (target_idx i) (temp i) else vector) vector in
  (forall i, 0 <= i < n -> sel i = true -> v' (target_idx i) = temp i) /\
  (forall k, (forall i, 0 <= i < n -> sel i = true -> target_idx i <> k) -> v' k = vector k).
Proof.
  intros Hinj v'. split.
  - intros i Hi Hs. unfold v'.
    rewrite (for_range_hit (fun v => v (target_idx i)) 0 n i); try assumption.
    + rewrite Hs. apply upd_same.
    + intros j v Hj Hne. destruct (sel j) eqn:Hsj; [|reflexivity].
      apply upd_other. intros E. apply Hne. symmetry. now apply Hinj.
    + intros v1 v2 _. rewrite Hs. now rewrite !upd_same.
  - intros k Hk. unfold v'. apply (for_range_frame (fun v => v k)).
    intros j v Hj. destruct (sel j) eqn:Hsj; [|reflexivity].
    apply upd_other. intros E. now apply (Hk j Hj Hsj).
Qed.

(** A move of the whole array in the order [target_idx]: the entries with
    a target that is not negative arrive there. *)
Lemma spec_move_vector_whole vector target_idx (move_size : Z) temp :
  (forall i j, 0 <= i < move_size -> 0 <= j < move_size ->
     0 <= target_idx i -> 0 <= target_idx j -> target_idx i = target_idx j -> i = j) ->
  forall i, 0 <= i < move_size -> 0 <= target_idx i ->
    spec_move_vector vector None target_idx move_size temp (target_idx i) = vector i.
Proof.
  intros Hinj i Hi Ht. unfold spec_move_vector. cbv zeta.
  destruct (place_loop (fun i => 0 <=? target_idx i) target_idx vector
              (for_range 0 move_size (fun i temp => upd temp i (vector i)) temp)
              move_size) as [Hput _].
  { intros a b Ha Hb Sa Sb. apply Hinj; try assumption; now apply Z.leb_le. }
  rewrite Hput by (try assumption; now apply Z.leb_le).
  apply (copy_loop (fun _ => true) (fun i => i)); [assumption | reflexivity].
Qed.

(** [spec_move_vector_int] and [spec_move_vector_float] read every entry
    they move before they write any: when no two moved entries have the same
    target, entry [target_idx[i]] ends with the value that entry
    [source_idx[i]] (entry [i] when [source_idx] is [NULL]) had before the
    call, also when that entry is itself the target of another move, and the
    entries that are no target are left as they were.  The contents of the
    scratch buffer do not matter. *)
Theorem spec_move_vector_places vector (source_idx : option (Z -> Z)) target_idx
  (move_size : Z) temp :
  (forall i j, 0 <= i < move_size -> 0 <= j < move_size ->
     moved source_idx target_idx i = true -> moved source_idx target_idx j = true ->
     target_idx i = target_idx j -> i = j) ->
  let v' := spec_move_vector vector source_idx target_idx move_size temp in
  (forall i, 0 <= i < move_size -> moved source_idx target_idx i = true ->
     v' (target_idx i) = vector (origin source_idx i)) /\
  (forall k, (forall i, 0 <= i < move_size -> moved source_idx target_idx i = true ->
                target_idx i <> k) -> v' k = vector k).
Proof.
  intros Hinj v'. unfold v', spec_move_vector.
  destruct source_idx as [src|]; cbn [moved origin] in *; cbv zeta.
  - destruct (place_loop (fun i => 0 <=? src i) target_idx vector
                (for_range 0 move_size
                   (fun i temp => if 0 <=? src i then upd temp i (vector (src i)) else temp) temp)
                move_size Hinj) as [Hput Hrest].
    split; [|exact Hrest].
    intros i Hi Hs. rewrite Hput by assumption.
    now apply (copy_loop (fun i => 0 <=? src i) src).
  - destruct (place_loop (fun i => 0 <=? target_idx i) target_idx vector
                (for_range 0 move_size (fun i temp => upd temp i (vector i)) temp)
                move_size Hinj) as [Hput Hrest].
    split; [|exact Hrest].
    intros i Hi Hs. rewrite Hput by assumption.
    apply (copy_loop (fun _ => true) (fun i => i)); [assumption | reflexivity].
Qed.

End MoveVector.

Lemma spec_move_vector_places_witness :
  let v' := spec_move_vector (of_list [10; 11; 12]) None (of_list [2; 0; 1]) 3 (fun _ => 0) in
  v' (of_list [2; 0; 1] 0) = of_list [10; 11; 12] 0.
Proof.
  intros v'.
  refine (proj1 (spec_move_vector_places (of_list [10; 11; 12]) None (of_list [2; 0; 1]) 3
                   (fun _ => 0) _) 0 _ _).
  - intros i j Hi Hj _ _.
    assert (Ei : i = 0 \/ i = 1 \/ i = 2) by lia.
    assert (Ej : j = 0 \/ j = 1 \/ j = 2) by lia.
    destruct Ei as [-> | [-> | ->]], Ej as [-> | [-> | ->]]; vm_compute; intros E;
      first [reflexivity | discriminate E].
  - lia.
  - reflexivity.
Defined.

Lemma zsum_nonneg f lo hi :
  (forall j, lo <= j < hi -> 0 <= f j) -> 0 <= zsum f lo hi.
Proof.
  intros H. destruct (Z_le_gt_dec lo hi).
  - unfold zsum. apply (for_range_ind (fun i acc => 0 <= acc)); try lia.
    intros i acc Hi IH. specialize (H i Hi). lia.
  - rewrite zsum_empty by lia. lia.
Qed.

Lemma zsum_add f g lo hi :
  zsum (fun j => f j + g j) lo hi = zsum f lo hi + zsum g lo hi.
Proof.
  destruct (Z_le_gt_dec lo hi).
  - unfold zsum at 1.
    apply (for_range_ind (fun i acc => acc = zsum f lo i + zsum g lo i)); try lia.
    + now rewrite !zsum_empty by lia.
    + intros i acc Hi ->. rewrite !zsum_succ by lia. lia.
  - now rewrite !zsum_empty by lia.
Qed.

(** One of the indices [lo .. hi - 1] is [c]. *)
Lemma zsum_indicator c lo hi :
  lo <= c < hi -> zsum (fun t => if c =? t then 1 else 0) lo hi = 1.
Proof.
  intros Hc.
  rewrite (zsum_split _ lo c hi) by lia.
  rewrite (zsum_split _ c (c + 1) hi) by lia.
  rewrite (zsum_ext _ (fun _ => 0) lo c).
  2:{ intros i Hi. destruct (Z.eqb_spec c i); [lia | reflexivity]. }
  rewrite (zsum_ext _ (fun _ => 0) (c + 1) hi).
  2:{ intros i Hi. destruct (Z.eqb_spec c i); [lia | reflexivity]. }
  rewrite (zsum_succ _ c c) by lia. rewrite (zsum_empty _ c c) by lia. rewrite Z.eqb_refl.
  assert (Hz : forall a b, zsum (fun _ => 0) a b = 0).
  { intros a b. destruct (Z_le_gt_dec a b).
    - unfold zsum. apply (for_range_ind (fun _ acc => acc = 0)); try lia.
    - now rewrite zsum_empty by lia. }
  rewrite !Hz. reflexivity.
Qed.

Section Histogram.
Variable tl : Z -> Z.    (* the tile of each particle *)
Variable n : Z.          (* the number of tiles *)

(** The number of particles of tile [t] among the first [m], and the rank
    of particle [i] among those of its tile. *)
Definition in_tile (t : Z) (m : Z) : Z := count (fun j => tl j =? t) 0 m.
Definition rank (i : Z) : Z := count (fun j => tl j =? tl i) 0 i.

(** Every particle is counted in one tile. *)
Lemma in_tile_total m :
  0 <= m -> 0 <= n -> (forall i, 0 <= i < m -> 0 <= tl i < n) ->
  zsum (fun t => in_tile t m) 0 n = m.
Proof.
  intros Hm Hn. revert m Hm. apply (natlike_ind (fun m => _ -> _ = m)).
  - intros _. unfold in_tile.
    rewrite (zsum_ext _ (fun _ => 0) 0 n) by (intros; now rewrite count_empty by lia).
    unfold zsum. apply (for_range_ind (fun _ acc => acc = 0)); lia.
  - intros m Hm IH Htl. unfold in_tile.
    rewrite (zsum_ext _ (fun t => in_tile t m + (if tl m =? t then 1 else 0)) 0 n).
    2:{ intros t Ht. unfold in_tile. replace (Z.succ m) with (m + 1) by lia.
        now rewrite count_succ by lia. }
    rewrite zsum_add, IH by (intros i Hi; apply Htl; lia).
    rewrite zsum_indicator by (apply Htl; lia). lia.
Qed.

(** The histogram loop of the bucket sort: [pos[i]] receives the count of
    the tile of particle [i] before the increment. *)
Definition histogram_body (i : Z) (st : (Z -> Z) * (Z -> Z)) : (Z -> Z) * (Z -> Z) :=
  let '(pos, tile_offset) := st in
  let t := tl i in
  (upd pos i (tile_offset t), upd tile_offset t (tile_offset t + 1)).

Lemma histogram_loop pos0 size :
  0 <= size ->
  let r := for_range 0 size histogram_body (pos0, fun _ => 0) in
  (forall i, 0 <= i < size -> fst r i = rank i) /\
  (forall t, snd r t = in_tile t size).
Proof.
  intros Hs r. unfold r.
  apply (for_range_ind (fun m st => (forall i, 0 <= i < m -> fst st i = rank i) /\
                                    (forall t, snd st t = in_tile t m))); try assumption.
  - split; [intros; lia|]. intros t. unfold in_tile. now rewrite count_empty by lia.
  - intros m [pos cnt] Hm [Hpos Hcnt]. cbn [fst snd] in *. unfold histogram_body. cbv zeta.
    cbn [fst snd]. split.
    + intros i Hi. destruct (Z.eq_dec i m) as [->|Hne].
      * rewrite upd_same, Hcnt. reflexivity.
      * rewrite upd_other by assumption. apply Hpos. lia.
    + intros t. unfold in_tile. rewrite count_succ by lia. fold (in_tile t m).
      destruct (Z.eqb_spec (tl m) t) as [<-|Hne].
      * rewrite upd_same, Hcnt. reflexivity.
      * rewrite upd_other by congruence. rewrite Hcnt. lia.
Qed.

(** The first slot of tile [t] once the counts are summed. *)
Definition first_slot (size t : Z) : Z := zsum (fun t' => in_tile t' size) 0 t.

Lemma in_tile_nonneg t m : 0 <= m -> 0 <= in_tile t m.
Proof. intros H. unfold in_tile. pose proof (count_bounds (fun j => tl j =? t) 0 m H). lia. Qed.

Lemma first_slot_sorted size t t' :
  0 <= size -> 0 <= t <= t' -> first_slot size t <= first_slot size t'.
Proof.
  intros Hs Ht. unfold first_slot. rewrite (zsum_split _ 0 t t') by lia.
  pose proof (zsum_nonneg (fun t' => in_tile t' size) t t'
                ltac:(intros; now apply in_tile_nonneg)). lia.
Qed.

Lemma first_slot_succ size t :
  0 <= t -> first_slot size (t + 1) = first_slot size t + in_tile t size.
Proof. intros Ht. unfold first_slot. now rewrite zsum_succ by lia. Qed.

Lemma first_slot_0 size : first_slot size 0 = 0.
Proof. unfold first_slot. now rewrite zsum_empty by lia. Qed.

(** The counts of the tiles and their partial sums stay within the number
    of particles. *)
Lemma in_tile_le t m : 0 <= m -> in_tile t m <= m.
Proof. intros H. unfold in_tile. pose proof (count_bounds (fun j => tl j =? t) 0 m H). lia. Qed.

Lemma first_slot_le size t :
  0 <= size -> 0 <= n -> (forall i, 0 <= i < size -> 0 <= tl i < n) ->
  0 <= t <= n -> 0 <= first_slot size t <= size.
Proof.
  intros Hs Hn Htl Ht.
  pose proof (first_slot_sorted size 0 t Hs ltac:(lia)) as H0.
  pose proof (first_slot_sorted size t n Hs ltac:(lia)) as H1.
  rewrite first_slot_0 in H0. unfold first_slot in H1 at 2.
  rewrite (in_tile_total size Hs Hn Htl) in H1. lia.
Qed.

(** The slot of particle [i]. *)
Definition slot (size i : Z) : Z := rank i + first_slot size (tl i).

Lemma slot_range size i :
  0 <= i < size -> 0 <= tl i ->
  first_slot size (tl i) <= slot size i < first_slot size (tl i + 1).
Proof.
  intros Hi Ht. unfold slot. rewrite first_slot_succ by lia.
  unfold rank, in_tile.
  pose proof (count_bounds (fun j => tl j =? tl i) 0 i ltac:(lia)).
  pose proof (count_hit (fun j => tl j =? tl i) 0 i size ltac:(lia) (Z.eqb_refl _)).
  lia.
Qed.

Lemma slot_inj size i j :
  0 <= i < size -> 0 <= j < size -> 0 <= tl i -> 0 <= tl j ->
  slot size i = slot size j -> i = j.
Proof.
  intros Hi Hj Hti Htj E.
  pose proof (slot_range size i Hi Hti) as Ri.
  pose proof (slot_range size j Hj Htj) as Rj.
  destruct (Z.eq_dec (tl i) (tl j)) as [Et|Hne].
  - unfold slot in E. rewrite Et in E.
    assert (Er : rank i = rank j) by lia. unfold rank in Er. rewrite Et in Er.
    apply (count_inj (fun k => tl k =? tl j) 0); lia.
  - exfalso. destruct (Z_lt_ge_dec (tl i) (tl j)).
    + pose proof (first_slot_sorted size (tl i + 1) (tl j) ltac:(lia) ltac:(lia)). lia.
    + pose proof (first_slot_sorted size (tl j + 1) (tl i) ltac:(lia) ltac:(lia)). lia.
Qed.

(** Every slot of a tile is the slot of a particle of the tile. *)
Lemma slot_onto size t k :
  0 <= size -> 0 <= t -> first_slot size t <= k < first_slot size (t + 1) ->
  exists i, 0 <= i < size /\ tl i = t /\ slot size i = k.
Proof.
  intros Hs Ht Hk. rewrite first_slot_succ in Hk by lia.
  destruct (count_onto (fun j => tl j =? t) 0 size (k - first_slot size t) Hs)
    as (i & Hi & Hp & Hr).
  { unfold in_tile in Hk. lia. }
  apply Z.eqb_eq in Hp. exists i. split; [assumption|]. split; [assumption|].
  unfold slot, rank. rewrite Hp, Hr. lia.
Qed.

End Histogram.

Section Organize.
Context {F : Type}.
Variables (TILE_SIZE LOCAL_BUFFER_SIZE kL : Z).
Hypothesis HL : LOCAL_BUFFER_SIZE = 2 ^ kL.
Hypothesis HkL : 1 <= kL.
Implicit Types (spec : t_species F) (pv : t_particle_vector F).

(** The target position loop: [pos[i] += tile_offset[tile of i]]. *)
Lemma target_loop (tl off : Z -> Z) pos size i :
  0 <= i < size ->
  for_range 0 size (fun i pos => upd pos i (pos i + off (tl i))) pos i = pos i + off (tl i).
Proof.
  intros Hi.
  rewrite (for_range_hit (fun p => p i) 0 size i); try assumption.
  - apply upd_same.
  - intros j p Hj Hne. now apply upd_other.
  - intros p p' E. now rewrite !upd_same, E.
Qed.

(** The loop that marks the particles valid. *)
Lemma validate_loop pv n :
  let pv' := for_range 0 n (fun k pv => with_invalid pv (upd (pv_invalid pv) k false)) pv in
  (forall k, 0 <= k < n -> pv_invalid pv' k = false) /\
  (forall k, particle pv' k
             = mk_part (pv_ix pv k) (pv_iy pv k) (pv_x pv k) (pv_y pv k)
                 (pv_ux pv k) (pv_uy pv k) (pv_uz pv k) (pv_invalid pv' k)) /\
  pv_size pv' = pv_size pv.
Proof.
  intros pv'. split; [|split].
  - intros k Hk. unfold pv'.
    rewrite (for_range_hit (fun v => pv_invalid v k) 0 n k); try assumption.
    + cbn. apply upd_same.
    + intros j v Hj Hne. cbn. now apply upd_other.
    + intros v v' _. cbn. now rewrite !upd_same.
  - intros k. unfold particle.
    assert (E : (pv_ix pv', kept pv') = (pv_ix pv, kept pv)).
    { unfold pv'. apply (for_range_frame (fun v => (pv_ix v, kept v))). reflexivity. }
    unfold kept in E.
    now injection E as -> -> -> -> -> -> -> _ _.
  - unfold pv'. apply (for_range_frame pv_size). reflexivity.
Qed.

(** The seven moves with a whole-array order [pos]. *)
Lemma move_particles_all pv (pos : Z -> Z) size temp_i temp_f :
  (forall i, 0 <= i < size -> 0 <= pos i) ->
  (forall i j, 0 <= i < size -> 0 <= j < size -> pos i = pos j -> i = j) ->
  let pv' := move_particles pv None pos size temp_i temp_f in
  (forall i, 0 <= i < size ->
     pv_ix pv' (pos i) = pv_ix pv i /\ pv_iy pv' (pos i) = pv_iy pv i /\
     pv_x pv' (pos i) = pv_x pv i /\ pv_y pv' (pos i) = pv_y pv i /\
     pv_ux pv' (pos i) = pv_ux pv i /\ pv_uy pv' (pos i) = pv_uy pv i /\
     pv_uz pv' (pos i) = pv_uz pv i) /\
  pv_size pv' = pv_size pv /\ pv_invalid pv' = pv_invalid pv.
Proof.
  intros Hpos Hinj pv'.
  assert (Hmv : forall (A : Type) (v t : Z -> A) i, 0 <= i < size ->
            spec_move_vector v None pos size t (pos i) = v i).
  { intros A v t i Hi.
    apply spec_move_vector_whole; try assumption; [|now apply Hpos].
    intros a b Ha Hb _ _ E. now apply Hinj. }
  split; [|split; reflexivity].
  intros i Hi. unfold pv', move_particles, spec_move_vector_int, spec_move_vector_float.
  cbv zeta.
  cbn [pv_ix pv_iy pv_x pv_y pv_ux pv_uy pv_uz with_ix with_iy with_x with_y with_ux with_uy
       with_uz].
  rewrite !Hmv by assumption. repeat split; reflexivity.
Qed.

(** [spec_organize_in_tiles] sorts the particles into the tiles.  When
    every particle [0 .. size - 1] has its tile
    [ix / TILE_SIZE + (iy - limits_y[0]) / TILE_SIZE * n_tiles_x] among the
    tiles [0 .. n_tiles - 1], LOCAL_BUFFER_SIZE is a power of two, the
    number of particles is an [int] and [n_tiles + 1] is at most 2^24 (the
    range in which the prefix sum counts its blocks exactly), the call
    returns with: [tile_offset[0] = 0], [tile_offset] not decreasing and
    [tile_offset[n_tiles] = size], the size unchanged; every slot between
    [tile_offset[t]] and [tile_offset[t + 1]] holds a particle of tile [t],
    marked valid; and every particle of the input is in one slot of the
    output, two particles never in the same. *)
Theorem organize_in_tiles_sorts spec (limits_y0 : Z) (pos temp_i : Z -> Z) (temp_f : Z -> F)
  (fuel : nat) :
  let pv := main_vector spec in
  let n := n_tiles_x spec * n_tiles_y spec in
  let size := pv_size pv in
  0 <= size -> 0 <= n -> n + 1 <= Z.of_nat fuel ->
  (forall i, 0 <= i < size ->
     0 <= target_tile TILE_SIZE pv (n_tiles_x spec) limits_y0 i < n) ->
  size < 2 ^ 31 -> n + 1 <= 2 ^ 24 ->
  exists spec',
    spec_organize_in_tiles TILE_SIZE LOCAL_BUFFER_SIZE (S fuel) spec limits_y0 pos temp_i temp_f
    = Some spec' /\
    let pv' := main_vector spec' in
    let off := tile_offset spec' in
    off 0 = 0 /\ off n = size /\ pv_size pv' = size /\ sorted_offsets off n /\
    (forall t k, 0 <= t < n -> off t <= k < off (t + 1) ->
       target_tile TILE_SIZE pv' (n_tiles_x spec) limits_y0 k = t /\
       pv_invalid pv' k = false) /\
    exists place : Z -> Z,
      (forall i, 0 <= i < size ->
         0 <= place i < size /\
         particle pv' (place i)
         = mk_part (pv_ix pv i) (pv_iy pv i) (pv_x pv i) (pv_y pv i)
             (pv_ux pv i) (pv_uy pv i) (pv_uz pv i) false) /\
      (forall i j, 0 <= i < size -> 0 <= j < size -> place i = place j -> i = j).
Proof.
  intros pv n size Hsize Hn Hfuel Htl Hint Hfloat.
  set (tl := target_tile TILE_SIZE pv (n_tiles_x spec) limits_y0) in *.
  unfold spec_organize_in_tiles. cbv zeta. fold pv. fold size. fold n.
  change (for_range 0 size _ (pos, fun _ : Z => 0))
    with (for_range 0 size (histogram_body tl) (pos, fun _ : Z => 0)).
  destruct (histogram_loop tl pos size Hsize) as [Hrank Hcnt].
  destruct (for_range 0 size (histogram_body tl) (pos, fun _ : Z => 0)) as [pos1 cnt].
  cbn [fst snd] in Hrank, Hcnt.
  destruct (prefix_sum_fits_ok LOCAL_BUFFER_SIZE kL HL HkL fuel cnt (n + 1) Hfuel
              ltac:(lia)) as (off & -> & Hscan).
  { intros t _. rewrite Hcnt. pose proof (in_tile_nonneg tl t size Hsize).
    pose proof (in_tile_le tl t size Hsize). lia. }
  { intros t Ht.
    rewrite (zsum_ext cnt (fun t' => in_tile tl t' size)) by (intros; apply Hcnt).
    pose proof (first_slot_le tl n size t Hsize Hn Htl ltac:(lia)) as Hle.
    unfold first_slot in Hle. lia. }
  (* the first slot of every tile *)
  assert (Hoff : forall t, 0 <= t <= n -> off t = first_slot tl size t).
  { intros t Ht. rewrite Hscan by lia. unfold first_slot.
    apply zsum_ext. intros t' _. apply Hcnt. }
  assert (Hfinal : off n = size).
  { rewrite Hoff by lia. unfold first_slot. now apply in_tile_total. }
  rewrite Hfinal.
  set (pos2 := for_range 0 size (fun i pos => upd pos i (pos i + off (tl i))) pos1).
  assert (Hslot : forall i, 0 <= i < size -> pos2 i = slot tl size i).
  { intros i Hi. unfold pos2. rewrite target_loop by assumption.
    rewrite Hrank by assumption. rewrite Hoff by (specialize (Htl i Hi); lia). reflexivity. }
  assert (Hrange : forall i, 0 <= i < size ->
            off (tl i) <= pos2 i < off (tl i + 1) /\ 0 <= pos2 i < size).
  { intros i Hi. specialize (Htl i Hi).
    pose proof (slot_range tl size i Hi ltac:(lia)) as Hr.
    rewrite Hslot, !Hoff by lia. split; [exact Hr|].
    pose proof (first_slot_sorted tl size 0 (tl i) Hsize ltac:(lia)).
    pose proof (first_slot_sorted tl size (tl i + 1) n Hsize ltac:(lia)).
    rewrite <- (Hoff n), Hfinal in * by lia.
    assert (first_slot tl size 0 = 0) by (unfold first_slot; now rewrite zsum_empty by lia).
    lia. }
  assert (Hinj : forall i j, 0 <= i < size -> 0 <= j < size -> pos2 i = pos2 j -> i = j).
  { intros i j Hi Hj E. rewrite !Hslot in E by assumption.
    apply (slot_inj tl size i j Hi Hj); try assumption.
    - specialize (Htl i Hi). lia.
    - specialize (Htl j Hj). lia. }
  destruct (move_particles_all (with_size pv size) pos2 size temp_i temp_f
              ltac:(intros i Hi; destruct (Hrange i Hi); lia) Hinj) as (Hmoved & Hsz & Hinv).
  set (pv2 := move_particles (with_size pv size) None pos2 size temp_i temp_f) in *.
  destruct (validate_loop pv2 size) as (Hvalid & Hsame & Hsz3).
  set (pv3 := for_range 0 size _ pv2) in *.
  eexists. split; [reflexivity|].
  cbn [main_vector tile_offset set_main_vector set_tile_offset set_mv_part_offset].
  assert (Hpart : forall i, 0 <= i < size ->
            particle pv3 (pos2 i)
            = mk_part (pv_ix pv i) (pv_iy pv i) (pv_x pv i) (pv_y pv i)
                (pv_ux pv i) (pv_uy pv i) (pv_uz pv i) false).
  { intros i Hi. rewrite Hsame.
    destruct (Hmoved i Hi) as (M1 & M2 & M3 & M4 & M5 & M6 & M7).
    rewrite M1, M2, M3, M4, M5, M6, M7.
    rewrite Hvalid by (destruct (Hrange i Hi); lia). reflexivity. }
  split; [|split; [|split; [|split; [|split]]]].
  - rewrite Hoff by lia. unfold first_slot. now rewrite zsum_empty by lia.
  - exact Hfinal.
  - change (pv_size pv3 = size). rewrite Hsz3. exact Hsz.
  - intros t t' Ht Ht'. rewrite !Hoff by lia. apply first_slot_sorted; lia.
  - intros t k Ht Hk. rewrite !Hoff in Hk by lia.
    destruct (slot_onto tl size t k Hsize ltac:(lia) Hk) as (i & Hi & Hti & Hsl).
    rewrite <- Hsl, <- Hslot by assumption.
    pose proof (f_equal p_ix (Hpart i Hi)) as Eix.
    pose proof (f_equal p_iy (Hpart i Hi)) as Eiy.
    pose proof (f_equal p_invalid (Hpart i Hi)) as Einv.
    cbn [particle p_ix p_iy p_invalid] in Eix, Eiy, Einv.
    change (target_tile TILE_SIZE pv3 (n_tiles_x spec) limits_y0 (pos2 i) = t /\
            pv_invalid pv3 (pos2 i) = false).
    split; [|exact Einv].
    unfold target_tile. rewrite Eix, Eiy. exact Hti.
  - exists pos2. split.
    + intros i Hi. split; [destruct (Hrange i Hi); lia | now apply Hpart].
    + exact Hinj.
Qed.

End Organize.

(** Five particles on a grid of two tiles of 2 x 2 cells. *)
Definition pv_unsorted : t_particle_vector Z :=
  mk_part_vector (of_list [3; 0; 2; 1; 3]) (of_list [0; 0; 1; 1; 1])
    (of_list [10; 11; 12; 13; 14]) (fun _ => 0) (fun _ => 0) (fun _ => 0) (fun _ => 0)
    (fun _ => true) 5 8 true.

Definition species_unsorted : t_species Z :=
  mk_species pv_unsorted (fun _ => pv_unsorted) pv_unsorted pv_unsorted 1 1 4 2 1 1 1 0
    false 0 2 1 (fun _ => 7) (fun _ => 7).

Lemma organize_in_tiles_sorts_witness :
  exists spec',
    spec_organize_in_tiles 2 1024 4 species_unsorted 0 (fun _ => -5) (fun _ => 0) (fun _ => 0)
    = Some spec' /\
    tile_offset spec' 0 = 0 /\ tile_offset spec' 2 = 5.
Proof.
  destruct (organize_in_tiles_sorts 2 1024 10 eq_refl ltac:(lia) species_unsorted 0
              (fun _ => -5) (fun _ => 0) (fun _ => 0) 3)
    as (spec' & E & H0 & Hn & _).
  - cbn. lia.
  - cbn. lia.
  - cbn. lia.
  - intros i Hi. cbn in Hi.
    assert (Ei : i = 0 \/ i = 1 \/ i = 2 \/ i = 3 \/ i = 4) by lia.
    destruct Ei as [-> | [-> | [-> | [-> | ->]]]]; vm_compute; split; congruence.
  - cbn. lia.
  - cbn. lia.
  - exists spec'. split; [exact E|]. split; [exact H0 | exact Hn].
Defined.

(* ------------------------------------------------------------------ *)
(** ** The full sort *)

Lemma zsum_zero lo hi : zsum (fun _ => 0) lo hi = 0.
Proof.
  destruct (Z_le_gt_dec lo hi).
  - unfold zsum. apply (for_range_ind (fun _ acc => acc = 0)); lia.
  - now rewrite zsum_empty by lia.
Qed.

Lemma zsum_indicator_range c lo hi :
  lo <= hi ->
  zsum (fun t => if c =? t then 1 else 0) lo hi = if (lo <=? c) && (c <? hi) then 1 else 0.
Proof.
  intros Hle. destruct (Z.leb_spec lo c), (Z.ltb_spec c hi); cbn [andb].
  - apply zsum_indicator. lia.
  - rewrite (zsum_ext _ (fun _ => 0) lo hi); [apply zsum_zero|].
    intros i Hi. destruct (Z.eqb_spec c i); [lia | reflexivity].
  - rewrite (zsum_ext _ (fun _ => 0) lo hi); [apply zsum_zero|].
    intros i Hi. destruct (Z.eqb_spec c i); [lia | reflexivity].
  - rewrite (zsum_ext _ (fun _ => 0) lo hi); [apply zsum_zero|].
    intros i Hi. destruct (Z.eqb_spec c i); [lia | reflexivity].
Qed.

Section HistogramValid.
Variables (inv : Z -> bool) (tile : Z -> Z).

(** The tile of a particle, -1 for the particles marked invalid. *)
Definition tile_of_valid (i : Z) : Z := if inv i then -1 else tile i.

(** The tiles [0 .. n - 1] hold the particles that are not marked invalid. *)
Lemma in_tile_total_valid n m :
  0 <= m -> 0 <= n -> (forall i, 0 <= i < m -> inv i = false -> 0 <= tile i < n) ->
  zsum (fun t => in_tile tile_of_valid t m) 0 n = count (fun i => negb (inv i)) 0 m.
Proof.
  intros Hm Hn. revert m Hm. apply (natlike_ind (fun m => _ -> _ = count _ 0 m)).
  - intros _. rewrite count_empty by lia.
    rewrite (zsum_ext _ (fun _ => 0) 0 n); [apply zsum_zero|].
    intros t Ht. unfold in_tile. now rewrite count_empty by lia.
  - intros m Hm IH Htl. replace (Z.succ m) with (m + 1) by lia.
    rewrite (zsum_ext _ (fun t => in_tile tile_of_valid t m
                                  + (if tile_of_valid m =? t then 1 else 0)) 0 n).
    2:{ intros t Ht. unfold in_tile. now rewrite count_succ by lia. }
    rewrite zsum_add, IH by (intros i Hi; apply Htl; lia).
    rewrite count_succ by lia. rewrite zsum_indicator_range by lia.
    unfold tile_of_valid. destruct (inv m) eqn:Hv; cbn [negb].
    + reflexivity.
    + specialize (Htl m ltac:(lia) Hv).
      destruct (Z.leb_spec 0 (tile m)); [|lia]. destruct (Z.ltb_spec (tile m) n); [|lia].
      reflexivity.
Qed.

(** The histogram loop of the full sort. *)
Definition histogram_valid_body (i : Z) (st : (Z -> Z) * (Z -> Z)) : (Z -> Z) * (Z -> Z) :=
  let '(pos, tile_offset) := st in
  if negb (inv i) then
    let t := tile i in
    (upd pos i (tile_offset t), upd tile_offset t (tile_offset t + 1))
  else (upd pos i (-1), tile_offset).

Lemma histogram_valid_loop pos0 cnt0 size :
  0 <= size -> (forall i, 0 <= i < size -> inv i = false -> 0 <= tile i) ->
  let r := for_range 0 size histogram_valid_body (pos0, cnt0) in
  (forall i, 0 <= i < size ->
     fst r i = if inv i then -1 else cnt0 (tile i) + rank tile_of_valid i) /\
  (forall t, 0 <= t -> snd r t = cnt0 t + in_tile tile_of_valid t size).
Proof.
  intros Hs Htile r. unfold r.
  apply (for_range_ind (fun m st =>
           (forall i, 0 <= i < m ->
              fst st i = if inv i then -1 else cnt0 (tile i) + rank tile_of_valid i) /\
           (forall t, 0 <= t -> snd st t = cnt0 t + in_tile tile_of_valid t m)));
    try assumption.
  - split; [intros; lia|]. intros t Ht. unfold in_tile. rewrite count_empty by lia.
    cbn [snd]. lia.
  - intros m [pos cnt] Hm [Hpos Hcnt]. cbn [fst snd] in *. unfold histogram_valid_body.
    destruct (inv m) eqn:Hv; cbn [negb fst snd]; cbv zeta; cbn [fst snd].
    + split.
      * intros i Hi. destruct (Z.eq_dec i m) as [->|Hne].
        -- now rewrite upd_same, Hv.
        -- rewrite upd_other by assumption. apply Hpos. lia.
      * intros t Ht. unfold in_tile. rewrite count_succ by lia. fold (in_tile tile_of_valid t m).
        unfold tile_of_valid at 2. rewrite Hv.
        destruct (Z.eqb_spec (-1) t); [lia|]. rewrite Hcnt by assumption. lia.
    + pose proof (Htile m Hm Hv) as Htm. split.
      * intros i Hi. destruct (Z.eq_dec i m) as [->|Hne].
        -- rewrite upd_same, Hv, Hcnt by assumption.
           assert (E : tile_of_valid m = tile m) by (unfold tile_of_valid; now rewrite Hv).
           unfold rank. now rewrite E.
        -- rewrite upd_other by assumption. apply Hpos. lia.
      * intros t Ht. unfold in_tile. rewrite count_succ by lia. fold (in_tile tile_of_valid t m).
        unfold tile_of_valid at 2. rewrite Hv.
        destruct (Z.eqb_spec (tile m) t) as [<-|Hne].
        -- rewrite upd_same, Hcnt by assumption. lia.
        -- rewrite upd_other by congruence. rewrite Hcnt by assumption. lia.
Qed.

(** The target position loop of the full sort. *)
Lemma target_valid_loop (off : Z -> Z) pos size i :
  0 <= i < size ->
  for_range 0 size (fun i pos =>
    if 0 <=? pos i then upd pos i (pos i + off (tile i)) else pos) pos i
  = if 0 <=? pos i then pos i + off (tile i) else pos i.
Proof.
  intros Hi.
  rewrite (for_range_hit (fun p => p i) 0 size i); try assumption.
  - destruct (0 <=? pos i); [apply upd_same | reflexivity].
  - intros j p Hj Hne. destruct (0 <=? p j); [now apply upd_other | reflexivity].
  - intros p p' E. cbv beta in E |- *. rewrite E.
    destruct (0 <=? p' i); [now rewrite !upd_same | exact E].
Qed.

End HistogramValid.

Lemma zero_loop (off : Z -> Z) m t :
  0 <= t < m -> for_range 0 m (fun i off => upd off i 0) off t = 0.
Proof.
  intros Ht.
  rewrite (for_range_hit (fun o => o t) 0 m t); try assumption.
  - apply upd_same.
  - intros j o Hj Hne. now apply upd_other.
  - intros o o' _. now rewrite !upd_same.
Qed.

Section FullSort.
Context {F : Type}.
Variables (TILE_SIZE LOCAL_BUFFER_SIZE kL : Z).
Hypothesis HL : LOCAL_BUFFER_SIZE = 2 ^ kL.
Hypothesis HkL : 1 <= kL.
Implicit Types (spec : t_species F) (pv : t_particle_vector F).

(** The seven moves in an order [pos] that leaves out the particles with a
    negative entry. *)
Lemma move_particles_valid pv (pos : Z -> Z) size temp_i temp_f :
  (forall i j, 0 <= i < size -> 0 <= j < size -> 0 <= pos i -> 0 <= pos j ->
     pos i = pos j -> i = j) ->
  let pv' := move_particles pv None pos size temp_i temp_f in
  (forall i, 0 <= i < size -> 0 <= pos i ->
     pv_ix pv' (pos i) = pv_ix pv i /\ pv_iy pv' (pos i) = pv_iy pv i /\
     pv_x pv' (pos i) = pv_x pv i /\ pv_y pv' (pos i) = pv_y pv i /\
     pv_ux pv' (pos i) = pv_ux pv i /\ pv_uy pv' (pos i) = pv_uy pv i /\
     pv_uz pv' (pos i) = pv_uz pv i) /\
  pv_size pv' = pv_size pv /\ pv_invalid pv' = pv_invalid pv.
Proof.
  intros Hinj pv'.
  assert (Hmv : forall (A : Type) (v t : Z -> A) i, 0 <= i < size -> 0 <= pos i ->
            spec_move_vector v None pos size t (pos i) = v i).
  { intros A v t i Hi Hp. now apply spec_move_vector_whole. }
  split; [|split; reflexivity].
  intros i Hi Hp. unfold pv', move_particles, spec_move_vector_int, spec_move_vector_float.
  cbv zeta.
  cbn [pv_ix pv_iy pv_x pv_y pv_ux pv_uy pv_uz with_ix with_iy with_x with_y with_ux with_uy
       with_uz].
  rewrite !Hmv by assumption. repeat split; reflexivity.
Qed.

(** [spec_full_sort_openacc] sorts the particles that are not marked
    invalid into the tiles and drops the others.  When every such particle
    [0 .. size - 1] has its tile among the tiles [0 .. n_tiles - 1],
    LOCAL_BUFFER_SIZE is a power of two, the number of particles is an [int]
    and [n_tiles + 1] is at most 2^24 (the range in which the prefix sum
    counts its blocks exactly), the call returns with:
    [tile_offset[0] = 0], [tile_offset] not decreasing, [tile_offset[n_tiles]]
    and the new size both the number of particles that were not marked
    invalid; every slot between [tile_offset[t]] and [tile_offset[t + 1]]
    holds a particle of tile [t], marked valid; and every particle of the
    input that was not marked invalid is in one slot of the output, two
    particles never in the same. *)
Theorem full_sort_compacts spec (limits_y0 : Z) (pos temp_i : Z -> Z) (temp_f : Z -> F)
  (fuel : nat) :
  let pv := main_vector spec in
  let n := n_tiles_x spec * n_tiles_y spec in
  let size := pv_size pv in
  let np := count (fun i => negb (pv_invalid pv i)) 0 size in
  0 <= size -> 0 <= n -> n + 1 <= Z.of_nat fuel ->
  (forall i, 0 <= i < size -> pv_invalid pv i = false ->
     0 <= target_tile TILE_SIZE pv (n_tiles_x spec) limits_y0 i < n) ->
  size < 2 ^ 31 -> n + 1 <= 2 ^ 24 ->
  exists spec',
    spec_full_sort_openacc TILE_SIZE LOCAL_BUFFER_SIZE (S fuel) spec limits_y0 pos temp_i temp_f
    = Some spec' /\
    let pv' := main_vector spec' in
    let off := tile_offset spec' in
    off 0 = 0 /\ off n = np /\ pv_size pv' = np /\ sorted_offsets off n /\
    (forall t k, 0 <= t < n -> off t <= k < off (t + 1) ->
       target_tile TILE_SIZE pv' (n_tiles_x spec) limits_y0 k = t /\
       pv_invalid pv' k = false) /\
    exists place : Z -> Z,
      (forall i, 0 <= i < size -> pv_invalid pv i = false ->
         0 <= place i < np /\
         particle pv' (place i)
         = mk_part (pv_ix pv i) (pv_iy pv i) (pv_x pv i) (pv_y pv i)
             (pv_ux pv i) (pv_uy pv i) (pv_uz pv i) false) /\
      (forall i j, 0 <= i < size -> 0 <= j < size ->
         pv_invalid pv i = false -> pv_invalid pv j = false -> place i = place j -> i = j).
Proof.
  intros pv n size np Hsize Hn Hfuel Htl Hint Hfloat.
  set (tile := target_tile TILE_SIZE pv (n_tiles_x spec) limits_y0) in *.
  set (tl := tile_of_valid (pv_invalid pv) tile).
  unfold spec_full_sort_openacc. cbv zeta. fold pv. fold size. fold n.
  set (cnt0 := for_range 0 (n + 1) (fun i off => upd off i 0) (tile_offset spec)).
  change (for_range 0 size _ (pos, cnt0))
    with (for_range 0 size (histogram_valid_body (pv_invalid pv) tile) (pos, cnt0)).
  destruct (histogram_valid_loop (pv_invalid pv) tile pos cnt0 size Hsize
              ltac:(intros i Hi Hv; specialize (Htl i Hi Hv); lia)) as [Hrank Hcnt].
  destruct (for_range 0 size (histogram_valid_body (pv_invalid pv) tile) (pos, cnt0))
    as [pos1 cnt].
  cbn [fst snd] in Hrank, Hcnt.
  assert (Hzero : forall t, 0 <= t <= n -> cnt0 t = 0).
  { intros t Ht. unfold cnt0. apply zero_loop. lia. }
  destruct (prefix_sum_fits_ok LOCAL_BUFFER_SIZE kL HL HkL fuel cnt (n + 1) Hfuel
              ltac:(lia)) as (off & -> & Hscan).
  { intros t Ht. rewrite Hcnt, Hzero by lia. fold tl.
    pose proof (in_tile_nonneg tl t size Hsize). pose proof (in_tile_le tl t size Hsize).
    lia. }
  { intros t Ht.
    rewrite (zsum_ext cnt (fun t' => in_tile tl t' size))
      by (intros t' Ht'; rewrite Hcnt, Hzero by lia; reflexivity).
    pose proof (first_slot_sorted tl size 0 t Hsize ltac:(lia)) as H0.
    pose proof (first_slot_sorted tl size t n Hsize ltac:(lia)) as H1.
    rewrite first_slot_0 in H0. unfold first_slot in H0, H1. unfold tl in H1 at 2.
    rewrite (in_tile_total_valid (pv_invalid pv) tile n size Hsize Hn Htl) in H1.
    pose proof (count_bounds (fun i => negb (pv_invalid pv i)) 0 size Hsize). lia. }
  (* the first slot of every tile *)
  assert (Hoff : forall t, 0 <= t <= n -> off t = first_slot tl size t).
  { intros t Ht. rewrite Hscan by lia. unfold first_slot.
    apply zsum_ext. intros t' Ht'. rewrite Hcnt, Hzero by lia. reflexivity. }
  assert (Hfinal : off n = np).
  { rewrite Hoff by lia. unfold first_slot. now apply in_tile_total_valid. }
  rewrite Hfinal.
  assert (Hnp : 0 <= np <= size).
  { unfold np. pose proof (count_bounds (fun i => negb (pv_invalid pv i)) 0 size Hsize). lia. }
  set (pos2 := for_range 0 size (fun i pos =>
                 if 0 <=? pos i then upd pos i (pos i + off (tile i)) else pos) pos1).
  assert (Hvt : forall i, 0 <= i < size -> pv_invalid pv i = false -> tl i = tile i).
  { intros i Hi Hv. unfold tl, tile_of_valid. now rewrite Hv. }
  assert (Hrk : forall i, 0 <= rank tl i).
  { intros i. unfold rank. destruct (Z_le_gt_dec 0 i).
    - pose proof (count_bounds (fun j => tl j =? tl i) 0 i ltac:(lia)). lia.
    - rewrite count_empty by lia. lia. }
  assert (Hslot : forall i, 0 <= i < size -> pv_invalid pv i = false -> pos2 i = slot tl size i).
  { intros i Hi Hv. unfold pos2. rewrite (target_valid_loop tile off pos1 size i Hi).
    rewrite Hrank by assumption. rewrite Hv.
    specialize (Htl i Hi Hv). rewrite Hzero by lia. fold tl.
    destruct (Z.leb_spec 0 (0 + rank tl i)); [|specialize (Hrk i); lia].
    unfold slot. rewrite Hvt by assumption. rewrite Hoff by lia. lia. }
  assert (Hneg : forall i, 0 <= i < size -> pv_invalid pv i = true -> pos2 i = -1).
  { intros i Hi Hv. unfold pos2. rewrite (target_valid_loop tile off pos1 size i Hi).
    rewrite Hrank by assumption. rewrite Hv. reflexivity. }
  assert (Hrange : forall i, 0 <= i < size -> pv_invalid pv i = false ->
            off (tile i) <= pos2 i < off (tile i + 1) /\ 0 <= pos2 i < np).
  { intros i Hi Hv. specialize (Htl i Hi Hv).
    pose proof (slot_range tl size i Hi) as Hr. rewrite Hvt in Hr by assumption.
    specialize (Hr ltac:(lia)).
    rewrite Hslot, !Hoff by (try assumption; lia). split; [exact Hr|].
    pose proof (first_slot_sorted tl size 0 (tile i) Hsize ltac:(lia)).
    pose proof (first_slot_sorted tl size (tile i + 1) n Hsize ltac:(lia)).
    rewrite <- (Hoff n), Hfinal in * by lia.
    assert (first_slot tl size 0 = 0) by (unfold first_slot; now rewrite zsum_empty by lia).
    lia. }
  assert (Hval : forall i, 0 <= i < size -> 0 <= pos2 i -> pv_invalid pv i = false).
  { intros i Hi Hp. destruct (pv_invalid pv i) eqn:Hv; [|reflexivity].
    rewrite (Hneg i Hi Hv) in Hp. lia. }
  assert (Hinj : forall i j, 0 <= i < size -> 0 <= j < size ->
            pv_invalid pv i = false -> pv_invalid pv j = false -> pos2 i = pos2 j -> i = j).
  { intros i j Hi Hj Hvi Hvj E. rewrite !Hslot in E by assumption.
    apply (slot_inj tl size i j Hi Hj); try assumption.
    - rewrite Hvt by assumption. specialize (Htl i Hi Hvi). lia.
    - rewrite Hvt by assumption. specialize (Htl j Hj Hvj). lia. }
  destruct (move_particles_valid (with_size pv np) pos2 size temp_i temp_f
              ltac:(intros i j Hi Hj Hpi Hpj; apply Hinj; auto)) as (Hmoved & Hsz & Hinv).
  set (pv2 := move_particles (with_size pv np) None pos2 size temp_i temp_f) in *.
  destruct (validate_loop pv2 np) as (Hvalid & Hsame & Hsz3).
  set (pv3 := for_range 0 np _ pv2) in *.
  eexists. split; [reflexivity|].
  cbn [main_vector tile_offset set_main_vector set_tile_offset].
  assert (Hpart : forall i, 0 <= i < size -> pv_invalid pv i = false ->
            particle pv3 (pos2 i)
            = mk_part (pv_ix pv i) (pv_iy pv i) (pv_x pv i) (pv_y pv i)
                (pv_ux pv i) (pv_uy pv i) (pv_uz pv i) false).
  { intros i Hi Hv. rewrite Hsame.
    destruct (Hmoved i Hi ltac:(destruct (Hrange i Hi Hv); lia))
      as (M1 & M2 & M3 & M4 & M5 & M6 & M7).
    rewrite M1, M2, M3, M4, M5, M6, M7.
    rewrite Hvalid by (destruct (Hrange i Hi Hv); lia). reflexivity. }
  split; [|split; [|split; [|split; [|split]]]].
  - rewrite Hoff by lia. unfold first_slot. now rewrite zsum_empty by lia.
  - exact Hfinal.
  - change (pv_size pv3 = np). rewrite Hsz3. exact Hsz.
  - intros t t' Ht Ht'. rewrite !Hoff by lia. apply first_slot_sorted; lia.
  - intros t k Ht Hk. rewrite !Hoff in Hk by lia.
    destruct (slot_onto tl size t k Hsize ltac:(lia) Hk) as (i & Hi & Hti & Hsl).
    assert (Hv : pv_invalid pv i = false).
    { destruct (pv_invalid pv i) eqn:Hv; [|reflexivity].
      unfold tl, tile_of_valid in Hti. rewrite Hv in Hti. lia. }
    rewrite Hvt in Hti by assumption.
    rewrite <- Hsl, <- Hslot by assumption.
    pose proof (f_equal p_ix (Hpart i Hi Hv)) as Eix.
    pose proof (f_equal p_iy (Hpart i Hi Hv)) as Eiy.
    pose proof (f_equal p_invalid (Hpart i Hi Hv)) as Einv.
    cbn [particle p_ix p_iy p_invalid] in Eix, Eiy, Einv.
    change (target_tile TILE_SIZE pv3 (n_tiles_x spec) limits_y0 (pos2 i) = t /\
            pv_invalid pv3 (pos2 i) = false).
    split; [|exact Einv].
    unfold target_tile. rewrite Eix, Eiy. exact Hti.
  - exists pos2. split.
    + intros i Hi Hv. split; [destruct (Hrange i Hi Hv); lia | now apply Hpart].
    + exact Hinj.
Qed.

End FullSort.

(** Five particles, two of them marked invalid, on a grid of two tiles of
    2 x 2 cells. *)
Definition pv_holes : t_particle_vector Z :=
  mk_part_vector (of_list [3; 0; 2; 1; 3]) (of_list [0; 0; 1; 1; 1])
    (of_list [10; 11; 12; 13; 14]) (fun _ => 0) (fun _ => 0) (fun _ => 0) (fun _ => 0)
    (fun i => (i =? 1) || (i =? 4)) 5 8 true.

Definition species_holes : t_species Z :=
  mk_species pv_holes (fun _ => pv_holes) pv_holes pv_holes 1 1 4 2 1 1 1 0
    false 0 2 1 (fun _ => 7) (fun _ => 7).

Lemma full_sort_compacts_witness :
  exists spec',
    spec_full_sort_openacc 2 1024 4 species_holes 0 (fun _ => -5) (fun _ => 0) (fun _ => 0)
    = Some spec' /\
    tile_offset spec' 0 = 0 /\ tile_offset spec' 2 = 3 /\ pv_size (main_vector spec') = 3.
Proof.
  destruct (full_sort_compacts 2 1024 10 eq_refl ltac:(lia) species_holes 0
              (fun _ => -5) (fun _ => 0) (fun _ => 0) 3)
    as (spec' & E & H0 & Hn & Hs & _).
  - cbn. lia.
  - cbn. lia.
  - cbn. lia.
  - intros i Hi. cbn in Hi.
    assert (Ei : i = 0 \/ i = 1 \/ i = 2 \/ i = 3 \/ i = 4) by lia.
    destruct Ei as [-> | [-> | [-> | [-> | ->]]]]; vm_compute; intros Hv;
      first [discriminate Hv | split; congruence].
  - cbn. lia.
  - cbn. lia.
  - exists spec'. split; [exact E|]. split; [exact H0|]. split; [exact Hn | exact Hs].
Defined.

(* ================================================================== *)
(** * The current deposit *)
(* ================================================================== *)

Section Deposit.
Local Open Scope R_scope.

(** The sum of a component of the current over the cells [lo .. hi - 1]
    of the grid. *)
Definition grid_total (f : t_vfld R -> R) (J : Z -> t_vfld R) (lo hi : Z) : R :=
  for_range lo hi (fun k acc => acc + f (J k)) 0.

Lemma grid_total_upd f J k v lo hi :
  (lo <= k < hi)%Z ->
  grid_total f (upd J k v) lo hi = grid_total f J lo hi - f (J k) + f v.
Proof.
  intros Hk. unfold grid_total.
  assert (Hbelow : forall m, (lo <= m <= k)%Z ->
            for_range lo m (fun i acc => acc + f (upd J k v i)) 0
            = for_range lo m (fun i acc => acc + f (J i)) 0).
  { intros m Hm. apply for_range_ext. intros i acc Hi. now rewrite upd_other by lia. }
  rewrite (for_range_split lo (k + 1) hi) by lia.
  rewrite (for_range_split lo (k + 1) hi (fun i acc => acc + f (J i))) by lia.
  rewrite (for_range_last lo (k + 1)) by lia.
  rewrite (for_range_last lo (k + 1) (fun i acc => acc + f (J i))) by lia.
  replace (k + 1 - 1)%Z with k by lia. rewrite Hbelow by lia. rewrite upd_same.
  set (s0 := for_range lo k (fun i acc => acc + f (J i)) 0).
  assert (Habove : forall a c,
            for_range (k + 1) hi (fun i acc => acc + f (upd J k v i)) (a + c)
            = for_range (k + 1) hi (fun i acc => acc + f (J i)) a + c).
  { intros a c.
    apply (for_range_ind (fun m acc =>
             acc = for_range (k + 1) m (fun i acc => acc + f (J i)) a + c)); try lia.
    - now rewrite for_range_empty by lia.
    - intros i acc Hi ->. rewrite upd_other by lia.
      rewrite (for_range_last (k + 1) (i + 1)) by lia.
      replace (i + 1 - 1)%Z with i by lia. ring. }
  replace (s0 + f v) with ((s0 + f (J k)) + (f v - f (J k))) by ring.
  rewrite Habove. ring.
Qed.

Definition totals (J : Z -> t_vfld R) (lo hi : Z) : R * R * R :=
  (grid_total vx J lo hi, grid_total vy J lo hi, grid_total vz J lo hi).

Lemma add_x_totals J k v lo hi :
  (lo <= k < hi)%Z ->
  totals (add_x J k v) lo hi
  = (grid_total vx J lo hi + v, grid_total vy J lo hi, grid_total vz J lo hi).
Proof.
  intros Hk. unfold totals, add_x, upd_x. rewrite !grid_total_upd by assumption.
  cbn [vx vy vz fadd R_scalar]. f_equal; [f_equal|]; ring.
Qed.

Lemma add_y_totals J k v lo hi :
  (lo <= k < hi)%Z ->
  totals (add_y J k v) lo hi
  = (grid_total vx J lo hi, grid_total vy J lo hi + v, grid_total vz J lo hi).
Proof.
  intros Hk. unfold totals, add_y, upd_y. rewrite !grid_total_upd by assumption.
  cbn [vx vy vz fadd R_scalar]. f_equal; [f_equal|]; ring.
Qed.

Lemma add_z_totals J k v lo hi :
  (lo <= k < hi)%Z ->
  totals (add_z J k v) lo hi
  = (grid_total vx J lo hi, grid_total vy J lo hi, grid_total vz J lo hi + v).
Proof.
  intros Hk. unfold totals, add_z, upd_z. rewrite !grid_total_upd by assumption.
  cbn [vx vy vz fadd R_scalar]. f_equal; [f_equal|]; ring.
Qed.

(** The four cells a virtual particle of cell (ix, iy) deposits in are
    cells [lo .. hi - 1] of the grid. *)
Definition cells_in (lo hi nrow ix iy : Z) : Prop :=
  (lo <= ix + nrow * iy < hi /\ lo <= ix + 1 + nrow * iy < hi /\
   lo <= ix + nrow * (iy + 1) < hi /\ lo <= ix + 1 + nrow * (iy + 1) < hi)%Z.

(** The next statement of the deposit adds to one component of one cell. *)
Ltac deposit_step :=
  apply seq_intro;
  let x := fresh "J" in
  let Hx := fresh "Hx" in
  intros x Hx; cbv beta;
  lazymatch goal with
  | T : totals ?J0 ?lo ?hi = _ |- _ =>
      let T' := fresh "T" in
      lazymatch type of Hx with
      | x = add_x J0 ?k ?v => pose proof (add_x_totals J0 k v lo hi ltac:(lia)) as T'
      | x = add_y J0 ?k ?v => pose proof (add_y_totals J0 k v lo hi ltac:(lia)) as T'
      | x = add_z J0 ?k ?v => pose proof (add_z_totals J0 k v lo hi ltac:(lia)) as T'
      end;
      rewrite <- Hx in T';
      let Tx := fresh "Tx" in
      let Ty := fresh "Ty" in
      let Tz := fresh "Tz" in
      (unfold totals in T; injection T as Tx Ty Tz;
       rewrite Tx, Ty, Tz in T'; clear Hx Tx Ty Tz; try clear J0)
  end.

(** One virtual particle deposits, in total, [qnx dx] in J.x, [qny dy] in
    J.y and twice its weight in J.z. *)
Lemma dep_current_vp_totals qnx qny nrow (s : t_vp R) J lo hi :
  cells_in lo hi nrow (vp_ix s) (vp_iy s) ->
  totals (dep_current_vp qnx qny nrow s J) lo hi
  = (grid_total vx J lo hi + qnx * vp_dx s,
     grid_total vy J lo hi + qny * vp_dy s,
     grid_total vz J lo hi + 2 * vp_qvz s).
Proof.
  intros (H00 & H10 & H01 & H11).
  assert (T : totals J lo hi
              = (grid_total vx J lo hi, grid_total vy J lo hi, grid_total vz J lo hi))
    by reflexivity.
  set (tx := grid_total vx J lo hi) in *. set (ty := grid_total vy J lo hi) in *.
  set (tz := grid_total vz J lo hi) in *. clearbody tx ty tz.
  set (Q := fun J' => totals J' lo hi
                      = (tx + qnx * vp_dx s, ty + qny * vp_dy s, tz + 2 * vp_qvz s)).
  change (Q (dep_current_vp qnx qny nrow s J)).
  unfold dep_current_vp. cbv zeta.
  do 7 deposit_step.
  lazymatch goal with |- Q ?t => change (Q (seq t (fun x => x))) end.
  deposit_step. unfold Q.
  lazymatch goal with T : totals ?j lo hi = _ |- totals ?j lo hi = _ => rewrite T end.
  cbn [fadd fsub fmul fdiv f1 f2 fhalf R_scalar].
  f_equal; [f_equal|]; field.
Qed.

End Deposit.

Section DepositTotal.
Local Open Scope R_scope.

Lemma vp_total_next f vp b m :
  (b <= m)%Z -> vp_total f vp b (m + 1 - b) = vp_total f vp b (m - b) + f (vp m).
Proof.
  intros Hm. unfold vp_total.
  replace (b + (m + 1 - b))%Z with (m + 1)%Z by lia.
  replace (b + (m - b))%Z with m by lia.
  rewrite for_range_last by lia. now replace (m + 1 - 1)%Z with m by lia.
Qed.

(** The deposit loop over the virtual particles [vp[b .. b + n - 1]]. *)
Lemma deposit_loop qnx qny nrow (vp : Z -> t_vp R) J lo hi b n :
  (0 <= n)%Z ->
  (forall k, (b <= k < b + n)%Z -> cells_in lo hi nrow (vp_ix (vp k)) (vp_iy (vp k))) ->
  totals (for_range b (b + n) (fun k J => dep_current_vp qnx qny nrow (vp k) J) J) lo hi
  = (grid_total vx J lo hi + qnx * vp_total vp_dx vp b n,
     grid_total vy J lo hi + qny * vp_total vp_dy vp b n,
     grid_total vz J lo hi + 2 * vp_total vp_qvz vp b n).
Proof.
  intros Hn Hcells.
  replace n with (b + n - b)%Z at 2 3 4 by lia.
  apply (for_range_ind (fun m Jm =>
           totals Jm lo hi
           = (grid_total vx J lo hi + qnx * vp_total vp_dx vp b (m - b),
              grid_total vy J lo hi + qny * vp_total vp_dy vp b (m - b),
              grid_total vz J lo hi + 2 * vp_total vp_qvz vp b (m - b)))); try lia.
  - replace (b - b)%Z with 0%Z by lia. unfold vp_total.
    rewrite !for_range_empty by lia. unfold totals. f_equal; [f_equal|]; ring.
  - intros m Jm Hm IH. rewrite dep_current_vp_totals by (apply Hcells; lia).
    unfold totals in IH. injection IH as -> -> ->.
    rewrite !vp_total_next by lia. f_equal; [f_equal|]; ring.
Qed.

(** What the deposit needs of the split: the totals, and the cells of the
    virtual particles. *)
Lemma split_summary (ix iy di dj : Z) (x0 y0 dx dy qvz : R) (vp : Z -> t_vp R)
  (thread_id : Z) :
  (di = 0%Z -> dj <> 0%Z -> ~ (0 <= y0 + dy < 1)) ->
  let r := dep_current_split ix iy di dj x0 y0 dx dy qvz vp thread_id in
  let b := (thread_id * 3)%Z in
  (0 <= snd r)%Z /\
  vp_total vp_dx (fst r) b (snd r) = dx /\
  vp_total vp_dy (fst r) b (snd r) = dy /\
  vp_total vp_qvz (fst r) b (snd r) = qvz / 2 /\
  (forall k, (b <= k < b + snd r)%Z ->
     (vp_ix (fst r k) = ix \/ vp_ix (fst r k) = (ix + di)%Z) /\
     (vp_iy (fst r k) = iy \/ vp_iy (fst r k) = (iy + dj)%Z)).
Proof.
  intros Hy r b. subst r. unfold dep_current_split. cbv zeta. fold b.
  pose proof (split_init_slots b ix iy x0 y0 dx dy qvz vp) as W1.
  set (vp1 := split_init ix iy x0 y0 dx dy qvz vp b) in *. clearbody vp1.
  assert (Hwin : forall (n : Z) (P : Z -> Prop),
            (1 <= n <= 3)%Z -> P b -> ((2 <= n)%Z -> P (b + 1)%Z) ->
            ((3 <= n)%Z -> P (b + 2)%Z) -> forall k, (b <= k < b + n)%Z -> P k).
  { intros n P Hn P0 P1 P2 k Hk.
    assert (E : k = b \/ (k = (b + 1)%Z /\ (2 <= n)%Z) \/ (k = (b + 2)%Z /\ (3 <= n)%Z)) by lia.
    destruct E as [-> | [[-> H] | [-> H]]]; auto. }
  destruct (Z.eq_dec di 0) as [Hdi|Hdi]; destruct (Z.eq_dec dj 0) as [Hdj|Hdj].
  - subst di dj. rewrite split_x_none, split_y_none. cbn [fst snd].
    rewrite !vp_total_1. split; [lia|]. split; [|split; [|split]].
    1-3: slots_in W1; cbn; ring.
    apply (Hwin 1%Z); try lia. slots_in W1. cbn. auto.
  - subst di. rewrite split_x_none.
    destruct (split_y_slots_first b dj vp1 _ _ _ Hdj W1) as (vp' & -> & W').
    { cbn. specialize (Hy eq_refl Hdj).
      unfold Rltb, Rleb. destruct (Rlt_dec (y0 + dy) 0), (Rle_dec 1 (y0 + dy)); try reflexivity.
      exfalso. apply Hy. lra. }
    cbn [fst snd]. rewrite !vp_total_2. split; [lia|]. split; [|split; [|split]].
    1-3: slots_in W'; cbn; ring.
    apply (Hwin 2%Z); try lia; intros; slots_in W'; cbn; auto.
  - subst dj.
    destruct (split_x_slots b ix iy di x0 y0 dx dy vp1 1 _ _ _ Hdi W1) as (vp' & -> & W').
    rewrite split_y_none. cbn [fst snd]. change (1 + 1)%Z with 2%Z.
    rewrite !vp_total_2. split; [lia|]. split; [|split; [|split]].
    1-3: slots_in W'; cbn; ring.
    apply (Hwin 2%Z); try lia; intros; slots_in W'; cbn; auto.
  - destruct (split_x_slots b ix iy di x0 y0 dx dy vp1 1 _ _ _ Hdi W1) as (vp2 & -> & W2).
    change (1 + 1)%Z with 2%Z.
    destruct ((vp_y1 (x_old (seg_init ix iy x0 y0 dx dy qvz) di x0 y0 dx dy) <!? f0)
              || (f1 <=!? vp_y1 (x_old (seg_init ix iy x0 y0 dx dy qvz) di x0 y0 dx dy)))
      eqn:Hout.
    + destruct (split_y_slots_both_first b dj vp2 _ _ _ Hdj W2 Hout) as (vp' & -> & W').
      cbn [fst snd]. rewrite !vp_total_3. split; [lia|]. split; [|split; [|split]].
      1-3: slots_in W'; cbn; ring.
      apply (Hwin 3%Z); try lia; intros; slots_in W'; cbn; auto.
    + destruct (split_y_slots_second b dj vp2 _ _ _ Hdj W2 Hout) as (vp' & -> & W').
      cbn [fst snd]. rewrite !vp_total_3. split; [lia|]. split; [|split; [|split]].
      1-3: slots_in W'; cbn; ring.
      apply (Hwin 3%Z); try lia; intros; slots_in W'; cbn; auto.
Qed.

(** Over the real numbers [dep_current_openacc] deposits, summed over
    the grid, the current of the whole step of the particle: [qnx dx] in J.x,
    [qny dy] in J.y and [qvz] in J.z, however the trajectory is split.  The
    cells around (ix, iy), (ix + di, iy), (ix, iy + dj) and (ix + di, iy + dj)
    have to be cells of the grid, and a particle that changes cell in y only
    has to end outside [0, 1) in y. *)
Theorem dep_current_conserves (ix iy di dj : Z) (x0 y0 dx dy qnx qny qvz : R)
  (J : Z -> t_vfld R) (nrow : Z) (vp : Z -> t_vp R) (thread_id lo hi : Z) :
  (di = 0%Z -> dj <> 0%Z -> ~ (0 <= y0 + dy < 1)) ->
  (forall a b, a = 0%Z \/ a = di -> b = 0%Z \/ b = dj ->
               cells_in lo hi nrow (ix + a) (iy + b)) ->
  let J' := fst (dep_current_openacc ix iy di dj x0 y0 dx dy qnx qny qvz J nrow vp thread_id) in
  grid_total vx J' lo hi = grid_total vx J lo hi + qnx * dx /\
  grid_total vy J' lo hi = grid_total vy J lo hi + qny * dy /\
  grid_total vz J' lo hi = grid_total vz J lo hi + qvz.
Proof.
  intros Hy Hcells J'.
  destruct (split_summary ix iy di dj x0 y0 dx dy qvz vp thread_id Hy)
    as (Hn & Sx & Sy & Sz & Hcell).
  assert (T : totals J' lo hi
              = (grid_total vx J lo hi + qnx * dx, grid_total vy J lo hi + qny * dy,
                 grid_total vz J lo hi + qvz)).
  { unfold J', dep_current_openacc. cbv zeta.
    destruct (dep_current_split ix iy di dj x0 y0 dx dy qvz vp thread_id) as [vp' vnp].
    cbn [fst snd] in *. rewrite deposit_loop; try assumption.
    - rewrite Sx, Sy, Sz. now replace (2 * (qvz / 2)) with qvz by field.
    - intros k Hk. destruct (Hcell k Hk) as [[-> | ->] [-> | ->]].
      + replace ix with (ix + 0)%Z by lia. replace iy with (iy + 0)%Z by lia. apply Hcells; auto.
      + replace ix with (ix + 0)%Z by lia. apply Hcells; auto.
      + replace iy with (iy + 0)%Z by lia. apply Hcells; auto.
      + apply Hcells; auto. }
  unfold totals in T. injection T as Tx Ty Tz. repeat split; assumption.
Qed.

End DepositTotal.

Lemma dep_current_conserves_witness :
  let J : Z -> t_vfld R := fun _ => mk_vfld 0%R 0%R 0%R in
  let J' := fst (dep_current_openacc 1 1 1 0 (3 / 4)%R (1 / 2)%R (1 / 2)%R (1 / 4)%R
                   2%R 2%R 1%R J 4 (fun _ => seg_init 0 0 0%R 0%R 0%R 0%R 0%R) 0) in
  grid_total vx J' 0 16 = (grid_total vx J 0 16 + 2 * (1 / 2))%R.
Proof.
  intros J J'.
  refine (proj1 (dep_current_conserves 1 1 1 0 (3 / 4)%R (1 / 2)%R (1 / 2)%R (1 / 4)%R
                   2%R 2%R 1%R J 4 _ 0 0 16 _ _)).
  - intros H. discriminate H.
  - intros a b [-> | ->] [-> | ->]; unfold cells_in; lia.
Defined.

(* ================================================================== *)
(** * Gauss's law in the Yee update of E *)
(* ================================================================== *)

(** The discrete divergence at the node (i,j) of a field on a grid of
    rows of [nrow] cells, times dt:
    dt_dx (F.x[i,j] - F.x[i-1,j]) + dt_dy (F.y[i,j] - F.y[i,j-1]). *)
Definition div_node (A : Z -> t_vfld R) (dt_dx dt_dy : R) (nrow i j : Z) : R :=
  (dt_dx * (vx (A (i + j * nrow)%Z) - vx (A ((i - 1) + j * nrow)%Z))
   + dt_dy * (vy (A (i + j * nrow)%Z) - vy (A (i + (j - 1) * nrow)%Z)))%R.

(** Over the real numbers [yee_e_openacc] changes the discrete
    divergence of E by [-dt] times that of the current, whatever B is: the
    curl of B adds nothing to it.  This holds at the nodes (i,j) with
    1 <= i <= nx[0] and 1 <= j <= nx[1] + 1, whose cell and left and lower
    neighbours are all advanced. *)
Theorem yee_e_continuity (B E J : Z -> t_vfld R) (dt_dx dt_dy dt : R)
  (nrow_e nrow_j nx_0 nx_1 i j : Z) :
  nx_0 < nrow_e -> 1 <= i <= nx_0 -> 1 <= j <= nx_1 + 1 ->
  div_node (yee_e_openacc B E J dt_dx dt_dy dt nrow_e nrow_j nx_0 nx_1) dt_dx dt_dy nrow_e i j
  = (div_node E dt_dx dt_dy nrow_e i j - dt * div_node J dt_dx dt_dy nrow_j i j)%R.
Proof.
  intros Hrow Hi Hj. unfold div_node.
  rewrite (yee_e_openacc_cell B E J dt_dx dt_dy dt nrow_e nrow_j nx_0 nx_1 i j) by lia.
  rewrite (yee_e_openacc_cell B E J dt_dx dt_dy dt nrow_e nrow_j nx_0 nx_1 (i - 1) j) by lia.
  rewrite (yee_e_openacc_cell B E J dt_dx dt_dy dt nrow_e nrow_j nx_0 nx_1 i (j - 1)) by lia.
  unfold E_incremented. cbn [vx vy vz fadd fsub fmul fneg R_scalar].
  replace (i - 1 + (j - 1) * nrow_e) with (i + (j - 1) * nrow_e - 1) by lia.
  replace (i - 1 + j * nrow_e) with (i + j * nrow_e - 1) by lia.
  ring.
Qed.

Lemma yee_e_continuity_witness :
  let B : Z -> t_vfld R := fun k => mk_vfld 0%R 0%R (IZR k) in
  let E : Z -> t_vfld R := fun _ => mk_vfld 0%R 0%R 0%R in
  let J : Z -> t_vfld R := fun k => mk_vfld (IZR k) 0%R 0%R in
  div_node (yee_e_openacc B E J 1%R 1%R 1%R 5 5 2 2) 1%R 1%R 5 1 1
  = (div_node E 1%R 1%R 5 1 1 - 1 * div_node J 1%R 1%R 5 1 1)%R.
Proof.
  intros B E J. apply (yee_e_continuity B E J 1%R 1%R 1%R 5 5 2 2 1 1); lia.
Defined.

(* ================================================================== *)
(** * The tile cache of the particle advance *)
(* ================================================================== *)

Section Interpolation.
Context {F : Type} {SF : Scalar F}.

(** [interpolate_fld_openacc] on the cells around the particle: [e a b]
    is the cell [a] columns and [b] rows from that of the particle. *)
Definition interp_around (e b : Z -> Z -> t_vfld F) (x y : F) : t_vfld F * t_vfld F :=
  let oh := if x <!? fhalf then -1 else 0 in
  let oj := if y <!? fhalf then -1 else 0 in
  let w1h := x +! (if x <!? fhalf then fhalf else fneg fhalf) in
  let w2h := y +! (if y <!? fhalf then fhalf else fneg fhalf) in
  (mk_vfld
     ((vx (e oh 0) *! (f1 -! w1h) +! vx (e (oh + 1) 0) *! w1h) *! (f1 -! y)
      +! (vx (e oh 1) *! (f1 -! w1h) +! vx (e (oh + 1) 1) *! w1h) *! y)
     ((vy (e 0 oj) *! (f1 -! x) +! vy (e 1 oj) *! x) *! (f1 -! w2h)
      +! (vy (e 0 (oj + 1)) *! (f1 -! x) +! vy (e 1 (oj + 1)) *! x) *! w2h)
     ((vz (e 0 0) *! (f1 -! x) +! vz (e 1 0) *! x) *! (f1 -! y)
      +! (vz (e 0 1) *! (f1 -! x) +! vz (e 1 1) *! x) *! y),
   mk_vfld
     ((vx (b 0 oj) *! (f1 -! x) +! vx (b 1 oj) *! x) *! (f1 -! w2h)
      +! (vx (b 0 (oj + 1)) *! (f1 -! x) +! vx (b 1 (oj + 1)) *! x) *! w2h)
     ((vy (b oh 0) *! (f1 -! w1h) +! vy (b (oh + 1) 0) *! w1h) *! (f1 -! y)
      +! (vy (b oh 1) *! (f1 -! w1h) +! vy (b (oh + 1) 1) *! w1h) *! y)
     ((vz (b oh oj) *! (f1 -! w1h) +! vz (b (oh + 1) oj) *! w1h) *! (f1 -! w2h)
      +! (vz (b oh (oj + 1)) *! (f1 -! w1h) +! vz (b (oh + 1) (oj + 1)) *! w1h) *! w2h)).

Lemma interpolate_around (E B : Z -> t_vfld F) nrow ix iy x y :
  interpolate_fld_openacc E B nrow ix iy x y
  = interp_around (fun a b => E (ix + a + (iy + b) * nrow))
      (fun a b => B (ix + a + (iy + b) * nrow)) x y.
Proof.
  unfold interpolate_fld_openacc, interp_around. cbv zeta beta.
  destruct (x <!? fhalf), (y <!? fhalf);
    repeat match goal with
      | |- (_, _) = (_, _) => f_equal
      | |- mk_vfld _ _ _ = mk_vfld _ _ _ => f_equal
      | |- fadd _ _ = fadd _ _ => f_equal
      | |- fmul _ _ = fmul _ _ => f_equal
      | |- vx _ = vx _ => f_equal
      | |- vy _ = vy _ => f_equal
      | |- vz _ = vz _ => f_equal
      | |- E _ = E _ => f_equal; lia
      | |- B _ = B _ => f_equal; lia
      end; reflexivity.
Qed.

Lemma interp_around_ext (e e' b b' : Z -> Z -> t_vfld F) x y :
  (forall p q, -1 <= p <= 1 -> -1 <= q <= 1 -> e p q = e' p q) ->
  (forall p q, -1 <= p <= 1 -> -1 <= q <= 1 -> b p q = b' p q) ->
  interp_around e b x y = interp_around e' b' x y.
Proof.
  intros He Hb. unfold interp_around. cbv zeta.
  destruct (x <!? fhalf), (y <!? fhalf); cbn [Z.add Pos.add Z.pos_sub Z.opp];
    rewrite ?He, ?Hb by lia; reflexivity.
Qed.

End Interpolation.

(** Filling a square array of side [W], row by row. *)
Lemma fill_square {A : Type} (W : Z) (val : Z -> Z -> A) (a0 : Z -> A) i j :
  0 <= i < W -> 0 <= j < W ->
  for_range 0 W (fun j a => for_range 0 W (fun i a => upd a (i + j * W) (val i j)) a) a0
    (i + j * W) = val i j.
Proof.
  intros Hi Hj.
  change (grid_loop (fun _ i j => val i j) W 0 W 0 W a0 (i + j * W) = val i j).
  rewrite grid_loop_cell; try lia; reflexivity.
Qed.

Section TileAdvance.
Context {F : Type} {SF : Scalar F}.
Variables (TILE_SIZE THREAD_BLOCK : Z).
Implicit Types (spec : t_species F) (emf : t_emf F) (cache : t_tile_cache F).

(** The fields a tile caches. *)
Definition load_cache emf cache (tile_x tile_y : Z) : (Z -> t_vfld F) * (Z -> t_vfld F) :=
  for_range 0 (TILE_SIZE + 2) (fun j =>
    for_range 0 (TILE_SIZE + 2) (fun i '(E, B) =>
      let idx_x := tile_x * TILE_SIZE + i - 1 in
      let idx_y := tile_y * TILE_SIZE + j - 1 in
      (upd E (i + j * (TILE_SIZE + 2)) (emf_E emf (idx_x + idx_y * nrow emf)),
       upd B (i + j * (TILE_SIZE + 2)) (emf_B emf (idx_x + idx_y * nrow emf)))))
    (tc_E cache, tc_B cache).

Lemma load_cache_cells emf cache tile_x tile_y i j :
  0 <= i < TILE_SIZE + 2 -> 0 <= j < TILE_SIZE + 2 ->
  fst (load_cache emf cache tile_x tile_y) (i + j * (TILE_SIZE + 2))
  = emf_E emf ((tile_x * TILE_SIZE + i - 1) + (tile_y * TILE_SIZE + j - 1) * nrow emf) /\
  snd (load_cache emf cache tile_x tile_y) (i + j * (TILE_SIZE + 2))
  = emf_B emf ((tile_x * TILE_SIZE + i - 1) + (tile_y * TILE_SIZE + j - 1) * nrow emf).
Proof.
  intros Hi Hj. unfold load_cache. split.
  - rewrite (for_range_map fst 0 (TILE_SIZE + 2) _
               (fun j a => for_range 0 (TILE_SIZE + 2) (fun i a =>
                  upd a (i + j * (TILE_SIZE + 2))
                    (emf_E emf ((tile_x * TILE_SIZE + i - 1)
                                + (tile_y * TILE_SIZE + j - 1) * nrow emf))) a)).
    + cbn [fst]. now rewrite (fill_square (TILE_SIZE + 2)
                     (fun i j => emf_E emf ((tile_x * TILE_SIZE + i - 1)
                                            + (tile_y * TILE_SIZE + j - 1) * nrow emf))).
    + intros j' s Hj'. apply for_range_map. intros i' [E B] Hi'. reflexivity.
  - rewrite (for_range_map snd 0 (TILE_SIZE + 2) _
               (fun j a => for_range 0 (TILE_SIZE + 2) (fun i a =>
                  upd a (i + j * (TILE_SIZE + 2))
                    (emf_B emf ((tile_x * TILE_SIZE + i - 1)
                                + (tile_y * TILE_SIZE + j - 1) * nrow emf))) a)).
    + cbn [snd]. now rewrite (fill_square (TILE_SIZE + 2)
                     (fun i j => emf_B emf ((tile_x * TILE_SIZE + i - 1)
                                            + (tile_y * TILE_SIZE + j - 1) * nrow emf))).
    + intros j' s Hj'. apply for_range_map. intros i' [E B] Hi'. reflexivity.
Qed.

(** A particle of the tile reads from the cache what it would read from
    the grid. *)
Lemma interpolate_cached emf cache tile_x tile_y region_offset ix iy x y :
  tile_x * TILE_SIZE <= ix < tile_x * TILE_SIZE + TILE_SIZE ->
  tile_y * TILE_SIZE <= iy - region_offset < tile_y * TILE_SIZE + TILE_SIZE ->
  interpolate_fld_openacc (fst (load_cache emf cache tile_x tile_y))
    (snd (load_cache emf cache tile_x tile_y)) (TILE_SIZE + 2)
    (ix - (tile_x * TILE_SIZE - 1)) (iy - (tile_y * TILE_SIZE - 1 + region_offset)) x y
  = interpolate_fld_openacc (emf_E emf) (emf_B emf) (nrow emf) (ix - 0) (iy - region_offset) x y.
Proof.
  intros Hx Hy. rewrite !interpolate_around.
  apply interp_around_ext; intros p q Hp Hq; cbv beta.
  - rewrite (proj1 (load_cache_cells emf cache tile_x tile_y
                      (ix - (tile_x * TILE_SIZE - 1) + p)
                      (iy - (tile_y * TILE_SIZE - 1 + region_offset) + q)
                      ltac:(lia) ltac:(lia))).
    f_equal. lia.
  - rewrite (proj2 (load_cache_cells emf cache tile_x tile_y
                      (ix - (tile_x * TILE_SIZE - 1) + p)
                      (iy - (tile_y * TILE_SIZE - 1 + region_offset) + q)
                      ltac:(lia) ltac:(lia))).
    f_equal. lia.
Qed.

(** ... and is advanced as the default kernel advances it. *)
Lemma push_one_cached spec emf cache tile_x tile_y region_offset (p : t_part F) :
  (p_invalid p = false ->
   tile_x * TILE_SIZE <= p_ix p < tile_x * TILE_SIZE + TILE_SIZE /\
   tile_y * TILE_SIZE <= p_iy p - region_offset < tile_y * TILE_SIZE + TILE_SIZE) ->
  push_one spec (fst (load_cache emf cache tile_x tile_y))
    (snd (load_cache emf cache tile_x tile_y)) (TILE_SIZE + 2)
    (tile_x * TILE_SIZE - 1) (tile_y * TILE_SIZE - 1 + region_offset) p
  = push_one spec (emf_E emf) (emf_B emf) (nrow emf) 0 region_offset p.
Proof.
  intros Hin. unfold push_one. destruct (p_invalid p); cbn [negb]; [reflexivity|].
  destruct (Hin eq_refl) as [Hx Hy].
  now rewrite (interpolate_cached emf cache tile_x tile_y region_offset) by assumption.
Qed.

End TileAdvance.

(** A slot below the last offset lies in the range of a tile. *)
Lemma find_tile (off : Z -> Z) (n k : Z) :
  0 <= n -> (forall t, 0 <= t < n -> off t <= off (t + 1)) ->
  off 0 <= k < off n -> exists t, 0 <= t < n /\ off t <= k < off (t + 1).
Proof.
  intros Hn. revert n Hn k. apply (natlike_ind (fun n => forall k, _ -> _ -> _)).
  - intros k _ Hk. lia.
  - intros n Hn IH k Hs Hk. replace (Z.succ n) with (n + 1) in * by lia.
    destruct (Z_lt_ge_dec k (off n)) as [Hlt|Hge].
    + destruct (IH k ltac:(intros t Ht; apply Hs; lia) ltac:(lia)) as (t & Ht & Hin).
      exists t. split; [lia | assumption].
    + exists n. split; lia.
Qed.

Section TileKernel.
Context {F : Type} {SF : Scalar F}.
Variables (TILE_SIZE THREAD_BLOCK : Z).
Implicit Types (spec : t_species F) (emf : t_emf F) (cache : t_tile_cache F)
  (st : t_particle_vector F * (Z -> t_vfld F)).

Lemma advance_tile_slot spec emf ro cache tile_x tile_y st k :
  particle (fst (advance_tile TILE_SIZE THREAD_BLOCK spec emf ro cache tile_x tile_y st)) k
  = if (tile_offset spec (tile_x + tile_y * n_tiles_x spec) <=? k)
       && (k <? tile_offset spec (tile_x + tile_y * n_tiles_x spec + 1))
    then push_one spec (fst (load_cache TILE_SIZE emf cache tile_x tile_y))
           (snd (load_cache TILE_SIZE emf cache tile_x tile_y)) (TILE_SIZE + 2)
           (tile_x * TILE_SIZE - 1) (tile_y * TILE_SIZE - 1 + ro) (particle (fst st) k)
    else particle (fst st) k.
Proof.
  destruct st as [pv cJ]. unfold advance_tile. cbv zeta.
  change (for_range 0 (TILE_SIZE + 2) _ (tc_E cache, tc_B cache))
    with (load_cache TILE_SIZE emf cache tile_x tile_y).
  destruct (load_cache TILE_SIZE emf cache tile_x tile_y) as [El Bl]. cbn [fst snd].
  set (J0 := for_range 0 ((TILE_SIZE + 3) * (TILE_SIZE + 3)) _ (tc_J cache)).
  set (b := tile_offset spec (tile_x + tile_y * n_tiles_x spec)).
  set (e := tile_offset spec (tile_x + tile_y * n_tiles_x spec + 1)).
  pose proof (push_loop_slot spec El Bl (TILE_SIZE + 2) (tile_x * TILE_SIZE - 1)
                (tile_y * TILE_SIZE - 1 + ro) (TILE_SIZE + 3)
                (fun k => Z.rem k THREAD_BLOCK) b e (pv, J0, tc_vp cache) k) as Hin.
  pose proof (push_loop_other spec El Bl (TILE_SIZE + 2) (tile_x * TILE_SIZE - 1)
                (tile_y * TILE_SIZE - 1 + ro) (TILE_SIZE + 3)
                (fun k => Z.rem k THREAD_BLOCK) b e (pv, J0, tc_vp cache) k) as Hout.
  cbv beta in Hin, Hout.
  match type of Hin with context [for_range b e ?body ?s0] =>
    change (for_range b e _ (pv, J0, tc_vp cache)) with (for_range b e body s0);
    destruct (for_range b e body s0) as [[pv' J'] vp']
  end.
  unfold push_pv in Hin, Hout. cbn [fst snd] in Hin, Hout |- *.
  destruct (Z.leb_spec b k), (Z.ltb_spec k e); cbn [andb];
    first [apply Hin; lia | apply Hout; lia].
Qed.

(** The particles after [spec_advance_openacc]. *)
Definition tiles_advanced spec emf ro cache st : t_particle_vector F * (Z -> t_vfld F) :=
  for_range 0 (n_tiles_y spec) (fun tile_y =>
    for_range 0 (n_tiles_x spec) (fun tile_x st =>
      advance_tile TILE_SIZE THREAD_BLOCK spec emf ro cache tile_x tile_y st)) st.

Lemma advance_tiles_vector spec emf current ro cache :
  main_vector (fst (spec_advance_openacc TILE_SIZE THREAD_BLOCK spec emf current ro cache))
  = fst (tiles_advanced spec emf ro cache (main_vector spec, J current)).
Proof.
  unfold spec_advance_openacc, tiles_advanced. cbv zeta.
  destruct (for_range 0 (n_tiles_y spec) _ (main_vector spec, J current)) as [pv cJ].
  reflexivity.
Qed.

Lemma tiles_advanced_hit spec emf ro cache st k tx ty :
  tiles_ok spec -> 0 <= tx < n_tiles_x spec -> 0 <= ty < n_tiles_y spec ->
  tile_offset spec (tx + ty * n_tiles_x spec) <= k
  < tile_offset spec (tx + ty * n_tiles_x spec + 1) ->
  particle (fst (tiles_advanced spec emf ro cache st)) k
  = push_one spec (fst (load_cache TILE_SIZE emf cache tx ty))
      (snd (load_cache TILE_SIZE emf cache tx ty)) (TILE_SIZE + 2)
      (tx * TILE_SIZE - 1) (ty * TILE_SIZE - 1 + ro) (particle (fst st) k).
Proof.
  intros (Hx & Hy & Hs) Htx Hty Hk. unfold tiles_advanced.
  assert (Hmiss : forall tx' ty' s, 0 <= tx' < n_tiles_x spec -> 0 <= ty' < n_tiles_y spec ->
            (tx', ty') <> (tx, ty) ->
            particle (fst (advance_tile TILE_SIZE THREAD_BLOCK spec emf ro cache tx' ty' s)) k
            = particle (fst s) k).
  { intros tx' ty' s Htx' Hty' Hne. rewrite advance_tile_slot.
    destruct (Z.leb_spec (tile_offset spec (tx' + ty' * n_tiles_x spec)) k);
      destruct (Z.ltb_spec k (tile_offset spec (tx' + ty' * n_tiles_x spec + 1)));
      cbn [andb]; try reflexivity.
    exfalso.
    apply (sorted_disjoint (tile_offset spec) (n_tiles_x spec * n_tiles_y spec)
             (tx + ty * n_tiles_x spec) (tx' + ty' * n_tiles_x spec) k); try assumption;
      try nia.
    intros E. apply Hne. assert (ty' = ty) by nia. subst ty'. f_equal. nia. }
  assert (Hrow : forall s,
            particle (fst (for_range 0 (n_tiles_x spec) (fun tile_x st =>
               advance_tile TILE_SIZE THREAD_BLOCK spec emf ro cache tile_x ty st) s)) k
            = push_one spec (fst (load_cache TILE_SIZE emf cache tx ty))
                (snd (load_cache TILE_SIZE emf cache tx ty)) (TILE_SIZE + 2)
                (tx * TILE_SIZE - 1) (ty * TILE_SIZE - 1 + ro) (particle (fst s) k)).
  { intros s.
    rewrite (for_range_hit (fun s => particle (fst s) k) 0 (n_tiles_x spec) tx); try assumption.
    - rewrite advance_tile_slot.
      destruct (Z.leb_spec (tile_offset spec (tx + ty * n_tiles_x spec)) k); [|lia].
      destruct (Z.ltb_spec k (tile_offset spec (tx + ty * n_tiles_x spec + 1))); [|lia].
      reflexivity.
    - intros tx' s' Htx' Hne. apply Hmiss; try assumption. congruence.
    - intros s1 s2 E. rewrite !advance_tile_slot. now rewrite E. }
  rewrite (for_range_hit (fun s => particle (fst s) k) 0 (n_tiles_y spec) ty); try assumption.
  - apply Hrow.
  - intros ty' s' Hty' Hne.
    apply (for_range_inv (fun s => particle (fst s) k = particle (fst s') k)); [reflexivity|].
    intros tx' s1 Htx' IH. rewrite Hmiss; try assumption. congruence.
  - intros s1 s2 E. rewrite !Hrow. now rewrite E.
Qed.

Lemma tiles_advanced_miss spec emf ro cache st k :
  (forall tx ty, 0 <= tx < n_tiles_x spec -> 0 <= ty < n_tiles_y spec ->
     ~ (tile_offset spec (tx + ty * n_tiles_x spec) <= k
        < tile_offset spec (tx + ty * n_tiles_x spec + 1))) ->
  particle (fst (tiles_advanced spec emf ro cache st)) k = particle (fst st) k.
Proof.
  intros Hmiss. unfold tiles_advanced.
  apply (for_range_inv (fun s => particle (fst s) k = particle (fst st) k)); [reflexivity|].
  intros ty s Hty IH.
  apply (for_range_inv (fun s => particle (fst s) k = particle (fst st) k)); [assumption|].
  intros tx s1 Htx IH1. rewrite advance_tile_slot.
  specialize (Hmiss tx ty Htx Hty).
  destruct (Z.leb_spec (tile_offset spec (tx + ty * n_tiles_x spec)) k);
    destruct (Z.ltb_spec k (tile_offset spec (tx + ty * n_tiles_x spec + 1)));
    cbn [andb]; try assumption. lia.
Qed.

End TileKernel.

Section TileEquivalence.
Context {F : Type} {SF : Scalar F}.

Lemma tiles_advanced_size TILE_SIZE THREAD_BLOCK (spec : t_species F) emf ro cache st :
  pv_size (fst (tiles_advanced TILE_SIZE THREAD_BLOCK spec emf ro cache st)) = pv_size (fst st).
Proof.
  unfold tiles_advanced.
  apply (for_range_inv (fun s => pv_size (fst s) = pv_size (fst st))); [reflexivity|].
  intros ty s Hty IH.
  apply (for_range_inv (fun s => pv_size (fst s) = pv_size (fst st))); [assumption|].
  intros tx [pv cJ] Htx IH1. unfold advance_tile. cbv zeta.
  destruct (for_range 0 (TILE_SIZE + 2) _ (tc_E cache, tc_B cache)) as [El Bl].
  set (J0 := for_range 0 ((TILE_SIZE + 3) * (TILE_SIZE + 3)) _ (tc_J cache)).
  pose proof (push_loop_size spec El Bl (TILE_SIZE + 2) (tx * TILE_SIZE - 1)
                (ty * TILE_SIZE - 1 + ro) (TILE_SIZE + 3)
                (fun k => Z.rem k THREAD_BLOCK)
                (tile_offset spec (tx + ty * n_tiles_x spec))
                (tile_offset spec (tx + ty * n_tiles_x spec + 1))
                (pv, J0, tc_vp cache)) as Hsz.
  cbv beta in Hsz.
  match type of Hsz with context [for_range ?b ?e ?body ?s0] =>
    change (for_range b e _ (pv, J0, tc_vp cache)) with (for_range b e body s0);
    destruct (for_range b e body s0) as [[pv' J'] vp']
  end.
  unfold push_pv in Hsz. cbn [fst snd] in Hsz |- *. now rewrite Hsz.
Qed.

(** On a species whose particles are sorted in tiles, the tiled kernel
    [spec_advance_openacc], which reads the fields from the copy of the tile
    and its border, leaves every particle exactly as
    [spec_advance_openacc_default] does, which reads them from the grid;
    the number of particles is the same too. *)
Theorem tile_advance_particles TILE_SIZE THREAD_BLOCK (spec : t_species F) emf current
    limits_y0 cache vp :
  tiles_ok spec ->
  tile_offset spec 0 = 0 ->
  tile_offset spec (n_tiles_x spec * n_tiles_y spec) = pv_size (main_vector spec) ->
  (forall tx ty k, 0 <= tx < n_tiles_x spec -> 0 <= ty < n_tiles_y spec ->
     tile_offset spec (tx + ty * n_tiles_x spec) <= k
     < tile_offset spec (tx + ty * n_tiles_x spec + 1) ->
     pv_invalid (main_vector spec) k = false ->
     tx * TILE_SIZE <= pv_ix (main_vector spec) k < tx * TILE_SIZE + TILE_SIZE /\
     ty * TILE_SIZE <= pv_iy (main_vector spec) k - limits_y0 < ty * TILE_SIZE + TILE_SIZE) ->
  let tiled := fst (spec_advance_openacc TILE_SIZE THREAD_BLOCK spec emf current limits_y0 cache) in
  let plain := fst (spec_advance_openacc_default spec emf current limits_y0 vp) in
  (forall k, particle (main_vector tiled) k = particle (main_vector plain) k) /\
  pv_size (main_vector tiled) = pv_size (main_vector plain).
Proof.
  intros Hok H0 Hn Hin tiled plain. split.
  - intros k. unfold tiled, plain.
    rewrite advance_tiles_vector, advance_default_vector.
    destruct Hok as (Hx & Hy & Hs).
    destruct (Z_lt_ge_dec k 0) as [Hneg|Hpos];
      [|destruct (Z_lt_ge_dec k (pv_size (main_vector spec))) as [Hlt|Hge]].
    + rewrite (push_loop_other spec _ _ _ _ _ _ (fun _ => 0)) by lia.
      rewrite tiles_advanced_miss; [reflexivity|].
      intros tx ty Htx Hty Hk.
      pose proof (Hs 0 (tx + ty * n_tiles_x spec) ltac:(nia) ltac:(nia)). lia.
    + destruct (find_tile (tile_offset spec) (n_tiles_x spec * n_tiles_y spec) k)
        as (t & Ht & Hk); try nia; try lia.
      { intros t Ht. apply Hs; lia. }
      set (tx := t mod n_tiles_x spec). set (ty := t / n_tiles_x spec).
      assert (Et : t = tx + ty * n_tiles_x spec).
      { unfold tx, ty. pose proof (Z.div_mod t (n_tiles_x spec) ltac:(lia)). lia. }
      assert (Htx : 0 <= tx < n_tiles_x spec) by (apply Z.mod_pos_bound; lia).
      assert (Hty : 0 <= ty < n_tiles_y spec).
      { unfold ty. split; [apply Z.div_pos; lia|]. apply Z.div_lt_upper_bound; lia. }
      rewrite Et in Hk.
      rewrite (tiles_advanced_hit TILE_SIZE THREAD_BLOCK spec emf limits_y0 cache _ k tx ty);
        try assumption; [|repeat split; assumption].
      rewrite (push_loop_slot spec _ _ _ _ _ _ (fun _ => 0)) by lia.
      unfold push_pv. cbn [fst snd].
      apply push_one_cached; try assumption.
      intros Hv. apply (Hin tx ty k Htx Hty Hk). exact Hv.
    + rewrite (push_loop_other spec _ _ _ _ _ _ (fun _ => 0)) by lia.
      rewrite tiles_advanced_miss; [reflexivity|].
      intros tx ty Htx Hty Hk.
      pose proof (Hs (tx + ty * n_tiles_x spec + 1) (n_tiles_x spec * n_tiles_y spec)
                    ltac:(nia) ltac:(nia)). lia.
  - unfold tiled, plain. rewrite advance_tiles_vector, advance_default_vector.
    rewrite tiles_advanced_size.
    rewrite (push_loop_size spec _ _ _ _ _ _ (fun _ => 0)). reflexivity.
Qed.

End TileEquivalence.

(** Two particles on a row of two tiles of 2 x 2 cells, one in each tile. *)
Definition pv_two_tiles : t_particle_vector R :=
  mk_part_vector (of_list [1; 2]) (of_list [0; 1]) (fun _ => (1 / 2)%R) (fun _ => (1 / 4)%R)
    (fun _ => (3 / 4)%R) (fun _ => 1%R) (fun _ => 0%R) (fun _ => false) 2 2 true.

Definition species_two_tiles : t_species R :=
  mk_species pv_two_tiles (fun _ => pv_two_tiles) pv_two_tiles pv_two_tiles
    1%R 1%R 4 2 1%R 1%R (1 / 2)%R 0 false 0 2 1
    (fun t => if t <=? 0 then 0 else if t <=? 1 then 1 else 2) (fun _ => 0).

Definition cache_zero : t_tile_cache R :=
  mk_tile_cache (fun _ => mk_vfld 0%R 0%R 0%R) (fun _ => mk_vfld 0%R 0%R 0%R)
    (fun _ => mk_vfld 0%R 0%R 0%R) (fun _ => seg_init 0 0 0%R 0%R 0%R 0%R 0%R).

Lemma tile_advance_particles_witness :
  particle (main_vector (fst (spec_advance_openacc 2 32 species_two_tiles emf_2x2
                                current_guard 0 cache_zero))) 1
  = particle (main_vector (fst (spec_advance_openacc_default species_two_tiles emf_2x2
                                  current_guard 0 (fun _ => seg_init 0 0 0%R 0%R 0%R 0%R 0%R)))) 1.
Proof.
  refine (proj1 (tile_advance_particles 2 32 species_two_tiles emf_2x2 current_guard 0
                   cache_zero (fun _ => seg_init 0 0 0%R 0%R 0%R 0%R 0%R) _ eq_refl eq_refl _) 1).
  - unfold tiles_ok. cbn. split; [lia|]. split; [lia|].
    intros t t' Ht Ht'.
    destruct (Z.leb_spec t 0), (Z.leb_spec t 1), (Z.leb_spec t' 0), (Z.leb_spec t' 1); lia.
  - intros tx ty k Htx Hty. cbn in Htx, Hty.
    assert (ty = 0) by lia. subst ty.
    assert (Ex : tx = 0 \/ tx = 1) by lia.
    destruct Ex as [-> | ->]; intros Hk _; cbn in Hk;
      [assert (k = 0) by lia | assert (k = 1) by lia]; subst k;
      vm_compute; repeat split; congruence.
Defined.

(* ================================================================== *)
(** * The current of the tiled advance *)
(* ================================================================== *)

(** The sum of [g] over [lo, hi). *)
Definition rsum (g : Z -> R) (lo hi : Z) : R :=
  for_range lo hi (fun k acc => (acc + g k)%R) 0%R.

Lemma rsum_empty g lo hi : hi <= lo -> rsum g lo hi = 0%R.
Proof. intros H. unfold rsum. now rewrite for_range_empty. Qed.

Lemma rsum_succ g lo hi : lo <= hi -> rsum g lo (hi + 1) = (rsum g lo hi + g hi)%R.
Proof.
  intros H. unfold rsum. rewrite for_range_last by lia.
  now replace (hi + 1 - 1) with hi by lia.
Qed.

Lemma rsum_split g lo mid hi :
  lo <= mid <= hi -> rsum g lo hi = (rsum g lo mid + rsum g mid hi)%R.
Proof.
  intros H. unfold rsum at 3.
  apply (for_range_ind (fun i acc => rsum g lo i = (rsum g lo mid + acc)%R)); try lia.
  - ring.
  - intros i acc Hi IH. rewrite rsum_succ by lia. rewrite IH. ring.
Qed.

Lemma rsum_ext g g' lo hi :
  (forall k, lo <= k < hi -> g k = g' k) -> rsum g lo hi = rsum g' lo hi.
Proof.
  intros H. unfold rsum. apply for_range_ext. intros k acc Hk. now rewrite H.
Qed.

Lemma rsum_zero g lo hi : (forall k, lo <= k < hi -> g k = 0%R) -> rsum g lo hi = 0%R.
Proof.
  intros H. unfold rsum. apply (for_range_inv (fun acc => acc = 0%R)); [reflexivity|].
  intros k acc Hk ->. rewrite H by assumption. ring.
Qed.

(** A sum whose terms change at [k0] only. *)
Lemma rsum_change g g' lo hi k0 :
  lo <= k0 < hi -> (forall k, lo <= k < hi -> k <> k0 -> g' k = g k) ->
  rsum g' lo hi = (rsum g lo hi + (g' k0 - g k0))%R.
Proof.
  intros Hk H.
  rewrite (rsum_split g' lo k0 hi), (rsum_split g' k0 (k0 + 1) hi) by lia.
  rewrite (rsum_split g lo k0 hi), (rsum_split g k0 (k0 + 1) hi) by lia.
  rewrite (rsum_ext g' g lo k0) by (intros k Hr; apply H; lia).
  rewrite (rsum_ext g' g (k0 + 1) hi) by (intros k Hr; apply H; lia).
  assert (E1 : forall h, rsum h k0 (k0 + 1) = h k0).
  { intros h. rewrite rsum_succ, rsum_empty by lia. ring. }
  rewrite !E1. ring.
Qed.

Section Spill.
Variables (TILE_SIZE tile_x tile_y nrow : Z).
Hypothesis HT : 0 < TILE_SIZE.
Implicit Types (L D G : Z -> t_vfld R) (f : t_vfld R -> R).

(** The cell of the grid that entry (i, j) of the local current of the
    tile is added to. *)
Definition tile_cell (i j : Z) : Z :=
  (tile_x * TILE_SIZE + i - 1) + (tile_y * TILE_SIZE + j - 1) * nrow.

(** The last loop nest of a tile: the local current is added to the grid. *)
Definition scatter L (cJ : Z -> t_vfld R) : Z -> t_vfld R :=
  for_range 0 (TILE_SIZE + 3) (fun j =>
    for_range 0 (TILE_SIZE + 3) (fun i cJ =>
      let idx_x := tile_x * TILE_SIZE + i - 1 in
      let idx_y := tile_y * TILE_SIZE + j - 1 in
      let cJ := add_x cJ (idx_x + idx_y * nrow) (vx (L (i + j * (TILE_SIZE + 3)))) in
      let cJ := add_y cJ (idx_x + idx_y * nrow) (vy (L (i + j * (TILE_SIZE + 3)))) in
      add_z cJ (idx_x + idx_y * nrow) (vz (L (i + j * (TILE_SIZE + 3)))))) cJ.

(** What the local current holds for the cell [c] of the grid. *)
Definition spill_term f L (c j i : Z) : R :=
  if tile_cell i j =? c then f (L (i + j * (TILE_SIZE + 3))) else 0%R.
Definition spill_row f L (c j : Z) : R := rsum (spill_term f L c j) 0 (TILE_SIZE + 3).
Definition spill f L (c : Z) : R := rsum (spill_row f L c) 0 (TILE_SIZE + 3).

Definition flushed G L (c : Z) : t_vfld R :=
  mk_vfld (vx (G c) + spill vx L c)%R (vy (G c) + spill vy L c)%R (vz (G c) + spill vz L c)%R.

Lemma add3_cell (J : Z -> t_vfld R) g (a b d : R) c :
  add_z (add_y (add_x J g a) g b) g d c
  = if g =? c then mk_vfld (vx (J c) + a)%R (vy (J c) + b)%R (vz (J c) + d)%R else J c.
Proof.
  unfold add_z, add_y, add_x, upd_z, upd_y, upd_x.
  destruct (Z.eqb_spec g c) as [->|Hne].
  - rewrite !upd_same. cbn [vx vy vz fadd R_scalar]. reflexivity.
  - now rewrite !upd_other by congruence.
Qed.

Lemma scatter_cell L G c : scatter L G c = flushed G L c.
Proof.
  unfold scatter, flushed, spill.
  apply (for_range_ind (fun j cJ =>
           cJ c = mk_vfld (vx (G c) + rsum (spill_row vx L c) 0 j)%R
                    (vy (G c) + rsum (spill_row vy L c) 0 j)%R
                    (vz (G c) + rsum (spill_row vz L c) 0 j)%R)); try lia.
  - rewrite !rsum_empty by lia. destruct (G c). cbn. f_equal; ring.
  - intros j cJ Hj IH. assert (Es : forall g, rsum g 0 (j + 1) = (rsum g 0 j + g j)%R) by (intros; apply rsum_succ; lia).
    rewrite !Es. unfold spill_row at 2 4 6.
    apply (for_range_ind (fun i cJ' =>
             cJ' c = mk_vfld
               (vx (G c) + (rsum (spill_row vx L c) 0 j + rsum (spill_term vx L c j) 0 i))%R
               (vy (G c) + (rsum (spill_row vy L c) 0 j + rsum (spill_term vy L c j) 0 i))%R
               (vz (G c) + (rsum (spill_row vz L c) 0 j + rsum (spill_term vz L c j) 0 i))%R));
      try lia.
    + assert (E0 : forall g, rsum g 0 0 = 0%R) by (intros; apply rsum_empty; lia).
      rewrite !E0, IH. f_equal; ring.
    + intros i cJ' Hi IH'. cbv zeta. rewrite add3_cell.
      assert (Ei : forall g, rsum g 0 (i + 1) = (rsum g 0 i + g i)%R)
        by (intros; apply rsum_succ; lia).
      rewrite !Ei.
      unfold spill_term at 2 4 6. fold (tile_cell i j). destruct (Z.eqb_spec (tile_cell i j) c) as [E|Hne].
      * rewrite IH'. cbn [vx vy vz]. f_equal; ring.
      * rewrite IH'. f_equal; ring.
Qed.

Lemma spill_upd f L i0 j0 v c :
  0 <= i0 < TILE_SIZE + 3 -> 0 <= j0 < TILE_SIZE + 3 ->
  spill f (upd L (i0 + j0 * (TILE_SIZE + 3)) v) c
  = (spill f L c
     + (if (tile_cell i0 j0 =? c)%Z
        then f v - f (L (i0 + j0 * (TILE_SIZE + 3))%Z) else 0))%R.
Proof.
  intros Hi Hj. unfold spill.
  rewrite (rsum_change (spill_row f L c) _ 0 (TILE_SIZE + 3) j0 Hj).
  - f_equal. unfold spill_row.
    rewrite (rsum_change (spill_term f L c j0) _ 0 (TILE_SIZE + 3) i0 Hi).
    + unfold spill_term. rewrite upd_same. destruct (tile_cell i0 j0 =? c); ring.
    + intros i Hr Hne. unfold spill_term. rewrite upd_other by lia. reflexivity.
  - intros j Hr Hne. unfold spill_row. apply rsum_ext. intros i Hir.
    unfold spill_term. rewrite upd_other by nia. reflexivity.
Qed.

(** The grid of the default kernel holds what the grid and the local
    current of the tiled kernel hold together. *)
Definition merged L D G : Prop := forall c, D c = flushed G L c.

Lemma merged_upd L D G (l g i0 j0 : Z) (vl vd : t_vfld R) :
  l = i0 + j0 * (TILE_SIZE + 3) -> g = tile_cell i0 j0 ->
  0 <= i0 < TILE_SIZE + 3 -> 0 <= j0 < TILE_SIZE + 3 ->
  (vx vd - vx (D g) = vx vl - vx (L l))%R ->
  (vy vd - vy (D g) = vy vl - vy (L l))%R ->
  (vz vd - vz (D g) = vz vl - vz (L l))%R ->
  merged L D G -> merged (upd L l vl) (upd D g vd) G.
Proof.
  intros -> -> Hi Hj Ex Ey Ez H c. unfold flushed. rewrite !spill_upd by assumption.
  pose proof (H (tile_cell i0 j0)) as Hg. unfold flushed in Hg.
  destruct (Z.eqb_spec (tile_cell i0 j0) c) as [<-|Hne].
  - rewrite upd_same. rewrite Hg in Ex, Ey, Ez. cbn [vx vy vz] in Ex, Ey, Ez.
    destruct vd as [dx dy dz]. cbn [vx vy vz] in *. f_equal; lra.
  - rewrite upd_other by congruence. rewrite (H c). unfold flushed. f_equal; ring.
Qed.

Lemma merged_add_x L D G l g i0 j0 (v : R) :
  l = i0 + j0 * (TILE_SIZE + 3) -> g = tile_cell i0 j0 ->
  0 <= i0 < TILE_SIZE + 3 -> 0 <= j0 < TILE_SIZE + 3 ->
  merged L D G -> merged (add_x L l v) (add_x D g v) G.
Proof.
  intros El Eg Hi Hj H. unfold add_x, upd_x.
  apply (merged_upd L D G l g i0 j0); try assumption;
    cbn [vx vy vz fadd R_scalar]; ring.
Qed.

Lemma merged_add_y L D G l g i0 j0 (v : R) :
  l = i0 + j0 * (TILE_SIZE + 3) -> g = tile_cell i0 j0 ->
  0 <= i0 < TILE_SIZE + 3 -> 0 <= j0 < TILE_SIZE + 3 ->
  merged L D G -> merged (add_y L l v) (add_y D g v) G.
Proof.
  intros El Eg Hi Hj H. unfold add_y, upd_y.
  apply (merged_upd L D G l g i0 j0); try assumption;
    cbn [vx vy vz fadd R_scalar]; ring.
Qed.

Lemma merged_add_z L D G l g i0 j0 (v : R) :
  l = i0 + j0 * (TILE_SIZE + 3) -> g = tile_cell i0 j0 ->
  0 <= i0 < TILE_SIZE + 3 -> 0 <= j0 < TILE_SIZE + 3 ->
  merged L D G -> merged (add_z L l v) (add_z D g v) G.
Proof.
  intros El Eg Hi Hj H. unfold add_z, upd_z.
  apply (merged_upd L D G l g i0 j0); try assumption;
    cbn [vx vy vz fadd R_scalar]; ring.
Qed.

End Spill.

Section SplitShift.
Context {F : Type} {SF : Scalar F}.

(** A virtual particle with its cell counted from another corner. *)
Definition shifted (a c : Z) (s : t_vp F) : t_vp F :=
  mk_vp (vp_x0 s) (vp_x1 s) (vp_y0 s) (vp_y1 s) (vp_dx s) (vp_dy s) (vp_qvz s)
    (vp_ix s + a) (vp_iy s + c).

Ltac slot_fields :=
  unfold shifted, y_new, y_old, y_shift, x_new, x_old, seg_init;
  cbn [vp_x0 vp_x1 vp_y0 vp_y1 vp_dx vp_dy vp_qvz vp_ix vp_iy].

Ltac same_slot Wl Wg :=
  rewrite ?Z.add_0_r;
  rewrite ?(holds_0 _ _ _ _ _ Wl), ?(holds_1 _ _ _ _ _ Wl), ?(holds_2 _ _ _ _ _ Wl);
  rewrite ?(holds_0 _ _ _ _ _ Wg), ?(holds_1 _ _ _ _ _ Wg), ?(holds_2 _ _ _ _ _ Wg);
  slot_fields;
  split; [f_equal; lia | split; [auto | auto]].

(** The split does not look at the cell of the particle, nor at what the
    scratch array held: counted from another corner, and in another window
    of another array, it gives the same virtual particles. *)
Lemma split_shifted (ix iy di dj : Z) (x0 y0 dx dy qvz : F) (vp vp' : Z -> t_vp F)
  (tid tid' a c : Z) :
  (di = 0 -> dj <> 0 -> (y0 +! dy <!? f0) || (f1 <=!? y0 +! dy) = true) ->
  let r := dep_current_split ix iy di dj x0 y0 dx dy qvz vp tid in
  let r' := dep_current_split (ix + a) (iy + c) di dj x0 y0 dx dy qvz vp' tid' in
  snd r' = snd r /\ 1 <= snd r <= 3 /\
  forall k, 0 <= k < snd r ->
    fst r' (tid' * 3 + k) = shifted a c (fst r (tid * 3 + k)) /\
    (vp_ix (fst r (tid * 3 + k)) = ix \/ vp_ix (fst r (tid * 3 + k)) = ix + di) /\
    (vp_iy (fst r (tid * 3 + k)) = iy \/ vp_iy (fst r (tid * 3 + k)) = iy + dj).
Proof.
  intros Hy r r'. subst r r'. unfold dep_current_split. cbv zeta.
  set (b := tid * 3). set (b' := tid' * 3).
  pose proof (split_init_slots b ix iy x0 y0 dx dy qvz vp) as W1.
  pose proof (split_init_slots b' (ix + a) (iy + c) x0 y0 dx dy qvz vp') as V1.
  set (vp1 := split_init ix iy x0 y0 dx dy qvz vp b) in *. clearbody vp1.
  set (vq1 := split_init (ix + a) (iy + c) x0 y0 dx dy qvz vp' b') in *. clearbody vq1.
  assert (Hwin : forall (n : Z) (P : Z -> Prop),
            1 <= n <= 3 -> P 0 -> (2 <= n -> P 1) -> (3 <= n -> P 2) ->
            forall k, 0 <= k < n -> P k).
  { intros n P Hn P0 P1 P2 k Hk.
    assert (E : k = 0 \/ (k = 1 /\ 2 <= n) \/ (k = 2 /\ 3 <= n)) by lia.
    destruct E as [-> | [[-> H] | [-> H]]]; auto. }
  destruct (Z.eq_dec di 0) as [Hdi|Hdi]; destruct (Z.eq_dec dj 0) as [Hdj|Hdj].
  - subst di dj. rewrite !split_x_none, !split_y_none. cbn [fst snd].
    split; [reflexivity|]. split; [lia|].
    apply (Hwin 1); try lia. same_slot W1 V1.
  - specialize (Hy Hdi Hdj). subst di. rewrite !split_x_none.
    destruct (split_y_slots_first b dj vp1 _ _ _ Hdj W1) as (vp2 & -> & W2); [exact Hy|].
    destruct (split_y_slots_first b' dj vq1 _ _ _ Hdj V1) as (vq2 & -> & V2); [exact Hy|].
    cbn [fst snd]. split; [reflexivity|]. split; [lia|].
    apply (Hwin 2); try lia; intros; same_slot W2 V2.
  - subst dj.
    destruct (split_x_slots b ix iy di x0 y0 dx dy vp1 1 _ _ _ Hdi W1) as (vp2 & -> & W2).
    destruct (split_x_slots b' (ix + a) (iy + c) di x0 y0 dx dy vq1 1 _ _ _ Hdi V1)
      as (vq2 & -> & V2).
    rewrite !split_y_none. cbn [fst snd]. change (1 + 1) with 2.
    split; [reflexivity|]. split; [lia|].
    apply (Hwin 2); try lia; intros; same_slot W2 V2.
  - destruct (split_x_slots b ix iy di x0 y0 dx dy vp1 1 _ _ _ Hdi W1) as (vp2 & -> & W2).
    destruct (split_x_slots b' (ix + a) (iy + c) di x0 y0 dx dy vq1 1 _ _ _ Hdi V1)
      as (vq2 & -> & V2).
    change (1 + 1) with 2.
    destruct ((vp_y1 (x_old (seg_init ix iy x0 y0 dx dy qvz) di x0 y0 dx dy) <!? f0)
              || (f1 <=!? vp_y1 (x_old (seg_init ix iy x0 y0 dx dy qvz) di x0 y0 dx dy)))
      eqn:Hout.
    + destruct (split_y_slots_both_first b dj vp2 _ _ _ Hdj W2 Hout) as (vp3 & -> & W3).
      destruct (split_y_slots_both_first b' dj vq2 _ _ _ Hdj V2 Hout) as (vq3 & -> & V3).
      cbn [fst snd]. split; [reflexivity|]. split; [lia|].
      apply (Hwin 3); try lia; intros; same_slot W3 V3.
    + destruct (split_y_slots_second b dj vp2 _ _ _ Hdj W2 Hout) as (vp3 & -> & W3).
      destruct (split_y_slots_second b' dj vq2 _ _ _ Hdj V2 Hout) as (vq3 & -> & V3).
      cbn [fst snd]. split; [reflexivity|]. split; [lia|].
      apply (Hwin 3); try lia; intros; same_slot W3 V3.
Qed.

End SplitShift.

Section TileDeposit.
Variables (TILE_SIZE tile_x tile_y nrow : Z).
Hypothesis HT : 0 < TILE_SIZE.
Implicit Types (L D G : Z -> t_vfld R).

(** One virtual particle, deposited in the local current by the tiled
    kernel and in the grid by the default kernel. *)
Lemma merged_dep_vp (qnx qny : R) L D G (s : t_vp R) :
  0 <= vp_ix s -> vp_ix s + 1 < TILE_SIZE + 3 ->
  0 <= vp_iy s -> vp_iy s + 1 < TILE_SIZE + 3 ->
  merged TILE_SIZE tile_x tile_y nrow L D G ->
  merged TILE_SIZE tile_x tile_y nrow (dep_current_vp qnx qny (TILE_SIZE + 3) s L)
    (dep_current_vp qnx qny nrow
       (shifted (tile_x * TILE_SIZE - 1) (tile_y * TILE_SIZE - 1) s) D) G.
Proof.
  intros Hx0 Hx1 Hy0 Hy1 H.
  cbv beta zeta delta [dep_current_vp seq].
  cbn [shifted vp_x0 vp_x1 vp_y0 vp_y1 vp_dx vp_dy vp_qvz vp_ix vp_iy].
  apply merged_add_z with (i0 := vp_ix s + 1) (j0 := vp_iy s + 1);
    [exact HT | lia | unfold tile_cell; lia | lia | lia |].
  apply merged_add_z with (i0 := vp_ix s) (j0 := vp_iy s + 1);
    [exact HT | lia | unfold tile_cell; lia | lia | lia |].
  apply merged_add_z with (i0 := vp_ix s + 1) (j0 := vp_iy s);
    [exact HT | lia | unfold tile_cell; lia | lia | lia |].
  apply merged_add_z with (i0 := vp_ix s) (j0 := vp_iy s);
    [exact HT | lia | unfold tile_cell; lia | lia | lia |].
  apply merged_add_y with (i0 := vp_ix s + 1) (j0 := vp_iy s);
    [exact HT | lia | unfold tile_cell; lia | lia | lia |].
  apply merged_add_y with (i0 := vp_ix s) (j0 := vp_iy s);
    [exact HT | lia | unfold tile_cell; lia | lia | lia |].
  apply merged_add_x with (i0 := vp_ix s) (j0 := vp_iy s + 1);
    [exact HT | lia | unfold tile_cell; lia | lia | lia |].
  apply merged_add_x with (i0 := vp_ix s) (j0 := vp_iy s);
    [exact HT | lia | unfold tile_cell; lia | lia | lia |].
  exact H.
Qed.

(** The deposit of a particle of the tile, in the local current and in
    the grid. *)
Lemma merged_dep_current (ix iy di dj : Z) (x0 y0 dx dy qnx qny qvz : R) L D G
  (vp vp' : Z -> t_vp R) (tid tid' : Z) :
  1 <= ix <= TILE_SIZE -> 1 <= iy <= TILE_SIZE -> -1 <= di <= 1 -> -1 <= dj <= 1 ->
  (di = 0 -> dj <> 0 -> (y0 +! dy <!? f0) || (f1 <=!? y0 +! dy) = true) ->
  merged TILE_SIZE tile_x tile_y nrow L D G ->
  merged TILE_SIZE tile_x tile_y nrow
    (fst (dep_current_openacc ix iy di dj x0 y0 dx dy qnx qny qvz L (TILE_SIZE + 3) vp tid))
    (fst (dep_current_openacc (ix + (tile_x * TILE_SIZE - 1)) (iy + (tile_y * TILE_SIZE - 1))
            di dj x0 y0 dx dy qnx qny qvz D nrow vp' tid')) G.
Proof.
  intros Hix Hiy Hdi Hdj Hy H. unfold dep_current_openacc. cbv zeta.
  destruct (split_shifted ix iy di dj x0 y0 dx dy qvz vp vp' tid tid'
              (tile_x * TILE_SIZE - 1) (tile_y * TILE_SIZE - 1) Hy) as (En & Hn & Hs).
  destruct (dep_current_split ix iy di dj x0 y0 dx dy qvz vp tid) as [vl n].
  destruct (dep_current_split (ix + (tile_x * TILE_SIZE - 1)) (iy + (tile_y * TILE_SIZE - 1))
              di dj x0 y0 dx dy qvz vp' tid') as [vg n'].
  cbn [fst snd] in *. subst n'.
  apply (for_range_pair (fun _ a d => merged TILE_SIZE tile_x tile_y nrow a d G)
           (fun k J => dep_current_vp qnx qny (TILE_SIZE + 3) (vl k) J)
           (fun k J => dep_current_vp qnx qny nrow (vg k) J)); [lia | exact H |].
  intros k La Da Hk Hm. destruct (Hs k Hk) as (E & Hvx & Hvy). rewrite E.
  apply merged_dep_vp; try assumption; lia.
Qed.

End TileDeposit.

Lemma LTRIM_range (v : R) : -1 <= LTRIM v <= 1.
Proof. unfold LTRIM. destruct (v <!? f0), (f1 <=!? v); lia. Qed.

Lemma LTRIM_outside (v : R) : LTRIM v <> 0 -> (v <!? f0) || (f1 <=!? v) = true.
Proof. unfold LTRIM. destruct (v <!? f0), (f1 <=!? v); cbn; congruence. Qed.

Section TilePush.
Variables (TILE_SIZE THREAD_BLOCK : Z).
Hypothesis HT : 0 < TILE_SIZE.
Variables (spec : t_species R) (emf : t_emf R) (cache : t_tile_cache R).
Variables (tile_x tile_y region_offset : Z).
Implicit Types (L D G : Z -> t_vfld R) (pv : t_particle_vector R).

(** The particle is in the cells of the tile (or is marked invalid). *)
Definition in_tile_cells pv (k : Z) : Prop :=
  pv_invalid pv k = false ->
  tile_x * TILE_SIZE <= pv_ix pv k < tile_x * TILE_SIZE + TILE_SIZE /\
  tile_y * TILE_SIZE <= pv_iy pv k - region_offset < tile_y * TILE_SIZE + TILE_SIZE.

(** The body of the particle loop in the tiled and in the default kernel. *)
Definition push_tiled (tid k : Z) (st : t_push R) : t_push R :=
  push_particle spec (fst (load_cache TILE_SIZE emf cache tile_x tile_y))
    (snd (load_cache TILE_SIZE emf cache tile_x tile_y)) (TILE_SIZE + 2)
    (tile_x * TILE_SIZE - 1) (tile_y * TILE_SIZE - 1 + region_offset)
    (TILE_SIZE + 3) tid k st.

Definition push_default (k : Z) (st : t_push R) : t_push R :=
  push_particle spec (emf_E emf) (emf_B emf) (nrow emf) 0 region_offset (nrow emf) 0 k st.

(** The two kernels on the same particles: the particles stay the same,
    and the grid of the default kernel stays the grid and the local current
    of the tiled kernel together. *)
Definition together G (sl sg : t_push R) : Prop :=
  push_pv sl = push_pv sg /\
  merged TILE_SIZE tile_x tile_y (nrow emf) (snd (fst sl)) (snd (fst sg)) G.

Lemma together_push G tid k (sl sg : t_push R) :
  in_tile_cells (push_pv sl) k -> together G sl sg ->
  together G (push_tiled tid k sl) (push_default k sg).
Proof.
  destruct sl as [[pv L] vl], sg as [[pv' D] vg]. unfold together, push_pv. cbn [fst snd].
  intros Hin [<- Hm]. unfold push_tiled, push_default, push_particle.
  destruct (pv_invalid pv k) eqn:Hinv; cbn [negb].
  - cbn [fst snd]. split; [reflexivity | exact Hm].
  - destruct (Hin Hinv) as [Hx Hy]. cbv zeta.
    rewrite (interpolate_cached TILE_SIZE emf cache tile_x tile_y region_offset) by assumption.
    destruct (interpolate_fld_openacc (emf_E emf) (emf_B emf) (nrow emf) (pv_ix pv k - 0)
                (pv_iy pv k - region_offset) (pv_x pv k) (pv_y pv k)) as [Ep Bp].
    set (u := advance_part_velocity _ Ep Bp _).
    set (rg := f1 /! fsqrt _).
    set (dx := sp_dt spec /! sp_dx0 spec *! rg *! u_x u).
    set (dy := sp_dt spec /! sp_dx1 spec *! rg *! u_y u).
    set (di := LTRIM (pv_x pv k +! dx)).
    set (dj := LTRIM (pv_y pv k +! dy)).
    replace (pv_ix pv k - 0)
      with (pv_ix pv k - (tile_x * TILE_SIZE - 1) + (tile_x * TILE_SIZE - 1)) by lia.
    replace (pv_iy pv k - region_offset)
      with (pv_iy pv k - (tile_y * TILE_SIZE - 1 + region_offset) + (tile_y * TILE_SIZE - 1))
      by lia.
    match goal with
    | |- context [dep_current_openacc ?a ?b di dj ?x ?y dx dy ?qx ?qy ?qz L ?w vl tid] =>
        pose proof (merged_dep_current TILE_SIZE tile_x tile_y (nrow emf) HT
                      a b di dj x y dx dy qx qy qz L D G vl vg tid 0
                      ltac:(lia) ltac:(lia) (LTRIM_range _) (LTRIM_range _)
                      ltac:(intros _ Hd; now apply LTRIM_outside) Hm) as Hm';
        destruct (dep_current_openacc a b di dj x y dx dy qx qy qz L w vl tid) as [L' vl']
    end.
    match type of Hm' with
    | context [dep_current_openacc ?a ?b ?c ?d ?e ?f ?g ?h ?i ?j ?l ?m ?n ?o ?p] =>
        destruct (dep_current_openacc a b c d e f g h i j l m n o p) as [D' vg']
    end.
    cbn [fst snd] in *. split; [reflexivity | exact Hm'].
Qed.

End TilePush.

Section TileCurrent.
Variables (TILE_SIZE THREAD_BLOCK : Z).
Hypothesis HT : 0 < TILE_SIZE.
Variables (spec : t_species R) (emf : t_emf R) (cache : t_tile_cache R).
Variable region_offset : Z.
Implicit Types (L D G : Z -> t_vfld R) (pv : t_particle_vector R).

(** The local current of a tile starts at zero. *)
Lemma local_current_reset (J : Z -> t_vfld R) (n l : Z) :
  0 <= l < n ->
  for_range 0 n (fun i J =>
    let J := upd_x J i f0 in
    let J := upd_y J i f0 in
    upd_z J i f0) J l = mk_vfld 0%R 0%R 0%R.
Proof.
  intros Hl.
  rewrite (for_range_hit (fun J => J l) 0 n l); try assumption.
  - cbv zeta. unfold upd_z, upd_y, upd_x. rewrite !upd_same. reflexivity.
  - intros i J' Hi Hne. cbv zeta. unfold upd_z, upd_y, upd_x. now rewrite !upd_other by lia.
  - intros J1 J2 _. cbv zeta. unfold upd_z, upd_y, upd_x. now rewrite !upd_same.
Qed.

Lemma merged_reset tile_x tile_y L D G :
  (forall l, 0 <= l < (TILE_SIZE + 3) * (TILE_SIZE + 3) -> L l = mk_vfld 0%R 0%R 0%R) ->
  (forall c, D c = G c) ->
  merged TILE_SIZE tile_x tile_y (nrow emf) L D G.
Proof.
  intros HL HD c. rewrite HD. unfold flushed.
  assert (Hz : forall f, f (mk_vfld 0%R 0%R 0%R) = 0%R ->
            spill TILE_SIZE tile_x tile_y (nrow emf) f L c = 0%R).
  { intros f Hf. unfold spill. apply rsum_zero. intros j Hj.
    unfold spill_row. apply rsum_zero. intros i Hi. unfold spill_term.
    rewrite HL by nia. rewrite Hf. now destruct (_ =? c). }
  rewrite !Hz by reflexivity. destruct (G c). cbn. f_equal; ring.
Qed.

(** One tile of the tiled kernel, and the default kernel on the particles
    of the tile. *)
Lemma tile_step tile_x tile_y pv G D (vg : Z -> t_vp R) :
  let b := tile_offset spec (tile_x + tile_y * n_tiles_x spec) in
  let e := tile_offset spec (tile_x + tile_y * n_tiles_x spec + 1) in
  b <= e ->
  (forall k, b <= k < e -> in_tile_cells TILE_SIZE tile_x tile_y region_offset pv k) ->
  (forall c, D c = G c) ->
  let st := advance_tile TILE_SIZE THREAD_BLOCK spec emf region_offset cache tile_x tile_y
              (pv, G) in
  let sg := for_range b e (push_default spec emf region_offset) (pv, D, vg) in
  fst st = push_pv sg /\ forall c, snd st c = snd (fst sg) c.
Proof.
  intros b e Hbe Hin HD st sg. subst st sg. unfold advance_tile. cbv zeta.
  change (for_range 0 (TILE_SIZE + 2) _ (tc_E cache, tc_B cache))
    with (load_cache TILE_SIZE emf cache tile_x tile_y).
  fold b. fold e.
  set (L0 := for_range 0 ((TILE_SIZE + 3) * (TILE_SIZE + 3)) _ (tc_J cache)).
  set (P := fun (k : Z) (sl sg : t_push R) =>
       together TILE_SIZE emf tile_x tile_y G sl sg /\
       forall j, b + k <= j -> particle (push_pv sl) j = particle pv j).
  assert (Hpair : P (e - b)
      (for_range b (b + (e - b))
         (fun k st => push_tiled TILE_SIZE spec emf cache tile_x tile_y region_offset
                        (Z.rem k THREAD_BLOCK) k st) (pv, L0, tc_vp cache))
      (for_range b (b + (e - b)) (push_default spec emf region_offset) (pv, D, vg))).
  { apply (for_range_pair P); [lia | |].
    - split; [|reflexivity]. split; [reflexivity|]. cbn [fst snd].
      apply merged_reset; [|exact HD]. intros l Hl. unfold L0.
      now apply local_current_reset.
    - intros k sl sg Hk [Htog Hrest]. split.
      + apply together_push; try assumption.
        intros Hv. pose proof (Hrest (b + k) ltac:(lia)) as E.
        pose proof (f_equal p_ix E) as Eix. pose proof (f_equal p_iy E) as Eiy.
        pose proof (f_equal p_invalid E) as Einv.
        cbn [particle p_ix p_iy p_invalid] in Eix, Eiy, Einv.
        rewrite Eix, Eiy. apply (Hin (b + k)); [lia|]. now rewrite <- Einv.
      + intros j Hj. unfold push_tiled. rewrite push_particle_other by lia.
        apply Hrest. lia. }
  unfold P in Hpair. replace (b + (e - b)) with e in Hpair by lia.
  destruct Hpair as [[Hpv Hm] _]. unfold push_tiled in Hpv, Hm.
  destruct (load_cache TILE_SIZE emf cache tile_x tile_y) as [El Bl]. cbn [fst snd] in Hpv, Hm.
  match type of Hpv with context [for_range b e ?body ?s0] =>
    change (for_range b e _ (pv, L0, tc_vp cache)) with (for_range b e body s0);
    destruct (for_range b e body s0) as [[pvl Lf] vl]
  end.
  unfold push_pv in Hpv. cbn [fst snd] in Hpv, Hm |- *.
  split; [exact Hpv|]. intros c.
  change (scatter TILE_SIZE tile_x tile_y (nrow emf) Lf G c
          = snd (fst (for_range b e (push_default spec emf region_offset) (pv, D, vg))) c).
  rewrite scatter_cell by assumption. symmetry. apply Hm.
Qed.

End TileCurrent.

Lemma advance_tiles_current TILE_SIZE THREAD_BLOCK (spec : t_species R) emf current ro cache :
  J (snd (spec_advance_openacc TILE_SIZE THREAD_BLOCK spec emf current ro cache))
  = snd (tiles_advanced TILE_SIZE THREAD_BLOCK spec emf ro cache (main_vector spec, J current)).
Proof.
  unfold spec_advance_openacc, tiles_advanced. cbv zeta.
  destruct (for_range 0 (n_tiles_y spec) _ (main_vector spec, J current)) as [pv cJ].
  reflexivity.
Qed.

Lemma advance_default_current (spec : t_species R) emf current ro vp :
  J (snd (spec_advance_openacc_default spec emf current ro vp))
  = snd (fst (for_range 0 (pv_size (main_vector spec)) (push_default spec emf ro)
                (main_vector spec, J current, vp))).
Proof.
  unfold spec_advance_openacc_default, push_default. cbv zeta.
  destruct (for_range 0 (pv_size (main_vector spec)) _ _) as [[pv Jc] v]. reflexivity.
Qed.

(** Over the real numbers, on a species whose particles are sorted in
    tiles, the tiled kernel [spec_advance_openacc], which deposits in a
    local current per tile and adds it to the grid at the end of the tile,
    leaves in every cell of the grid the current that
    [spec_advance_openacc_default] leaves there, which deposits in the grid
    directly; the particles are the same too. *)
Theorem tile_advance_current TILE_SIZE THREAD_BLOCK (spec : t_species R) emf current
    limits_y0 cache vp :
  0 < TILE_SIZE -> tiles_ok spec ->
  tile_offset spec 0 = 0 ->
  tile_offset spec (n_tiles_x spec * n_tiles_y spec) = pv_size (main_vector spec) ->
  (forall tx ty k, 0 <= tx < n_tiles_x spec -> 0 <= ty < n_tiles_y spec ->
     tile_offset spec (tx + ty * n_tiles_x spec) <= k
     < tile_offset spec (tx + ty * n_tiles_x spec + 1) ->
     pv_invalid (main_vector spec) k = false ->
     tx * TILE_SIZE <= pv_ix (main_vector spec) k < tx * TILE_SIZE + TILE_SIZE /\
     ty * TILE_SIZE <= pv_iy (main_vector spec) k - limits_y0 < ty * TILE_SIZE + TILE_SIZE) ->
  let tiled := spec_advance_openacc TILE_SIZE THREAD_BLOCK spec emf current limits_y0 cache in
  let plain := spec_advance_openacc_default spec emf current limits_y0 vp in
  (forall c, J (snd tiled) c = J (snd plain) c) /\
  main_vector (fst tiled) = main_vector (fst plain).
Proof.
  intros HT (Hx & Hy & Hs) H0 Hn Hin tiled plain. subst tiled plain.
  rewrite advance_tiles_current, advance_default_current.
  rewrite advance_tiles_vector, advance_default_vector.
  set (off := tile_offset spec) in *. set (ntx := n_tiles_x spec) in *.
  set (nty := n_tiles_y spec) in *.
  set (s0 := (main_vector spec, J current, vp)).
  set (I := fun (t : Z) (st : t_particle_vector R * (Z -> t_vfld R)) =>
              let sg := for_range 0 (off t) (push_default spec emf limits_y0) s0 in
              fst st = push_pv sg /\ forall c, snd st c = snd (fst sg) c).
  assert (Hoff : forall t, 0 <= t <= ntx * nty -> 0 <= off t).
  { intros t Ht. rewrite <- H0. apply Hs; lia. }
  assert (Hall : I (ntx * nty)
                   (tiles_advanced TILE_SIZE THREAD_BLOCK spec emf limits_y0 cache
                      (main_vector spec, J current))).
  { unfold tiles_advanced. fold ntx. fold nty.
    replace (ntx * nty) with (nty * ntx) by lia.
    apply (for_range_ind (fun ty st => I (ty * ntx) st)); [lia | |].
    - unfold I. cbv zeta. change (0 * ntx) with 0. rewrite H0.
      rewrite for_range_empty by lia. split; reflexivity.
    - intros ty st Hty IHy.
      replace ((ty + 1) * ntx) with (ntx + ty * ntx) by lia.
      apply (for_range_ind (fun tx st => I (tx + ty * ntx) st)); [lia | exact IHy |].
      intros tx [pv G] Htx IHx.
      replace (tx + 1 + ty * ntx) with (tx + ty * ntx + 1) by lia.
      set (t := tx + ty * ntx) in *.
      assert (Ht : 0 <= t < ntx * nty) by (unfold t; nia).
      unfold I in IHx |- *. cbv zeta in IHx |- *.
      rewrite (for_range_split 0 (off t) (off (t + 1)))
        by (split; [apply Hoff; lia | apply Hs; lia]).
      assert (Hrest : forall k, off t <= k ->
                particle (push_pv (for_range 0 (off t) (push_default spec emf limits_y0) s0)) k
                = particle (main_vector spec) k).
      { intros k Hk. unfold push_default.
        rewrite (push_loop_other spec _ _ _ _ _ _ (fun _ => 0)) by lia. reflexivity. }
      destruct (for_range 0 (off t) (push_default spec emf limits_y0) s0) as [[pvd D] vg].
      unfold push_pv in IHx, Hrest. cbn [fst snd] in IHx, Hrest. destruct IHx as [-> HG].
      apply (tile_step TILE_SIZE THREAD_BLOCK HT spec emf cache limits_y0 tx ty pvd G D vg).
      + apply Hs; unfold t in *; fold ntx; lia.
      + intros k Hk Hv. fold ntx in Hk. fold t in Hk. fold off in Hk.
        pose proof (Hrest k ltac:(lia)) as E.
        pose proof (f_equal p_ix E) as Eix. pose proof (f_equal p_iy E) as Eiy.
        pose proof (f_equal p_invalid E) as Einv.
        cbn [particle p_ix p_iy p_invalid] in Eix, Eiy, Einv.
        rewrite Eix, Eiy. apply (Hin tx ty k Htx Hty); [exact Hk|]. now rewrite <- Einv.
      + intros c. symmetry. apply HG. }
  unfold I in Hall. cbv zeta in Hall. rewrite Hn in Hall. destruct Hall as [Hpv HJ].
  split; [exact HJ|]. rewrite Hpv. unfold push_default. reflexivity.
Qed.

Lemma tile_advance_current_witness :
  J (snd (spec_advance_openacc 2 32 species_two_tiles emf_2x2 current_guard 0 cache_zero)) 5
  = J (snd (spec_advance_openacc_default species_two_tiles emf_2x2 current_guard 0
              (fun _ => seg_init 0 0 0%R 0%R 0%R 0%R 0%R))) 5.
Proof.
  refine (proj1 (tile_advance_current 2 32 species_two_tiles emf_2x2 current_guard 0
                   cache_zero (fun _ => seg_init 0 0 0%R 0%R 0%R 0%R 0%R)
                   ltac:(lia) _ eq_refl eq_refl _) 5).
  - unfold tiles_ok. cbn. split; [lia|]. split; [lia|].
    intros t t' Ht Ht'.
    destruct (Z.leb_spec t 0), (Z.leb_spec t 1), (Z.leb_spec t' 0), (Z.leb_spec t' 1); lia.
  - intros tx ty k Htx Hty. cbn in Htx, Hty.
    assert (ty = 0) by lia. subst ty.
    assert (Ex : tx = 0 \/ tx = 1) by lia.
    destruct Ex as [-> | ->]; intros Hk _; cbn in Hk;
      [assert (k = 0) by lia | assert (k = 1) by lia]; subst k;
      vm_compute; repeat split; congruence.
Defined.

(* ================================================================== *)
(** * The guard cells in y *)
(* ================================================================== *)

Section GuardCellsY.
Context {F : Type} {SF : Scalar F}.

(** After [emf_update_gc_openacc] the fields are periodic in y, with or
    without a moving window: in every column i of the grid (the guard
    columns included), F[i,-1] = F[i,nx1-1], F[i,nx1] = F[i,0] and
    F[i,nx1+1] = F[i,1], for E and for B.  The update writes guard cells
    only: the cells (i,j) with 0 <= i < nx0 and 0 <= j < nx1 keep their
    values. *)
Theorem guard_cells_y_periodic (emf : t_emf F) :
  emf_geometry emf ->
  let emf' := EmfKernel.emf_update_gc_openacc emf in
  let n := nrow emf in
  (forall i, -1 <= i < nx0 emf + 2 ->
     (emf_E emf' (i + -1 * n) = emf_E emf' (i + (nx1 emf - 1) * n) /\
      emf_E emf' (i + nx1 emf * n) = emf_E emf' (i + 0 * n) /\
      emf_E emf' (i + (nx1 emf + 1) * n) = emf_E emf' (i + 1 * n)) /\
     (emf_B emf' (i + -1 * n) = emf_B emf' (i + (nx1 emf - 1) * n) /\
      emf_B emf' (i + nx1 emf * n) = emf_B emf' (i + 0 * n) /\
      emf_B emf' (i + (nx1 emf + 1) * n) = emf_B emf' (i + 1 * n))) /\
  (forall i j, 0 <= i < nx0 emf -> 0 <= j < nx1 emf ->
     emf_E emf' (i + j * n) = emf_E emf (i + j * n) /\
     emf_B emf' (i + j * n) = emf_B emf (i + j * n)).
Proof.
  intros G emf' n. pose proof G as (G00 & G01 & G10 & G11 & Hrow & Hx & Hy).
  assert (Hrow' : nrow emf = 1 + nx0 emf + 2) by lia.
  destruct (kernel_gc_x_shape emf) as (Sr & S0 & S1 & SG).
  destruct (kernel_gc_y_fields (EmfKernel.emf_update_gc_openacc_x emf)) as [YE YB].
  { now apply SG. }
  rewrite Sr, S0, S1 in YE, YB.
  pose proof (col_idx_inj (nrow emf) (nx0 emf) (nx1 emf) Hrow') as Hinj.
  subst emf'. unfold EmfKernel.emf_update_gc_openacc. subst n. split.
  - intros i Hi. rewrite !YE, !YB.
    change (i + -1 * nrow emf) with (col_idx (nrow emf) i (-1)).
    change (i + (nx1 emf - 1) * nrow emf) with (col_idx (nrow emf) i (nx1 emf - 1)).
    change (i + nx1 emf * nrow emf) with (col_idx (nrow emf) i (nx1 emf)).
    change (i + 0 * nrow emf) with (col_idx (nrow emf) i 0).
    change (i + (nx1 emf + 1) * nrow emf) with (col_idx (nrow emf) i (nx1 emf + 1)).
    change (i + 1 * nrow emf) with (col_idx (nrow emf) i 1).
    rewrite !wrap_lines_cell by (assumption || lia).
    split; apply wrap3_periodic; assumption.
  - intros i j Hi Hj. rewrite YE, YB.
    change (i + j * nrow emf) with (col_idx (nrow emf) i j).
    rewrite !wrap_lines_cell by (assumption || lia).
    rewrite !wrap3_interior by lia. unfold col_idx.
    destruct (moving_window emf) eqn:Hmw.
    + rewrite kernel_gc_x_moving by assumption. split; reflexivity.
    + destruct (kernel_gc_x_fields emf G Hmw) as [KE KB]. rewrite KE, KB.
      pose proof (row_idx_inj (nrow emf) (nx0 emf) (-1) (nx1 emf + 2) Hrow') as Rinj.
      change (i + j * nrow emf) with (row_idx (nrow emf) j i).
      rewrite !wrap_lines_cell by (assumption || lia).
      rewrite !wrap3_interior by lia. split; reflexivity.
Qed.

End GuardCellsY.

Lemma guard_cells_y_periodic_witness :
  emf_E (EmfKernel.emf_update_gc_openacc emf_2x2_window) (0 + -1 * nrow emf_2x2_window)
  = emf_E (EmfKernel.emf_update_gc_openacc emf_2x2_window)
      (0 + (nx1 emf_2x2_window - 1) * nrow emf_2x2_window).
Proof.
  assert (G : emf_geometry emf_2x2_window) by (unfold emf_geometry; simpl; lia).
  assert (Hi : -1 <= 0 < nx0 emf_2x2_window + 2) by (simpl; lia).
  exact (proj1 (proj1 (proj1 (guard_cells_y_periodic emf_2x2_window G) 0 Hi))).
Defined.

(* ================================================================== *)
(** * The divergence correction *)
(* ================================================================== *)

Lemma rsum_first g lo hi : lo < hi -> rsum g lo hi = (g lo + rsum g (lo + 1) hi)%R.
Proof.
  intros H. rewrite (rsum_split g lo (lo + 1) hi) by lia.
  rewrite rsum_succ, rsum_empty by lia. ring.
Qed.

Section DivCorr.
Variables (nrow n0 : Z) (dx_dy : R).
Hypothesis Hrow : 0 <= n0 <= nrow.
Implicit Types (E B : Z -> t_vfld R).

(** What a cell adds to E.x and to B.x of the cells on its left. *)
Definition corr_E E (j i : Z) : R :=
  (dx_dy * (vy (E (i + 1 + j * nrow)%Z) - vy (E (i + 1 + (j - 1) * nrow)%Z)))%R.
Definition corr_B B (j i : Z) : R :=
  (dx_dy * (vy (B (i + (j + 1) * nrow)%Z) - vy (B (i + j * nrow)%Z)))%R.

(** The row loop of [div_corr_x]. *)
Definition corr_row (j : Z) (eb : t_EB R) : t_EB R :=
  let '(_, _, E, B) :=
    for_range 0 n0 (fun m '(ex, bx, E, B) =>
      let i := n0 - 1 - m in
      let ex := ex +! dx_dy *! (vy (E (i + 1 + j * nrow)) -! vy (E (i + 1 + (j - 1) * nrow))) in
      let E := upd_x E (i + j * nrow) ex in
      let bx := bx +! dx_dy *! (vy (B (i + (j + 1) * nrow)) -! vy (B (i + j * nrow))) in
      let B := upd_x B (i + j * nrow) bx in
      (ex, bx, E, B)) (f0, f0, fst eb, snd eb) in
  (E, B).

(** A grid whose x components in the cells [from .. n0 - 1] of row [j] are
    the sums [s], the rest being that of [A]. *)
Definition row_done (s : Z -> R) (j from : Z) (A A' : Z -> t_vfld R) : Prop :=
  (forall i, from <= i < n0 ->
     A' (i + j * nrow) = mk_vfld (s i) (vy (A (i + j * nrow))) (vz (A (i + j * nrow)))) /\
  (forall k, (forall i, from <= i < n0 -> k <> i + j * nrow) -> A' k = A k).

Lemma row_done_y s j from A A' k : row_done s j from A A' -> vy (A' k) = vy (A k).
Proof.
  intros [Hin Hout].
  destruct (Z_lt_ge_dec (k - j * nrow) from) as [Hlo|Hhi].
  - rewrite Hout; [reflexivity|]. intros i Hi. lia.
  - destruct (Z_lt_ge_dec (k - j * nrow) n0) as [Hlt|Hge].
    + replace k with ((k - j * nrow) + j * nrow) by lia. rewrite Hin by lia. reflexivity.
    + rewrite Hout; [reflexivity|]. intros i Hi. lia.
Qed.

Lemma row_done_step s j from A A' (v : R) :
  0 < from <= n0 -> row_done s j from A A' -> v = s (from - 1) ->
  row_done s j (from - 1) A (upd_x A' (from - 1 + j * nrow) v).
Proof.
  intros Hf [Hin Hout] ->. unfold upd_x. split.
  - intros i Hi. destruct (Z.eq_dec i (from - 1)) as [->|Hne].
    + rewrite upd_same. rewrite Hout by (intros i' Hi'; lia). reflexivity.
    + rewrite upd_other by lia. apply Hin. lia.
  - intros k Hk. rewrite upd_other by (apply Hk; lia). apply Hout.
    intros i Hi. apply Hk. lia.
Qed.

Lemma corr_row_done j E B :
  row_done (fun i => rsum (corr_E E j) i n0) j 0 E (fst (corr_row j (E, B))) /\
  row_done (fun i => rsum (corr_B B j) i n0) j 0 B (snd (corr_row j (E, B))).
Proof.
  unfold corr_row. cbn [fst snd].
  set (P := fun (m : Z) (st : R * R * (Z -> t_vfld R) * (Z -> t_vfld R)) =>
              let '(ex, bx, E', B') := st in
              ex = rsum (corr_E E j) (n0 - m) n0 /\ bx = rsum (corr_B B j) (n0 - m) n0 /\
              row_done (fun i => rsum (corr_E E j) i n0) j (n0 - m) E E' /\
              row_done (fun i => rsum (corr_B B j) i n0) j (n0 - m) B B').
  assert (H : P n0 (for_range 0 n0 (fun m '(ex, bx, E, B) =>
      let i := n0 - 1 - m in
      let ex := ex +! dx_dy *! (vy (E (i + 1 + j * nrow)) -! vy (E (i + 1 + (j - 1) * nrow))) in
      let E := upd_x E (i + j * nrow) ex in
      let bx := bx +! dx_dy *! (vy (B (i + (j + 1) * nrow)) -! vy (B (i + j * nrow))) in
      let B := upd_x B (i + j * nrow) bx in
      (ex, bx, E, B)) (f0, f0, E, B))).
  { apply (for_range_ind P); [lia | |].
    - unfold P. rewrite !rsum_empty by lia. replace (n0 - 0) with n0 by lia.
      split; [reflexivity|]. split; [reflexivity|].
      split; (split; [intros; lia | reflexivity]).
    - intros m [[[ex bx] E'] B'] Hm (Hex & Hbx & HE & HB). unfold P. cbv zeta.
      replace (n0 - (m + 1)) with (n0 - m - 1) by lia.
      replace (n0 - 1 - m) with (n0 - m - 1) by lia.
      assert (Eex : ex +! dx_dy *! (vy (E' (n0 - m - 1 + 1 + j * nrow))
                                    -! vy (E' (n0 - m - 1 + 1 + (j - 1) * nrow)))
                    = rsum (corr_E E j) (n0 - m - 1) n0).
      { rewrite (rsum_first _ (n0 - m - 1)) by lia.
        replace (n0 - m - 1 + 1) with (n0 - m) by lia. rewrite <- Hex.
        unfold corr_E. replace (n0 - m - 1 + 1) with (n0 - m) by lia.
        rewrite <- (row_done_y _ _ _ _ _ (n0 - m + j * nrow) HE).
        rewrite <- (row_done_y _ _ _ _ _ (n0 - m + (j - 1) * nrow) HE).
        cbn [fadd fsub fmul R_scalar]. ring. }
      assert (Ebx : bx +! dx_dy *! (vy (B' (n0 - m - 1 + (j + 1) * nrow))
                                    -! vy (B' (n0 - m - 1 + j * nrow)))
                    = rsum (corr_B B j) (n0 - m - 1) n0).
      { rewrite (rsum_first _ (n0 - m - 1)) by lia.
        replace (n0 - m - 1 + 1) with (n0 - m) by lia. rewrite <- Hbx.
        unfold corr_B.
        rewrite <- (row_done_y _ _ _ _ _ (n0 - m - 1 + (j + 1) * nrow) HB).
        rewrite <- (row_done_y _ _ _ _ _ (n0 - m - 1 + j * nrow) HB).
        cbn [fadd fsub fmul R_scalar]. ring. }
      rewrite Eex, Ebx. split; [reflexivity|]. split; [reflexivity|]. split.
      + apply (row_done_step _ j (n0 - m)); [lia | assumption | reflexivity].
      + apply (row_done_step _ j (n0 - m)); [lia | assumption | reflexivity]. }
  destruct (for_range 0 n0 _ (f0, f0, E, B)) as [[[ex bx] E'] B'].
  unfold P in H. replace (n0 - n0) with 0 in H by lia.
  destruct H as (_ & _ & HE & HB). cbn [fst snd]. split; assumption.
Qed.

(** The rows [0 .. j - 1] are done. *)
Definition rows_done (corr : (Z -> t_vfld R) -> Z -> Z -> R) (j : Z) (A A' : Z -> t_vfld R)
  : Prop :=
  (forall i j', 0 <= i < n0 -> 0 <= j' < j ->
     A' (i + j' * nrow)
     = mk_vfld (rsum (corr A j') i n0) (vy (A (i + j' * nrow))) (vz (A (i + j' * nrow)))) /\
  (forall k, (forall i j', 0 <= i < n0 -> 0 <= j' < j -> k <> i + j' * nrow) -> A' k = A k).

Lemma rows_done_y corr j A A' k : 0 <= j -> rows_done corr j A A' -> vy (A' k) = vy (A k).
Proof.
  intros Hj [Hin Hout].
  destruct (Z_lt_ge_dec 0 nrow) as [Hpos|Hzero].
  - pose proof (Z.div_mod k nrow ltac:(lia)) as Hk.
    pose proof (Z.mod_pos_bound k nrow Hpos) as Hm.
    destruct (Z_lt_ge_dec (k mod nrow) n0) as [Hlt|Hge].
    + destruct (Z_le_gt_dec 0 (k / nrow)) as [H0|H0];
        [destruct (Z_lt_ge_dec (k / nrow) j) as [H1|H1]|].
      * replace k with (k mod nrow + k / nrow * nrow) by lia.
        rewrite Hin by lia. reflexivity.
      * rewrite Hout; [reflexivity|]. intros i j' Hi Hj' E.
        assert (i = k mod nrow /\ j' = k / nrow) as [_ Ej]; [|lia].
        apply (cell_index_inj nrow 0); lia.
      * rewrite Hout; [reflexivity|]. intros i j' Hi Hj' E.
        assert (i = k mod nrow /\ j' = k / nrow) as [_ Ej]; [|lia].
        apply (cell_index_inj nrow 0); lia.
    + rewrite Hout; [reflexivity|]. intros i j' Hi Hj' E.
      assert (i = k mod nrow /\ j' = k / nrow) as [Ei _]; [|lia].
      apply (cell_index_inj nrow 0); lia.
  - rewrite Hout; [reflexivity|]. intros i j' Hi Hj'. lia.
Qed.

Lemma rows_done_z corr j A A' k : 0 <= j -> rows_done corr j A A' -> vz (A' k) = vz (A k).
Proof.
  intros Hj [Hin Hout].
  destruct (Z_lt_ge_dec 0 nrow) as [Hpos|Hzero].
  - pose proof (Z.div_mod k nrow ltac:(lia)) as Hk.
    pose proof (Z.mod_pos_bound k nrow Hpos) as Hm.
    destruct (Z_lt_ge_dec (k mod nrow) n0) as [Hlt|Hge].
    + destruct (Z_le_gt_dec 0 (k / nrow)) as [H0|H0];
        [destruct (Z_lt_ge_dec (k / nrow) j) as [H1|H1]|].
      * replace k with (k mod nrow + k / nrow * nrow) by lia.
        rewrite Hin by lia. reflexivity.
      * rewrite Hout; [reflexivity|]. intros i j' Hi Hj' E.
        assert (i = k mod nrow /\ j' = k / nrow) as [_ Ej]; [|lia].
        apply (cell_index_inj nrow 0); lia.
      * rewrite Hout; [reflexivity|]. intros i j' Hi Hj' E.
        assert (i = k mod nrow /\ j' = k / nrow) as [_ Ej]; [|lia].
        apply (cell_index_inj nrow 0); lia.
    + rewrite Hout; [reflexivity|]. intros i j' Hi Hj' E.
      assert (i = k mod nrow /\ j' = k / nrow) as [Ei _]; [|lia].
      apply (cell_index_inj nrow 0); lia.
  - rewrite Hout; [reflexivity|]. intros i j' Hi Hj'. lia.
Qed.

Lemma rows_done_step corr j A A' A'' :
  0 <= j ->
  (forall B1 B2 j' i, (forall k, vy (B1 k) = vy (B2 k)) -> corr B1 j' i = corr B2 j' i) ->
  rows_done corr j A A' ->
  row_done (fun i => rsum (corr A' j) i n0) j 0 A' A'' ->
  rows_done corr (j + 1) A A''.
Proof.
  intros Hj Hcorr Hrows [Hin Hout]. pose proof Hrows as [Rin Rout]. split.
  - intros i j' Hi Hj'. destruct (Z.eq_dec j' j) as [->|Hne].
    + rewrite Hin by lia.
      rewrite (rsum_ext _ (corr A j) i n0).
      2:{ intros i' _. apply Hcorr. intros k. now apply (rows_done_y corr j). }
      rewrite Rout; [reflexivity|]. intros i' j' Hi' Hj'' E.
      apply (cell_index_inj nrow 0) in E; lia.
    + rewrite Hout.
      * apply Rin; lia.
      * intros i' Hi' E. apply (cell_index_inj nrow 0) in E; lia.
  - intros k Hk. rewrite Hout.
    + apply Rout. intros i j' Hi Hj'. apply Hk; lia.
    + intros i Hi. apply Hk; lia.
Qed.

End DivCorr.

(** Over the real numbers [div_corr_x] leaves E and B with no divergence
    along the rows of the grid: in every cell (i, j) of the grid, E.x is
    E.x of the next cell of the row (0 after the last cell) plus
    dx/dy (E.y[i+1,j] - E.y[i+1,j-1]), and B.x is B.x of the next cell plus
    dx/dy (B.y[i,j+1] - B.y[i,j]).  The y and z components are not
    changed. *)
Theorem div_corr_x_gauss (emf : t_emf R) :
  0 <= nx0 emf <= nrow emf -> 0 <= nx1 emf ->
  let E' := emf_E (div_corr_x emf) in
  let B' := emf_B (div_corr_x emf) in
  let n := nrow emf in
  let r := (dx0 emf / dx1 emf)%R in
  (forall i j, 0 <= i < nx0 emf -> 0 <= j < nx1 emf ->
     vx (E' (i + j * n))
     = ((if (i + 1 <? nx0 emf)%Z then vx (E' (i + 1 + j * n)%Z) else 0)
        + r * (vy (E' (i + 1 + j * n)%Z) - vy (E' (i + 1 + (j - 1) * n)%Z)))%R /\
     vx (B' (i + j * n))
     = ((if (i + 1 <? nx0 emf)%Z then vx (B' (i + 1 + j * n)%Z) else 0)
        + r * (vy (B' (i + (j + 1) * n)%Z) - vy (B' (i + j * n)%Z)))%R) /\
  (forall k, vy (E' k) = vy (emf_E emf k) /\ vz (E' k) = vz (emf_E emf k) /\
             vy (B' k) = vy (emf_B emf k) /\ vz (B' k) = vz (emf_B emf k)).
Proof.
  intros Hrow Hn1 E' B' n r.
  set (eb := for_range 0 (nx1 emf) (corr_row n (nx0 emf) r) (emf_E emf, emf_B emf)).
  assert (HE : forall k, E' k = fst eb k).
  { intros k. unfold E', div_corr_x. cbv zeta. rewrite emf_E_set_B. apply emf_E_set_E. }
  assert (HB : forall k, B' k = snd eb k).
  { intros k. unfold B', div_corr_x. cbv zeta. apply emf_B_set_B. }
  assert (Hdone : rows_done n (nx0 emf) (corr_E n r) (nx1 emf) (emf_E emf) (fst eb) /\
                  rows_done n (nx0 emf) (corr_B n r) (nx1 emf) (emf_B emf) (snd eb)).
  { unfold eb.
    apply (for_range_ind (fun j eb =>
             rows_done n (nx0 emf) (corr_E n r) j (emf_E emf) (fst eb) /\
             rows_done n (nx0 emf) (corr_B n r) j (emf_B emf) (snd eb))); [lia | |].
    - cbn [fst snd]. split; (split; [intros; lia | reflexivity]).
    - intros j [Ej Bj] Hj [RE RB]. cbn [fst snd] in RE, RB.
      destruct (corr_row_done n (nx0 emf) r Hrow j Ej Bj) as [DE DB].
      split.
      + apply (rows_done_step n (nx0 emf) Hrow (corr_E n r) j _ Ej); try assumption; [lia|].
        intros B1 B2 j' i Hy. unfold corr_E. now rewrite !Hy.
      + apply (rows_done_step n (nx0 emf) Hrow (corr_B n r) j _ Bj); try assumption; [lia|].
        intros B1 B2 j' i Hy. unfold corr_B. now rewrite !Hy. }
  destruct Hdone as [RE RB].
  assert (Hvy : forall k, vy (E' k) = vy (emf_E emf k) /\ vz (E' k) = vz (emf_E emf k) /\
                          vy (B' k) = vy (emf_B emf k) /\ vz (B' k) = vz (emf_B emf k)).
  { intros k. rewrite HE, HB.
    rewrite (rows_done_y n (nx0 emf) Hrow _ _ _ _ k Hn1 RE).
    rewrite (rows_done_z n (nx0 emf) Hrow _ _ _ _ k Hn1 RE).
    rewrite (rows_done_y n (nx0 emf) Hrow _ _ _ _ k Hn1 RB).
    rewrite (rows_done_z n (nx0 emf) Hrow _ _ _ _ k Hn1 RB). repeat split; reflexivity. }
  split; [|exact Hvy].
  intros i j Hi Hj. destruct RE as [REin _], RB as [RBin _].
  rewrite (proj1 (Hvy (i + 1 + j * n))), (proj1 (Hvy (i + 1 + (j - 1) * n))).
  rewrite (proj1 (proj2 (proj2 (Hvy (i + (j + 1) * n))))).
  rewrite (proj1 (proj2 (proj2 (Hvy (i + j * n))))).
  rewrite !HE, !HB. rewrite (REin i j Hi Hj), (RBin i j Hi Hj). cbn [vx].
  rewrite (rsum_first _ i) by lia. rewrite (rsum_first (corr_B n r (emf_B emf) j) i) by lia.
  destruct (Z.ltb_spec (i + 1) (nx0 emf)) as [Hlt|Hge].
  - rewrite (REin (i + 1) j) by lia. rewrite (RBin (i + 1) j) by lia. cbn [vx].
    unfold corr_E, corr_B. split; ring.
  - rewrite !rsum_empty by lia. unfold corr_E, corr_B. split; ring.
Qed.

Lemma div_corr_x_gauss_witness :
  vy (emf_E (div_corr_x emf_2x2) 3) = vy (emf_E emf_2x2 3).
Proof.
  assert (Hrow : 0 <= nx0 emf_2x2 <= nrow emf_2x2) by (simpl; lia).
  assert (Hn1 : 0 <= nx1 emf_2x2) by (simpl; lia).
  exact (proj1 (proj2 (div_corr_x_gauss emf_2x2 Hrow Hn1) 3)).
Defined.

(* ================================================================== *)
(** * The envelope of the laser *)
(* ================================================================== *)

Section Envelope.
Local Open Scope R_scope.

(** Over the real numbers, for a laser with [rise], [flat] and [fall] not
    negative (as [emf_add_laser] requires), [lon_env] is a number between 0
    and 1 everywhere; it is 0 ahead of the pulse ([z > start]) and behind it
    ([z <= start - rise - flat - fall]) and 1 on the flat top
    ([start - rise - flat < z <= start - rise]). *)
Theorem lon_env_shape (laser : t_emf_laser R) (z : R) :
  0 <= rise laser -> 0 <= flat laser -> 0 <= fall laser ->
  0 <= lon_env laser z <= 1 /\
  (laser_start laser < z -> lon_env laser z = 0) /\
  (z <= laser_start laser - (rise laser + flat laser + fall laser) -> lon_env laser z = 0) /\
  (laser_start laser - (rise laser + flat laser) < z <= laser_start laser - rise laser ->
   lon_env laser z = 1).
Proof.
  intros Hr Hfl Hfa. unfold lon_env.
  cbn [fadd fsub fmul fdiv f0 f1 fsin fpi_2 fltb R_scalar].
  assert (Hsq : forall x, 0 <= sin x * sin x <= 1).
  { intros x. pose proof (SIN_bound x). nra. }
  unfold Rltb.
  destruct (Rlt_dec (laser_start laser) z) as [H1|H1];
    [|destruct (Rlt_dec (laser_start laser - rise laser) z) as [H2|H2];
      [|destruct (Rlt_dec (laser_start laser - (rise laser + flat laser)) z) as [H3|H3];
        [|destruct (Rlt_dec (laser_start laser - (rise laser + flat laser + fall laser)) z)
            as [H4|H4]]]]; cbv zeta.
  - repeat split; intros; try reflexivity; lra.
  - split; [apply Hsq|]. repeat split; intros; lra.
  - repeat split; intros; try reflexivity; lra.
  - split; [apply Hsq|]. repeat split; intros; lra.
  - repeat split; intros; try reflexivity; lra.
Qed.

End Envelope.

Lemma lon_env_shape_witness :
  lon_env (mk_laser PLANE 10 0 2 3 2 1 1 0 0 0 0)%R 6%R = 1%R.
Proof.
  refine (proj2 (proj2 (proj2 (lon_env_shape (mk_laser PLANE 10 0 2 3 2 1 1 0 0 0 0)%R 6%R
                                 _ _ _))) _); cbn; lra.
Defined.

(* ================================================================== *)
(** * The histograms of the sort *)
(* ================================================================== *)

(** A sum whose terms change at [k0] only. *)
Lemma zsum_change g g' lo hi k0 :
  lo <= k0 < hi -> (forall k, lo <= k < hi -> k <> k0 -> g' k = g k) ->
  zsum g' lo hi = zsum g lo hi + (g' k0 - g k0).
Proof.
  intros Hk H.
  rewrite (zsum_split g' lo k0 hi), (zsum_split g' k0 (k0 + 1) hi) by lia.
  rewrite (zsum_split g lo k0 hi), (zsum_split g k0 (k0 + 1) hi) by lia.
  rewrite (zsum_ext g' g lo k0) by (intros k Hr; apply H; lia).
  rewrite (zsum_ext g' g (k0 + 1) hi) by (intros k Hr; apply H; lia).
  assert (E1 : forall h, zsum h k0 (k0 + 1) = h k0).
  { intros h. rewrite zsum_succ, zsum_empty by lia. lia. }
  rewrite !E1. lia.
Qed.

(** A histogram loop: the entry [c] grows by the number of [k] counted
    there. *)
Lemma hist_loop (p : Z -> bool) (f : Z -> Z) (a0 : Z -> Z) (b e c : Z) :
  b <= e ->
  for_range b e (fun k a => if p k then upd a (f k) (a (f k) + 1) else a) a0 c
  = a0 c + count (fun k => p k && (f k =? c)) b e.
Proof.
  intros Hbe.
  apply (for_range_ind (fun m a => a c = a0 c + count (fun k => p k && (f k =? c)) b m));
    try assumption.
  - rewrite count_empty by lia. lia.
  - intros k a Hk IH. rewrite count_succ by lia.
    destruct (p k); cbn [andb].
    + destruct (Z.eqb_spec (f k) c) as [->|Hne].
      * rewrite upd_same. lia.
      * rewrite upd_other by congruence. lia.
    + lia.
Qed.

Section LocalHistogram.
Variables (n_tiles_x tile_x tile_y : Z).
Implicit Types (np npt : Z -> Z).

(** The tile that bin (i, j) of the local histogram of tile
    (tile_x, tile_y) is added to. *)
Definition bin_tile (i j : Z) : Z :=
  let global_ix := tile_x + i - 1 in
  let global_iy := tile_y + j - 1 in
  let global_ix :=
    if global_ix <? 0 then global_ix + n_tiles_x
    else if n_tiles_x <=? global_ix then global_ix - n_tiles_x
    else global_ix in
  global_ix + global_iy * n_tiles_x.

(** The loop nest that adds the local histogram to the global one. *)
Definition add_bins np npt : Z -> Z :=
  for_range 0 3 (fun j =>
    for_range 0 3 (fun i np_per_tile =>
      let global_ix := tile_x + i - 1 in
      let global_iy := tile_y + j - 1 in
      let global_ix :=
        if global_ix <? 0 then global_ix + n_tiles_x
        else if n_tiles_x <=? global_ix then global_ix - n_tiles_x
        else global_ix in
      if 0 <? np (i + j * 3)
      then upd np_per_tile (global_ix + global_iy * n_tiles_x)
             (np_per_tile (global_ix + global_iy * n_tiles_x) + np (i + j * 3))
      else np_per_tile)) npt.

(** What the local histogram holds for tile [t]. *)
Definition bins_term np (t j i : Z) : Z := if bin_tile i j =? t then np (i + j * 3) else 0.
Definition bins_row np (t j : Z) : Z := zsum (bins_term np t j) 0 3.
Definition bins_of np (t : Z) : Z := zsum (bins_row np t) 0 3.

Lemma add_bins_cell np npt t :
  (forall i j, 0 <= i < 3 -> 0 <= j < 3 -> 0 <= np (i + j * 3)) ->
  add_bins np npt t = npt t + bins_of np t.
Proof.
  intros Hnp. unfold add_bins, bins_of.
  apply (for_range_ind (fun j a => a t = npt t + zsum (bins_row np t) 0 j)); try lia.
  - rewrite zsum_empty by lia. lia.
  - intros j a Hj IH. rewrite zsum_succ by lia. unfold bins_row at 2.
    apply (for_range_ind (fun i a' =>
             a' t = npt t + (zsum (bins_row np t) 0 j + zsum (bins_term np t j) 0 i)));
      try lia.
    + rewrite (zsum_empty (bins_term np t j) 0 0) by lia. lia.
    + intros i a' Hi IH'. cbv zeta. rewrite (zsum_succ (bins_term np t j) 0 i) by lia.
      unfold bins_term at 2. fold (bin_tile i j).
      specialize (Hnp i j Hi Hj).
      destruct (Z.ltb_spec 0 (np (i + j * 3))) as [Hpos|Hzero].
      * destruct (Z.eqb_spec (bin_tile i j) t) as [->|Hne].
        -- rewrite upd_same. lia.
        -- rewrite upd_other by congruence. lia.
      * destruct (Z.eqb_spec (bin_tile i j) t); lia.
Qed.

Lemma bins_of_upd np i0 j0 v t :
  0 <= i0 < 3 -> 0 <= j0 < 3 ->
  bins_of (upd np (i0 + j0 * 3) v) t
  = bins_of np t + (if bin_tile i0 j0 =? t then v - np (i0 + j0 * 3) else 0).
Proof.
  intros Hi Hj. unfold bins_of.
  rewrite (zsum_change (bins_row np t) _ 0 3 j0 Hj).
  - f_equal. unfold bins_row.
    rewrite (zsum_change (bins_term np t j0) _ 0 3 i0 Hi).
    + unfold bins_term. rewrite upd_same. destruct (bin_tile i0 j0 =? t); lia.
    + intros i Hr Hne. unfold bins_term. rewrite upd_other by lia. reflexivity.
  - intros j Hr Hne. unfold bins_row. apply zsum_ext. intros i Hir.
    unfold bins_term. rewrite upd_other by lia. reflexivity.
Qed.

End LocalHistogram.

Section SortHistogram.
Context {F : Type}.
Variables (TILE_SIZE n_tiles_x n_tiles_y offset_region : Z).
Hypothesis Hntx : 1 <= n_tiles_x.
Hypothesis Hnty : 0 <= n_tiles_y.
Implicit Types (pv : t_particle_vector F) (np npt off : Z -> Z).

(** The tile a particle belongs in. *)
Definition tile_of pv (k : Z) : Z := target_tile TILE_SIZE pv n_tiles_x offset_region k.

(** The particles that are not marked invalid and belong in tile [t]. *)
Definition belongs pv (t k : Z) : bool := negb (pv_invalid pv k) && (tile_of pv k =? t).

(** A particle of tile (tile_x, tile_y) that belongs in this tile or in one
    of the eight around it, the row of tiles being periodic. *)
Definition near_tile pv (tile_x tile_y k : Z) : Prop :=
  let ix := Z.quot (pv_ix pv k) TILE_SIZE in
  let iy := Z.quot (pv_iy pv k - offset_region) TILE_SIZE in
  0 <= ix < n_tiles_x /\ 0 <= iy < n_tiles_y /\ tile_y - 1 <= iy <= tile_y + 1 /\
  (tile_x - 1 <= ix <= tile_x + 1 \/ (tile_x = n_tiles_x - 1 /\ ix = 0)
   \/ (tile_x = 0 /\ ix = n_tiles_x - 1)).

(** The bin of the local histogram a particle is counted in. *)
Definition local_bin pv (tile_x tile_y k : Z) : Z :=
  let ix := Z.quot (pv_ix pv k) TILE_SIZE in
  let iy := Z.quot (pv_iy pv k - offset_region) TILE_SIZE in
  let local_iy := iy - tile_y + 1 in
  let local_ix :=
    if (tile_x =? n_tiles_x - 1) && (ix =? 0) then 2
    else if (tile_x =? 0) && (ix =? n_tiles_x - 1) then 0
    else ix - tile_x + 1 in
  local_ix + local_iy * 3.

Lemma bin_target pv tile_x tile_y k :
  0 <= tile_x < n_tiles_x -> near_tile pv tile_x tile_y k ->
  exists i j, 0 <= i < 3 /\ 0 <= j < 3 /\ local_bin pv tile_x tile_y k = i + j * 3 /\
              bin_tile n_tiles_x tile_x tile_y i j = tile_of pv k.
Proof.
  intros Htx (Hix & Hiy & Hny & Hnx). unfold local_bin, tile_of, target_tile. cbv zeta.
  set (ix := Z.quot (pv_ix pv k) TILE_SIZE) in *.
  set (iy := Z.quot (pv_iy pv k - offset_region) TILE_SIZE) in *.
  exists (if (tile_x =? n_tiles_x - 1) && (ix =? 0) then 2
          else if (tile_x =? 0) && (ix =? n_tiles_x - 1) then 0 else ix - tile_x + 1).
  exists (iy - tile_y + 1). unfold bin_tile. cbv zeta.
  destruct (Z.eqb_spec tile_x (n_tiles_x - 1)) as [E1|E1];
    destruct (Z.eqb_spec ix 0) as [E2|E2];
    destruct (Z.eqb_spec tile_x 0) as [E3|E3];
    destruct (Z.eqb_spec ix (n_tiles_x - 1)) as [E4|E4]; cbn [andb];
    repeat match goal with
           | |- context [?a <? ?b] => destruct (Z.ltb_spec a b)
           | |- context [?a <=? ?b] => destruct (Z.leb_spec a b)
           end; repeat split; try lia.
Qed.

(** The local histogram of a tile. *)
Definition count_bins pv (tile_x tile_y b e : Z) np : Z -> Z :=
  for_range b e (fun k np =>
    let ix := Z.quot (pv_ix pv k) TILE_SIZE in
    let iy := Z.quot (pv_iy pv k - offset_region) TILE_SIZE in
    let is_invalid := pv_invalid pv k in
    let local_iy := iy - tile_y + 1 in
    let local_ix :=
      if (tile_x =? n_tiles_x - 1) && (ix =? 0) then 2
      else if (tile_x =? 0) && (ix =? n_tiles_x - 1) then 0
      else ix - tile_x + 1 in
    if negb is_invalid
    then upd np (local_ix + local_iy * 3) (np (local_ix + local_iy * 3) + 1)
    else np) (for_range 0 9 (fun i np => upd np i 0) np).

Lemma count_bins_of pv tile_x tile_y b e np :
  0 <= tile_x < n_tiles_x -> b <= e ->
  (forall k, b <= k < e -> pv_invalid pv k = false -> near_tile pv tile_x tile_y k) ->
  (forall i j, 0 <= i < 3 -> 0 <= j < 3 ->
     0 <= count_bins pv tile_x tile_y b e np (i + j * 3)) /\
  (forall t, bins_of n_tiles_x tile_x tile_y (count_bins pv tile_x tile_y b e np) t
             = count (belongs pv t) b e).
Proof.
  intros Htx Hbe Hnear. unfold count_bins.
  set (np0 := for_range 0 9 (fun i np => upd np i 0) np).
  assert (H0 : forall l, 0 <= l < 9 -> np0 l = 0).
  { intros l Hl. unfold np0. now apply zero_loop. }
  apply (for_range_ind (fun m a =>
           (forall i j, 0 <= i < 3 -> 0 <= j < 3 -> 0 <= a (i + j * 3)) /\
           (forall t, bins_of n_tiles_x tile_x tile_y a t = count (belongs pv t) b m)));
    try assumption.
  - split.
    + intros i j Hi Hj. rewrite H0 by lia. lia.
    + intros t. rewrite count_empty by lia. unfold bins_of.
      rewrite (zsum_ext _ (fun _ => 0) 0 3).
      * unfold zsum. apply (for_range_inv (fun acc => acc = 0)); [reflexivity | intros; lia].
      * intros j Hj. unfold bins_row. rewrite (zsum_ext _ (fun _ => 0) 0 3).
        -- unfold zsum. apply (for_range_inv (fun acc => acc = 0)); [reflexivity | intros; lia].
        -- intros i Hi. unfold bins_term. rewrite H0 by lia. now destruct (_ =? t).
  - intros k a Hk [Hpos Hsum]. cbv zeta.
    destruct (pv_invalid pv k) eqn:Hv; cbn [negb].
    + split; [exact Hpos|]. intros t. rewrite count_succ by lia.
      assert (Eb : belongs pv t k = false) by (unfold belongs; now rewrite Hv).
      rewrite Eb, Hsum. lia.
    + destruct (bin_target pv tile_x tile_y k Htx (Hnear k Hk Hv))
        as (i0 & j0 & Hi0 & Hj0 & Ebin & Etile).
      unfold local_bin in Ebin. cbv zeta in Ebin. rewrite Ebin. split.
      * intros i j Hi Hj. destruct (Z.eq_dec (i + j * 3) (i0 + j0 * 3)) as [->|Hne].
        -- rewrite upd_same. specialize (Hpos i0 j0 Hi0 Hj0). lia.
        -- rewrite upd_other by congruence. now apply Hpos.
      * intros t. rewrite bins_of_upd by assumption. rewrite Hsum, Etile.
        rewrite count_succ by lia.
        assert (Eb : belongs pv t k = (tile_of pv k =? t)) by (unfold belongs; now rewrite Hv).
        rewrite Eb. destruct (tile_of pv k =? t); lia.
Qed.

(** The global histogram after the tiles of the main vector. *)
Definition main_histogram pv off np npt : Z -> Z :=
  for_range 0 n_tiles_y (fun tile_y =>
    for_range 0 n_tiles_x (fun tile_x np_per_tile =>
      add_bins n_tiles_x tile_x tile_y
        (count_bins pv tile_x tile_y (off (tile_x + tile_y * n_tiles_x))
           (off (tile_x + tile_y * n_tiles_x + 1)) np) np_per_tile)) npt.

Lemma main_histogram_counts pv off np npt t :
  sorted_offsets off (n_tiles_x * n_tiles_y) ->
  (forall tx ty k, 0 <= tx < n_tiles_x -> 0 <= ty < n_tiles_y ->
     off (tx + ty * n_tiles_x) <= k < off (tx + ty * n_tiles_x + 1) ->
     pv_invalid pv k = false -> near_tile pv tx ty k) ->
  main_histogram pv off np npt t
  = npt t + count (belongs pv t) (off 0) (off (n_tiles_x * n_tiles_y)).
Proof.
  intros Hs Hnear. unfold main_histogram.
  replace (n_tiles_x * n_tiles_y) with (n_tiles_y * n_tiles_x) by lia.
  apply (for_range_ind (fun ty a =>
           a t = npt t + count (belongs pv t) (off 0) (off (ty * n_tiles_x)))); try lia.
  - change (0 * n_tiles_x) with 0. rewrite count_empty by lia. lia.
  - intros ty a Hty IH.
    replace ((ty + 1) * n_tiles_x) with (n_tiles_x + ty * n_tiles_x) by lia.
    apply (for_range_ind (fun tx a' =>
             a' t = npt t + count (belongs pv t) (off 0) (off (tx + ty * n_tiles_x))));
      try lia.
    + exact IH.
    + intros tx a' Htx IH'.
      replace (tx + 1 + ty * n_tiles_x) with (tx + ty * n_tiles_x + 1) by lia.
      set (t0 := tx + ty * n_tiles_x) in *.
      assert (Ht0 : 0 <= t0 < n_tiles_x * n_tiles_y) by (unfold t0; nia).
      assert (Hbe : off t0 <= off (t0 + 1)) by (apply Hs; lia).
      destruct (count_bins_of pv tx ty (off t0) (off (t0 + 1)) np Htx Hbe) as [Hpos Hsum].
      { intros k Hk Hv. now apply Hnear. }
      rewrite add_bins_cell by exact Hpos. rewrite Hsum, IH'.
      rewrite (count_split _ (off 0) (off t0) (off (t0 + 1))); [lia|].
      split; [apply Hs; lia | exact Hbe].
Qed.

(** The incoming particles that belong in tile [t]. *)
Definition incoming_in (incoming : Z -> t_particle_vector F) (t : Z) : Z :=
  zsum (fun n => if pv_enable_vector (incoming n)
                 then count (fun k => tile_of (incoming n) k =? t) 0 (pv_size (incoming n))
                 else 0) 0 3.

Definition incoming_histogram (incoming : Z -> t_particle_vector F) npt : Z -> Z :=
  for_range 0 3 (fun n np_per_tile =>
    if pv_enable_vector (incoming n) then
      let size_temp := pv_size (incoming n) in
      for_range 0 size_temp (fun k np_per_tile =>
        let ix := Z.quot (pv_ix (incoming n) k) TILE_SIZE in
        let iy := Z.quot (pv_iy (incoming n) k - offset_region) TILE_SIZE in
        let target_tile := ix + iy * n_tiles_x in
        upd np_per_tile target_tile (np_per_tile target_tile + 1)) np_per_tile
    else np_per_tile) npt.

Lemma incoming_histogram_counts incoming npt t :
  (forall n, 0 <= n < 3 -> 0 <= pv_size (incoming n)) ->
  incoming_histogram incoming npt t = npt t + incoming_in incoming t.
Proof.
  intros Hsz. unfold incoming_histogram, incoming_in.
  apply (for_range_ind (fun n a =>
           a t = npt t
                 + zsum (fun n => if pv_enable_vector (incoming n)
                                  then count (fun k => tile_of (incoming n) k =? t) 0
                                         (pv_size (incoming n))
                                  else 0) 0 n)); try lia.
  - rewrite zsum_empty by lia. lia.
  - intros n a Hn IH. rewrite zsum_succ by lia.
    destruct (pv_enable_vector (incoming n)); [|lia]. cbv zeta.
    change (for_range 0 (pv_size (incoming n)) _ a t)
      with (for_range 0 (pv_size (incoming n))
              (fun k a => if (fun _ => true) k
                          then upd a (tile_of (incoming n) k) (a (tile_of (incoming n) k) + 1)
                          else a) a t).
    rewrite hist_loop by (apply Hsz; lia). rewrite IH. cbn [andb]. lia.
Qed.

(** The copy of the histogram to [tile_offset]. *)
Lemma histogram_copy (npt off : Z -> Z) (n t : Z) :
  for_range 0 n (fun i tile_offset => upd tile_offset i (npt i)) off t
  = if (0 <=? t) && (t <? n) then npt t else off t.
Proof.
  destruct (Z.leb_spec 0 t); destruct (Z.ltb_spec t n); cbn [andb].
  - rewrite (for_range_hit (fun a => a t) 0 n t); try lia.
    + apply upd_same.
    + intros i a Hi Hne. now apply upd_other.
    + intros a a' _. now rewrite !upd_same.
  - apply (for_range_frame (fun a => a t)). intros i a Hi. apply upd_other. lia.
  - apply (for_range_frame (fun a => a t)). intros i a Hi. apply upd_other. lia.
  - apply (for_range_frame (fun a => a t)). intros i a Hi. apply upd_other. lia.
Qed.

(** The entry of one tile. *)
Lemma histogram_np_per_tile_tile (pv : t_particle_vector F) (off : Z -> Z)
  (incoming : Z -> t_particle_vector F) (np_per_tile np : Z -> Z) (t : Z) :
  sorted_offsets off (n_tiles_x * n_tiles_y) ->
  (forall tx ty k, 0 <= tx < n_tiles_x -> 0 <= ty < n_tiles_y ->
     off (tx + ty * n_tiles_x) <= k < off (tx + ty * n_tiles_x + 1) ->
     pv_invalid pv k = false -> near_tile pv tx ty k) ->
  (forall m, 0 <= m < 3 -> 0 <= pv_size (incoming m)) ->
  0 <= t < n_tiles_x * n_tiles_y ->
  histogram_np_per_tile TILE_SIZE pv off incoming n_tiles_y n_tiles_x offset_region
    np_per_tile np t
  = count (belongs pv t) (off 0) (off (n_tiles_x * n_tiles_y)) + incoming_in incoming t.
Proof.
  intros Hs Hnear Hsz Ht. unfold histogram_np_per_tile. cbv zeta.
  set (npt0 := for_range 0 (n_tiles_x * n_tiles_y) (fun i a => upd a i 0) np_per_tile).
  change (for_range 0 n_tiles_y _ npt0) with (main_histogram pv off np npt0).
  set (npt1 := main_histogram pv off np npt0).
  change (for_range 0 3 _ npt1) with (incoming_histogram incoming npt1).
  set (npt2 := incoming_histogram incoming npt1).
  rewrite upd_other by lia. rewrite histogram_copy.
  destruct (Z.leb_spec 0 t); [|lia].
  destruct (Z.ltb_spec t (n_tiles_x * n_tiles_y)); [|lia]. cbn [andb].
  unfold npt2. rewrite incoming_histogram_counts by assumption.
  unfold npt1. rewrite main_histogram_counts by assumption.
  unfold npt0. rewrite zero_loop by lia. lia.
Qed.

(** [histogram_np_per_tile] counts, for every tile, the particles that
    belong in it: those of the main vector that are not marked invalid, and
    those of the incoming buffers in use.  The particles of the main vector
    are found through the local histograms of the tiles, which see the tile
    itself and the eight tiles around it: every particle has to belong in
    one of these.  The entry [n_tiles] is set to 0, and the entries past it
    are left as they were. *)
Theorem histogram_np_per_tile_counts (pv : t_particle_vector F) (off : Z -> Z)
  (incoming : Z -> t_particle_vector F) (np_per_tile np : Z -> Z) :
  let n := n_tiles_x * n_tiles_y in
  sorted_offsets off n ->
  (forall tx ty k, 0 <= tx < n_tiles_x -> 0 <= ty < n_tiles_y ->
     off (tx + ty * n_tiles_x) <= k < off (tx + ty * n_tiles_x + 1) ->
     pv_invalid pv k = false -> near_tile pv tx ty k) ->
  (forall m, 0 <= m < 3 -> 0 <= pv_size (incoming m)) ->
  let off' := histogram_np_per_tile TILE_SIZE pv off incoming n_tiles_y n_tiles_x
                offset_region np_per_tile np in
  (forall t, 0 <= t < n ->
     off' t = count (belongs pv t) (off 0) (off n) + incoming_in incoming t) /\
  off' n = 0 /\
  (forall t, n < t -> off' t = off t).
Proof.
  intros n Hs Hnear Hsz off'. split; [|split].
  - intros t Ht. unfold off'. now apply histogram_np_per_tile_tile.
  - unfold off', histogram_np_per_tile. cbv zeta. apply upd_same.
  - intros t Ht. unfold off', histogram_np_per_tile. cbv zeta. fold n.
    assert (Hn : 0 <= n) by (unfold n; nia).
    rewrite upd_other by lia. rewrite histogram_copy.
    destruct (Z.leb_spec 0 t); destruct (Z.ltb_spec t n); cbn [andb]; try reflexivity; lia.
Qed.

End SortHistogram.

Section MovingHistogram.
Context {F : Type}.
Variables (TILE_SIZE n_tiles_x offset_region old_size : Z).
Implicit Types (pv : t_particle_vector F) (off : Z -> Z).

(** All of a vector but the flags of its particles. *)
Definition unflagged pv :=
  (pv_ix pv, pv_iy pv, pv_x pv, pv_y pv, pv_ux pv, pv_uy pv, pv_uz pv,
   pv_size pv, pv_size_max pv, pv_enable_vector pv).

(** The flag of slot [k] once the slots [lo .. hi - 1] from [old_size] on
    are marked invalid. *)
Definition flag_after pv (lo hi k : Z) : bool :=
  if (lo <=? k) && (k <? hi) && (old_size <=? k) then true else pv_invalid pv k.

(** A slot of the range of tile [t] that holds no particle of the tile. *)
Definition hole pv (t k : Z) : bool :=
  ((old_size <=? k) || pv_invalid pv k)
  || negb (target_tile TILE_SIZE pv n_tiles_x offset_region k =? t).

(** The loop of [histogram_moving_particles] over the slots of a tile. *)
Definition leaving_loop (tile_idx b e : Z) (st : t_particle_vector F * Z)
  : t_particle_vector F * Z :=
  for_range b e (fun k '(part_vector, leaving_count) =>
    let part_vector :=
      if old_size <=? k
      then with_invalid part_vector (upd (pv_invalid part_vector) k true)
      else part_vector in
    let ix := Z.quot (pv_ix part_vector k) TILE_SIZE in
    let iy := Z.quot (pv_iy part_vector k - offset_region) TILE_SIZE in
    let is_invalid := pv_invalid part_vector k in
    let target_tile := ix + iy * n_tiles_x in
    (part_vector,
     if is_invalid || negb (target_tile =? tile_idx)
     then leaving_count + 1 else leaving_count)) st.

Lemma leaving_loop_counts pv0 pv t b e :
  b <= e -> unflagged pv = unflagged pv0 ->
  (forall k, b <= k -> pv_invalid pv k = pv_invalid pv0 k) ->
  let r := leaving_loop t b e (pv, 0) in
  unflagged (fst r) = unflagged pv0 /\
  (forall k, pv_invalid (fst r) k = flag_after pv b e k) /\
  snd r = count (hole pv0 t) b e.
Proof.
  intros Hbe Hun Hfl r. subst r. unfold leaving_loop.
  apply (for_range_ind (fun m (st : t_particle_vector F * Z) =>
           unflagged (fst st) = unflagged pv0 /\
           (forall k, pv_invalid (fst st) k = flag_after pv b m k) /\
           snd st = count (hole pv0 t) b m)); try assumption.
  - cbn [fst snd]. split; [exact Hun|]. split.
    + intros k. unfold flag_after.
      destruct (Z.leb_spec b k), (Z.ltb_spec k b); cbn [andb]; try reflexivity; lia.
    + now rewrite count_empty by lia.
  - intros k [pvm cnt] Hk (Hu & Hf & Hc). cbn [fst snd] in *. cbv zeta.
    rewrite count_succ by lia. rewrite Hc.
    assert (Eix : pv_ix pvm = pv_ix pv0) by (unfold unflagged in Hu; congruence).
    assert (Eiy : pv_iy pvm = pv_iy pv0) by (unfold unflagged in Hu; congruence).
    assert (Ek : pv_invalid pvm k = pv_invalid pv0 k).
    { rewrite Hf. unfold flag_after.
      destruct (Z.ltb_spec k k); [lia|]. rewrite Bool.andb_false_r. cbn [andb].
      apply Hfl. lia. }
    destruct (Z.leb_spec old_size k) as [Hold|Hold]; cbn [fst snd].
    + split; [exact Hu|]. split.
      * intros k'. cbn [pv_invalid with_invalid]. unfold flag_after.
        destruct (Z.eq_dec k' k) as [->|Hne].
        -- rewrite upd_same.
           destruct (Z.leb_spec b k); [|lia]. destruct (Z.ltb_spec k (k + 1)); [|lia].
           destruct (Z.leb_spec old_size k); [|lia]. reflexivity.
        -- rewrite upd_other by assumption. rewrite Hf. unfold flag_after.
           destruct (Z.leb_spec b k'), (Z.ltb_spec k' k), (Z.ltb_spec k' (k + 1));
             cbn [andb]; try reflexivity; lia.
      * cbn [pv_invalid with_invalid pv_ix pv_iy]. rewrite upd_same. cbn [orb].
        assert (Eh : hole pv0 t k = true).
        { unfold hole. destruct (Z.leb_spec old_size k); [reflexivity | lia]. }
        rewrite Eh. reflexivity.
    + split; [exact Hu|]. split.
      * intros k'. rewrite Hf. unfold flag_after.
        destruct (Z.leb_spec b k'), (Z.ltb_spec k' k), (Z.ltb_spec k' (k + 1)),
          (Z.leb_spec old_size k'); cbn [andb]; try reflexivity; lia.
      * rewrite Ek, Eix, Eiy.
        assert (Eh : hole pv0 t k
                     = pv_invalid pv0 k
                       || negb (Z.quot (pv_ix pv0 k) TILE_SIZE
                                + Z.quot (pv_iy pv0 k - offset_region) TILE_SIZE * n_tiles_x
                                =? t)).
        { unfold hole, target_tile. destruct (Z.leb_spec old_size k); [lia | reflexivity]. }
        rewrite Eh. destruct (_ || _); lia.
Qed.

End MovingHistogram.

Section SpecHistogram.
Context {F : Type}.
Variables (TILE_SIZE LOCAL_BUFFER_SIZE kL : Z).
Hypothesis HL : LOCAL_BUFFER_SIZE = 2 ^ kL.
Hypothesis HkL : 1 <= kL.
Variables (n_tiles_x n_tiles_y offset_region old_size : Z).
Hypothesis Hntx : 1 <= n_tiles_x.
Hypothesis Hnty : 0 <= n_tiles_y.
Implicit Types (pv : t_particle_vector F) (off : Z -> Z).

Lemma moving_histogram_counts pv off (np_leaving : Z -> Z) (n : Z) :
  0 <= n -> sorted_offsets off n ->
  let r := histogram_moving_particles TILE_SIZE pv off np_leaving n n_tiles_x offset_region
             old_size in
  unflagged (fst r) = unflagged pv /\
  (forall k, pv_invalid (fst r) k = flag_after old_size pv (off 0) (off n) k) /\
  (forall t, 0 <= t < n ->
     snd r t = count (hole TILE_SIZE n_tiles_x offset_region old_size pv t)
                 (off t) (off (t + 1))) /\
  (forall t, ~ 0 <= t < n -> snd r t = np_leaving t).
Proof.
  intros Hn Hs r. subst r. unfold histogram_moving_particles.
  apply (for_range_ind (fun m (st : t_particle_vector F * (Z -> Z)) =>
           unflagged (fst st) = unflagged pv /\
           (forall k, pv_invalid (fst st) k = flag_after old_size pv (off 0) (off m) k) /\
           (forall t, 0 <= t < m ->
              snd st t = count (hole TILE_SIZE n_tiles_x offset_region old_size pv t)
                           (off t) (off (t + 1))) /\
           (forall t, ~ 0 <= t < m -> snd st t = np_leaving t))); try assumption.
  - cbn [fst snd]. split; [reflexivity|]. split; [|split; [intros; lia | reflexivity]].
    intros k. unfold flag_after.
    destruct (Z.leb_spec (off 0) k), (Z.ltb_spec k (off 0)); cbn [andb]; try reflexivity; lia.
  - intros t [pvt npl] Ht (Hu & Hf & Hc & Hrest). cbn [fst snd] in *. cbv zeta.
    change (for_range (off t) (off (t + 1)) _ (pvt, 0))
      with (leaving_loop TILE_SIZE n_tiles_x offset_region old_size t (off t) (off (t + 1))
              (pvt, 0)).
    assert (H0t : off 0 <= off t) by (apply Hs; lia).
    assert (Ht1 : off t <= off (t + 1)) by (apply Hs; lia).
    destruct (leaving_loop_counts TILE_SIZE n_tiles_x offset_region old_size pv pvt t
                (off t) (off (t + 1)) Ht1 Hu) as (Hu' & Hf' & Hc').
    { intros k Hk. rewrite Hf. unfold flag_after.
      destruct (Z.ltb_spec k (off t)); [lia|]. now rewrite Bool.andb_false_r. }
    destruct (leaving_loop TILE_SIZE n_tiles_x offset_region old_size t (off t) (off (t + 1))
                (pvt, 0)) as [pv' cnt].
    cbn [fst snd] in *. split; [exact Hu'|]. split; [|split].
    + intros k. rewrite Hf'. unfold flag_after at 1. rewrite Hf. unfold flag_after.
      destruct (Z.leb_spec (off t) k), (Z.ltb_spec k (off (t + 1))), (Z.leb_spec (off 0) k),
        (Z.ltb_spec k (off t)), (Z.leb_spec old_size k); cbn [andb]; try reflexivity; lia.
    + intros t' Ht'. destruct (Z.eq_dec t' t) as [->|Hne].
      * rewrite upd_same. exact Hc'.
      * rewrite upd_other by assumption. apply Hc. lia.
    + intros t' Ht'. rewrite upd_other by lia. apply Hrest. lia.
Qed.

(** [spec_histogram] finds the ranges the tiles are to have: the offset of
    tile [t] becomes the number of particles that belong in the tiles before
    it (the particles of the main vector not marked invalid, and those of
    the incoming buffers in use), the entry [n_tiles] the number of all of
    them.  The slots of these ranges from [old_size] on are marked invalid,
    and nothing else of the vector changes.  [mv_part_offset[t]] becomes
    the number of slots, in the ranges of the tiles before [t], that hold no
    particle of their tile.  Every particle of the main vector is taken to
    belong in its tile or in one of the eight around it, the number of the
    particles that belong in the tiles to be an [int], and [n_tiles + 1] to
    be at most 2^24 (the range in which the prefix sum counts its blocks
    exactly). *)
Theorem spec_histogram_offsets (fuel : nat) pv (incoming : Z -> t_particle_vector F)
  (off mv np_per_tile np : Z -> Z) :
  let n := n_tiles_x * n_tiles_y in
  let wanted t := count (belongs TILE_SIZE n_tiles_x offset_region pv t) (off 0) (off n)
                  + incoming_in TILE_SIZE n_tiles_x offset_region incoming t in
  n + 1 <= Z.of_nat fuel ->
  sorted_offsets off n ->
  (forall tx ty k, 0 <= tx < n_tiles_x -> 0 <= ty < n_tiles_y ->
     off (tx + ty * n_tiles_x) <= k < off (tx + ty * n_tiles_x + 1) ->
     pv_invalid pv k = false ->
     near_tile TILE_SIZE n_tiles_x n_tiles_y offset_region pv tx ty k) ->
  (forall m, 0 <= m < 3 -> 0 <= pv_size (incoming m)) ->
  zsum wanted 0 n < 2 ^ 31 -> n + 1 <= 2 ^ 24 ->
  exists pv' off' mv',
    spec_histogram TILE_SIZE LOCAL_BUFFER_SIZE (S fuel) pv incoming off mv n_tiles_x n_tiles_y
      offset_region old_size np_per_tile np = Some (pv', off', mv') /\
    (forall t, 0 <= t <= n -> off' t = zsum wanted 0 t) /\
    sorted_offsets off' n /\
    unflagged pv' = unflagged pv /\
    (forall k, pv_invalid pv' k = flag_after old_size pv 0 (off' n) k) /\
    (forall t, 0 <= t <= n ->
       mv' t = zsum (fun t' => count (hole TILE_SIZE n_tiles_x offset_region old_size pv t')
                                 (off' t') (off' (t' + 1))) 0 t).
Proof.
  intros n wanted Hfuel Hs Hnear Hsz Hint Hfloat. unfold spec_histogram. cbv zeta. fold n.
  assert (Hn : 0 <= n) by (unfold n; nia).
  assert (Hcnt : forall t, 0 <= t < n ->
            histogram_np_per_tile TILE_SIZE pv off incoming n_tiles_y n_tiles_x offset_region
              np_per_tile np t
            = count (belongs TILE_SIZE n_tiles_x offset_region pv t) (off 0) (off n)
              + incoming_in TILE_SIZE n_tiles_x offset_region incoming t).
  { intros t Ht.
    now apply (histogram_np_per_tile_tile TILE_SIZE n_tiles_x n_tiles_y offset_region
                 Hntx Hnty). }
  set (h := histogram_np_per_tile TILE_SIZE pv off incoming n_tiles_y n_tiles_x offset_region
              np_per_tile np) in *.
  assert (Hhn : h n = 0).
  { unfold h, histogram_np_per_tile. cbv zeta. apply upd_same. }
  assert (Hw : forall t, 0 <= wanted t).
  { intros t. unfold wanted, incoming_in.
    pose proof (count_bounds (belongs TILE_SIZE n_tiles_x offset_region pv t) (off 0) (off n)
                  ltac:(apply Hs; lia)).
    assert (0 <= zsum (fun m => if pv_enable_vector (incoming m)
                                then count (fun k => tile_of TILE_SIZE n_tiles_x offset_region
                                                       (incoming m) k =? t) 0
                                       (pv_size (incoming m))
                                else 0) 0 3); [|lia].
    apply zsum_nonneg. intros m Hm. destruct (pv_enable_vector (incoming m)); [|lia].
    pose proof (count_bounds (fun k => tile_of TILE_SIZE n_tiles_x offset_region
                                         (incoming m) k =? t) 0 (pv_size (incoming m))
                  (Hsz m Hm)). lia. }
  assert (Hpart : forall t, 0 <= t <= n -> 0 <= zsum wanted 0 t <= zsum wanted 0 n).
  { intros t Ht. rewrite (zsum_split wanted 0 t n) by lia.
    pose proof (zsum_nonneg wanted 0 t ltac:(intros; apply Hw)).
    pose proof (zsum_nonneg wanted t n ltac:(intros; apply Hw)). lia. }
  destruct (prefix_sum_fits_ok LOCAL_BUFFER_SIZE kL HL HkL fuel h (n + 1) Hfuel ltac:(lia))
    as (off' & -> & Hscan).
  { intros t Ht. destruct (Z.eq_dec t n) as [->|Hne]; [rewrite Hhn; lia|].
    rewrite Hcnt by lia. fold (wanted t). pose proof (Hw t).
    pose proof (Hpart t ltac:(lia)). pose proof (Hpart (t + 1) ltac:(lia)) as H1.
    rewrite zsum_succ in H1 by lia. lia. }
  { intros t Ht. rewrite (zsum_ext h wanted 0 t) by (intros t' Ht'; apply Hcnt; lia).
    pose proof (Hpart t ltac:(lia)). lia. }
  assert (Hoff : forall t, 0 <= t <= n -> off' t = zsum wanted 0 t).
  { intros t Ht. rewrite Hscan by lia. apply zsum_ext. intros t' Ht'. apply Hcnt. lia. }
  assert (Hs' : sorted_offsets off' n).
  { intros t t' Ht Ht'. rewrite !Hoff by lia. rewrite (zsum_split wanted 0 t t') by lia.
    pose proof (zsum_nonneg wanted t t' ltac:(intros; apply Hw)). lia. }
  destruct (moving_histogram_counts pv off' mv n Hn Hs') as (Hu & Hf & Hc & _).
  destruct (histogram_moving_particles TILE_SIZE pv off' mv n n_tiles_x offset_region old_size)
    as [pv' mv1].
  cbn [fst snd] in *.
  assert (Hmv : forall t, 0 <= t <= n -> 0 <= zsum (upd mv1 n 0) 0 t <= off' t).
  { intros t Ht. unfold zsum.
    apply (for_range_ind (fun i acc => 0 <= acc <= off' i)); try lia.
    - rewrite (Hoff 0), zsum_empty by lia. lia.
    - intros i acc Hi IH. rewrite upd_other by lia. rewrite Hc by lia.
      pose proof (count_bounds (hole TILE_SIZE n_tiles_x offset_region old_size pv i)
                    (off' i) (off' (i + 1)) ltac:(apply Hs'; lia)). lia. }
  assert (Hoffn : forall t, 0 <= t <= n -> 0 <= off' t < 2 ^ 31).
  { intros t Ht. rewrite Hoff by lia. pose proof (Hpart t Ht). lia. }
  destruct (prefix_sum_fits_ok LOCAL_BUFFER_SIZE kL HL HkL fuel (upd mv1 n 0) (n + 1) Hfuel
              ltac:(lia)) as (mv' & -> & Hscan').
  { intros t Ht. destruct (Z.eq_dec t n) as [->|Hne]; [rewrite upd_same; lia|].
    rewrite upd_other by lia. rewrite Hc by lia.
    pose proof (count_bounds (hole TILE_SIZE n_tiles_x offset_region old_size pv t)
                  (off' t) (off' (t + 1)) ltac:(apply Hs'; lia)).
    pose proof (Hoffn t ltac:(lia)). pose proof (Hoffn (t + 1) ltac:(lia)). lia. }
  { intros t Ht. pose proof (Hmv t ltac:(lia)). pose proof (Hoffn t ltac:(lia)). lia. }
  exists pv', off', mv'. split; [reflexivity|]. split; [exact Hoff|]. split; [exact Hs'|].
  split; [exact Hu|]. split.
  - intros k. rewrite Hf. rewrite (Hoff 0) by lia. now rewrite zsum_empty by lia.
  - intros t Ht. rewrite Hscan' by lia. apply zsum_ext. intros t' Ht'.
    rewrite upd_other by lia. apply Hc. lia.
Qed.

End SpecHistogram.

(** Three particles in a row of two tiles of 2 x 2 cells: the second has
    moved from the first tile into the second, the third is marked
    invalid. *)
Definition pv_moved : t_particle_vector Z :=
  mk_part_vector (of_list [1; 2; 3]) (of_list [0; 1; 0]) (of_list [10; 11; 12])
    (fun _ => 0) (fun _ => 0) (fun _ => 0) (fun _ => 0) (fun k => k =? 2) 3 8 true.

Definition off_moved : Z -> Z := fun t => if t <=? 0 then 0 else if t <=? 1 then 2 else 3.

Lemma off_moved_sorted : sorted_offsets off_moved (2 * 1).
Proof.
  intros t t' Ht Ht'. unfold off_moved.
  destruct (Z.leb_spec t 0), (Z.leb_spec t 1), (Z.leb_spec t' 0), (Z.leb_spec t' 1); lia.
Qed.

Lemma pv_moved_near tx ty k :
  0 <= tx < 2 -> 0 <= ty < 1 ->
  off_moved (tx + ty * 2) <= k < off_moved (tx + ty * 2 + 1) ->
  pv_invalid pv_moved k = false -> near_tile 2 2 1 0 pv_moved tx ty k.
Proof.
  intros Htx Hty. assert (ty = 0) by lia. subst ty.
  assert (Ex : tx = 0 \/ tx = 1) by lia.
  destruct Ex as [-> | ->]; cbn; intros Hk Hv.
  - assert (Ek : k = 0 \/ k = 1) by lia.
    destruct Ek as [-> | ->]; unfold near_tile; cbv zeta.
    + change (Z.quot (pv_ix pv_moved 0) 2) with 0.
      change (Z.quot (pv_iy pv_moved 0 - 0) 2) with 0. lia.
    + change (Z.quot (pv_ix pv_moved 1) 2) with 1.
      change (Z.quot (pv_iy pv_moved 1 - 0) 2) with 0. lia.
  - assert (k = 2) by lia. subst k. discriminate Hv.
Qed.

Lemma histogram_np_per_tile_counts_witness :
  histogram_np_per_tile 2 pv_moved off_moved (fun _ => pv_empty) 1 2 0 (fun _ => 7)
    (fun _ => 7) 1
  = count (belongs 2 2 0 pv_moved 1) (off_moved 0) (off_moved (2 * 1))
    + incoming_in 2 2 0 (fun _ => pv_empty) 1.
Proof.
  refine (proj1 (histogram_np_per_tile_counts 2 2 1 0 ltac:(lia) ltac:(lia) pv_moved off_moved
                   (fun _ => pv_empty) (fun _ => 7) (fun _ => 7)
                   off_moved_sorted pv_moved_near _) 1 ltac:(lia)).
  intros m Hm. cbn. lia.
Defined.

Lemma spec_histogram_offsets_witness :
  exists pv' off' mv',
    spec_histogram 2 1024 4 pv_moved (fun _ => pv_empty) off_moved (fun _ => 7) 2 1 0 3
      (fun _ => 7) (fun _ => 7) = Some (pv', off', mv') /\
    sorted_offsets off' (2 * 1).
Proof.
  destruct (spec_histogram_offsets 2 1024 10 eq_refl ltac:(lia) 2 1 0 3 ltac:(lia) ltac:(lia)
              3 pv_moved (fun _ => pv_empty) off_moved (fun _ => 7) (fun _ => 7) (fun _ => 7))
    as (pv' & off' & mv' & E & _ & Hs & _).
  - cbn. lia.
  - exact off_moved_sorted.
  - exact pv_moved_near.
  - intros m Hm. cbn. lia.
  - vm_compute. reflexivity.
  - cbn. lia.
  - exists pv', off', mv'. split; [exact E | exact Hs].
Defined.

(* ================================================================== *)
(** * The sort of every step *)
(* ================================================================== *)

(** The loop nest over the tiles, tile after tile. *)
Lemma tiles_nested {St : Type} (n_tx n_ty : Z) (body : Z -> Z -> St -> St) (s : St) :
  1 <= n_tx -> 0 <= n_ty ->
  for_range 0 n_ty (fun ty => for_range 0 n_tx (fun tx st => body tx ty st)) s
  = for_range 0 (n_tx * n_ty) (fun t st => body (t mod n_tx) (t / n_tx) st) s.
Proof.
  intros Hx Hy.
  apply (for_range_ind (fun ty r =>
           r = for_range 0 (n_tx * ty) (fun t st => body (t mod n_tx) (t / n_tx) st) s));
    try assumption.
  - now rewrite for_range_empty by lia.
  - intros ty r Hty ->.
    rewrite (for_range_split 0 (n_tx * ty) (n_tx * (ty + 1))) by nia.
    set (r := for_range 0 (n_tx * ty) _ s). clearbody r.
    unfold for_range at 2. replace (n_tx * (ty + 1) - n_tx * ty) with (n_tx - 0) by lia.
    replace (n_tx * ty) with (0 + n_tx * ty) at 1 by lia.
    rewrite for_n_shift. fold (for_range 0 n_tx (fun k st =>
      body ((k + n_tx * ty) mod n_tx) ((k + n_tx * ty) / n_tx) st) r).
    apply for_range_ext. intros tx st Htx. f_equal.
    + rewrite Z.mul_comm, Z.mod_add by lia. now rewrite Z.mod_small by lia.
    + rewrite Z.mul_comm, Z.div_add by lia. rewrite Z.div_small by lia. lia.
Qed.

Lemma tile_coords (n_tx n_ty t : Z) :
  1 <= n_tx -> 0 <= t < n_tx * n_ty ->
  0 <= t mod n_tx < n_tx /\ 0 <= t / n_tx < n_ty /\ t mod n_tx + t / n_tx * n_tx = t.
Proof.
  intros Hx Ht. pose proof (Z.mod_pos_bound t n_tx ltac:(lia)).
  pose proof (Z.div_mod t n_tx ltac:(lia)).
  split; [assumption|]. split; [|lia].
  split; [apply Z.div_pos; lia | apply Z.div_lt_upper_bound; lia].
Qed.

Lemma count_neg p lo hi :
  lo <= hi -> count (fun k => negb (p k)) lo hi = hi - lo - count p lo hi.
Proof.
  intros H.
  apply (for_range_ind (St := unit)
           (fun i _ => count (fun k => negb (p k)) lo i = i - lo - count p lo i)
           lo hi (fun _ u => u) tt H).
  - rewrite !count_empty by lia. lia.
  - intros i _ Hi IH. rewrite !count_succ by lia. destruct (p i); cbn [negb]; lia.
Qed.

(** The counted indices of a range inside the range of the count. *)
Lemma count_within p lo hi a b :
  lo <= a -> a <= b -> b <= hi ->
  count (fun k => p k && ((a <=? k) && (k <? b))) lo hi = count p a b.
Proof.
  intros Ha Hab Hb.
  rewrite (count_split _ lo a hi), (count_split _ a b hi) by lia.
  rewrite (count_ext _ (fun _ => false) lo a).
  2:{ intros k Hk. destruct (Z.leb_spec a k); [lia|]. now rewrite Bool.andb_false_r. }
  rewrite (count_ext _ (fun _ => false) b hi).
  2:{ intros k Hk. destruct (Z.ltb_spec k b); [lia|]. now rewrite !Bool.andb_false_r. }
  rewrite (count_ext _ p a b).
  2:{ intros k Hk. destruct (Z.leb_spec a k); [|lia]. destruct (Z.ltb_spec k b); [|lia].
      now rewrite Bool.andb_true_r. }
  assert (Hz : forall x y, count (fun _ => false) x y = 0).
  { intros x y. unfold count, zsum.
    apply (for_range_inv (fun acc => acc = 0)); [reflexivity | intros i acc Hi ->; reflexivity]. }
  rewrite !Hz. lia.
Qed.

(** A count split by cases. *)
Lemma count_cases (p q r : Z -> bool) lo hi :
  (forall k, lo <= k < hi ->
     (if p k then 1 else 0) = (if q k then 1 else 0) + (if r k then 1 else 0) :> Z) ->
  count p lo hi = count q lo hi + count r lo hi.
Proof.
  intros H. unfold count. rewrite <- zsum_add. apply zsum_ext. exact H.
Qed.

(** A loop over a list of the indices [s] of [lo, hi) with [q s], in
    increasing order, is the loop over these indices. *)
Lemma filtered_loop {St : Type} (q : Z -> bool) (idx : Z -> Z) (base lo hi : Z)
  (f : Z -> St -> St) (st : St) :
  lo <= hi ->
  (forall s, lo <= s < hi -> q s = true -> idx (base + count q lo s) = s) ->
  for_range base (base + count q lo hi) (fun k st => f (idx k) st) st
  = for_range lo hi (fun s st => if q s then f s st else st) st.
Proof.
  intros Hle. 
  apply (for_range_ind (St := unit)
           (fun i _ => (forall s, lo <= s < i -> q s = true -> idx (base + count q lo s) = s) ->
                       for_range base (base + count q lo i) (fun k st => f (idx k) st) st
                       = for_range lo i (fun s st => if q s then f s st else st) st)
           lo hi (fun _ u => u) tt Hle).
  - intros _. rewrite count_empty by lia. now rewrite !for_range_empty by lia.
  - intros i _ Hi IH Hidx. rewrite count_succ by lia.
    rewrite (for_range_last lo (i + 1)) by lia. replace (i + 1 - 1) with i by lia.
    rewrite <- IH by (intros s Hs; apply Hidx; lia).
    pose proof (count_bounds q lo i ltac:(lia)).
    destruct (q i) eqn:Hq.
    + rewrite (for_range_last base (base + (count q lo i + 1))) by lia.
      replace (base + (count q lo i + 1) - 1) with (base + count q lo i) by lia.
      rewrite (Hidx i) by (assumption || lia). reflexivity.
    + now replace (base + (count q lo i + 0)) with (base + count q lo i) by lia.
Qed.

Section SortedIdx.
Context {F : Type}.
Variables (TILE_SIZE n_tiles_x n_tiles_y offset_region old_size : Z).
Variable pv : t_particle_vector F.
Variables (off mv : Z -> Z).
Implicit Types (tidx si sc : Z -> Z).

(** The test of the passes on the particle of slot [k], seen from tile
    [u]: the slot holds no particle of the tile. *)
Definition hole_of (u k : Z) : bool :=
  pv_invalid pv k || negb (tile_of TILE_SIZE n_tiles_x offset_region pv k =? u).

Lemma hole_of_belongs u k :
  hole_of u k = negb (belongs TILE_SIZE n_tiles_x offset_region pv u k).
Proof.
  unfold hole_of, belongs. destruct (pv_invalid pv k); cbn [negb orb andb]; reflexivity.
Qed.

(** The first pass over the slots of tile [tile_idx]. *)
Definition pass1_slots (tile_idx b e : Z) (st : (Z -> Z) * Z * Z) : (Z -> Z) * Z * Z :=
  for_range b e (fun k '(target_idx, offset, right_counter) =>
    let ix := Z.quot (pv_ix pv k) TILE_SIZE in
    let iy := Z.quot (pv_iy pv k - offset_region) TILE_SIZE in
    let is_invalid := pv_invalid pv k in
    let target_tile := ix + iy * n_tiles_x in
    let '(target_idx, offset) :=
      if is_invalid || negb (target_tile =? tile_idx)
      then (upd target_idx offset k, offset + 1)
      else (target_idx, offset) in
    (target_idx, offset,
     if negb is_invalid && (target_tile =? tile_idx + 1)
     then right_counter + 1 else right_counter)) st.

Definition pass1_tile (tile_x tile_y : Z) (st : (Z -> Z) * (Z -> Z)) : (Z -> Z) * (Z -> Z) :=
  let '(target_idx, source_counter) := st in
  let tile_idx := tile_x + tile_y * n_tiles_x in
  let begin := off tile_idx in
  let end_ := off (tile_idx + 1) in
  let offset := mv tile_idx in
  let right_counter := 0 in
  let '(target_idx, offset, right_counter) :=
    pass1_slots tile_idx begin end_ (target_idx, offset, right_counter) in
  (target_idx,
   if tile_x <? n_tiles_x - 1
   then upd source_counter (tile_idx + 1) (source_counter (tile_idx + 1) + right_counter)
   else source_counter).

Definition pass1 (st : (Z -> Z) * (Z -> Z)) : (Z -> Z) * (Z -> Z) :=
  for_range 0 n_tiles_y (fun tile_y =>
    for_range 0 n_tiles_x (fun tile_x st => pass1_tile tile_x tile_y st)) st.

(** The second pass on the particle of slot [source]. *)
Definition pass2_slot (tile_x tile_idx source : Z) (st : (Z -> Z) * (Z -> Z) * Z * Z)
  : (Z -> Z) * (Z -> Z) * Z * Z :=
  let '(source_idx, source_counter, left_counter, right_counter) := st in
  let ix := Z.quot (pv_ix pv source) TILE_SIZE in
  let iy := Z.quot (pv_iy pv source - offset_region) TILE_SIZE in
  let is_invalid := pv_invalid pv source in
  let target_tile := ix + iy * n_tiles_x in
  if negb is_invalid then
    if (0 <? tile_x) && (target_tile =? tile_idx - 1) then
      (upd source_idx left_counter source, source_counter,
       left_counter - 1, right_counter)
    else if (tile_x <? n_tiles_x - 1) && (target_tile =? tile_idx + 1) then
      (upd source_idx right_counter source, source_counter,
       left_counter, right_counter + 1)
    else
      (upd source_idx (source_counter target_tile) source,
       upd source_counter target_tile (source_counter target_tile + 1),
       left_counter, right_counter)
  else (source_idx, source_counter, left_counter, right_counter).

(** The second pass over the list of the slots to fill of a tile. *)
Definition pass2_list (tidx : Z -> Z) (tile_x tile_idx b e : Z)
  (st : (Z -> Z) * (Z -> Z) * Z * Z) : (Z -> Z) * (Z -> Z) * Z * Z :=
  for_range b e (fun k st => pass2_slot tile_x tile_idx (tidx k) st) st.

Definition pass2_tile (tidx : Z -> Z) (tile_x tile_y : Z) (st : (Z -> Z) * (Z -> Z))
  : (Z -> Z) * (Z -> Z) :=
  let '(source_idx, source_counter) := st in
  let tile_idx := tile_x + tile_y * n_tiles_x in
  let begin := mv tile_idx in
  let end_ := mv (tile_idx + 1) in
  let left_counter := begin - 1 in
  let right_counter := end_ in
  let '(source_idx, source_counter, _, _) :=
    pass2_list tidx tile_x tile_idx begin end_
      (source_idx, source_counter, left_counter, right_counter) in
  (source_idx, source_counter).

Definition pass2 (tidx : Z -> Z) (st : (Z -> Z) * (Z -> Z)) : (Z -> Z) * (Z -> Z) :=
  for_range 0 n_tiles_y (fun tile_y =>
    for_range 0 n_tiles_x (fun tile_x st => pass2_tile tidx tile_x tile_y st)) st.

(** The last pass, over the slots the vector has lost. *)
Definition pass3_slot (k : Z) (st : (Z -> Z) * (Z -> Z)) : (Z -> Z) * (Z -> Z) :=
  let '(source_idx, source_counter) := st in
  let ix := Z.quot (pv_ix pv k) TILE_SIZE in
  let iy := Z.quot (pv_iy pv k - offset_region) TILE_SIZE in
  let is_invalid := pv_invalid pv k in
  let target_tile := ix + iy * n_tiles_x in
  if negb is_invalid then
    (upd source_idx (source_counter target_tile) k,
     upd source_counter target_tile (source_counter target_tile + 1))
  else (source_idx, source_counter).

Definition pass3 (size : Z) (st : (Z -> Z) * (Z -> Z)) : (Z -> Z) * (Z -> Z) :=
  if size <? old_size then for_range size old_size pass3_slot st else st.

Lemma calculate_sorted_idx_passes (source_idx target_idx source_counter : Z -> Z)
  (sorting_size : Z) :
  calculate_sorted_idx TILE_SIZE pv off source_idx target_idx source_counter mv
    n_tiles_y n_tiles_x old_size offset_region sorting_size
  = let si0 := for_range 0 sorting_size (fun i a => upd a i (-1)) source_idx in
    let sc0 := for_range 0 (n_tiles_x * n_tiles_y) (fun i a => upd a i (mv i)) source_counter in
    let p1 := pass1 (target_idx, sc0) in
    let p2 := pass2 (fst p1) (si0, snd p1) in
    let p3 := pass3 (pv_size pv) p2 in
    (fst p3, fst p1, snd p3).
Proof.
  unfold calculate_sorted_idx. cbv zeta.
  set (si0 := for_range 0 sorting_size _ source_idx).
  set (sc0 := for_range 0 (n_tiles_x * n_tiles_y) _ source_counter).
  change (for_range 0 n_tiles_y _ (target_idx, sc0)) with (pass1 (target_idx, sc0)).
  destruct (pass1 (target_idx, sc0)) as [tidx sc1]. cbn [fst snd].
  change (for_range 0 n_tiles_y _ (si0, sc1)) with (pass2 tidx (si0, sc1)).
  destruct (pass2 tidx (si0, sc1)) as [si2 sc2].
  change (if pv_size pv <? old_size then _ else (si2, sc2))
    with (pass3 (pv_size pv) (si2, sc2)).
  destruct (pass3 (pv_size pv) (si2, sc2)) as [si3 sc3]. reflexivity.
Qed.


Lemma fill_loop {A : Type} (g : Z -> A) (a : Z -> A) (m t : Z) :
  0 <= t < m -> for_range 0 m (fun i a => upd a i (g i)) a t = g t.
Proof.
  intros Ht. rewrite (for_range_hit (fun a => a t) 0 m t); try assumption.
  - apply upd_same.
  - intros j b Hj Hne. now apply upd_other.
  - intros b b' _. now rewrite !upd_same.
Qed.

(* ------------------------------------------------------------------ *)
(** ** The first pass: the list of the slots to fill *)

Hypothesis Hntx : 1 <= n_tiles_x.
Hypothesis Hnty : 0 <= n_tiles_y.
Hypothesis Hoff : sorted_offsets off (n_tiles_x * n_tiles_y).
Hypothesis Hmv : forall t, 0 <= t <= n_tiles_x * n_tiles_y ->
  mv t = zsum (fun u => count (hole_of u) (off u) (off (u + 1))) 0 t.

Lemma range_sorted u : 0 <= u < n_tiles_x * n_tiles_y -> off u <= off (u + 1).
Proof. intros Hu. apply Hoff; lia. Qed.

Lemma mv_succ u :
  0 <= u < n_tiles_x * n_tiles_y ->
  mv (u + 1) = mv u + count (hole_of u) (off u) (off (u + 1)).
Proof.
  intros Hu. rewrite (Hmv (u + 1)), (Hmv u) by lia. now rewrite zsum_succ by lia.
Qed.

Lemma mv_sorted u u' :
  0 <= u <= u' -> u' <= n_tiles_x * n_tiles_y -> mv u <= mv u'.
Proof.
  intros Hu Hu'. rewrite (Hmv u), (Hmv u') by lia.
  rewrite (zsum_split _ 0 u u') by lia.
  pose proof (zsum_nonneg (fun u => count (hole_of u) (off u) (off (u + 1))) u u') as Hnn.
  cbv beta in Hnn. 
  assert (0 <= zsum (fun u0 => count (hole_of u0) (off u0) (off (u0 + 1))) u u').
  { apply Hnn. intros j Hj. apply count_bounds. apply range_sorted. lia. }
  lia.
Qed.

Lemma mv_zero : mv 0 = 0.
Proof. rewrite Hmv by nia. now apply zsum_empty. Qed.

Lemma pass1_slots_spec u b e tidx o0 :
  b <= e ->
  let r := pass1_slots u b e (tidx, o0, 0) in
  snd (fst r) = o0 + count (hole_of u) b e /\
  snd r = count (belongs TILE_SIZE n_tiles_x offset_region pv (u + 1)) b e /\
  (forall s, b <= s < e -> hole_of u s = true ->
     fst (fst r) (o0 + count (hole_of u) b s) = s) /\
  (forall i, ~ (o0 <= i < o0 + count (hole_of u) b e) -> fst (fst r) i = tidx i).
Proof.
  intros Hbe r. unfold r, pass1_slots.
  apply (for_range_ind (fun m st =>
    snd (fst st) = o0 + count (hole_of u) b m /\
    snd st = count (belongs TILE_SIZE n_tiles_x offset_region pv (u + 1)) b m /\
    (forall s, b <= s < m -> hole_of u s = true ->
       fst (fst st) (o0 + count (hole_of u) b s) = s) /\
    (forall i, ~ (o0 <= i < o0 + count (hole_of u) b m) -> fst (fst st) i = tidx i)));
    try assumption.
  - cbn [fst snd]. rewrite !count_empty by lia. repeat split; intros; lia.
  - intros m [[ti o] rc] Hm (Ho & Hrc & Hin & Hout). cbn [fst snd] in *. cbv zeta.
    rewrite !count_succ by lia.
    change (pv_invalid pv m
            || negb (Z.quot (pv_ix pv m) TILE_SIZE
                     + Z.quot (pv_iy pv m - offset_region) TILE_SIZE * n_tiles_x =? u))
      with (hole_of u m).
    change (negb (pv_invalid pv m)
            && (Z.quot (pv_ix pv m) TILE_SIZE
                + Z.quot (pv_iy pv m - offset_region) TILE_SIZE * n_tiles_x =? u + 1))
      with (belongs TILE_SIZE n_tiles_x offset_region pv (u + 1) m).
    pose proof (count_bounds (hole_of u) b m ltac:(lia)) as Hcb.
    destruct (hole_of u m) eqn:Hh; cbn [fst snd].
    + split; [lia|]. split.
      { destruct (belongs TILE_SIZE n_tiles_x offset_region pv (u + 1) m); lia. }
      split.
      * intros s Hs Hhs. destruct (Z.eq_dec s m) as [->|Hne].
        -- rewrite <- Ho. apply upd_same.
        -- rewrite upd_other.
           ++ apply Hin; [lia | assumption].
           ++ pose proof (count_hit (hole_of u) b s m ltac:(lia) Hhs). lia.
      * intros i Hi. rewrite upd_other by lia. apply Hout. lia.
    + split; [lia|]. split.
      { destruct (belongs TILE_SIZE n_tiles_x offset_region pv (u + 1) m); lia. }
      split.
      * intros s Hs Hhs. destruct (Z.eq_dec s m) as [->|Hne]; [congruence|].
        apply Hin; [lia | assumption].
      * intros i Hi. apply Hout. lia.
Qed.

(** The particles of the range of tile [u - 1] that go to tile [u], the
    tile on their right in the same row. *)
Definition from_left (u : Z) : Z :=
  if 0 <? u mod n_tiles_x
  then count (belongs TILE_SIZE n_tiles_x offset_region pv u) (off (u - 1)) (off u)
  else 0.

Lemma next_in_row u :
  0 <= u -> (u mod n_tiles_x <? n_tiles_x - 1) = (0 <? (u + 1) mod n_tiles_x).
Proof.
  intros Hu.
  pose proof (Z.mod_pos_bound u n_tiles_x ltac:(lia)) as Hm.
  pose proof (Z.div_mod u n_tiles_x ltac:(lia)) as Hd.
  destruct (Z.ltb_spec (u mod n_tiles_x) (n_tiles_x - 1)) as [Hlt|Hge].
  - assert (E : (u + 1) mod n_tiles_x = u mod n_tiles_x + 1).
    { symmetry. apply (Z.mod_unique_pos _ _ (u / n_tiles_x)); lia. }
    rewrite E. symmetry. apply Z.ltb_lt. lia.
  - assert (E : (u + 1) mod n_tiles_x = 0).
    { symmetry. apply (Z.mod_unique_pos _ _ (u / n_tiles_x + 1)); lia. }
    rewrite E. reflexivity.
Qed.

Lemma pass1_flat st :
  pass1 st = for_range 0 (n_tiles_x * n_tiles_y)
               (fun t st => pass1_tile (t mod n_tiles_x) (t / n_tiles_x) st) st.
Proof. unfold pass1. now apply tiles_nested. Qed.

Lemma pass1_spec tidx0 sc0 :
  (forall t, 0 <= t < n_tiles_x * n_tiles_y -> sc0 t = mv t) ->
  let r := pass1 (tidx0, sc0) in
  (forall u s, 0 <= u < n_tiles_x * n_tiles_y -> off u <= s < off (u + 1) ->
     hole_of u s = true -> fst r (mv u + count (hole_of u) (off u) s) = s) /\
  (forall t, 0 <= t < n_tiles_x * n_tiles_y -> snd r t = mv t + from_left t).
Proof.
  intros Hsc0 r. unfold r. rewrite pass1_flat.
  assert (Hn : 0 <= n_tiles_x * n_tiles_y) by nia.
  pose (P := fun (m : Z) (st : (Z -> Z) * (Z -> Z)) =>
    (forall u s, 0 <= u < m -> off u <= s < off (u + 1) ->
       hole_of u s = true -> fst st (mv u + count (hole_of u) (off u) s) = s) /\
    (forall t, 0 <= t < n_tiles_x * n_tiles_y ->
       snd st t = mv t + (if t - 1 <? m then from_left t else 0))).
  assert (G : P (n_tiles_x * n_tiles_y)
    (for_range 0 (n_tiles_x * n_tiles_y)
       (fun t st => pass1_tile (t mod n_tiles_x) (t / n_tiles_x) st) (tidx0, sc0))).
  { apply (for_range_ind P); try assumption; unfold P.
    - cbn [fst snd]. split; [intros; lia|].
      intros t Ht. rewrite Hsc0 by assumption.
      destruct (Z.ltb_spec (t - 1) 0); [|lia].
      assert (t = 0) as -> by lia. unfold from_left. rewrite Z.mod_0_l by lia. cbn. lia.
    - intros m [ti sc] Hm [Hin Hsc]. cbn [fst snd] in *.
      unfold pass1_tile.
      destruct (tile_coords n_tiles_x n_tiles_y m Hntx Hm) as (Hx & Hy & Em).
      rewrite Em.
      pose proof (pass1_slots_spec m (off m) (off (m + 1)) ti (mv m) (range_sorted m Hm))
        as Hs. cbv zeta in Hs.
      destruct (pass1_slots m (off m) (off (m + 1)) (ti, mv m, 0)) as [[ti' o'] rc'].
      cbn [fst snd] in Hs. destruct Hs as (Ho & Hrc & Hin' & Hout'). cbn [fst snd].
      split.
      + intros u s Hu Hs Hh. destruct (Z.eq_dec u m) as [->|Hne].
        * now apply Hin'.
        * rewrite Hout'.
          -- apply Hin; [lia | assumption | assumption].
          -- pose proof (count_hit (hole_of u) (off u) s (off (u + 1)) ltac:(lia) Hh).
             pose proof (mv_succ u ltac:(lia)).
             pose proof (mv_sorted (u + 1) m ltac:(lia) ltac:(lia)).
             pose proof (count_bounds (hole_of u) (off u) s ltac:(lia)).
             lia.
      + intros t Ht. rewrite next_in_row by lia.
        destruct (Z.ltb_spec 0 ((m + 1) mod n_tiles_x)) as [Hr|Hr].
        * destruct (Z.eq_dec t (m + 1)) as [->|Hne].
          -- rewrite upd_same, Hsc by lia.
             destruct (Z.ltb_spec (m + 1 - 1) m); [lia|].
             destruct (Z.ltb_spec (m + 1 - 1) (m + 1)); [|lia].
             unfold from_left. destruct (Z.ltb_spec 0 ((m + 1) mod n_tiles_x)); [|lia].
             replace (m + 1 - 1) with m by lia. lia.
          -- rewrite upd_other, Hsc by lia.
             destruct (Z.ltb_spec (t - 1) m), (Z.ltb_spec (t - 1) (m + 1)); try lia.
        * rewrite Hsc by lia.
          destruct (Z.ltb_spec (t - 1) m), (Z.ltb_spec (t - 1) (m + 1)); try lia.
          assert (t = m + 1) as -> by lia. unfold from_left.
          destruct (Z.ltb_spec 0 ((m + 1) mod n_tiles_x)); [lia | reflexivity]. }
  unfold P in G. destruct G as [G1 G2]. split; [exact G1|].
  intros t Ht. rewrite G2 by assumption.
  destruct (Z.ltb_spec (t - 1) (n_tiles_x * n_tiles_y)); [reflexivity | lia].
Qed.

(** Every entry of the list of tile [u] is a slot of the tile to fill. *)
Lemma listed_slot (tidx : Z -> Z) u i :
  (forall u s, 0 <= u < n_tiles_x * n_tiles_y -> off u <= s < off (u + 1) ->
     hole_of u s = true -> tidx (mv u + count (hole_of u) (off u) s) = s) ->
  0 <= u < n_tiles_x * n_tiles_y -> mv u <= i < mv (u + 1) ->
  off u <= tidx i < off (u + 1) /\ hole_of u (tidx i) = true /\
  i = mv u + count (hole_of u) (off u) (tidx i).
Proof.
  intros Hin Hu Hi. rewrite mv_succ in Hi by assumption.
  destruct (count_onto (hole_of u) (off u) (off (u + 1)) (i - mv u) (range_sorted u Hu))
    as (s & Hs & Hh & Hr); [lia|].
  assert (E : tidx i = s).
  { replace i with (mv u + count (hole_of u) (off u) s) by lia. now apply Hin. }
  rewrite E. repeat split; try lia. assumption.
Qed.


(* ------------------------------------------------------------------ *)
(** ** The particles that change tile *)

Hypothesis Hoff0 : off 0 = 0.

(** Slot [k] is in the range of tile [t]. *)
Definition in_range (t k : Z) : bool := (off t <=? k) && (k <? off (t + 1)).

(** The particles that go to tile [t]: from the tile on its left in the
    row, from the tile on its right in the row, and all the others that
    are not in its range. *)
Definition to_right (t k : Z) : bool :=
  belongs TILE_SIZE n_tiles_x offset_region pv t k
  && (in_range (t - 1) k && (0 <? t mod n_tiles_x)).
Definition to_left (t k : Z) : bool :=
  belongs TILE_SIZE n_tiles_x offset_region pv t k
  && (in_range (t + 1) k && (0 <? (t + 1) mod n_tiles_x)).
Definition to_far (t k : Z) : bool :=
  belongs TILE_SIZE n_tiles_x offset_region pv t k
  && negb (in_range t k)
  && negb (in_range (t - 1) k && (0 <? t mod n_tiles_x))
  && negb (in_range (t + 1) k && (0 <? (t + 1) mod n_tiles_x)).

(** The same, seen from the tile [u] that holds the particle of slot [s]:
    the three branches of the second pass. *)
Definition goes_left (u s : Z) : bool :=
  negb (pv_invalid pv s)
  && ((0 <? u mod n_tiles_x) && (tile_of TILE_SIZE n_tiles_x offset_region pv s =? u - 1)).
Definition goes_right (u s : Z) : bool :=
  negb (pv_invalid pv s)
  && ((u mod n_tiles_x <? n_tiles_x - 1)
      && (tile_of TILE_SIZE n_tiles_x offset_region pv s =? u + 1)).
Definition goes_far (u s : Z) : bool :=
  negb (pv_invalid pv s)
  && negb (tile_of TILE_SIZE n_tiles_x offset_region pv s =? u)
  && negb ((0 <? u mod n_tiles_x)
           && (tile_of TILE_SIZE n_tiles_x offset_region pv s =? u - 1))
  && negb ((u mod n_tiles_x <? n_tiles_x - 1)
           && (tile_of TILE_SIZE n_tiles_x offset_region pv s =? u + 1)).

Lemma tiles_mod_zero : (n_tiles_x * n_tiles_y) mod n_tiles_x = 0.
Proof. rewrite Z.mul_comm. apply Z.mod_mul. lia. Qed.

Lemma in_range_tile u t s :
  0 <= u < n_tiles_x * n_tiles_y -> 0 <= t < n_tiles_x * n_tiles_y ->
  off u <= s < off (u + 1) -> in_range t s = (t =? u).
Proof.
  intros Hu Ht Hs. unfold in_range. destruct (Z.eqb_spec t u) as [->|Hne].
  - destruct (Z.leb_spec (off u) s), (Z.ltb_spec s (off (u + 1))); first [reflexivity | lia].
  - pose proof (sorted_disjoint off (n_tiles_x * n_tiles_y) u t s Hoff
                  ltac:(lia) ltac:(lia) ltac:(lia) ltac:(lia) ltac:(congruence) Hs) as Hd.
    destruct (Z.leb_spec (off t) s), (Z.ltb_spec s (off (t + 1))); try reflexivity.
    exfalso. apply Hd. lia.
Qed.

Lemma in_range_prev u t s :
  0 <= u < n_tiles_x * n_tiles_y -> 0 <= t < n_tiles_x * n_tiles_y ->
  off u <= s < off (u + 1) ->
  in_range (t - 1) s && (0 <? t mod n_tiles_x)
  = (t =? u + 1) && (0 <? (u + 1) mod n_tiles_x).
Proof.
  intros Hu Ht Hs. destruct (Z.eqb_spec t (u + 1)) as [->|Hne].
  - replace (u + 1 - 1) with u by lia. now rewrite (in_range_tile u u s), Z.eqb_refl.
  - cbn [andb]. destruct (Z.eq_dec t 0) as [->|Hz].
    + rewrite Z.mod_0_l by lia. apply Bool.andb_false_r.
    + rewrite (in_range_tile u (t - 1) s) by lia.
      destruct (Z.eqb_spec (t - 1) u); [lia | reflexivity].
Qed.

Lemma in_range_next u t s :
  0 <= u < n_tiles_x * n_tiles_y -> 0 <= t < n_tiles_x * n_tiles_y ->
  off u <= s < off (u + 1) ->
  in_range (t + 1) s && (0 <? (t + 1) mod n_tiles_x)
  = (t =? u - 1) && (0 <? u mod n_tiles_x).
Proof.
  intros Hu Ht Hs. destruct (Z.eqb_spec t (u - 1)) as [->|Hne].
  - replace (u - 1 + 1) with u by lia. now rewrite (in_range_tile u u s), Z.eqb_refl.
  - cbn [andb]. destruct (Z.eq_dec (t + 1) (n_tiles_x * n_tiles_y)) as [E|Hz].
    + rewrite E, tiles_mod_zero. apply Bool.andb_false_r.
    + rewrite (in_range_tile u (t + 1) s) by lia.
      destruct (Z.eqb_spec (t + 1) u); [lia | reflexivity].
Qed.

Lemma in_range_beyond t s :
  0 <= t < n_tiles_x * n_tiles_y -> off (n_tiles_x * n_tiles_y) <= s -> in_range t s = false.
Proof.
  intros Ht Hs. unfold in_range.
  pose proof (Hoff (t + 1) (n_tiles_x * n_tiles_y) ltac:(lia) ltac:(lia)).
  destruct (Z.ltb_spec s (off (t + 1))); [lia | apply Bool.andb_false_r].
Qed.

Section SlotOfTile.
Variables (u s : Z).
Hypothesis Hu : 0 <= u < n_tiles_x * n_tiles_y.
Hypothesis Hs : off u <= s < off (u + 1).

Lemma to_left_class t :
  0 <= t < n_tiles_x * n_tiles_y ->
  to_left t s = goes_left u s && (tile_of TILE_SIZE n_tiles_x offset_region pv s =? t).
Proof.
  intros Ht. unfold to_left, goes_left, belongs.
  rewrite (in_range_next u t s) by assumption.
  destruct (pv_invalid pv s); cbn [negb andb]; [reflexivity|].
  destruct (0 <? u mod n_tiles_x); cbn [andb];
    [|rewrite !Bool.andb_false_r; reflexivity].
  rewrite Bool.andb_true_r.
  destruct (Z.eqb_spec (tile_of TILE_SIZE n_tiles_x offset_region pv s) t),
    (Z.eqb_spec t (u - 1)),
    (Z.eqb_spec (tile_of TILE_SIZE n_tiles_x offset_region pv s) (u - 1));
    try reflexivity; lia.
Qed.

Lemma to_right_class t :
  0 <= t < n_tiles_x * n_tiles_y ->
  to_right t s = goes_right u s && (tile_of TILE_SIZE n_tiles_x offset_region pv s =? t).
Proof.
  intros Ht. unfold to_right, goes_right, belongs.
  rewrite (in_range_prev u t s) by assumption.
  rewrite (next_in_row u) by lia.
  destruct (pv_invalid pv s); cbn [negb andb]; [reflexivity|].
  destruct (0 <? (u + 1) mod n_tiles_x); cbn [andb];
    [|rewrite !Bool.andb_false_r; reflexivity].
  rewrite Bool.andb_true_r.
  destruct (Z.eqb_spec (tile_of TILE_SIZE n_tiles_x offset_region pv s) t),
    (Z.eqb_spec t (u + 1)),
    (Z.eqb_spec (tile_of TILE_SIZE n_tiles_x offset_region pv s) (u + 1));
    try reflexivity; lia.
Qed.

Lemma to_far_class t :
  0 <= t < n_tiles_x * n_tiles_y ->
  to_far t s = goes_far u s && (tile_of TILE_SIZE n_tiles_x offset_region pv s =? t).
Proof.
  intros Ht. unfold to_far, goes_far, belongs.
  rewrite (in_range_next u t s), (in_range_prev u t s), (in_range_tile u t s) by assumption.
  rewrite (next_in_row u) by lia.
  destruct (pv_invalid pv s); cbn [negb andb]; [reflexivity|].
  destruct (0 <? (u + 1) mod n_tiles_x), (0 <? u mod n_tiles_x); cbn [andb negb];
  destruct (Z.eqb_spec (tile_of TILE_SIZE n_tiles_x offset_region pv s) t),
    (Z.eqb_spec t (u + 1)), (Z.eqb_spec t (u - 1)), (Z.eqb_spec t u),
    (Z.eqb_spec (tile_of TILE_SIZE n_tiles_x offset_region pv s) (u + 1)),
    (Z.eqb_spec (tile_of TILE_SIZE n_tiles_x offset_region pv s) (u - 1)),
    (Z.eqb_spec (tile_of TILE_SIZE n_tiles_x offset_region pv s) u);
    cbn [negb andb]; try reflexivity; lia.
Qed.

(** At most one of the three branches is taken. *)
Lemma goes_left_only : goes_left u s = true -> goes_right u s = false /\ goes_far u s = false.
Proof.
  clear Hu Hs.
  unfold goes_left, goes_right, goes_far. destruct (pv_invalid pv s); cbn [negb andb];
    [discriminate|].
  destruct (0 <? u mod n_tiles_x); cbn [andb negb]; [|discriminate].
  destruct (Z.eqb_spec (tile_of TILE_SIZE n_tiles_x offset_region pv s) (u - 1)) as [E|];
    [|discriminate].
  intros _. rewrite Bool.andb_false_r.
  destruct (Z.eqb_spec (tile_of TILE_SIZE n_tiles_x offset_region pv s) (u + 1)); [lia|].
  now rewrite Bool.andb_false_r.
Qed.

Lemma goes_right_only : goes_right u s = true -> goes_far u s = false.
Proof.
  unfold goes_right, goes_far. destruct (pv_invalid pv s); cbn [negb andb]; [discriminate|].
  intros ->. cbn [negb]. apply Bool.andb_false_r.
Qed.

End SlotOfTile.

(** The particles beyond the last range go the long way. *)
Lemma beyond_class t s :
  0 <= t < n_tiles_x * n_tiles_y -> off (n_tiles_x * n_tiles_y) <= s ->
  to_left t s = false /\ to_right t s = false /\
  to_far t s = belongs TILE_SIZE n_tiles_x offset_region pv t s.
Proof.
  intros Ht Hs.
  assert (El : in_range (t + 1) s && (0 <? (t + 1) mod n_tiles_x) = false).
  { destruct (Z.eq_dec (t + 1) (n_tiles_x * n_tiles_y)) as [E|Hz].
    - rewrite E, tiles_mod_zero. apply Bool.andb_false_r.
    - now rewrite in_range_beyond by lia. }
  assert (Er : in_range (t - 1) s && (0 <? t mod n_tiles_x) = false).
  { destruct (Z.eq_dec t 0) as [->|Hz].
    - rewrite Z.mod_0_l by lia. apply Bool.andb_false_r.
    - now rewrite in_range_beyond by lia. }
  unfold to_left, to_right, to_far. rewrite El, Er, (in_range_beyond t s) by assumption.
  cbn [negb]. now rewrite !Bool.andb_false_r, !Bool.andb_true_r.
Qed.

(** A slot that holds no particle, or one of its own tile, counts for no
    tile. *)
Lemma goes_nowhere u s :
  hole_of u s = false \/ pv_invalid pv s = true ->
  goes_left u s = false /\ goes_right u s = false /\ goes_far u s = false.
Proof.
  unfold hole_of, goes_left, goes_right, goes_far.
  destruct (pv_invalid pv s); cbn [negb andb orb]; [now repeat split|].
  intros [H|H]; [|discriminate].
  destruct (Z.eqb_spec (tile_of TILE_SIZE n_tiles_x offset_region pv s) u) as [E|];
    [|discriminate].
  cbn [negb andb].
  destruct (Z.eqb_spec (tile_of TILE_SIZE n_tiles_x offset_region pv s) (u - 1)); [lia|].
  destruct (Z.eqb_spec (tile_of TILE_SIZE n_tiles_x offset_region pv s) (u + 1)); [lia|].
  now rewrite !Bool.andb_false_r.
Qed.


(* ------------------------------------------------------------------ *)
(** ** The room in the lists *)

Variable incoming : Z -> t_particle_vector F.

Hypothesis Hold : 0 <= old_size.
Hypothesis Hmark : forall k,
  old_size <= k < off (n_tiles_x * n_tiles_y) -> pv_invalid pv k = true.
Hypothesis Hexact : forall t, 0 <= t < n_tiles_x * n_tiles_y ->
  off (t + 1) - off t
  = count (belongs TILE_SIZE n_tiles_x offset_region pv t) 0 old_size
    + incoming_in TILE_SIZE n_tiles_x offset_region incoming t.

(** The slots the passes look at. *)
Definition top : Z := Z.max (off (n_tiles_x * n_tiles_y)) old_size.

Lemma count_none p lo hi :
  (forall k, lo <= k < hi -> p k = false) -> count p lo hi = 0.
Proof.
  intros H. unfold count. rewrite (zsum_ext _ (fun _ => 0) lo hi).
  - apply zsum_zero.
  - intros k Hk. now rewrite H.
Qed.

Lemma off_bounds t :
  0 <= t <= n_tiles_x * n_tiles_y -> 0 <= off t <= off (n_tiles_x * n_tiles_y).
Proof.
  intros Ht. pose proof (Hoff 0 t ltac:(lia) ltac:(lia)).
  pose proof (Hoff t (n_tiles_x * n_tiles_y) ltac:(lia) ltac:(lia)). lia.
Qed.

Lemma top_bounds : off (n_tiles_x * n_tiles_y) <= top /\ old_size <= top.
Proof. unfold top. lia. Qed.

Lemma wanted_below_top t :
  count (belongs TILE_SIZE n_tiles_x offset_region pv t) 0 old_size
  = count (belongs TILE_SIZE n_tiles_x offset_region pv t) 0 top.
Proof.
  unfold top. destruct (Z.max_spec (off (n_tiles_x * n_tiles_y)) old_size) as [[H ->]|[H ->]].
  - reflexivity.
  - rewrite (count_split _ 0 old_size (off (n_tiles_x * n_tiles_y))) by lia.
    rewrite (count_none _ old_size); [lia|].
    intros k Hk. unfold belongs. now rewrite Hmark by lia.
Qed.

Lemma from_left_count t :
  0 <= t < n_tiles_x * n_tiles_y -> from_left t = count (to_right t) 0 top.
Proof.
  intros Ht. unfold from_left, to_right. destruct (Z.ltb_spec 0 (t mod n_tiles_x)) as [Hm|Hm].
  - assert (Ht1 : 1 <= t).
    { destruct (Z.eq_dec t 0) as [->|]; [rewrite Z.mod_0_l in Hm; lia | lia]. }
    pose proof (off_bounds (t - 1) ltac:(lia)). pose proof (off_bounds t ltac:(lia)).
    pose proof (Hoff (t - 1) t ltac:(lia) ltac:(lia)). pose proof top_bounds.
    transitivity (count (fun k => belongs TILE_SIZE n_tiles_x offset_region pv t k
                                  && ((off (t - 1) <=? k) && (k <? off t))) 0 top).
    + symmetry. apply count_within; lia.
    + apply count_ext. intros k Hk. unfold in_range. replace (t - 1 + 1) with t by lia.
      now rewrite Bool.andb_true_r.
  - symmetry. apply count_none. intros k Hk. now rewrite !Bool.andb_false_r.
Qed.

Lemma incoming_in_nonneg t :
  0 <= incoming_in TILE_SIZE n_tiles_x offset_region incoming t.
Proof.
  unfold incoming_in. apply zsum_nonneg. intros n Hn.
  destruct (pv_enable_vector (incoming n)); [|lia].
  destruct (Z_le_gt_dec 0 (pv_size (incoming n))).
  - apply count_bounds. assumption.
  - rewrite count_empty by lia. lia.
Qed.

(** The list of a tile has one entry for each particle that comes to the
    tile: from the left, from the right, from farther, or from the
    buffers of incoming particles. *)
Lemma list_capacity t :
  0 <= t < n_tiles_x * n_tiles_y ->
  mv (t + 1) - mv t
  = count (to_right t) 0 top + count (to_far t) 0 top + count (to_left t) 0 top
    + incoming_in TILE_SIZE n_tiles_x offset_region incoming t.
Proof.
  intros Ht. rewrite mv_succ by assumption.
  rewrite (count_ext (hole_of t)
             (fun k => negb (belongs TILE_SIZE n_tiles_x offset_region pv t k)))
    by (intros; apply hole_of_belongs).
  rewrite count_neg by (now apply range_sorted).
  rewrite Hexact by assumption. rewrite wanted_below_top.
  pose proof (off_bounds t ltac:(lia)). pose proof (off_bounds (t + 1) ltac:(lia)).
  pose proof (range_sorted t Ht) as Hr. pose proof top_bounds.
  rewrite <- (count_within (belongs TILE_SIZE n_tiles_x offset_region pv t) 0 top
                (off t) (off (t + 1))) by lia.
  enough (E : count (belongs TILE_SIZE n_tiles_x offset_region pv t) 0 top
              = count (fun k => belongs TILE_SIZE n_tiles_x offset_region pv t k
                                && ((off t <=? k) && (k <? off (t + 1)))) 0 top
                + count (to_right t) 0 top + count (to_far t) 0 top
                + count (to_left t) 0 top) by lia.
  unfold count. rewrite <- !zsum_add. apply zsum_ext. intros k Hk.
  unfold to_right, to_far, to_left.
  change ((off t <=? k) && (k <? off (t + 1))) with (in_range t k).
  destruct (belongs TILE_SIZE n_tiles_x offset_region pv t k); cbn [andb]; [|reflexivity].
  destruct (in_range t k) eqn:E0, (in_range (t - 1) k) eqn:E1, (in_range (t + 1) k) eqn:E2;
    unfold in_range in E0, E1, E2; replace (t - 1 + 1) with t in E1 by lia;
    destruct (0 <? t mod n_tiles_x), (0 <? (t + 1) mod n_tiles_x); cbn [andb negb];
    try reflexivity; exfalso;
    repeat match goal with
      | H : _ && _ = true |- _ => apply andb_prop in H; destruct H
      | H : (_ <=? _) = true |- _ => apply Z.leb_le in H
      | H : (_ <? _) = true |- _ => apply Z.ltb_lt in H
      end; lia.
Qed.


(* ------------------------------------------------------------------ *)
(** ** The second pass: the particles that fill the slots *)

Hypothesis Htgt : forall k, 0 <= k < top -> pv_invalid pv k = false ->
  0 <= tile_of TILE_SIZE n_tiles_x offset_region pv k < n_tiles_x * n_tiles_y.

(** Entry [i] of the list of tile [t] has its particle, when [a] particles
    have come from the left, [g] from farther and [l] from the right: the
    first fill the list from its start, the second from the entry after
    all those that come from the left, the last from its end. *)
Definition assigned (t a g l i : Z) : bool :=
  (i <? mv t + a)
  || ((mv t + from_left t <=? i) && (i <? mv t + from_left t + g))
  || (mv (t + 1) - l <=? i).

Lemma assigned_right t a g l i :
  assigned t (a + 1) g l i = assigned t a g l i || (i =? mv t + a).
Proof.
  unfold assigned.
  destruct (Z.ltb_spec i (mv t + (a + 1))), (Z.ltb_spec i (mv t + a)),
    (Z.eqb_spec i (mv t + a)); try lia;
    destruct ((mv t + from_left t <=? i) && (i <? mv t + from_left t + g)),
      (mv (t + 1) - l <=? i); reflexivity.
Qed.

Lemma assigned_far t a g l i :
  0 <= g ->
  assigned t a (g + 1) l i = assigned t a g l i || (i =? mv t + from_left t + g).
Proof.
  intros Hg. unfold assigned.
  destruct (Z.leb_spec (mv t + from_left t) i),
    (Z.ltb_spec i (mv t + from_left t + (g + 1))), (Z.ltb_spec i (mv t + from_left t + g)),
    (Z.eqb_spec i (mv t + from_left t + g)); try lia;
    destruct (i <? mv t + a), (mv (t + 1) - l <=? i); reflexivity.
Qed.

Lemma assigned_left t a g l i :
  assigned t a g (l + 1) i = assigned t a g l i || (i =? mv (t + 1) - l - 1).
Proof.
  unfold assigned.
  destruct (Z.leb_spec (mv (t + 1) - (l + 1)) i), (Z.leb_spec (mv (t + 1) - l) i),
    (Z.eqb_spec i (mv (t + 1) - l - 1)); try lia;
    destruct ((mv t + from_left t <=? i) && (i <? mv t + from_left t + g)),
      (i <? mv t + a); reflexivity.
Qed.

(** The list [si] once the slots below [s] are done, and the counters. *)
Definition filled (s : Z) (si : Z -> Z) : Prop :=
  forall t i, 0 <= t < n_tiles_x * n_tiles_y -> mv t <= i < mv (t + 1) ->
    if assigned t (count (to_right t) 0 s) (count (to_far t) 0 s) (count (to_left t) 0 s) i
    then 0 <= si i < top /\ belongs TILE_SIZE n_tiles_x offset_region pv t (si i) = true
    else si i = -1.

Definition counted (s : Z) (sc : Z -> Z) : Prop :=
  forall t, 0 <= t < n_tiles_x * n_tiles_y ->
    sc t = mv t + from_left t + count (to_far t) 0 s.

Lemma filled_skip s si :
  0 <= s -> filled s si ->
  (forall t, 0 <= t < n_tiles_x * n_tiles_y ->
     to_right t s = false /\ to_far t s = false /\ to_left t s = false) ->
  filled (s + 1) si.
Proof.
  intros Hs Hf Hno t i Ht Hi. rewrite !count_succ by lia.
  destruct (Hno t Ht) as (-> & -> & ->). rewrite !Z.add_0_r. now apply Hf.
Qed.

Lemma counted_skip s sc :
  0 <= s -> counted s sc ->
  (forall t, 0 <= t < n_tiles_x * n_tiles_y -> to_far t s = false) ->
  counted (s + 1) sc.
Proof.
  intros Hs Hc Hno t Ht. rewrite count_succ by lia. rewrite (Hno t Ht), Z.add_0_r.
  now apply Hc.
Qed.

Lemma filled_put s si t' w :
  0 <= s < top -> filled s si -> 0 <= t' < n_tiles_x * n_tiles_y ->
  belongs TILE_SIZE n_tiles_x offset_region pv t' s = true ->
  mv t' <= w < mv (t' + 1) ->
  (forall t, 0 <= t < n_tiles_x * n_tiles_y -> t <> t' ->
     to_right t s = false /\ to_far t s = false /\ to_left t s = false) ->
  (forall i,
     assigned t' (count (to_right t') 0 (s + 1)) (count (to_far t') 0 (s + 1))
       (count (to_left t') 0 (s + 1)) i
     = assigned t' (count (to_right t') 0 s) (count (to_far t') 0 s)
         (count (to_left t') 0 s) i || (i =? w)) ->
  filled (s + 1) (upd si w s).
Proof.
  intros Hs Hf Ht' Hb Hw Hno Hasg t i Ht Hi.
  destruct (Z.eq_dec t t') as [->|Hne].
  - rewrite Hasg. destruct (Z.eqb_spec i w) as [->|Hiw].
    + rewrite Bool.orb_true_r, upd_same. split; [lia | assumption].
    + rewrite Bool.orb_false_r, upd_other by assumption. now apply Hf.
  - rewrite !count_succ by lia.
    destruct (Hno t Ht Hne) as (-> & -> & ->). rewrite !Z.add_0_r.
    rewrite upd_other.
    + now apply Hf.
    + destruct (Z_lt_ge_dec t t').
      * pose proof (mv_sorted (t + 1) t' ltac:(lia) ltac:(lia)). lia.
      * pose proof (mv_sorted (t' + 1) t ltac:(lia) ltac:(lia)). lia.
Qed.

(** The three kinds of arrivals find room in the list. *)
Lemma counts_below t s :
  0 <= t < n_tiles_x * n_tiles_y -> 0 <= s <= top ->
  0 <= count (to_right t) 0 s <= from_left t /\
  0 <= count (to_far t) 0 s <= count (to_far t) 0 top /\
  0 <= count (to_left t) 0 s <= count (to_left t) 0 top /\
  from_left t + count (to_far t) 0 top + count (to_left t) 0 top <= mv (t + 1) - mv t.
Proof.
  intros Ht Hs. rewrite (from_left_count t Ht). rewrite (list_capacity t Ht).
  pose proof (incoming_in_nonneg t).
  pose proof (count_bounds (to_right t) 0 s ltac:(lia)).
  pose proof (count_bounds (to_far t) 0 s ltac:(lia)).
  pose proof (count_bounds (to_left t) 0 s ltac:(lia)).
  pose proof (count_mono (to_right t) 0 s top ltac:(lia)).
  pose proof (count_mono (to_far t) 0 s top ltac:(lia)).
  pose proof (count_mono (to_left t) 0 s top ltac:(lia)).
  lia.
Qed.

Lemma count_next p s : 0 <= s -> p s = true -> count p 0 (s + 1) = count p 0 s + 1.
Proof. intros Hs Hp. rewrite count_succ by lia. now rewrite Hp. Qed.

Lemma count_same p s : 0 <= s -> p s = false -> count p 0 (s + 1) = count p 0 s.
Proof. intros Hs Hp. rewrite count_succ by lia. rewrite Hp. lia. Qed.

Lemma filled_right s si t' :
  0 <= s < top -> filled s si -> 0 <= t' < n_tiles_x * n_tiles_y ->
  to_right t' s = true -> to_far t' s = false -> to_left t' s = false ->
  (forall t, 0 <= t < n_tiles_x * n_tiles_y -> t <> t' ->
     to_right t s = false /\ to_far t s = false /\ to_left t s = false) ->
  filled (s + 1) (upd si (mv t' + count (to_right t') 0 s) s).
Proof.
  intros Hs Hf Ht' Hr Hg Hl Hno.
  pose proof (counts_below t' (s + 1) Ht' ltac:(lia)) as Hc.
  rewrite (count_next _ s) in Hc by (try assumption; lia).
  pose proof (counts_below t' s Ht' ltac:(lia)) as Hc'.
  apply filled_put with (t' := t'); try assumption.
  - unfold to_right in Hr. now apply andb_prop in Hr.
  - lia.
  - intros i. rewrite (count_next (to_right t')), !count_same by (try assumption; lia).
    apply assigned_right.
Qed.

Lemma filled_far s si t' :
  0 <= s < top -> filled s si -> 0 <= t' < n_tiles_x * n_tiles_y ->
  to_right t' s = false -> to_far t' s = true -> to_left t' s = false ->
  (forall t, 0 <= t < n_tiles_x * n_tiles_y -> t <> t' ->
     to_right t s = false /\ to_far t s = false /\ to_left t s = false) ->
  filled (s + 1) (upd si (mv t' + from_left t' + count (to_far t') 0 s) s).
Proof.
  intros Hs Hf Ht' Hr Hg Hl Hno.
  pose proof (counts_below t' (s + 1) Ht' ltac:(lia)) as Hc.
  rewrite (count_next (to_far t') s) in Hc by (try assumption; lia).
  pose proof (counts_below t' s Ht' ltac:(lia)) as Hc'.
  apply filled_put with (t' := t'); try assumption.
  - unfold to_far in Hg. apply andb_prop in Hg. destruct Hg as [Hg _].
    apply andb_prop in Hg. destruct Hg as [Hg _]. now apply andb_prop in Hg.
  - lia.
  - intros i. rewrite (count_next (to_far t')), !count_same by (try assumption; lia).
    apply assigned_far. lia.
Qed.

Lemma filled_left s si t' :
  0 <= s < top -> filled s si -> 0 <= t' < n_tiles_x * n_tiles_y ->
  to_right t' s = false -> to_far t' s = false -> to_left t' s = true ->
  (forall t, 0 <= t < n_tiles_x * n_tiles_y -> t <> t' ->
     to_right t s = false /\ to_far t s = false /\ to_left t s = false) ->
  filled (s + 1) (upd si (mv (t' + 1) - count (to_left t') 0 s - 1) s).
Proof.
  intros Hs Hf Ht' Hr Hg Hl Hno.
  pose proof (counts_below t' (s + 1) Ht' ltac:(lia)) as Hc.
  rewrite (count_next (to_left t') s) in Hc by (try assumption; lia).
  pose proof (counts_below t' s Ht' ltac:(lia)) as Hc'.
  apply filled_put with (t' := t'); try assumption.
  - unfold to_left in Hl. now apply andb_prop in Hl.
  - lia.
  - intros i. rewrite (count_next (to_left t')), !count_same by (try assumption; lia).
    apply assigned_left.
Qed.


Lemma goes_left_true u s :
  goes_left u s = true ->
  pv_invalid pv s = false /\ 0 < u mod n_tiles_x /\
  tile_of TILE_SIZE n_tiles_x offset_region pv s = u - 1.
Proof.
  unfold goes_left. intros H. apply andb_prop in H. destruct H as [Hv H].
  apply andb_prop in H. destruct H as [Hm He].
  apply Bool.negb_true_iff in Hv. apply Z.ltb_lt in Hm. apply Z.eqb_eq in He. now repeat split.
Qed.

Lemma goes_right_true u s :
  goes_right u s = true ->
  pv_invalid pv s = false /\ u mod n_tiles_x < n_tiles_x - 1 /\
  tile_of TILE_SIZE n_tiles_x offset_region pv s = u + 1.
Proof.
  unfold goes_right. intros H. apply andb_prop in H. destruct H as [Hv H].
  apply andb_prop in H. destruct H as [Hm He].
  apply Bool.negb_true_iff in Hv. apply Z.ltb_lt in Hm. apply Z.eqb_eq in He. now repeat split.
Qed.

Lemma goes_far_true u s :
  goes_far u s = true ->
  pv_invalid pv s = false /\ tile_of TILE_SIZE n_tiles_x offset_region pv s <> u.
Proof.
  unfold goes_far. intros H. apply andb_prop in H. destruct H as [H _].
  apply andb_prop in H. destruct H as [H _]. apply andb_prop in H. destruct H as [Hv He].
  apply Bool.negb_true_iff in Hv. apply Bool.negb_true_iff in He. apply Z.eqb_neq in He.
  now split.
Qed.

Lemma to_left_prev u s :
  0 <= u < n_tiles_x * n_tiles_y -> off u <= s < off (u + 1) ->
  to_left (u - 1) s = goes_left u s.
Proof.
  intros Hu Hs. destruct (Z.eq_dec u 0) as [->|Hz].
  - unfold to_left, goes_left. cbn [Z.sub Z.opp Z.add Z.pos_sub]. 
    rewrite Z.mod_0_l by lia. cbn [Z.ltb Z.compare andb]. now rewrite !Bool.andb_false_r.
  - rewrite (to_left_class u s Hu Hs) by lia. unfold goes_left.
    destruct (Z.eqb_spec (tile_of TILE_SIZE n_tiles_x offset_region pv s) (u - 1));
      [now rewrite Bool.andb_true_r | now rewrite !Bool.andb_false_r].
Qed.

Lemma to_right_next u s :
  0 <= u < n_tiles_x * n_tiles_y -> off u <= s < off (u + 1) ->
  to_right (u + 1) s = goes_right u s.
Proof.
  intros Hu Hs. destruct (Z.eq_dec (u + 1) (n_tiles_x * n_tiles_y)) as [E|Hz].
  - unfold to_right, goes_right. rewrite (next_in_row u) by lia.
    rewrite E, tiles_mod_zero. cbn [Z.ltb Z.compare andb]. now rewrite !Bool.andb_false_r.
  - rewrite (to_right_class u s Hu Hs) by lia. unfold goes_right.
    destruct (Z.eqb_spec (tile_of TILE_SIZE n_tiles_x offset_region pv s) (u + 1));
      [now rewrite Bool.andb_true_r | now rewrite !Bool.andb_false_r].
Qed.

(** The body of the second pass, on the slots of the tile. *)
Lemma pass2_slot_cases u s (st : (Z -> Z) * (Z -> Z) * Z * Z) :
  (if hole_of u s then pass2_slot (u mod n_tiles_x) u s st else st)
  = let '(si, sc, lc, rc) := st in
    if goes_left u s then (upd si lc s, sc, lc - 1, rc)
    else if goes_right u s then (upd si rc s, sc, lc, rc + 1)
    else if goes_far u s then
      (upd si (sc (tile_of TILE_SIZE n_tiles_x offset_region pv s)) s,
       upd sc (tile_of TILE_SIZE n_tiles_x offset_region pv s)
         (sc (tile_of TILE_SIZE n_tiles_x offset_region pv s) + 1), lc, rc)
    else st.
Proof.
  destruct st as [[[si sc] lc] rc].
  destruct (hole_of u s) eqn:Hh.
  - destruct (pv_invalid pv s) eqn:Hv.
    + destruct (goes_nowhere u s (or_intror Hv)) as (-> & -> & ->).
      unfold pass2_slot. now rewrite Hv.
    + unfold pass2_slot, goes_left, goes_right, goes_far. rewrite Hv. cbn [negb andb].
      unfold hole_of in Hh. rewrite Hv in Hh. cbn [orb] in Hh. rewrite Hh. cbn [andb].
      change (Z.quot (pv_ix pv s) TILE_SIZE
              + Z.quot (pv_iy pv s - offset_region) TILE_SIZE * n_tiles_x)
        with (tile_of TILE_SIZE n_tiles_x offset_region pv s).
      destruct ((0 <? u mod n_tiles_x)
                && (tile_of TILE_SIZE n_tiles_x offset_region pv s =? u - 1));
        [reflexivity|].
      destruct ((u mod n_tiles_x <? n_tiles_x - 1)
                && (tile_of TILE_SIZE n_tiles_x offset_region pv s =? u + 1));
        reflexivity.
  - now destruct (goes_nowhere u s (or_introl Hh)) as (-> & -> & ->).
Qed.

Section SecondPassSlot.
Variables (u s : Z).
Hypothesis Hu : 0 <= u < n_tiles_x * n_tiles_y.
Hypothesis Hs : off u <= s < off (u + 1).

Lemma slot_below_top : 0 <= s < top.
Proof.
  pose proof (off_bounds u ltac:(lia)). pose proof (off_bounds (u + 1) ltac:(lia)).
  pose proof top_bounds. lia.
Qed.

(** What the slot counts for, by the branch taken. *)
Lemma none_counts :
  goes_left u s = false -> goes_right u s = false -> goes_far u s = false ->
  forall t, 0 <= t < n_tiles_x * n_tiles_y ->
    to_right t s = false /\ to_far t s = false /\ to_left t s = false.
Proof.
  intros Hl Hr Hf t Ht.
  rewrite (to_left_class u s Hu Hs t Ht), (to_right_class u s Hu Hs t Ht),
    (to_far_class u s Hu Hs t Ht), Hl, Hr, Hf. now repeat split.
Qed.

Lemma others_count t' :
  tile_of TILE_SIZE n_tiles_x offset_region pv s = t' ->
  forall t, 0 <= t < n_tiles_x * n_tiles_y -> t <> t' ->
    to_right t s = false /\ to_far t s = false /\ to_left t s = false.
Proof.
  intros E t Ht Hne.
  rewrite (to_left_class u s Hu Hs t Ht), (to_right_class u s Hu Hs t Ht),
    (to_far_class u s Hu Hs t Ht), E.
  destruct (Z.eqb_spec t' t); [congruence|]. now rewrite !Bool.andb_false_r.
Qed.

Lemma own_count t' :
  0 <= t' < n_tiles_x * n_tiles_y ->
  tile_of TILE_SIZE n_tiles_x offset_region pv s = t' ->
  to_right t' s = goes_right u s /\ to_far t' s = goes_far u s /\
  to_left t' s = goes_left u s.
Proof.
  intros Ht E.
  rewrite (to_left_class u s Hu Hs t' Ht), (to_right_class u s Hu Hs t' Ht),
    (to_far_class u s Hu Hs t' Ht), E, Z.eqb_refl. now rewrite !Bool.andb_true_r.
Qed.

Lemma pass2_step si sc :
  filled s si -> counted s sc ->
  let r := if hole_of u s
           then pass2_slot (u mod n_tiles_x) u s
                  (si, sc, mv u - 1 - count (to_left (u - 1)) 0 s,
                   mv (u + 1) + count (to_right (u + 1)) 0 s)
           else (si, sc, mv u - 1 - count (to_left (u - 1)) 0 s,
                 mv (u + 1) + count (to_right (u + 1)) 0 s) in
  filled (s + 1) (fst (fst (fst r))) /\ counted (s + 1) (snd (fst (fst r))) /\
  snd (fst r) = mv u - 1 - count (to_left (u - 1)) 0 (s + 1) /\
  snd r = mv (u + 1) + count (to_right (u + 1)) 0 (s + 1).
Proof.
  intros Hf Hc r. unfold r. rewrite pass2_slot_cases. cbv zeta.
  pose proof slot_below_top as Hst.
  rewrite !(count_succ _ 0 s) by lia.
  rewrite (to_left_prev u s Hu Hs), (to_right_next u s Hu Hs).
  destruct (goes_left u s) eqn:Hl.
  - destruct (goes_left_only u s Hl) as [Hr Hg]. rewrite Hr.
    destruct (goes_left_true u s Hl) as (Hv & Hm & E).
    assert (Hu1 : 1 <= u).
    { destruct (Z.eq_dec u 0) as [->|]; [rewrite Z.mod_0_l in Hm; lia | lia]. }
    destruct (own_count (u - 1) ltac:(lia) E) as (Er & Eg & El).
    rewrite Hr in Er. rewrite Hg in Eg. rewrite Hl in El.
    cbn [fst snd]. split; [|split; [|split; lia]].
    + replace (mv u - 1 - count (to_left (u - 1)) 0 s)
        with (mv (u - 1 + 1) - count (to_left (u - 1)) 0 s - 1)
        by (replace (u - 1 + 1) with u by lia; lia).
      apply filled_left; try assumption; try lia. now apply others_count.
    + apply counted_skip; try assumption; try lia.
      intros t Ht. rewrite (to_far_class u s Hu Hs t Ht), Hg. reflexivity.
  - destruct (goes_right u s) eqn:Hr.
    + pose proof (goes_right_only u s Hr) as Hg.
      destruct (goes_right_true u s Hr) as (Hv & Hm & E).
      assert (Hu1 : u + 1 < n_tiles_x * n_tiles_y).
      { pose proof (Htgt s Hst Hv). lia. }
      destruct (own_count (u + 1) ltac:(lia) E) as (Er & Eg & El).
      rewrite Hr in Er. rewrite Hg in Eg. rewrite Hl in El.
      cbn [fst snd]. split; [|split; [|split; lia]].
      * apply filled_right; try assumption; try lia. now apply others_count.
      * apply counted_skip; try assumption; try lia.
        intros t Ht. rewrite (to_far_class u s Hu Hs t Ht), Hg. reflexivity.
    + destruct (goes_far u s) eqn:Hg.
      * destruct (goes_far_true u s Hg) as (Hv & Hne).
        pose proof (Htgt s Hst Hv) as Ht'.
        destruct (own_count _ Ht' eq_refl) as (Er & Eg & El).
        rewrite Hr in Er. rewrite Hg in Eg. rewrite Hl in El.
        cbn [fst snd]. split; [|split; [|split; lia]].
        -- rewrite (Hc _ Ht').
           apply filled_far; try assumption; try lia. now apply others_count.
        -- intros t Ht. rewrite count_succ by lia.
           destruct (Z.eq_dec t (tile_of TILE_SIZE n_tiles_x offset_region pv s)) as [->|Hd].
           ++ rewrite upd_same, Eg, (Hc _ Ht'). lia.
           ++ rewrite upd_other by assumption.
              destruct (others_count _ eq_refl t Ht Hd) as (_ & -> & _).
              rewrite (Hc t Ht). lia.
      * cbn [fst snd]. split; [|split; [|split; lia]].
        -- apply filled_skip; try assumption; try lia. now apply none_counts.
        -- apply counted_skip; try assumption; try lia.
           intros t Ht. now apply none_counts.
Qed.

End SecondPassSlot.


(** The list [tidx] holds the slots to fill of every tile, in order. *)
Definition listed (tidx : Z -> Z) : Prop :=
  forall u s, 0 <= u < n_tiles_x * n_tiles_y -> off u <= s < off (u + 1) ->
    hole_of u s = true -> tidx (mv u + count (hole_of u) (off u) s) = s.

Lemma no_left_before u : count (to_left (u - 1)) 0 (off u) = 0.
Proof.
  apply count_none. intros k Hk. unfold to_left, in_range.
  replace (u - 1 + 1) with u by lia.
  destruct (Z.leb_spec (off u) k); [lia|]. cbn [andb]. apply Bool.andb_false_r.
Qed.

Lemma no_right_before u : count (to_right (u + 1)) 0 (off u) = 0.
Proof.
  apply count_none. intros k Hk. unfold to_right, in_range.
  replace (u + 1 - 1) with u by lia.
  destruct (Z.leb_spec (off u) k); [lia|]. cbn [andb]. apply Bool.andb_false_r.
Qed.

Lemma pass2_list_slots tidx u (st : (Z -> Z) * (Z -> Z) * Z * Z) :
  listed tidx -> 0 <= u < n_tiles_x * n_tiles_y ->
  pass2_list tidx (u mod n_tiles_x) u (mv u) (mv (u + 1)) st
  = for_range (off u) (off (u + 1))
      (fun s st => if hole_of u s then pass2_slot (u mod n_tiles_x) u s st else st) st.
Proof.
  intros Hl Hu. unfold pass2_list. rewrite (mv_succ u Hu).
  apply (filtered_loop (hole_of u) tidx (mv u) (off u) (off (u + 1))
           (pass2_slot (u mod n_tiles_x) u)).
  - now apply range_sorted.
  - intros s Hs Hh. now apply Hl.
Qed.

Lemma pass2_tile_spec tidx u si sc :
  listed tidx -> 0 <= u < n_tiles_x * n_tiles_y ->
  filled (off u) si -> counted (off u) sc ->
  let r := pass2_tile tidx (u mod n_tiles_x) (u / n_tiles_x) (si, sc) in
  filled (off (u + 1)) (fst r) /\ counted (off (u + 1)) (snd r).
Proof.
  intros Hl Hu Hf Hc r. unfold r, pass2_tile.
  destruct (tile_coords n_tiles_x n_tiles_y u Hntx Hu) as (_ & _ & Em). rewrite Em.
  rewrite (pass2_list_slots tidx u _ Hl Hu).
  pose (P := fun (s : Z) (st : (Z -> Z) * (Z -> Z) * Z * Z) =>
    filled s (fst (fst (fst st))) /\ counted s (snd (fst (fst st))) /\
    snd (fst st) = mv u - 1 - count (to_left (u - 1)) 0 s /\
    snd st = mv (u + 1) + count (to_right (u + 1)) 0 s).
  assert (G : P (off (u + 1))
    (for_range (off u) (off (u + 1))
       (fun s st => if hole_of u s then pass2_slot (u mod n_tiles_x) u s st else st)
       (si, sc, mv u - 1, mv (u + 1)))).
  { apply (for_range_ind P); unfold P.
    - now apply range_sorted.
    - cbn [fst snd]. rewrite no_left_before, no_right_before. repeat split; try assumption; lia.
    - intros s [[[si' sc'] lc'] rc'] Hs (Hf' & Hc' & Elc & Erc). cbn [fst snd] in *.
      subst lc' rc'. now apply pass2_step. }
  unfold P in G.
  destruct (for_range (off u) (off (u + 1)) _ (si, sc, mv u - 1, mv (u + 1)))
    as [[[si' sc'] lc'] rc'].
  cbn [fst snd] in *. now destruct G as (G1 & G2 & _).
Qed.

Lemma pass2_spec tidx si sc :
  listed tidx -> filled 0 si -> counted 0 sc ->
  let r := pass2 tidx (si, sc) in
  filled (off (n_tiles_x * n_tiles_y)) (fst r) /\
  counted (off (n_tiles_x * n_tiles_y)) (snd r).
Proof.
  intros Hl Hf Hc r. unfold r, pass2. rewrite (tiles_nested n_tiles_x n_tiles_y) by assumption.
  pose (P := fun (u : Z) (st : (Z -> Z) * (Z -> Z)) =>
    filled (off u) (fst st) /\ counted (off u) (snd st)).
  apply (for_range_ind P); unfold P.
  - nia.
  - rewrite Hoff0. now split.
  - intros u [si' sc'] Hu [Hf' Hc']. cbn [fst snd] in *. now apply pass2_tile_spec.
Qed.

Lemma pass3_step s si sc :
  off (n_tiles_x * n_tiles_y) <= s < top -> filled s si -> counted s sc ->
  filled (s + 1) (fst (pass3_slot s (si, sc))) /\
  counted (s + 1) (snd (pass3_slot s (si, sc))).
Proof.
  intros Hs Hf Hc. unfold pass3_slot.
  pose proof (off_bounds (n_tiles_x * n_tiles_y) ltac:(nia)) as Hb.
  change (Z.quot (pv_ix pv s) TILE_SIZE
          + Z.quot (pv_iy pv s - offset_region) TILE_SIZE * n_tiles_x)
    with (tile_of TILE_SIZE n_tiles_x offset_region pv s).
  destruct (pv_invalid pv s) eqn:Hv; cbn [negb fst snd].
  - assert (Hno : forall t, 0 <= t < n_tiles_x * n_tiles_y ->
               to_right t s = false /\ to_far t s = false /\ to_left t s = false).
    { intros t Ht. destruct (beyond_class t s Ht ltac:(lia)) as (-> & -> & ->).
      unfold belongs. rewrite Hv. now repeat split. }
    split.
    + apply filled_skip; try assumption; lia.
    + apply counted_skip; try assumption; try lia. intros t Ht. now apply Hno.
  - pose proof (Htgt s ltac:(lia) Hv) as Ht'.
    assert (Hown : belongs TILE_SIZE n_tiles_x offset_region pv
                     (tile_of TILE_SIZE n_tiles_x offset_region pv s) s = true).
    { unfold belongs. now rewrite Hv, Z.eqb_refl. }
    assert (Hno : forall t, 0 <= t < n_tiles_x * n_tiles_y ->
               t <> tile_of TILE_SIZE n_tiles_x offset_region pv s ->
               to_right t s = false /\ to_far t s = false /\ to_left t s = false).
    { intros t Ht Hne. destruct (beyond_class t s Ht ltac:(lia)) as (-> & -> & ->).
      unfold belongs. destruct (Z.eqb_spec (tile_of TILE_SIZE n_tiles_x offset_region pv s) t);
        [congruence|]. now rewrite Bool.andb_false_r. }
    destruct (beyond_class _ s Ht' ltac:(lia)) as (El & Er & Eg). rewrite Hown in Eg.
    split.
    + rewrite (Hc _ Ht'). apply filled_far; try assumption; lia.
    + intros t Ht. rewrite count_succ by lia.
      destruct (Z.eq_dec t (tile_of TILE_SIZE n_tiles_x offset_region pv s)) as [->|Hd].
      * rewrite upd_same, Eg, (Hc _ Ht'). lia.
      * rewrite upd_other by assumption. destruct (Hno t Ht Hd) as (_ & -> & _).
        rewrite (Hc t Ht). lia.
Qed.

Lemma pass3_spec si sc :
  filled (off (n_tiles_x * n_tiles_y)) si -> counted (off (n_tiles_x * n_tiles_y)) sc ->
  let r := pass3 (off (n_tiles_x * n_tiles_y)) (si, sc) in
  filled top (fst r) /\ counted top (snd r).
Proof.
  intros Hf Hc r. unfold r, pass3, top.
  destruct (Z.ltb_spec (off (n_tiles_x * n_tiles_y)) old_size) as [Hlt|Hge].
  - replace (Z.max (off (n_tiles_x * n_tiles_y)) old_size) with old_size by lia.
    pose (P := fun (s : Z) (st : (Z -> Z) * (Z -> Z)) =>
      filled s (fst st) /\ counted s (snd st)).
    apply (for_range_ind P); unfold P.
    + lia.
    + now split.
    + intros s [si' sc'] Hs [Hf' Hc']. cbn [fst snd] in *. apply pass3_step; try assumption.
      unfold top. lia.
  - replace (Z.max (off (n_tiles_x * n_tiles_y)) old_size)
      with (off (n_tiles_x * n_tiles_y)) by lia.
    now split.
Qed.

(** The lists once [calculate_sorted_idx] returns. *)
Lemma sorted_idx_spec (source_idx target_idx source_counter : Z -> Z) :
  pv_size pv = off (n_tiles_x * n_tiles_y) ->
  let r := calculate_sorted_idx TILE_SIZE pv off source_idx target_idx source_counter mv
             n_tiles_y n_tiles_x old_size offset_region (mv (n_tiles_x * n_tiles_y)) in
  listed (snd (fst r)) /\ filled top (fst (fst r)) /\ counted top (snd r).
Proof.
  intros Hsize r. unfold r. rewrite calculate_sorted_idx_passes. cbv zeta. cbn [fst snd].
  assert (Hn : 0 <= n_tiles_x * n_tiles_y) by nia.
  set (si0 := for_range 0 (mv (n_tiles_x * n_tiles_y)) _ source_idx).
  set (sc0 := for_range 0 (n_tiles_x * n_tiles_y) _ source_counter).
  destruct (pass1_spec target_idx sc0) as [H1 H1c].
  { intros t Ht. unfold sc0. now rewrite (fill_loop mv). }
  assert (Hf0 : filled 0 si0).
  { intros t i Ht Hi. rewrite !count_empty by lia. unfold assigned.
    destruct (Z.ltb_spec i (mv t + 0)); [lia|].
    destruct (Z.ltb_spec i (mv t + from_left t + 0)), (Z.leb_spec (mv t + from_left t) i),
      (Z.leb_spec (mv (t + 1) - 0) i); try lia; cbn [andb orb];
      unfold si0; rewrite (fill_loop (fun _ => -1)); try reflexivity;
      pose proof (mv_sorted 0 t ltac:(lia) ltac:(lia));
      pose proof (mv_sorted (t + 1) (n_tiles_x * n_tiles_y) ltac:(lia) ltac:(lia));
      pose proof mv_zero; lia. }
  assert (Hc0 : counted 0 (snd (pass1 (target_idx, sc0)))).
  { intros t Ht. rewrite count_empty by lia. rewrite H1c by assumption. lia. }
  destruct (pass2_spec (fst (pass1 (target_idx, sc0))) si0 (snd (pass1 (target_idx, sc0)))
              H1 Hf0 Hc0) as [Hf2 Hc2].
  rewrite Hsize.
  destruct (pass2 (fst (pass1 (target_idx, sc0))) (si0, snd (pass1 (target_idx, sc0))))
    as [si2 sc2]. cbn [fst snd] in Hf2, Hc2.
  destruct (pass3_spec si2 sc2 Hf2 Hc2) as [Hf3 Hc3].
  split; [exact H1|]. split; assumption.
Qed.


(* ------------------------------------------------------------------ *)
(** ** The moves *)

(** A move with a list of sources: the entries with a source arrive at
    their targets, the rest of the array stays. *)
Lemma spec_move_vector_sourced {A : Type} (vector : Z -> A) (source_idx target_idx : Z -> Z)
  (move_size : Z) (temp : Z -> A) :
  (forall i j, 0 <= i < move_size -> 0 <= j < move_size ->
     target_idx i = target_idx j -> i = j) ->
  let v' := spec_move_vector vector (Some source_idx) target_idx move_size temp in
  (forall i, 0 <= i < move_size -> 0 <= source_idx i ->
     v' (target_idx i) = vector (source_idx i)) /\
  (forall k, (forall i, 0 <= i < move_size -> 0 <= source_idx i -> target_idx i <> k) ->
     v' k = vector k).
Proof.
  intros Hinj v'. unfold v', spec_move_vector.
  destruct (place_loop (fun i => 0 <=? source_idx i) target_idx vector
              (for_range 0 move_size
                 (fun i temp => if 0 <=? source_idx i
                                then upd temp i (vector (source_idx i)) else temp) temp)
              move_size) as [Hput Hrest].
  { intros i j Hi Hj _ _. now apply Hinj. }
  split.
  - intros i Hi Hs. rewrite Hput by (try assumption; now apply Z.leb_le).
    apply (copy_loop (fun i => 0 <=? source_idx i) source_idx); [assumption|].
    now apply Z.leb_le.
  - intros k Hk. apply Hrest. intros i Hi Hs. apply Hk; [assumption|]. now apply Z.leb_le.
Qed.

(** A particle that has arrived in a slot: the slot is marked valid. *)
Definition arrived (p : @t_part F) : @t_part F :=
  mk_part (p_ix p) (p_iy p) (p_x p) (p_y p) (p_ux p) (p_uy p) (p_uz p) false.

(** The tile of a particle. *)
Definition tile_part (p : @t_part F) : Z :=
  Z.quot (p_ix p) TILE_SIZE + Z.quot (p_iy p - offset_region) TILE_SIZE * n_tiles_x.

Lemma arrived_valid (v : t_particle_vector F) k :
  pv_invalid v k = false -> arrived (particle v k) = particle v k.
Proof. intros H. unfold arrived, particle. cbn. now rewrite H. Qed.

(** The seven moves and the loop that marks the targets valid. *)
Lemma moved_particles (si tidx : Z -> Z) (m : Z) (temp_i : Z -> Z) (temp_f : Z -> F) :
  (forall i j, 0 <= i < m -> 0 <= j < m -> tidx i = tidx j -> i = j) ->
  let pv2 := move_particles pv (Some si) tidx m temp_i temp_f in
  let pv3 := for_range 0 m (fun i part_vector =>
               if 0 <=? si i
               then with_invalid part_vector (upd (pv_invalid part_vector) (tidx i) false)
               else part_vector) pv2 in
  (forall i, 0 <= i < m -> 0 <= si i ->
     particle pv3 (tidx i) = arrived (particle pv (si i))) /\
  (forall k, (forall i, 0 <= i < m -> 0 <= si i -> tidx i <> k) ->
     particle pv3 k = particle pv k) /\
  pv_size pv3 = pv_size pv.
Proof.
  intros Hinj pv2 pv3.
  assert (F1 : pv_ix pv2 = spec_move_vector (pv_ix pv) (Some si) tidx m temp_i)
    by reflexivity.
  assert (F2 : pv_iy pv2 = spec_move_vector (pv_iy pv) (Some si) tidx m temp_i)
    by reflexivity.
  assert (F3 : pv_x pv2 = spec_move_vector (pv_x pv) (Some si) tidx m temp_f)
    by reflexivity.
  assert (F4 : pv_y pv2 = spec_move_vector (pv_y pv) (Some si) tidx m temp_f)
    by reflexivity.
  assert (F5 : pv_ux pv2 = spec_move_vector (pv_ux pv) (Some si) tidx m temp_f)
    by reflexivity.
  assert (F6 : pv_uy pv2 = spec_move_vector (pv_uy pv) (Some si) tidx m temp_f)
    by reflexivity.
  assert (F7 : pv_uz pv2 = spec_move_vector (pv_uz pv) (Some si) tidx m temp_f)
    by reflexivity.
  assert (F8 : pv_invalid pv2 = pv_invalid pv) by reflexivity.
  assert (F9 : pv_size pv2 = pv_size pv) by reflexivity.
  clearbody pv2.
  assert (Hkept : (pv_ix pv3, kept pv3) = (pv_ix pv2, kept pv2)).
  { unfold pv3. apply (for_range_frame (fun v => (pv_ix v, kept v))).
    intros i v Hi. destruct (0 <=? si i); reflexivity. }
  assert (Hflag : pv_invalid pv3
                  = for_range 0 m (fun i v => if 0 <=? si i
                                              then upd v (tidx i) ((fun _ => false) i) else v)
                      (pv_invalid pv2)).
  { unfold pv3. apply for_range_map. intros i v Hi. destruct (0 <=? si i); reflexivity. }
  destruct (place_loop (fun i => 0 <=? si i) tidx (pv_invalid pv2) (fun _ => false) m)
    as [Hput Hrest].
  { intros i j Hi Hj _ _. now apply Hinj. }
  cbv zeta in Hput, Hrest. rewrite <- Hflag in Hput, Hrest.
  unfold kept in Hkept.
  injection Hkept as E1 E2 E3 E4 E5 E6 E7 E8 _.
  assert (Hmoved : forall (A : Type) (v t : Z -> A),
            (forall i, 0 <= i < m -> 0 <= si i ->
               spec_move_vector v (Some si) tidx m t (tidx i) = v (si i)) /\
            (forall k, (forall i, 0 <= i < m -> 0 <= si i -> tidx i <> k) ->
               spec_move_vector v (Some si) tidx m t k = v k)).
  { intros A v t. now apply spec_move_vector_sourced. }
  split; [|split].
  - intros i Hi Hs. unfold particle, arrived. cbn [p_ix p_iy p_x p_y p_ux p_uy p_uz].
    rewrite E1, E2, E3, E4, E5, E6, E7.
    rewrite Hput by (try assumption; now apply Z.leb_le).
    rewrite F1, F2, F3, F4, F5, F6, F7.
    now rewrite !(proj1 (Hmoved _ _ _)) by assumption.
  - intros k Hk. unfold particle.
    rewrite E1, E2, E3, E4, E5, E6, E7.
    rewrite Hrest by (intros i Hi Hs; apply Hk; [assumption | now apply Z.leb_le]).
    rewrite F1, F2, F3, F4, F5, F6, F7, F8.
    now rewrite !(proj2 (Hmoved _ _ _)) by assumption.
  - rewrite E8. exact F9.
Qed.

(** Every entry of the lists is in the list of one tile. *)
Lemma list_of_entry i :
  0 <= i < mv (n_tiles_x * n_tiles_y) ->
  exists u, 0 <= u < n_tiles_x * n_tiles_y /\ mv u <= i < mv (u + 1).
Proof.
  assert (Hn : 0 <= n_tiles_x * n_tiles_y) by nia.
  revert i.
  apply (for_range_ind (St := unit)
           (fun m _ => forall i, 0 <= i < mv m ->
                         exists u, 0 <= u < m /\ mv u <= i < mv (u + 1))
           0 (n_tiles_x * n_tiles_y) (fun _ x => x) tt Hn).
  - intros i Hi. rewrite mv_zero in Hi. lia.
  - intros m _ Hm IH i Hi. destruct (Z_lt_ge_dec i (mv m)) as [Hlt|Hge].
    + destruct (IH i ltac:(lia)) as (u & Hu & Hiu). exists u. split; [lia | assumption].
    + exists m. split; lia.
Qed.

(** No slot is in the lists twice. *)
Lemma listed_inj tidx i j :
  listed tidx ->
  0 <= i < mv (n_tiles_x * n_tiles_y) -> 0 <= j < mv (n_tiles_x * n_tiles_y) ->
  tidx i = tidx j -> i = j.
Proof.
  intros Hl Hi Hj E.
  destruct (list_of_entry i Hi) as (u & Hu & Hiu).
  destruct (list_of_entry j Hj) as (u' & Hu' & Hju).
  destruct (listed_slot tidx u i Hl Hu Hiu) as (Ri & _ & Ei).
  destruct (listed_slot tidx u' j Hl Hu' Hju) as (Rj & _ & Ej).
  destruct (Z.eq_dec u u') as [<-|Hne].
  - rewrite Ei, Ej, E. reflexivity.
  - exfalso. rewrite E in Ri.
    apply (sorted_disjoint off (n_tiles_x * n_tiles_y) u u' (tidx j) Hoff); try lia; assumption.
Qed.


(* ------------------------------------------------------------------ *)
(** ** The slots after the moves *)

Lemma counter_room sc t :
  counted top sc -> 0 <= t < n_tiles_x * n_tiles_y ->
  mv t <= sc t /\
  sc t + incoming_in TILE_SIZE n_tiles_x offset_region incoming t <= mv (t + 1).
Proof.
  intros Hc Ht. rewrite (Hc t Ht).
  pose proof (off_bounds (n_tiles_x * n_tiles_y) ltac:(nia)). pose proof top_bounds.
  pose proof (counts_below t top Ht ltac:(lia)) as Hb.
  pose proof (list_capacity t Ht) as Hcap. rewrite <- (from_left_count t Ht) in Hcap.
  lia.
Qed.

(** The entries of the lists that wait for an incoming particle are those
    from the counter of the tile on; all the others hold a particle that
    belongs in the tile. *)
Lemma list_final si sc t i :
  filled top si -> counted top sc ->
  0 <= t < n_tiles_x * n_tiles_y -> mv t <= i < mv (t + 1) ->
  if (sc t <=? i) && (i <? sc t + incoming_in TILE_SIZE n_tiles_x offset_region incoming t)
  then si i = -1
  else 0 <= si i < top /\ belongs TILE_SIZE n_tiles_x offset_region pv t (si i) = true.
Proof.
  intros Hf Hc Ht Hi. specialize (Hf t i Ht Hi). rewrite (Hc t Ht).
  pose proof (off_bounds (n_tiles_x * n_tiles_y) ltac:(nia)). pose proof top_bounds.
  pose proof (counts_below t top Ht ltac:(lia)) as Hb.
  pose proof (list_capacity t Ht) as Hcap. rewrite <- (from_left_count t Ht) in Hcap.
  rewrite <- (from_left_count t Ht) in Hf.
  pose proof (incoming_in_nonneg t) as Hin.
  unfold assigned in Hf.
  destruct (Z.ltb_spec i (mv t + from_left t)),
    (Z.leb_spec (mv t + from_left t) i),
    (Z.ltb_spec i (mv t + from_left t + count (to_far t) 0 top)),
    (Z.leb_spec (mv (t + 1) - count (to_left t) 0 top) i),
    (Z.leb_spec (mv t + from_left t + count (to_far t) 0 top) i),
    (Z.ltb_spec i (mv t + from_left t + count (to_far t) 0 top
                   + incoming_in TILE_SIZE n_tiles_x offset_region incoming t));
    cbn [andb orb] in Hf |- *; try assumption; lia.
Qed.

Lemma valid_below s : 0 <= s < top -> pv_invalid pv s = false -> 0 <= s < old_size.
Proof.
  intros Hs Hv. split; [lia|]. destruct (Z_lt_ge_dec s old_size) as [|Hge]; [assumption|].
  unfold top in Hs. rewrite Hmark in Hv by lia. discriminate.
Qed.

(** The particles a slot can hold after the sort: one of the particles of
    the vector that were not marked invalid, or one of an incoming
    buffer. *)
Definition input_particle (src : @t_part F) : Prop :=
  (exists s, 0 <= s < old_size /\ pv_invalid pv s = false /\ src = particle pv s) \/
  (exists n j, 0 <= n < 3 /\ pv_enable_vector (incoming n) = true /\
     0 <= j < pv_size (incoming n) /\ src = particle (incoming n) j).

(** Slot [k] of the vector [v] holds such a particle, one that belongs in
    tile [t], and is marked valid. *)
Definition settled (v : t_particle_vector F) (t k : Z) : Prop :=
  exists src, input_particle src /\ tile_part src = t /\ particle v k = arrived src.

Lemma after_moves (si tidx sc : Z -> Z) (temp_i : Z -> Z) (temp_f : Z -> F) :
  listed tidx -> filled top si -> counted top sc ->
  let pv2 := move_particles pv (Some si) tidx (mv (n_tiles_x * n_tiles_y)) temp_i temp_f in
  let pv3 := for_range 0 (mv (n_tiles_x * n_tiles_y)) (fun i part_vector =>
               if 0 <=? si i
               then with_invalid part_vector (upd (pv_invalid part_vector) (tidx i) false)
               else part_vector) pv2 in
  (forall t k, 0 <= t < n_tiles_x * n_tiles_y -> off t <= k < off (t + 1) ->
     settled pv3 t k \/
     exists i, sc t <= i < sc t + incoming_in TILE_SIZE n_tiles_x offset_region incoming t /\
               tidx i = k) /\
  pv_size pv3 = pv_size pv.
Proof.
  intros Hl Hf Hc pv2 pv3.
  destruct (moved_particles si tidx (mv (n_tiles_x * n_tiles_y)) temp_i temp_f)
    as (Hput & Hrest & Hsz).
  { intros i j Hi Hj. now apply listed_inj. }
  fold pv2 in Hput, Hrest, Hsz. fold pv3 in Hput, Hrest, Hsz.
  split; [|exact Hsz].
  intros t k Ht Hk.
  assert (Hlist : forall u, 0 <= u < n_tiles_x * n_tiles_y ->
            0 <= mv u /\ mv (u + 1) <= mv (n_tiles_x * n_tiles_y)).
  { intros u Hu. pose proof (mv_sorted 0 u ltac:(lia) ltac:(lia)).
    pose proof (mv_sorted (u + 1) (n_tiles_x * n_tiles_y) ltac:(lia) ltac:(lia)).
    pose proof mv_zero. lia. }
  destruct (hole_of t k) eqn:Hh.
  - (* a slot to fill *)
    pose proof (Hl t k Ht Hk Hh) as Ek.
    pose proof (count_hit (hole_of t) (off t) k (off (t + 1)) ltac:(lia) Hh) as Hlt.
    pose proof (count_bounds (hole_of t) (off t) k ltac:(lia)) as Hge.
    pose proof (mv_succ t Ht) as Hnext.
    set (i := mv t + count (hole_of t) (off t) k) in *.
    pose proof (list_final si sc t i Hf Hc Ht ltac:(lia)) as Hfin.
    destruct (Z.leb_spec (sc t) i) as [H1|H1];
      [destruct (Z.ltb_spec i (sc t + incoming_in TILE_SIZE n_tiles_x offset_region
                                        incoming t)) as [H2|H2]|];
      cbn [andb] in Hfin.
    + right. exists i. split; [lia | assumption].
    + left. destruct Hfin as [Hs Hb]. unfold belongs in Hb. apply andb_prop in Hb.
      destruct Hb as [Hv Et]. apply Bool.negb_true_iff in Hv. apply Z.eqb_eq in Et.
      exists (particle pv (si i)). split; [|split].
      * left. exists (si i). split; [now apply valid_below|]. now split.
      * exact Et.
      * rewrite <- Ek. apply Hput; [destruct (Hlist t Ht); lia | lia].
    + left. destruct Hfin as [Hs Hb]. unfold belongs in Hb. apply andb_prop in Hb.
      destruct Hb as [Hv Et]. apply Bool.negb_true_iff in Hv. apply Z.eqb_eq in Et.
      exists (particle pv (si i)). split; [|split].
      * left. exists (si i). split; [now apply valid_below|]. now split.
      * exact Et.
      * rewrite <- Ek. apply Hput; [destruct (Hlist t Ht); lia | lia].
  - (* a particle that stays *)
    left. rewrite hole_of_belongs in Hh. apply Bool.negb_false_iff in Hh.
    unfold belongs in Hh. apply andb_prop in Hh. destruct Hh as [Hv Et].
    apply Bool.negb_true_iff in Hv. apply Z.eqb_eq in Et.
    pose proof (off_bounds t ltac:(lia)). pose proof (off_bounds (t + 1) ltac:(lia)).
    pose proof top_bounds.
    exists (particle pv k). split; [|split].
    + left. exists k. split; [apply valid_below; [lia | assumption]|]. now split.
    + exact Et.
    + rewrite (arrived_valid pv k Hv). apply Hrest.
      intros i Hi Hs E.
      destruct (list_of_entry i Hi) as (u & Hu & Hiu).
      destruct (listed_slot tidx u i Hl Hu Hiu) as (Ri & Hhi & _).
      rewrite E in Ri, Hhi.
      destruct (Z.eq_dec u t) as [->|Hne].
      * rewrite hole_of_belongs in Hhi. unfold belongs in Hhi.
        rewrite Hv in Hhi. cbn [negb andb] in Hhi.
        rewrite Et, Z.eqb_refl in Hhi. discriminate.
      * apply (sorted_disjoint off (n_tiles_x * n_tiles_y) u t k Hoff); try lia; assumption.
Qed.


(* ------------------------------------------------------------------ *)
(** ** The incoming particles *)

Hypothesis Hinc : forall n j, 0 <= n < 3 -> pv_enable_vector (incoming n) = true ->
  0 <= j < pv_size (incoming n) ->
  0 <= tile_of TILE_SIZE n_tiles_x offset_region (incoming n) j < n_tiles_x * n_tiles_y.

(** The body of the merge for particle [k] of the buffer [src]. *)
Definition merge_one (src : t_particle_vector F) (tidx : Z -> Z) (k : Z)
  (st : t_particle_vector F * (Z -> Z)) : t_particle_vector F * (Z -> Z) :=
  let '(part_vector, counter) := st in
  let ix := Z.quot (pv_ix src k) TILE_SIZE in
  let iy := Z.quot (pv_iy src k - offset_region) TILE_SIZE in
  let target_tile := ix + iy * n_tiles_x in
  let idx := counter target_tile in
  let counter := upd counter target_tile (counter target_tile + 1) in
  let target := tidx idx in
  let pv := part_vector in
  let pv := with_ix pv (upd (pv_ix pv) target (pv_ix src k)) in
  let pv := with_iy pv (upd (pv_iy pv) target (pv_iy src k)) in
  let pv := with_x pv (upd (pv_x pv) target (pv_x src k)) in
  let pv := with_y pv (upd (pv_y pv) target (pv_y src k)) in
  let pv := with_ux pv (upd (pv_ux pv) target (pv_ux src k)) in
  let pv := with_uy pv (upd (pv_uy pv) target (pv_uy src k)) in
  let pv := with_uz pv (upd (pv_uz pv) target (pv_uz src k)) in
  let pv := with_invalid pv (upd (pv_invalid pv) target false) in
  (pv, counter).

Definition merge_buffer (tidx : Z -> Z) (n : Z)
  (st : t_particle_vector F * (Z -> t_particle_vector F) * (Z -> Z))
  : t_particle_vector F * (Z -> t_particle_vector F) * (Z -> Z) :=
  let '(part_vector, incoming_part, counter) := st in
  if pv_enable_vector (incoming_part n) then
    let size_temp := pv_size (incoming_part n) in
    let '(part_vector, counter) :=
      for_range 0 size_temp (merge_one (incoming_part n) tidx) (part_vector, counter) in
    (part_vector, upd incoming_part n (with_size (incoming_part n) 0), counter)
  else (part_vector, incoming_part, counter).

Lemma merge_buffers_loop v inc counter tidx :
  merge_particles_buffers TILE_SIZE v inc counter tidx n_tiles_x offset_region
  = for_range 0 3 (merge_buffer tidx) (v, inc, counter).
Proof. reflexivity. Qed.

(** The particles of the buffers before buffer [n] that go to tile [t]. *)
Definition came (n t : Z) : Z :=
  zsum (fun m => if pv_enable_vector (incoming m)
                 then count (fun k => tile_of TILE_SIZE n_tiles_x offset_region (incoming m) k
                                      =? t) 0 (pv_size (incoming m))
                 else 0) 0 n.

Lemma came_all t : came 3 t = incoming_in TILE_SIZE n_tiles_x offset_region incoming t.
Proof. reflexivity. Qed.

Lemma came_next n t :
  0 <= n ->
  came (n + 1) t
  = came n t + (if pv_enable_vector (incoming n)
                then count (fun k => tile_of TILE_SIZE n_tiles_x offset_region (incoming n) k
                                     =? t) 0 (pv_size (incoming n))
                else 0).
Proof. intros Hn. unfold came. now rewrite zsum_succ by lia. Qed.

Lemma came_sorted n m t : 0 <= n <= m -> came n t <= came m t.
Proof.
  intros H. unfold came. rewrite (zsum_split _ 0 n m) by lia.
  match goal with |- _ <= _ + zsum ?f n m =>
    pose proof (zsum_nonneg f n m) as Hnn end.
  cbv beta in Hnn.
  match type of Hnn with ?P -> _ => assert (Hp : P) end.
  { intros j Hj. destruct (pv_enable_vector (incoming j)); [|lia].
    destruct (Z_le_gt_dec 0 (pv_size (incoming j))).
    - apply count_bounds. assumption.
    - rewrite count_empty by lia. lia. }
  specialize (Hnn Hp). lia.
Qed.

(** The slots of the ranges: settled, or waiting in the list of their
    tile from the counter of the tile on. *)
Definition settling (tidx sc counter : Z -> Z) (v : t_particle_vector F) : Prop :=
  forall t k, 0 <= t < n_tiles_x * n_tiles_y -> off t <= k < off (t + 1) ->
    settled v t k \/
    exists i, counter t <= i < sc t + incoming_in TILE_SIZE n_tiles_x offset_region incoming t
              /\ tidx i = k.

Lemma merge_one_step (tidx sc counter : Z -> Z) (v : t_particle_vector F) n j :
  listed tidx -> counted top sc ->
  0 <= n < 3 -> pv_enable_vector (incoming n) = true -> 0 <= j < pv_size (incoming n) ->
  settling tidx sc counter v ->
  (forall t, 0 <= t < n_tiles_x * n_tiles_y ->
     counter t = sc t + came n t
                 + count (fun k => tile_of TILE_SIZE n_tiles_x offset_region (incoming n) k
                                   =? t) 0 j) ->
  let r := merge_one (incoming n) tidx j (v, counter) in
  settling tidx sc (snd r) (fst r) /\
  (forall t, 0 <= t < n_tiles_x * n_tiles_y ->
     snd r t = sc t + came n t
               + count (fun k => tile_of TILE_SIZE n_tiles_x offset_region (incoming n) k
                                 =? t) 0 (j + 1)) /\
  pv_size (fst r) = pv_size v.
Proof.
  intros Hl Hc Hn He Hj Hset Hcnt r.
  pose proof (Hinc n j Hn He Hj) as Htt.
  set (tt := tile_of TILE_SIZE n_tiles_x offset_region (incoming n) j) in *.
  set (target := tidx (counter tt)).
  (* the entry of the list the particle takes *)
  assert (Hidx : sc tt <= counter tt
                 < sc tt + incoming_in TILE_SIZE n_tiles_x offset_region incoming tt).
  { rewrite (Hcnt tt Htt). rewrite <- came_all.
    pose proof (came_sorted (n + 1) 3 tt ltac:(lia)) as Hm.
    rewrite (came_next n tt) in Hm by lia. rewrite He in Hm.
    pose proof (count_hit (fun k => tile_of TILE_SIZE n_tiles_x offset_region (incoming n) k
                                    =? tt) 0 j (pv_size (incoming n)) Hj (Z.eqb_refl _)).
    pose proof (count_bounds (fun k => tile_of TILE_SIZE n_tiles_x offset_region (incoming n) k
                                       =? tt) 0 j ltac:(lia)).
    pose proof (came_sorted 0 n tt ltac:(lia)) as Hz. unfold came at 1 in Hz.
    rewrite zsum_empty in Hz by lia. lia. }
  destruct (counter_room sc tt Hc Htt) as [Hlo Hhi].
  destruct (listed_slot tidx tt (counter tt) Hl Htt ltac:(lia)) as (Hrange & _ & _).
  fold target in Hrange.
  assert (Hnew : particle (fst r) target = arrived (particle (incoming n) j)).
  { unfold r, merge_one, particle, arrived. cbv zeta.
    cbn [fst pv_ix pv_iy pv_x pv_y pv_ux pv_uy pv_uz pv_invalid with_ix with_iy with_x with_y
         with_ux with_uy with_uz with_invalid p_ix p_iy p_x p_y p_ux p_uy p_uz].
    fold tt. fold target. now rewrite !upd_same. }
  assert (Hold' : forall k, k <> target -> particle (fst r) k = particle v k).
  { intros k Hk. unfold r, merge_one, particle. cbv zeta.
    cbn [fst pv_ix pv_iy pv_x pv_y pv_ux pv_uy pv_uz pv_invalid with_ix with_iy with_x with_y
         with_ux with_uy with_uz with_invalid].
    fold tt. fold target. now rewrite !upd_other by assumption. }
  assert (Hctr : snd r = upd counter tt (counter tt + 1)) by reflexivity.
  split; [|split].
  - intros t k Ht Hk. destruct (Z.eq_dec k target) as [->|Hne].
    + left. assert (t = tt) as ->.
      { destruct (Z.eq_dec t tt) as [|Hd]; [assumption|]. exfalso.
        apply (sorted_disjoint off (n_tiles_x * n_tiles_y) t tt target Hoff); try lia;
          assumption. }
      exists (particle (incoming n) j). split; [|split].
      * right. exists n, j. now repeat split.
      * reflexivity.
      * exact Hnew.
    + destruct (Hset t k Ht Hk) as [(src & Ho & Et & Ep)|(i & Hi & Ei)].
      * left. exists src. rewrite Hold' by assumption. now repeat split.
      * right. exists i. split; [|assumption]. rewrite Hctr.
        destruct (Z.eq_dec t tt) as [->|Hd].
        -- rewrite upd_same. destruct (Z.eq_dec i (counter tt)) as [->|]; [|lia].
           exfalso. apply Hne. symmetry. exact Ei.
        -- rewrite upd_other by assumption. exact Hi.
  - intros t Ht. rewrite Hctr, count_succ by lia. fold tt.
    destruct (Z.eq_dec t tt) as [->|Hd].
    + rewrite upd_same, Z.eqb_refl, (Hcnt tt Htt). lia.
    + rewrite upd_other by assumption. rewrite (Hcnt t Ht).
      destruct (Z.eqb_spec tt t); [congruence | lia].
  - reflexivity.
Qed.

Lemma merge_buffer_step (tidx sc counter : Z -> Z) (v : t_particle_vector F) n :
  listed tidx -> counted top sc -> 0 <= n < 3 ->
  pv_enable_vector (incoming n) = true ->
  settling tidx sc counter v ->
  (forall t, 0 <= t < n_tiles_x * n_tiles_y -> counter t = sc t + came n t) ->
  let r := for_range 0 (pv_size (incoming n)) (merge_one (incoming n) tidx) (v, counter) in
  settling tidx sc (snd r) (fst r) /\
  (forall t, 0 <= t < n_tiles_x * n_tiles_y -> snd r t = sc t + came (n + 1) t) /\
  pv_size (fst r) = pv_size v.
Proof.
  intros Hl Hc Hn He Hset Hcnt r.
  destruct (Z_le_gt_dec 0 (pv_size (incoming n))) as [Hsz|Hsz].
  - pose (P := fun (j : Z) (st : t_particle_vector F * (Z -> Z)) =>
      settling tidx sc (snd st) (fst st) /\
      (forall t, 0 <= t < n_tiles_x * n_tiles_y ->
         snd st t = sc t + came n t
                    + count (fun k => tile_of TILE_SIZE n_tiles_x offset_region (incoming n) k
                                      =? t) 0 j) /\
      pv_size (fst st) = pv_size v).
    assert (G : P (pv_size (incoming n)) r).
    { unfold r. apply (for_range_ind P); unfold P; try assumption.
      - cbn [fst snd]. split; [assumption|]. split; [|reflexivity].
        intros t Ht. rewrite count_empty by lia. rewrite (Hcnt t Ht). lia.
      - intros j [v' c'] Hj (Hs' & Hc' & Hz'). cbn [fst snd] in *.
        destruct (merge_one_step tidx sc c' v' n j Hl Hc Hn He Hj Hs' Hc') as (G1 & G2 & G3).
        split; [exact G1|]. split; [exact G2|]. now rewrite G3. }
    unfold P in G. destruct G as (G1 & G2 & G3). split; [exact G1|]. split; [|exact G3].
    intros t Ht. rewrite (G2 t Ht), came_next, He by lia. lia.
  - unfold r. rewrite for_range_empty by lia. cbn [fst snd].
    split; [assumption|]. split; [|reflexivity].
    intros t Ht. rewrite (Hcnt t Ht), came_next, He by lia. rewrite count_empty by lia. lia.
Qed.

(** The merge: every slot of every range is settled, and the buffers that
    were merged are empty. *)
Lemma merge_spec (tidx sc : Z -> Z) (v : t_particle_vector F) :
  listed tidx -> counted top sc ->
  settling tidx sc sc v ->
  let r := merge_particles_buffers TILE_SIZE v incoming sc tidx n_tiles_x offset_region in
  (forall t k, 0 <= t < n_tiles_x * n_tiles_y -> off t <= k < off (t + 1) ->
     settled (fst (fst r)) t k) /\
  pv_size (fst (fst r)) = pv_size v /\
  (forall m, 0 <= m < 3 -> pv_enable_vector (incoming m) = true ->
     pv_size (snd (fst r) m) = 0).
Proof.
  intros Hl Hc Hset r. unfold r. rewrite merge_buffers_loop.
  pose (P := fun (n : Z)
    (st : t_particle_vector F * (Z -> t_particle_vector F) * (Z -> Z)) =>
    settling tidx sc (snd st) (fst (fst st)) /\
    (forall t, 0 <= t < n_tiles_x * n_tiles_y -> snd st t = sc t + came n t) /\
    pv_size (fst (fst st)) = pv_size v /\
    (forall m, n <= m -> snd (fst st) m = incoming m) /\
    (forall m, 0 <= m < n -> pv_enable_vector (incoming m) = true ->
       pv_size (snd (fst st) m) = 0)).
  assert (G : P 3 (for_range 0 3 (merge_buffer tidx) (v, incoming, sc))).
  { apply (for_range_ind P); unfold P.
    - lia.
    - cbn [fst snd]. split; [assumption|]. split.
      + intros t Ht. unfold came. rewrite zsum_empty by lia. lia.
      + split; [reflexivity|]. split; [reflexivity | intros; lia].
    - intros n [[v' inc'] c'] Hn (Hs' & Hc' & Hz' & Hi' & He'). cbn [fst snd] in *.
      unfold merge_buffer. rewrite (Hi' n) by lia.
      destruct (pv_enable_vector (incoming n)) eqn:Hen.
      + destruct (merge_buffer_step tidx sc c' v' n Hl Hc Hn Hen Hs' Hc') as (G1 & G2 & G3).
        destruct (for_range 0 (pv_size (incoming n)) (merge_one (incoming n) tidx) (v', c'))
          as [v2 c2].
        cbn [fst snd] in *. split; [exact G1|]. split; [exact G2|].
        split; [now rewrite G3|]. split.
        * intros m Hm. rewrite upd_other by lia. apply Hi'. lia.
        * intros m Hm Hem. destruct (Z.eq_dec m n) as [->|Hne].
          -- now rewrite upd_same.
          -- rewrite upd_other by assumption. apply He'; [lia | assumption].
      + cbn [fst snd]. split; [assumption|]. split.
        * intros t Ht. rewrite (Hc' t Ht), came_next, Hen by lia. lia.
        * split; [assumption|]. split.
          -- intros m Hm. apply Hi'. lia.
          -- intros m Hm Hem. destruct (Z.eq_dec m n) as [->|Hne]; [congruence|].
             apply He'; [lia | assumption]. }
  unfold P in G. destruct G as (G1 & G2 & G3 & _ & G5).
  split; [|split; [exact G3 | intros m Hm; apply G5; lia]].
  intros t k Ht Hk. destruct (G1 t k Ht Hk) as [Hs|(i & Hi & _)]; [exact Hs|].
  rewrite (G2 t Ht), came_all in Hi. lia.
Qed.


(* ------------------------------------------------------------------ *)
(** ** The sort, once the size is set *)

Lemma settled_valid (v : t_particle_vector F) t k :
  settled v t k ->
  pv_invalid v k = false /\ tile_of TILE_SIZE n_tiles_x offset_region v k = t.
Proof.
  intros (src & _ & Et & Ep). split.
  - change (pv_invalid v k) with (p_invalid (particle v k)). now rewrite Ep.
  - change (tile_of TILE_SIZE n_tiles_x offset_region v k) with (tile_part (particle v k)).
    rewrite Ep. exact Et.
Qed.

(** What [spec_sort_particles] does after it has set the size of the
    vector. *)
Definition sort_tail (source_idx target_idx source_counter temp_i : Z -> Z) (temp_f : Z -> F)
  : t_particle_vector F * (Z -> t_particle_vector F) :=
  let sorting_size := mv (n_tiles_x * n_tiles_y) in
  let '(source_idx, target_idx, source_counter) :=
    calculate_sorted_idx TILE_SIZE pv off source_idx target_idx source_counter
      mv n_tiles_y n_tiles_x old_size offset_region sorting_size in
  let part_vector := move_particles pv (Some source_idx) target_idx sorting_size
                       temp_i temp_f in
  let part_vector :=
    for_range 0 sorting_size (fun i part_vector =>
      if 0 <=? source_idx i
      then with_invalid part_vector (upd (pv_invalid part_vector) (target_idx i) false)
      else part_vector) part_vector in
  let '(part_vector, incoming_part, _) :=
    merge_particles_buffers TILE_SIZE part_vector incoming source_counter target_idx
      n_tiles_x offset_region in
  (part_vector, incoming_part).

Lemma sort_tail_settles (source_idx target_idx source_counter temp_i : Z -> Z)
  (temp_f : Z -> F) :
  pv_size pv = off (n_tiles_x * n_tiles_y) ->
  let r := sort_tail source_idx target_idx source_counter temp_i temp_f in
  pv_size (fst r) = off (n_tiles_x * n_tiles_y) /\
  (forall t k, 0 <= t < n_tiles_x * n_tiles_y -> off t <= k < off (t + 1) ->
     settled (fst r) t k) /\
  (forall m, 0 <= m < 3 -> pv_enable_vector (incoming m) = true -> pv_size (snd r m) = 0).
Proof.
  intros Hsize r. unfold r, sort_tail. cbv zeta.
  destruct (sorted_idx_spec source_idx target_idx source_counter Hsize) as (Hl & Hf & Hc).
  destruct (calculate_sorted_idx TILE_SIZE pv off source_idx target_idx source_counter mv
              n_tiles_y n_tiles_x old_size offset_region (mv (n_tiles_x * n_tiles_y)))
    as [[si tidx] sc].
  cbn [fst snd] in Hl, Hf, Hc.
  destruct (after_moves si tidx sc temp_i temp_f Hl Hf Hc) as [Hset Hsz].
  match type of Hset with context [settled ?v _ _] => set (pv3 := v) in * end.
  destruct (merge_spec tidx sc pv3 Hl Hc Hset) as (G1 & G2 & G3).
  destruct (merge_particles_buffers TILE_SIZE pv3 incoming sc tidx n_tiles_x offset_region)
    as [[pv4 inc] c].
  cbn [fst snd] in *. split; [|split; assumption].
  rewrite G2, Hsz. exact Hsize.
Qed.


End SortedIdx.

(** [spec_sort_particles] puts every particle in the range of its tile.
    The call comes after [spec_histogram]: [tile_offset] holds the new
    first slot of every tile, starting at 0 and not decreasing, every
    range as long as the number of particles of the vector (slots
    [0 .. old_size - 1], not marked invalid) and of the incoming buffers
    that belong in the tile; the slots from [old_size] on are marked
    invalid; [mv_part_offset[t]] is the number of slots, in the ranges
    of the tiles before [t], that hold no particle of their tile; and every
    particle has its tile among the tiles of the region.  Then the vector
    ends with the size [tile_offset[n_tiles]], every slot of the range of
    tile [t] is marked valid and holds a particle of tile [t], which is
    either one of the particles the vector held, not marked invalid, or
    one of the particles of an incoming buffer; and the incoming buffers
    that are enabled end with size 0.  The contents of the arrays the
    function allocates do not matter. *)
Theorem sort_particles_by_tile {F : Type}
  (TILE_SIZE n_tiles_x n_tiles_y offset_region old_size : Z)
  (pv : t_particle_vector F) (incoming : Z -> t_particle_vector F)
  (off mv source_idx target_idx source_counter temp_i : Z -> Z) (temp_f : Z -> F) :
  let n := n_tiles_x * n_tiles_y in
  1 <= n_tiles_x -> 0 <= n_tiles_y -> 0 <= old_size ->
  off 0 = 0 -> sorted_offsets off n ->
  (forall t, 0 <= t < n ->
     off (t + 1) - off t
     = count (belongs TILE_SIZE n_tiles_x offset_region pv t) 0 old_size
       + incoming_in TILE_SIZE n_tiles_x offset_region incoming t) ->
  (forall k, old_size <= k < off n -> pv_invalid pv k = true) ->
  (forall t, 0 <= t <= n ->
     mv t = zsum (fun u => count (hole_of TILE_SIZE n_tiles_x offset_region pv u)
                             (off u) (off (u + 1))) 0 t) ->
  (forall k, 0 <= k < Z.max (off n) old_size -> pv_invalid pv k = false ->
     0 <= tile_of TILE_SIZE n_tiles_x offset_region pv k < n) ->
  (forall m j, 0 <= m < 3 -> pv_enable_vector (incoming m) = true ->
     0 <= j < pv_size (incoming m) ->
     0 <= tile_of TILE_SIZE n_tiles_x offset_region (incoming m) j < n) ->
  let r := spec_sort_particles TILE_SIZE pv incoming off mv n_tiles_x n_tiles_y
             offset_region old_size source_idx target_idx source_counter temp_i temp_f in
  pv_size (fst r) = off n /\
  (forall t k, 0 <= t < n -> off t <= k < off (t + 1) ->
     pv_invalid (fst r) k = false /\
     tile_of TILE_SIZE n_tiles_x offset_region (fst r) k = t /\
     ((exists s, 0 <= s < old_size /\ pv_invalid pv s = false /\
                 particle (fst r) k = particle pv s) \/
      (exists m j, 0 <= m < 3 /\ pv_enable_vector (incoming m) = true /\
                   0 <= j < pv_size (incoming m) /\
                   particle (fst r) k = arrived (particle (incoming m) j)))) /\
  (forall m, 0 <= m < 3 -> pv_enable_vector (incoming m) = true -> pv_size (snd r m) = 0).
Proof.
  intros n Hntx Hnty Hold Hoff0 Hoff Hexact Hmark Hmv Htgt Hinc r.
  pose proof (sort_tail_settles TILE_SIZE n_tiles_x n_tiles_y offset_region old_size
                (with_size pv (off n)) off mv Hntx Hnty Hoff Hmv Hoff0 incoming Hold Hmark
                Hexact Htgt Hinc source_idx target_idx source_counter temp_i temp_f eq_refl)
    as H.
  cbv zeta in H.
  change (sort_tail TILE_SIZE n_tiles_x n_tiles_y offset_region old_size
            (with_size pv (off n)) off mv incoming source_idx target_idx source_counter
            temp_i temp_f) with r in H.
  destruct H as (G1 & G2 & G3). split; [exact G1|]. split; [|exact G3].
  intros t k Ht Hk. specialize (G2 t k Ht Hk).
  destruct (settled_valid _ _ _ _ _ _ _ _ _ G2) as [Hv Et].
  split; [exact Hv|]. split; [exact Et|].
  destruct G2 as (src & Ho & _ & Ep).
  destruct Ho as [(s & Hs & Hvs & ->)|(m & j & Hm & He & Hj & ->)].
  - left. exists s. split; [exact Hs|]. split; [exact Hvs|].
    rewrite Ep. exact (arrived_valid (with_size pv (off n)) s Hvs).
  - right. exists m, j. now repeat split.
Qed.

(** Two tiles of two cells: the first particle is in the range of tile 0
    and belongs in tile 1, the third the other way round, and one particle
    comes in. *)
Definition pv_sorting : t_particle_vector Z :=
  mk_part_vector (of_list [2; 0; 1]) (of_list [0; 1; 0]) (of_list [10; 11; 12])
    (fun _ => 0) (fun _ => 0) (fun _ => 0) (fun _ => 0) (fun k => k =? 3) 3 8 true.

Definition pv_coming : t_particle_vector Z :=
  mk_part_vector (of_list [3]) (of_list [1]) (of_list [13])
    (fun _ => 0) (fun _ => 0) (fun _ => 0) (fun _ => 0) (fun _ => false) 1 8 true.

Definition incoming_sorting : Z -> t_particle_vector Z :=
  fun m => if m =? 0 then pv_coming else pv_empty.

Lemma sort_particles_by_tile_witness :
  let r := spec_sort_particles 2 pv_sorting incoming_sorting (of_list [0; 2; 4])
             (of_list [0; 1; 3]) 2 1 0 3 (fun _ => 7) (fun _ => 7) (fun _ => 7)
             (fun _ => 7) (fun _ => 7) in
  pv_size (fst r) = 4.
Proof.
  refine (proj1 (sort_particles_by_tile 2 2 1 0 3 pv_sorting incoming_sorting
                   (of_list [0; 2; 4]) (of_list [0; 1; 3]) (fun _ => 7) (fun _ => 7)
                   (fun _ => 7) (fun _ => 7) (fun _ => 7)
                   ltac:(lia) ltac:(lia) ltac:(lia) eq_refl _ _ _ _ _ _)).
  - intros t t' Ht Ht'.
    assert (E : t = 0 \/ t = 1 \/ t = 2) by lia.
    assert (E' : t' = 0 \/ t' = 1 \/ t' = 2) by lia.
    destruct E as [-> | [-> | ->]], E' as [-> | [-> | ->]]; vm_compute; try lia;
      discriminate.
  - intros t Ht. assert (E : t = 0 \/ t = 1) by lia.
    destruct E as [-> | ->]; vm_compute; reflexivity.
  - intros k Hk. change (of_list [0; 2; 4] (2 * 1)) with 4 in Hk.
    assert (k = 3) as -> by lia. reflexivity.
  - intros t Ht. assert (E : t = 0 \/ t = 1 \/ t = 2) by lia.
    destruct E as [-> | [-> | ->]]; vm_compute; reflexivity.
  - intros k Hk. change (Z.max (of_list [0; 2; 4] (2 * 1)) 3) with 4 in Hk.
    assert (E : k = 0 \/ k = 1 \/ k = 2 \/ k = 3) by lia.
    destruct E as [-> | [-> | [-> | ->]]]; vm_compute; intros Hv;
      first [discriminate Hv | split; [discriminate | reflexivity]].
  - intros m j Hm He Hj. assert (E : m = 0 \/ m = 1 \/ m = 2) by lia.
    destruct E as [-> | [-> | ->]].
    + change (pv_size (incoming_sorting 0)) with 1 in Hj.
      assert (j = 0) as -> by lia. vm_compute. split; [discriminate | reflexivity].
    + change (pv_size (incoming_sorting 1)) with 0 in Hj. lia.
    + change (pv_size (incoming_sorting 2)) with 0 in Hj. lia.
Defined.
